(** * DPLL solver variants and the Sudoku CNF encoder

    A shallow embedding of [dpll_variants.py] (the four solver classes and
    the factory [get_solver]), of [encoder.py] (the class [SATSolver],
    [to_cnf] and the helper [remove_index]) and of the task generation of
    [experiment_runner.py] ([get_timeout_for_size] and
    [generate_experiment_tasks]), followed by the properties established
    about them.

    Conventions of the embedding.
    - A literal is a [Z]; a clause is a [list Z]; a CNF is a list of clauses.
    - An assignment ([Dict[int, bool]]) is a [gmap Z bool]: the solvers only
      look keys up, insert keys, copy the dictionary and take its length,
      none of which observes the insertion order.
    - The dictionaries the code iterates over ([lit_count],
      [var_occurrences]) are association lists in insertion order, which is
      the order Python iterates them in.
    - A set is a duplicate-free list; the order in which Python enumerates
      a set is a parameter, [iter_order], of which the properties assume at
      most that it enumerates the elements of the set ([enumerates]).
    - The watched-literals solver stores and reinstalls dictionary objects,
      so its dictionaries live in a heap and its [assignment] attribute is
      a location; the other solvers never share a dictionary they write to.
    - Every method is a computation in the monad [M self], which threads the
      object ([self]) and ends in [Done], in [Raise] (a Python exception) or
      in [OutOfFuel].  Recursive calls and [while] loops consume one unit of
      fuel per call or iteration, so a run that ends in [OutOfFuel] stands
      for a run that does not return within that recursion/iteration
      budget. *)

From Stdlib Require Import ZArith List Bool String Lia.
From stdpp Require Import base option list gmap.
Import ListNotations.

Open Scope Z_scope.

(** ** Python outcomes and the state monad of a method call *)

Inductive exn : Type :=
| IndexError
| ValueError.

Inductive outcome (A : Type) : Type :=
| Done (a : A)
| Raise (e : exn)
| OutOfFuel.

Arguments Done {A} a.
Arguments Raise {A} e.
Arguments OutOfFuel {A}.

Definition M (S A : Type) : Type := S -> outcome (A * S).

Definition ret {S A : Type} (a : A) : M S A := fun s => Done (a, s).

Definition bind {S A B : Type} (c : M S A) (k : A -> M S B) : M S B :=
  fun s =>
    match c s with
    | Done (a, s') => k a s'
    | Raise e => Raise e
    | OutOfFuel => OutOfFuel
    end.

Definition get {S : Type} : M S S := fun s => Done (s, s).
Definition put {S : Type} (s : S) : M S unit := fun _ => Done (tt, s).
Definition modify {S : Type} (f : S -> S) : M S unit := fun s => Done (tt, f s).
Definition raise {S A : Type} (e : exn) : M S A := fun _ => Raise e.
Definition out_of_fuel {S A : Type} : M S A := fun _ => OutOfFuel.

Declare Scope py_scope.
Delimit Scope py_scope with py.
Notation "'let*' x ':=' c 'in' k" := (bind c (fun x => k))
  (at level 10, x pattern, c at level 100, k at level 200) : py_scope.
Notation "c ;; k" := (bind c (fun _ => k))
  (at level 100, k at level 200, right associativity) : py_scope.

(** A computation indexed by its fuel [returns] a value when some fuel
    budget lets it run to completion with that value. *)
Definition returns {A : Type} (c : nat -> outcome A) (a : A) : Prop :=
  exists fuel : nat, c fuel = Done a.

(** ** Python built-ins used by the sources *)

(** [range(lo, hi)] *)
Definition range (lo hi : Z) : list Z :=
  map (fun i : nat => lo + Z.of_nat i) (seq 0 (Z.to_nat (hi - lo))).

(** [x in l] for a list (or a set) of integers *)
Definition mem (x : Z) (l : list Z) : bool := existsb (Z.eqb x) l.

(** [i in l] for a list of indices *)
Definition mem_nat (i : nat) (l : list nat) : bool := existsb (Nat.eqb i) l.

(** [enumerate(l)] *)
Definition enumerate {A : Type} (l : list A) : list (nat * A) :=
  combine (seq 0 (length l)) l.

(** [min(x :: rest)] *)
Definition minimum (x : Z) (rest : list Z) : Z := fold_left Z.min rest x.

(** [d[k] += 1] on a [defaultdict(int)] kept in insertion order *)
Fixpoint count_incr (k : Z) (d : list (Z * nat)) : list (Z * nat) :=
  match d with
  | [] => [(k, 1%nat)]
  | (k', n) :: rest =>
      if k' =? k then (k', S n) :: rest else (k', n) :: count_incr k rest
  end.

(** [max(d.keys(), key=lambda k: d[k])]: the first key, in iteration order,
    whose count is maximal; [None] stands for the empty dictionary, which
    both callers test for before they call [max]. *)
Fixpoint max_key_from (best : Z) (best_n : nat) (d : list (Z * nat)) : Z :=
  match d with
  | [] => best
  | (k, n) :: rest =>
      if (best_n <? n)%nat then max_key_from k n rest
      else max_key_from best best_n rest
  end.

Definition max_key (d : list (Z * nat)) : option Z :=
  match d with
  | [] => None
  | (k, n) :: rest => Some (max_key_from k n rest)
  end.

(** The loop that serialises an assignment into a model: position [var]
    holds [var] when the assignment maps it to [True], and [-var] when it
    maps it to [False] or does not hold it.  The two spellings of the
    source, [var in a and a[var]] and [a.get(var, False)], agree. *)
Definition model_of (num_vars : Z) (a : gmap Z bool) : list Z :=
  map (fun var => match a !! var with
                  | Some true => var
                  | _ => - var
                  end)
      (range 1 (num_vars + 1)).

(** Python sets of integers, as duplicate-free lists in insertion order.
    The order in which Python iterates over a set is not the insertion
    order and is not specified; wherever the sources iterate over a set or
    turn one into a list, the embedding applies a separate enumeration
    function (the parameter [iter_order] below) to the set.  The embedding
    takes the order as a function of the set; in CPython it also depends on
    the history of the hash table (the resizes behind [set(a) | set(b)]).
    The properties are therefore stated for every enumeration function,
    and none concludes anything that depends on the order in which a set
    is enumerated. *)
Definition set_add (x : Z) (s : list Z) : list Z :=
  if mem x s then s else s ++ [x].

Definition set_of (l : list Z) : list Z :=
  fold_left (fun s x => set_add x s) l [].

Definition set_union (s1 s2 : list Z) : list Z :=
  fold_left (fun s x => set_add x s) s2 s1.

Definition set_discard (x : Z) (s : list Z) : list Z :=
  List.filter (fun y => negb (y =? x)) s.

Definition issubset (s1 s2 : list Z) : bool :=
  forallb (fun x => mem x s2) s1.

(** What is assumed of the order in which Python enumerates a set: the
    enumeration holds the elements of the set and nothing else. *)
Definition enumerates (iter_order : list Z -> list Z) : Prop :=
  forall s x, In x (iter_order s) <-> In x s.

(** One such enumeration: insertion order *)
Definition insertion_order (s : list Z) : list Z := s.

(** A method call on another object: the callee runs on its own state, and
    its outcome is handed to the caller together with the callee's final
    state. *)
Definition call {S S' A : Type} (c : M S' A) (callee : S') : M S (A * S') :=
  fun s =>
    match c callee with
    | Done r => Done (r, s)
    | Raise e => Raise e
    | OutOfFuel => OutOfFuel
    end.

(** ** SolverMetrics *)

Record SolverMetrics : Type := mkMetrics {
  decisions : nat;
  backtracks : nat;
  unit_propagations : nat;
  conflicts : nat
}.

Definition reset (_ : SolverMetrics) : SolverMetrics := mkMetrics 0 0 0 0.

Definition incr_decisions (m : SolverMetrics) : SolverMetrics :=
  mkMetrics (S (decisions m)) (backtracks m) (unit_propagations m) (conflicts m).
Definition incr_backtracks (m : SolverMetrics) : SolverMetrics :=
  mkMetrics (decisions m) (S (backtracks m)) (unit_propagations m) (conflicts m).
Definition incr_unit_propagations (m : SolverMetrics) : SolverMetrics :=
  mkMetrics (decisions m) (backtracks m) (S (unit_propagations m)) (conflicts m).
Definition incr_conflicts (m : SolverMetrics) : SolverMetrics :=
  mkMetrics (decisions m) (backtracks m) (unit_propagations m) (S (conflicts m)).

(** ** BaseDPLL *)

Module BaseDPLL.

Record t : Type := mk {
  num_vars : Z;
  clauses : list (list Z);
  metrics : SolverMetrics;
  assignment : gmap Z bool
}.

Definition __init__ (clauses : list (list Z)) (num_vars : Z) : t :=
  mk num_vars clauses (mkMetrics 0 0 0 0) ∅.

Definition set_metrics (f : SolverMetrics -> SolverMetrics) : M t unit :=
  modify (fun self => mk (num_vars self) (clauses self) (f (metrics self))
                         (assignment self)).

Definition set_assignment (a : gmap Z bool) : M t unit :=
  modify (fun self => mk (num_vars self) (clauses self) (metrics self) a).

(** [_assign_literal]: drop the clauses that hold [lit], strike [-lit]
    from the others. *)
Definition _assign_literal (clauses : list (list Z)) (lit : Z)
  : list (list Z) :=
  map (fun clause => List.filter (fun l => negb (l =? - lit)) clause)
      (List.filter (fun clause => negb (mem lit clause)) clauses).

(** [_find_pure_literal].  The two sets are kept as lists: only membership
    and [min] are asked of them. *)
Definition _find_pure_literal (clauses : list (list Z)) : option Z :=
  let lits := concat clauses in
  let positive := List.filter (fun lit => 0 <? lit) lits in
  let negative := map Z.opp (List.filter (fun lit => negb (0 <? lit)) lits) in
  match List.filter (fun v => negb (mem v negative)) positive with
  | x :: rest => Some (minimum x rest)
  | [] =>
      match List.filter (fun v => negb (mem v positive)) negative with
      | x :: rest => Some (- minimum x rest)
      | [] => None
      end
  end.

(** [_choose_variable] (DLIS over literals) *)
Definition _choose_variable (clauses : list (list Z)) : Z :=
  let lit_count := fold_left (fun d lit => count_incr lit d)
                             (concat clauses) [] in
  match max_key lit_count with
  | None => 1
  | Some best_lit => Z.abs best_lit
  end.

(** The [for unit_clause in unit_clauses] loop of [_unit_propagate].  The
    loop either leaves the function ([inl]: [return None, assignment]) or
    runs to its end ([inr]) with the current clauses, assignment and
    [changed] flag. *)
Fixpoint _unit_propagate_for (unit_clauses : list (list Z))
    (clauses : list (list Z)) (assignment : gmap Z bool) (changed : bool)
  : M t (gmap Z bool + list (list Z) * gmap Z bool * bool) :=
  match unit_clauses with
  | [] => ret (inr (clauses, assignment, changed))
  | unit_clause :: rest =>
      let lit := hd 0 unit_clause in
      let var := Z.abs lit in
      let value := 0 <? lit in
      match assignment !! var with
      | Some b =>
          if negb (eqb b value) then ret (inl assignment)
          else _unit_propagate_for rest clauses assignment changed
      | None =>
          let assignment := <[var := value]> assignment in
          let clauses := _assign_literal clauses lit in
          (set_metrics incr_unit_propagations ;;
           if existsb (fun c => (length c =? 0)%nat) clauses
           then ret (inl assignment)
           else _unit_propagate_for rest clauses assignment true)%py
      end
  end.

(** [_unit_propagate]: the [while changed] loop, one unit of fuel per
    iteration.  The result is [(None, assignment)] on a conflict. *)
Fixpoint _unit_propagate (fuel : nat) (clauses : list (list Z))
    (assignment : gmap Z bool)
  : M t (option (list (list Z)) * gmap Z bool) :=
  match fuel with
  | O => out_of_fuel
  | S fuel =>
      let unit_clauses :=
        List.filter (fun c => (length c =? 1)%nat) clauses in
      match unit_clauses with
      | [] => ret (Some clauses, assignment)
      | _ :: _ =>
          (let* r := _unit_propagate_for unit_clauses clauses assignment false in
           match r with
           | inl assignment => ret (None, assignment)
           | inr (clauses, assignment, changed) =>
               if changed then _unit_propagate fuel clauses assignment
               else ret (Some clauses, assignment)
           end)%py
      end
  end.

(** [if pure_lit:] holds for an integer other than [0] *)
Definition truthy (o : option Z) : option Z :=
  match o with
  | Some l => if l =? 0 then None else Some l
  | None => None
  end.

(** [_dpll], one unit of fuel per call *)
Fixpoint _dpll (fuel : nat) (clauses : list (list Z))
    (assignment : gmap Z bool) : M t bool :=
  match fuel with
  | O => out_of_fuel
  | S fuel =>
      (let* r := _unit_propagate fuel clauses assignment in
       match r with
       | (None, _) => set_metrics incr_conflicts ;; ret false
       | (Some [], assignment) => set_assignment assignment ;; ret true
       | (Some clauses, assignment) =>
           match truthy (_find_pure_literal clauses) with
           | Some pure_lit =>
               _dpll fuel (_assign_literal clauses pure_lit)
                     (<[Z.abs pure_lit := 0 <? pure_lit]> assignment)
           | None =>
               let var := _choose_variable clauses in
               set_metrics incr_decisions ;;
               let* ok := _dpll fuel (_assign_literal clauses var)
                           (<[var := true]> assignment) in
               if ok : bool then ret true
               else
                 set_metrics incr_backtracks ;;
                 _dpll fuel (_assign_literal clauses (- var))
                       (<[var := false]> assignment)
           end
       end)%py
  end.

(** [solve] *)
Definition solve (fuel : nat) : M t (string * option (list Z)) :=
  (set_metrics reset ;;
   let* self := get in
   let* result := _dpll fuel (clauses self) (assignment self) in
   if result : bool then
     let* self := get in
     ret ("SAT"%string, Some (model_of (num_vars self) (assignment self)))
   else ret ("UNSAT"%string, None))%py.

End BaseDPLL.

(** ** WatchedLiteralsDPLL *)

Module WatchedLiteralsDPLL.

(** The object.  Its [assignment] attribute is a reference to a
    dictionary object: [_restore_state] stores the saved dictionary itself
    in the attribute, and later writes through the attribute change that
    dictionary, so dictionaries live in a heap and the attribute holds a
    location. *)
Record t : Type := mk {
  num_vars : Z;
  original_clauses : list (list Z);
  metrics : SolverMetrics;
  clauses : list (list Z);
  watches : list (Z * list nat);
  assignment : nat
}.

Record state : Type := mkState {
  heap : list (gmap Z bool);
  self : t
}.

(** The state dictionary [{'assignment': ...}] of [_save_state] *)
Record saved_state : Type := mkSaved { saved_assignment : nat }.

(** [self.watches[lit].append(clause_idx)] on a [defaultdict(list)] *)
Fixpoint watch_append (lit : Z) (clause_idx : nat)
    (w : list (Z * list nat)) : list (Z * list nat) :=
  match w with
  | [] => [(lit, [clause_idx])]
  | (l, idxs) :: rest =>
      if l =? lit then (l, idxs ++ [clause_idx]) :: rest
      else (l, idxs) :: watch_append lit clause_idx rest
  end.

(** [self.watches[lit]]: the empty list for a literal nobody watches *)
Fixpoint watch_get (lit : Z) (w : list (Z * list nat)) : list nat :=
  match w with
  | [] => []
  | (l, idxs) :: rest => if l =? lit then idxs else watch_get lit rest
  end.

(** [_initialize_watches]: the loop over [original_clauses], on the pair
    ([self.clauses], [self.watches]) *)
Fixpoint _initialize_watches (original_clauses : list (list Z))
    (clauses : list (list Z)) (watches : list (Z * list nat))
  : list (list Z) * list (Z * list nat) :=
  match original_clauses with
  | [] => (clauses, watches)
  | clause :: rest =>
      let clause_idx := length clauses in
      let clauses := clauses ++ [clause] in
      let watches :=
        match clause with
        | l0 :: _ => watch_append l0 clause_idx watches
        | [] => watches
        end in
      let watches :=
        match clause with
        | _ :: l1 :: _ => watch_append l1 clause_idx watches
        | _ => watches
        end in
      _initialize_watches rest clauses watches
  end.

(** [__init__]: the fresh dictionary [{}] is the only object of the heap *)
Definition __init__ (clauses : list (list Z)) (num_vars : Z) : state :=
  let '(cls, ws) := _initialize_watches clauses [] [] in
  mkState [∅] (mk num_vars clauses (mkMetrics 0 0 0 0) cls ws 0%nat).

Definition set_metrics (f : SolverMetrics -> SolverMetrics) : M state unit :=
  modify (fun st =>
    let s := self st in
    mkState (heap st)
      (mk (num_vars s) (original_clauses s) (f (metrics s)) (clauses s)
          (watches s) (assignment s))).

(** The dictionary [self.assignment] refers to *)
Definition current (st : state) : gmap Z bool :=
  default ∅ (heap st !! assignment (self st)).

Definition read_assignment : M state (gmap Z bool) :=
  fun st => Done (current st, st).

(** [self.assignment[var] = value]: a write into the dictionary the
    attribute refers to *)
Definition write_assignment (var : Z) (value : bool) : M state unit :=
  modify (fun st =>
    mkState (alter (insert var value) (assignment (self st)) (heap st))
            (self st)).

(** [self.clauses[clause_idx]] *)
Definition clause_at (clause_idx : nat) : M state (list Z) :=
  fun st =>
    match clauses (self st) !! clause_idx with
    | Some clause => Done (clause, st)
    | None => Raise IndexError
    end.

(** The loop of [_is_unit_clause] *)
Fixpoint is_unit_loop (a : gmap Z bool) (clause : list Z)
    (unassigned : list Z) : bool :=
  match clause with
  | [] => (length unassigned =? 1)%nat
  | lit :: rest =>
      match a !! Z.abs lit with
      | None => is_unit_loop a rest (unassigned ++ [lit])
      | Some b =>
          if eqb b (0 <? lit) then false
          else is_unit_loop a rest unassigned
      end
  end.

Definition _is_unit_clause (clause_idx : nat) : M state bool :=
  (let* clause := clause_at clause_idx in
   let* a := read_assignment in
   ret (is_unit_loop a clause []))%py.

(** The loop of [_is_conflicting] *)
Fixpoint is_conflicting_loop (a : gmap Z bool) (clause : list Z) : bool :=
  match clause with
  | [] => true
  | lit :: rest =>
      match a !! Z.abs lit with
      | None => false
      | Some b =>
          if eqb b (0 <? lit) then false else is_conflicting_loop a rest
      end
  end.

Definition _is_conflicting (clause_idx : nat) : M state bool :=
  (let* clause := clause_at clause_idx in
   let* a := read_assignment in
   ret (is_conflicting_loop a clause))%py.

(** [_get_unit_literal]: the first literal whose variable is unassigned *)
Fixpoint get_unit_literal_loop (a : gmap Z bool) (clause : list Z)
  : option Z :=
  match clause with
  | [] => None
  | lit :: rest =>
      match a !! Z.abs lit with
      | None => Some lit
      | Some _ => get_unit_literal_loop a rest
      end
  end.

Definition _get_unit_literal (clause : list Z) : M state (option Z) :=
  (let* a := read_assignment in
   ret (get_unit_literal_loop a clause))%py.

(** The first loop of [_unit_propagate]: the unit clauses, in index order *)
Fixpoint initial_units (idxs : list nat) (queue : list nat)
  : M state (list nat) :=
  match idxs with
  | [] => ret queue
  | clause_idx :: rest =>
      (let* u := _is_unit_clause clause_idx in
       initial_units rest (if u : bool then queue ++ [clause_idx] else queue))%py
  end.

(** The loop over [self.watches[falsified_lit][:]]; [None] stands for
    [return False]. *)
Fixpoint recheck_watchers (watching : list nat) (queue : list nat)
  : M state (option (list nat)) :=
  match watching with
  | [] => ret (Some queue)
  | watched_clause_idx :: rest =>
      (let* u := _is_unit_clause watched_clause_idx in
       if u : bool then recheck_watchers rest (queue ++ [watched_clause_idx])
       else
         let* c := _is_conflicting watched_clause_idx in
         if c : bool then ret None
         else recheck_watchers rest queue)%py
  end.

(** The [while queue] loop of [_unit_propagate], one unit of fuel per
    iteration *)
Fixpoint propagate_queue (fuel : nat) (queue : list nat) : M state bool :=
  match fuel with
  | O => out_of_fuel
  | S fuel =>
      match queue with
      | [] => ret true
      | clause_idx :: queue =>
          (let* clause := clause_at clause_idx in
           let* unit_lit := _get_unit_literal clause in
           match unit_lit with
           | None => propagate_queue fuel queue
           | Some unit_lit =>
               let var := Z.abs unit_lit in
               let value := 0 <? unit_lit in
               let* a := read_assignment in
               match a !! var with
               | Some b =>
                   if negb (eqb b value) then ret false
                   else propagate_queue fuel queue
               | None =>
                   write_assignment var value ;;
                   set_metrics incr_unit_propagations ;;
                   let falsified_lit := - unit_lit in
                   let* st := get in
                   let* q := recheck_watchers
                               (watch_get falsified_lit (watches (self st)))
                               queue in
                   match q with
                   | None => ret false
                   | Some queue => propagate_queue fuel queue
                   end
               end
           end)%py
      end
  end.

Definition _unit_propagate (fuel : nat) : M state bool :=
  (let* st := get in
   let* queue := initial_units (seq 0 (length (clauses (self st)))) [] in
   propagate_queue fuel queue)%py.

(** [_choose_variable]: DLIS over the unassigned variables of the clauses
    that are not satisfied *)
Definition is_satisfied (a : gmap Z bool) (clause : list Z) : bool :=
  existsb (fun lit => match a !! Z.abs lit with
                      | Some b => eqb b (0 <? lit)
                      | None => false
                      end) clause.

Definition _choose_variable : M state (option Z) :=
  (let* st := get in
   let* a := read_assignment in
   let lit_count :=
     fold_left
       (fun d clause =>
          if is_satisfied a clause then d
          else fold_left
                 (fun d lit =>
                    match a !! Z.abs lit with
                    | None => count_incr (Z.abs lit) d
                    | Some _ => d
                    end) clause d)
       (clauses (self st)) [] in
   ret (max_key lit_count))%py.

(** [_save_state]: a copy of the current dictionary, as a new object *)
Definition _save_state : M state saved_state :=
  fun st =>
    Done (mkSaved (length (heap st)),
          mkState (heap st ++ [current st]) (self st)).

(** [_restore_state]: the attribute now refers to the saved dictionary
    itself (no copy is taken) *)
Definition _restore_state (saved : saved_state) : M state unit :=
  modify (fun st =>
    let s := self st in
    mkState (heap st)
      (mk (num_vars s) (original_clauses s) (metrics s) (clauses s)
          (watches s) (saved_assignment saved))).

(** [_dpll], one unit of fuel per call *)
Fixpoint _dpll (fuel : nat) : M state bool :=
  match fuel with
  | O => out_of_fuel
  | S fuel =>
      (let* ok := _unit_propagate fuel in
       if negb ok then set_metrics incr_conflicts ;; ret false
       else
         let* st := get in
         let* a := read_assignment in
         if Z.of_nat (size a) =? num_vars (self st) then ret true
         else
           let* choice := _choose_variable in
           match choice with
           | None => ret true
           | Some var =>
               set_metrics incr_decisions ;;
               let* saved := _save_state in
               write_assignment var true ;;
               let* r := _dpll fuel in
               if r : bool then ret true
               else
                 _restore_state saved ;;
                 set_metrics incr_backtracks ;;
                 write_assignment var false ;;
                 let* r := _dpll fuel in
                 if r : bool then ret true
                 else
                   _restore_state saved ;;
                   ret false
           end)%py
  end.

(** [solve] *)
Definition solve (fuel : nat) : M state (string * option (list Z)) :=
  (set_metrics reset ;;
   let* result := _dpll fuel in
   if result : bool then
     let* st := get in
     let* a := read_assignment in
     ret ("SAT"%string, Some (model_of (num_vars (self st)) a))
   else ret ("UNSAT"%string, None))%py.

End WatchedLiteralsDPLL.

(** ** PreprocessingDPLL *)

Module PreprocessingDPLL.

Record t : Type := mk {
  num_vars : Z;
  original_clauses : list (list Z);
  metrics : SolverMetrics;
  assignment : gmap Z bool;
  vars_eliminated : nat;
  clauses_eliminated : nat
}.

Definition __init__ (clauses : list (list Z)) (num_vars : Z) : t :=
  mk num_vars clauses (mkMetrics 0 0 0 0) ∅ 0 0.

Definition set_metrics (f : SolverMetrics -> SolverMetrics) : M t unit :=
  modify (fun self =>
    mk (num_vars self) (original_clauses self) (f (metrics self))
       (assignment self) (vars_eliminated self) (clauses_eliminated self)).

Definition set_assignment (f : gmap Z bool -> gmap Z bool) : M t unit :=
  modify (fun self =>
    mk (num_vars self) (original_clauses self) (metrics self)
       (f (assignment self)) (vars_eliminated self)
       (clauses_eliminated self)).

Definition incr_vars_eliminated : M t unit :=
  modify (fun self =>
    mk (num_vars self) (original_clauses self) (metrics self)
       (assignment self) (S (vars_eliminated self))
       (clauses_eliminated self)).

Definition incr_clauses_eliminated : M t unit :=
  modify (fun self =>
    mk (num_vars self) (original_clauses self) (metrics self)
       (assignment self) (vars_eliminated self)
       (S (clauses_eliminated self))).

(** The clause-simplification loop inside [_exhaustive_unit_propagation];
    [None] stands for [return None, assignment] (an empty clause). *)
Fixpoint simplify (clauses : list (list Z)) (lit : Z)
    (new_clauses : list (list Z)) : option (list (list Z)) :=
  match clauses with
  | [] => Some new_clauses
  | clause :: rest =>
      if mem lit clause then simplify rest lit new_clauses
      else
        let new_clause := List.filter (fun l => negb (l =? - lit)) clause in
        if (length new_clause =? 0)%nat then None
        else simplify rest lit (new_clauses ++ [new_clause])
  end.

(** The [for unit_clause in unit_clauses] loop of
    [_exhaustive_unit_propagation]; [inl]: [return None, assignment]. *)
Fixpoint _exhaustive_unit_propagation_for (unit_clauses : list (list Z))
    (clauses : list (list Z)) (assignment : gmap Z bool) (changed : bool)
  : M t (gmap Z bool + list (list Z) * gmap Z bool * bool) :=
  match unit_clauses with
  | [] => ret (inr (clauses, assignment, changed))
  | unit_clause :: rest =>
      let lit := hd 0 unit_clause in
      let var := Z.abs lit in
      let value := 0 <? lit in
      match assignment !! var with
      | Some b =>
          if negb (eqb b value) then ret (inl assignment)
          else _exhaustive_unit_propagation_for rest clauses assignment
                 changed
      | None =>
          let assignment := <[var := value]> assignment in
          (set_metrics incr_unit_propagations ;;
           match simplify clauses lit [] with
           | None => ret (inl assignment)
           | Some clauses =>
               _exhaustive_unit_propagation_for rest clauses assignment true
           end)%py
      end
  end.

(** The [while changed] loop, from the given local [assignment] *)
Fixpoint _exhaustive_unit_propagation_while (fuel : nat)
    (clauses : list (list Z)) (assignment : gmap Z bool)
  : M t (option (list (list Z)) * gmap Z bool) :=
  match fuel with
  | O => out_of_fuel
  | S fuel =>
      let unit_clauses :=
        List.filter (fun c => (length c =? 1)%nat) clauses in
      match unit_clauses with
      | [] => ret (Some clauses, assignment)
      | _ :: _ =>
          (let* r := _exhaustive_unit_propagation_for unit_clauses clauses
                       assignment false in
           match r with
           | inl assignment => ret (None, assignment)
           | inr (clauses, assignment, changed) =>
               if changed
               then _exhaustive_unit_propagation_while fuel clauses assignment
               else ret (Some clauses, assignment)
           end)%py
      end
  end.

Definition _exhaustive_unit_propagation (fuel : nat)
    (clauses : list (list Z))
  : M t (option (list (list Z)) * gmap Z bool) :=
  _exhaustive_unit_propagation_while fuel clauses ∅.

(** [_subsumption_elimination]: clause [i] is dropped when the literal set
    of a clause at another index is a subset ([issubset]) of its own. *)
Definition is_subsumed (clauses_set : list (list Z)) (i : nat)
    (c1 : list Z) : bool :=
  existsb (fun '(j, c2) => negb (i =? j)%nat && issubset c2 c1)
          (enumerate clauses_set).

Fixpoint _subsumption_elimination_for (clauses_set : list (list Z))
    (todo : list (nat * list Z)) (to_keep : list (list Z))
  : M t (list (list Z)) :=
  match todo with
  | [] => ret to_keep
  | (i, clause) :: rest =>
      if is_subsumed clauses_set i (set_of clause)
      then (incr_clauses_eliminated ;;
            _subsumption_elimination_for clauses_set rest to_keep)%py
      else _subsumption_elimination_for clauses_set rest
             (to_keep ++ [clause])
  end.

Definition _subsumption_elimination (clauses : list (list Z))
  : M t (list (list Z)) :=
  _subsumption_elimination_for (map set_of clauses) (enumerate clauses) [].

(** [var_occurrences[var]['pos'].append(i)] (or ['neg']) on the
    [defaultdict] of occurrence lists, kept in insertion order *)
Fixpoint occ_append (var : Z) (positive : bool) (i : nat)
    (d : list (Z * (list nat * list nat)))
  : list (Z * (list nat * list nat)) :=
  match d with
  | [] => [(var, if positive then ([i], []) else ([], [i]))]
  | (v, (pos, neg)) :: rest =>
      if v =? var
      then (v, if positive then (pos ++ [i], neg) else (pos, neg ++ [i]))
             :: rest
      else (v, (pos, neg)) :: occ_append var positive i rest
  end.

Definition var_occurrences_of (clauses : list (list Z))
  : list (Z * (list nat * list nat)) :=
  fold_left
    (fun d '(i, clause) =>
       fold_left (fun d lit => occ_append (Z.abs lit) (0 <? lit) i d)
                 clause d)
    (enumerate clauses) [].

(** [[clauses[i] for i in idxs]] *)
Fixpoint clauses_at (clauses : list (list Z)) (idxs : list nat)
  : M t (list (list Z)) :=
  match idxs with
  | [] => ret []
  | i :: rest =>
      match clauses !! i with
      | None => raise IndexError
      | Some c => (let* cs := clauses_at clauses rest in ret (c :: cs))%py
      end
  end.

Section WithSetOrder.

(** The order in which Python enumerates a set of integers *)
Variable iter_order : list Z -> list Z.

(** [_pure_literal_elimination] *)
Definition pure_lits_of (clauses : list (list Z)) : list Z :=
  let lits := concat clauses in
  let positive := set_of (List.filter (fun lit => 0 <? lit) lits) in
  let negative :=
    set_of (map Z.opp (List.filter (fun lit => negb (0 <? lit)) lits)) in
  List.filter (fun var => negb (mem var negative)) (iter_order positive)
  ++ map Z.opp
       (List.filter (fun var => negb (mem var positive))
                    (iter_order negative)).

Fixpoint assign_pure_lits (pure_lits : list Z) (clauses : list (list Z))
  : M t (list (list Z)) :=
  match pure_lits with
  | [] => ret clauses
  | lit :: rest =>
      (set_assignment (insert (Z.abs lit) (0 <? lit)) ;;
       assign_pure_lits rest
         (List.filter (fun c => negb (mem lit c)) clauses))%py
  end.

Definition _pure_literal_elimination (clauses : list (list Z))
  : M t (list (list Z)) :=
  assign_pure_lits (pure_lits_of clauses) clauses.

(** The resolvents appended for one eliminated variable: the two nested
    loops over [pos_clauses] and [neg_clauses].  A resolvent is kept
    when it is not empty ([if resolvent:]). *)
Definition resolvents (var : Z) (pos_clauses neg_clauses : list (list Z))
  : list (list Z) :=
  flat_map
    (fun pos_clause =>
       flat_map
         (fun neg_clause =>
            let resolvent :=
              set_discard (- var)
                (set_discard var
                   (set_union (set_of pos_clause) (set_of neg_clause))) in
            match resolvent with
            | [] => []
            | _ :: _ => [iter_order resolvent]
            end)
         neg_clauses)
    pos_clauses.

(** The loop [for var, occ in var_occurrences.items()] of
    [_bounded_variable_elimination].  The occurrence lists hold the
    indices recorded before the loop, and index the current [clauses]. *)
Fixpoint _bounded_variable_elimination_for
    (items : list (Z * (list nat * list nat)))
    (clauses : list (list Z)) (max_new_clauses : nat)
  : M t (list (list Z)) :=
  match items with
  | [] => ret clauses
  | (var, (pos, neg)) :: rest =>
      (let* pos_clauses := clauses_at clauses pos in
       let* neg_clauses := clauses_at clauses neg in
       let new_clause_count :=
         (length pos_clauses * length neg_clauses)%nat in
       if (new_clause_count <=? max_new_clauses)%nat then
         incr_vars_eliminated ;;
         let clauses :=
           map snd
             (List.filter
                (fun '(i, _) => negb (mem_nat i pos) && negb (mem_nat i neg))
                (enumerate clauses)) in
         _bounded_variable_elimination_for rest
           (clauses ++ resolvents var pos_clauses neg_clauses)
           max_new_clauses
       else
         _bounded_variable_elimination_for rest clauses max_new_clauses)%py
  end.

Definition _bounded_variable_elimination (clauses : list (list Z))
    (max_new_clauses : nat) : M t (list (list Z)) :=
  _bounded_variable_elimination_for (var_occurrences_of clauses) clauses
    max_new_clauses.

(** [_preprocess] *)
Definition _preprocess (fuel : nat) (clauses : list (list Z))
  : M t (option (list (list Z))) :=
  (let* r := _exhaustive_unit_propagation fuel clauses in
   match r with
   | (None, _) => ret None
   | (Some clauses, assignment) =>
       (* dict.update: the keys of [assignment] win *)
       set_assignment (fun a => assignment ∪ a) ;;
       let* clauses := _pure_literal_elimination clauses in
       let* clauses := _subsumption_elimination clauses in
       let* clauses := _bounded_variable_elimination clauses 10 in
       ret (Some clauses)
   end)%py.

(** [solve] *)
Definition solve (fuel : nat) : M t (string * option (list Z)) :=
  (set_metrics reset ;;
   let* self := get in
   let* clauses := _preprocess fuel (original_clauses self) in
   match clauses with
   | None => ret ("UNSAT"%string, None)
   | Some [] =>
       let* self := get in
       ret ("SAT"%string,
            Some (model_of (num_vars self) (assignment self)))
   | Some clauses =>
       let* self := get in
       let base_solver :=
         BaseDPLL.mk (num_vars self) clauses (mkMetrics 0 0 0 0)
                     (assignment self) in
       let* r := call (BaseDPLL.solve fuel) base_solver in
       let result := fst r in
       let bm := BaseDPLL.metrics (snd r) in
       set_metrics (fun m =>
         mkMetrics (decisions bm) (backtracks bm)
                   (unit_propagations m + unit_propagations bm)
                   (conflicts bm)) ;;
       ret result
   end)%py.

End WithSetOrder.

End PreprocessingDPLL.

(** ** CombinedDPLL *)

Module CombinedDPLL.

Record t : Type := mk {
  num_vars : Z;
  original_clauses : list (list Z);
  metrics : SolverMetrics;
  assignment : gmap Z bool;
  phase_cache : gmap Z bool;
  vars_eliminated : nat;
  clauses_eliminated : nat
}.

Definition __init__ (clauses : list (list Z)) (num_vars : Z) : t :=
  mk num_vars clauses (mkMetrics 0 0 0 0) ∅ ∅ 0 0.

Definition set_metrics (f : SolverMetrics -> SolverMetrics) : M t unit :=
  modify (fun self =>
    mk (num_vars self) (original_clauses self) (f (metrics self))
       (assignment self) (phase_cache self) (vars_eliminated self)
       (clauses_eliminated self)).

Section WithSetOrder.

Variable iter_order : list Z -> list Z.

(** The four statements of [solve] that copy the preprocessor's
    results into [self] *)
Definition absorb (preprocessor : PreprocessingDPLL.t) : M t unit :=
  modify (fun self =>
    let pm := PreprocessingDPLL.metrics preprocessor in
    let m := metrics self in
    mk (num_vars self) (original_clauses self)
       (mkMetrics (decisions m) (backtracks m)
                  (unit_propagations m + unit_propagations pm)
                  (conflicts m))
       (PreprocessingDPLL.assignment preprocessor ∪ assignment self)
       (phase_cache self)
       (PreprocessingDPLL.vars_eliminated preprocessor)
       (PreprocessingDPLL.clauses_eliminated preprocessor)).

(** [solve] *)
Definition solve (fuel : nat) : M t (string * option (list Z)) :=
  (set_metrics reset ;;
   let* self := get in
   let preprocessor :=
     PreprocessingDPLL.__init__ (original_clauses self) (num_vars self) in
   let* r := call (PreprocessingDPLL._preprocess iter_order fuel
                     (original_clauses self)) preprocessor in
   let clauses := fst r in
   absorb (snd r) ;;
   match clauses with
   | None => ret ("UNSAT"%string, None)
   | Some [] =>
       let* self := get in
       ret ("SAT"%string,
            Some (model_of (num_vars self) (assignment self)))
   | Some clauses =>
       let* self := get in
       (* WatchedLiteralsDPLL(clauses, num_vars), then its [assignment]
          attribute is pointed at a copy of [self.assignment] *)
       let w := WatchedLiteralsDPLL.__init__ clauses (num_vars self) in
       let ws := WatchedLiteralsDPLL.self w in
       let watched_solver :=
         WatchedLiteralsDPLL.mkState
           (WatchedLiteralsDPLL.heap w ++ [assignment self])
           (WatchedLiteralsDPLL.mk
              (WatchedLiteralsDPLL.num_vars ws)
              (WatchedLiteralsDPLL.original_clauses ws)
              (WatchedLiteralsDPLL.metrics ws)
              (WatchedLiteralsDPLL.clauses ws)
              (WatchedLiteralsDPLL.watches ws)
              (length (WatchedLiteralsDPLL.heap w))) in
       let* r := call (WatchedLiteralsDPLL.solve fuel) watched_solver in
       let result := fst r in
       let wm := WatchedLiteralsDPLL.metrics
                   (WatchedLiteralsDPLL.self (snd r)) in
       set_metrics (fun m =>
         mkMetrics (decisions wm) (backtracks wm)
                   (unit_propagations m + unit_propagations wm)
                   (conflicts wm)) ;;
       ret result
   end)%py.

End WithSetOrder.

End CombinedDPLL.

(** ** The factory [get_solver] *)

Inductive solver : Type :=
| Base (s : BaseDPLL.t)
| Watched (s : WatchedLiteralsDPLL.state)
| Preprocessing (s : PreprocessingDPLL.t)
| Combined (s : CombinedDPLL.t).

Definition get_solver (variant : string) (clauses : list (list Z))
    (num_vars : Z) : exn + solver :=
  if String.eqb variant "base" then
    inr (Base (BaseDPLL.__init__ clauses num_vars))
  else if String.eqb variant "watched" then
    inr (Watched (WatchedLiteralsDPLL.__init__ clauses num_vars))
  else if String.eqb variant "preprocessing" then
    inr (Preprocessing (PreprocessingDPLL.__init__ clauses num_vars))
  else if String.eqb variant "combined" then
    inr (Combined (CombinedDPLL.__init__ clauses num_vars))
  else inl ValueError.

(** [solver.metrics] *)
Definition metrics_of (s : solver) : SolverMetrics :=
  match s with
  | Base s => BaseDPLL.metrics s
  | Watched s => WatchedLiteralsDPLL.metrics (WatchedLiteralsDPLL.self s)
  | Preprocessing s => PreprocessingDPLL.metrics s
  | Combined s => CombinedDPLL.metrics s
  end.

Definition status_of (r : string * option (list Z)) : string := fst r.
Definition model_of_result (r : string * option (list Z))
  : option (list Z) := snd r.

Section WithSetOrder.

Variable iter_order : list Z -> list Z.

(** [solver.solve()], dispatched on the class of the object *)
Definition solve (fuel : nat) (s : solver)
  : outcome ((string * option (list Z)) * solver) :=
  match s with
  | Base s =>
      match BaseDPLL.solve fuel s with
      | Done (r, s) => Done (r, Base s)
      | Raise e => Raise e
      | OutOfFuel => OutOfFuel
      end
  | Watched s =>
      match WatchedLiteralsDPLL.solve fuel s with
      | Done (r, s) => Done (r, Watched s)
      | Raise e => Raise e
      | OutOfFuel => OutOfFuel
      end
  | Preprocessing s =>
      match PreprocessingDPLL.solve iter_order fuel s with
      | Done (r, s) => Done (r, Preprocessing s)
      | Raise e => Raise e
      | OutOfFuel => OutOfFuel
      end
  | Combined s =>
      match CombinedDPLL.solve iter_order fuel s with
      | Done (r, s) => Done (r, Combined s)
      | Raise e => Raise e
      | OutOfFuel => OutOfFuel
      end
  end.

(** One run: [s = get_solver(variant, clauses, num_vars)], then
    [s.solve()], then [s.metrics]; the observation is the status, the
    model and the four counters. *)
Definition run (variant : string) (clauses : list (list Z)) (num_vars : Z)
    (fuel : nat) : outcome (string * option (list Z) * SolverMetrics) :=
  match get_solver variant clauses num_vars with
  | inl e => Raise e
  | inr s =>
      match solve fuel s with
      | Done (r, s) => Done (r, metrics_of s)
      | Raise e => Raise e
      | OutOfFuel => OutOfFuel
      end
  end.

End WithSetOrder.

(** ** The encoder ([encoder.py]) *)

Module Encoder.

(** The dataclass [Variable] ([Variable] is a reserved word here) *)
Record Variable_ : Type := mkVariable {
  row : Z;
  col : Z;
  val : Z;
  neg : bool
}.

(** The object of class [SATSolver].  Reading the file and converting its
    tokens with [int] happen before anything modelled here: the embedding
    starts from [sudoku_grid], the list of the rows of integers of the
    non-blank lines. *)
Record SATSolver : Type := mkSATSolver {
  sudoku_grid : list (list Z);
  N : Z;
  model : list (list Variable_);
  number_of_variables : Z;
  clauses : list (list Z);
  whole_set : list Z
}.

Definition __init__ (sudoku_grid : list (list Z)) : SATSolver :=
  let N := Z.of_nat (length sudoku_grid) in
  mkSATSolver sudoku_grid N [] (N ^ 3) [] (range 1 (N + 1)).

(** [map_variable] on one [Variable_] *)
Definition map_variable (self : SATSolver) (var : Variable_) : Z :=
  let _num := row var * N self * N self + col var * N self + val var in
  if neg var then - _num else _num.

(** [map_variable] on a tuple of [Variable_]s *)
Definition map_variable_tuple (self : SATSolver) (var : list Variable_)
  : list Z :=
  map (map_variable self) var.

(** [self.sudoku_grid[i][j]] for indices that are not negative *)
Definition grid_at (i j : Z) : M SATSolver Z :=
  fun self =>
    match sudoku_grid self !! Z.to_nat i with
    | None => Raise IndexError
    | Some line =>
        match line !! Z.to_nat j with
        | None => Raise IndexError
        | Some v => Done (v, self)
        end
    end.

Definition model_append (c : list Variable_) : M SATSolver unit :=
  modify (fun self =>
    mkSATSolver (sudoku_grid self) (N self) (model self ++ [c])
                (number_of_variables self) (clauses self) (whole_set self)).

Definition set_clauses (cs : list (list Z)) : M SATSolver unit :=
  modify (fun self =>
    mkSATSolver (sudoku_grid self) (N self) (model self)
                (number_of_variables self) cs (whole_set self)).

(** A [for] loop with an accumulator *)
Fixpoint for_each {A B : Type} (l : list A) (acc : B)
    (body : A -> B -> M SATSolver B) : M SATSolver B :=
  match l with
  | [] => ret acc
  | x :: rest => (let* acc := body x acc in for_each rest acc body)%py
  end.

(** [generate_model]: the unit clauses of the clues *)
Definition generate_model : M SATSolver (list (list Variable_)) :=
  (let* self := get in
   for_each (range 0 (N self)) []
     (fun i _clauses =>
        for_each (range 0 (N self)) _clauses
          (fun j _clauses =>
             let* v := grid_at i j in
             if v =? 0 then ret _clauses
             else
               model_append [mkVariable i j v false] ;;
               ret (_clauses ++ [[mkVariable i j v false]]))))%py.

Definition generate_rule1_one_per_cell (self : SATSolver)
  : list (list Variable_) :=
  flat_map (fun i =>
    flat_map (fun j =>
      map (fun v => mkVariable i j v false) (range 1 (N self + 1))
      :: flat_map (fun v1 =>
           map (fun v2 => [mkVariable i j v1 true; mkVariable i j v2 true])
               (range (v1 + 1) (N self + 1)))
           (range 1 (N self + 1)))
      (range 0 (N self)))
    (range 0 (N self)).

Definition generate_rule2_row_constraint (self : SATSolver)
  : list (list Variable_) :=
  flat_map (fun r =>
    flat_map (fun v =>
      map (fun c => mkVariable r c v false) (range 0 (N self))
      :: flat_map (fun c1 =>
           map (fun c2 => [mkVariable r c1 v true; mkVariable r c2 v true])
               (range (c1 + 1) (N self)))
           (range 0 (N self)))
      (range 1 (N self + 1)))
    (range 0 (N self)).

Definition generate_rule3_col_constraint (self : SATSolver)
  : list (list Variable_) :=
  flat_map (fun c =>
    flat_map (fun v =>
      map (fun r => mkVariable r c v false) (range 0 (N self))
      :: flat_map (fun r1 =>
           map (fun r2 => [mkVariable r1 c v true; mkVariable r2 c v true])
               (range (r1 + 1) (N self)))
           (range 0 (N self)))
      (range 1 (N self + 1)))
    (range 0 (N self)).

(** [int(self.N ** 0.5)]: the integer square root (the floating-point
    power and the truncation agree with it for every grid size a file can
    hold). *)
Definition box_size (self : SATSolver) : Z := Z.sqrt (N self).

(** [cells[idx]] for an index the loops keep in range *)
Definition cell_at (cells : list (Z * Z)) (idx : Z) : Z * Z :=
  nth (Z.to_nat idx) cells (0, 0).

(** The list [cells] of one box: the two loops over [i] and [j] *)
Definition box_cells (n box_row box_col : Z) : list (Z * Z) :=
  flat_map (fun i =>
    map (fun j => (box_row * n + i, box_col * n + j)) (range 0 n))
    (range 0 n).

Definition generate_rule4_box_constraint (self : SATSolver)
  : list (list Variable_) :=
  let n := box_size self in
  flat_map (fun box_row =>
    flat_map (fun box_col =>
      let cells := box_cells n box_row box_col in
      flat_map (fun v =>
        map (fun rc => mkVariable (fst rc) (snd rc) v false) cells
        :: flat_map (fun idx1 =>
             map (fun idx2 =>
                    let rc1 := cell_at cells idx1 in
                    let rc2 := cell_at cells idx2 in
                    [mkVariable (fst rc1) (snd rc1) v true;
                     mkVariable (fst rc2) (snd rc2) v true])
                 (range (idx1 + 1) (Z.of_nat (length cells))))
             (range 0 (Z.of_nat (length cells))))
        (range 1 (N self + 1)))
      (range 0 n))
    (range 0 n).

(** The orthogonal neighbours of cell [(i, j)], in the order top, bottom,
    left, right *)
Definition adjacent_cells (self : SATSolver) (i j : Z) : list (Z * Z) :=
  (if 0 <? i then [(i - 1, j)] else [])
  ++ (if i <? N self - 1 then [(i + 1, j)] else [])
  ++ (if 0 <? j then [(i, j - 1)] else [])
  ++ (if j <? N self - 1 then [(i, j + 1)] else []).

Definition generate_rule5_non_consecutive (self : SATSolver)
  : list (list Variable_) :=
  flat_map (fun i =>
    flat_map (fun j =>
      flat_map (fun v =>
        flat_map (fun adj =>
          (if 1 <? v
           then [[mkVariable i j v true;
                  mkVariable (fst adj) (snd adj) (v - 1) true]]
           else [])
          ++ (if v <? N self
              then [[mkVariable i j v true;
                     mkVariable (fst adj) (snd adj) (v + 1) true]]
              else []))
          (adjacent_cells self i j))
        (range 1 (N self + 1)))
      (range 0 (N self)))
    (range 0 (N self)).

(** [encode] *)
Definition encode : M SATSolver (list (list Z) * Z) :=
  (let* model_clauses := generate_model in
   let* self := get in
   let rule1_clauses := generate_rule1_one_per_cell self in
   let rule2_clauses := generate_rule2_row_constraint self in
   let rule3_clauses := generate_rule3_col_constraint self in
   let rule4_clauses := generate_rule4_box_constraint self in
   let rule5_clauses := generate_rule5_non_consecutive self in
   let rule5_clauses := generate_rule5_non_consecutive self in
   let _clauses :=
     model_clauses ++ rule1_clauses ++ rule2_clauses ++ rule3_clauses
     ++ rule4_clauses ++ rule5_clauses in
   set_clauses (map (map_variable_tuple self) _clauses) ;;
   let* self := get in
   ret (clauses self, number_of_variables self))%py.

(** [to_cnf], from the grid the file holds *)
Definition to_cnf (sudoku_grid : list (list Z))
  : outcome (list (list Z) * Z) :=
  match encode (__init__ sudoku_grid) with
  | Done (r, _) => Done r
  | Raise e => Raise e
  | OutOfFuel => OutOfFuel
  end.

End Encoder.

(** ** Vocabulary of the properties *)

(** [M[|l|] = l]: the model, a sequence whose position [i] (counted from 1)
    holds [+i] or [-i], holds the literal [l] at the position of its
    variable. *)
Definition agrees (model : list Z) (l : Z) : bool :=
  match model !! Z.to_nat (Z.abs l - 1) with
  | Some x => (1 <=? Z.abs l) && (x =? l)
  | None => false
  end.

(** Some literal of the clause agrees with the model. *)
Definition satisfies (model : list Z) (clause : list Z) : bool :=
  existsb (agrees model) clause.

(** The literal [l] is true under the partial assignment [a]. *)
Definition lit_true (a : gmap Z bool) (l : Z) : Prop :=
  a !! Z.abs l = Some (0 <? l).

Definition clause_sat (a : gmap Z bool) (c : list Z) : Prop :=
  exists l, In l c /\ lit_true a l.

Definition all_sat (a : gmap Z bool) (cls : list (list Z)) : Prop :=
  forall c, In c cls -> clause_sat a c.

(** No variable of the clauses is assigned. *)
Definition unassigned_in (a : gmap Z bool) (cls : list (list Z)) : Prop :=
  forall c l, In c cls -> In l c -> a !! Z.abs l = None.

Definition nonzero_lits (cls : list (list Z)) : Prop :=
  forall c l, In c cls -> In l c -> l <> 0.

(** The invariant of a problem (clauses, num_vars): every literal [l]
    satisfies [1 <= |l| <= num_vars]. *)
Definition well_formed_cnf (cls : list (list Z)) (num_vars : Z) : Prop :=
  forall c l, In c cls -> In l c -> 1 <= Z.abs l <= num_vars.

(** The search state ([cls'], [a']) refines ([cls], [a]): the assignment
    has only grown, no variable of [cls'] is assigned, and every extension
    of [a'] that satisfies [cls'] satisfies [cls]. *)
Definition refines (cls : list (list Z)) (a : gmap Z bool)
    (cls' : list (list Z)) (a' : gmap Z bool) : Prop :=
  a ⊆ a' /\ unassigned_in a' cls' /\ nonzero_lits cls'
  /\ forall a2, a' ⊆ a2 -> all_sat a2 cls' -> all_sat a2 cls.

(** The [assignment] attribute of the watched solver refers to an object
    of the heap. *)
Definition valid (st : WatchedLiteralsDPLL.state) : Prop :=
  (WatchedLiteralsDPLL.assignment (WatchedLiteralsDPLL.self st)
   < length (WatchedLiteralsDPLL.heap st))%nat.

(** From heap [h] to heap [h']: no object is lost, the objects of [h]
    other than the one at [p] are unchanged, and the dictionary at [p] has
    only gained keys. *)
Definition grows_at (p : nat) (h h' : list (gmap Z bool)) : Prop :=
  (length h <= length h')%nat
  /\ (forall i, (i < length h)%nat -> i <> p -> h' !! i = h !! i)
  /\ (forall d, h !! p = Some d -> exists d', h' !! p = Some d' /\ d ⊆ d').

(** [r'] is the outcome [r], or [r] ran out of fuel. *)
Definition leo {A : Type} (r r' : outcome A) : Prop :=
  r = OutOfFuel \/ r' = r.

Definition leM {S A : Type} (c c' : M S A) : Prop :=
  forall s, leo (c s) (c' s).

(** A [Variable] of an [n] by [n] grid: row and column in [0, n-1], value
    in [1, n]. *)
Definition var_ok (n : Z) (v : Encoder.Variable_) : Prop :=
  0 <= Encoder.row v < n /\ 0 <= Encoder.col v < n
  /\ 1 <= Encoder.val v <= n.

(** Each of the [N] lines of the grid holds at least [N] integers. *)
Definition lines_long_enough (grid : list (list Z)) : Prop :=
  Forall (fun line => (length grid <= length line)%nat) grid.

(** A well-formed grid: [n] lines of [n] integers, each in [0, n], for a
    perfect square [n]. *)
Definition well_formed_grid (grid : list (list Z)) : Prop :=
  Forall (fun line => length line = length grid) grid
  /\ Forall (Forall (fun v => 0 <= v <= Z.of_nat (length grid))) grid
  /\ exists k : Z, 0 <= k /\ Z.of_nat (length grid) = k * k.

(** What [generate_model] keeps of the object *)
Definition same_grid (grid : list (list Z)) (nv : Z)
    (s : Encoder.SATSolver) : Prop :=
  Encoder.sudoku_grid s = grid
  /\ Encoder.N s = Z.of_nat (length grid)
  /\ Encoder.number_of_variables s = nv.

(** The concrete inputs the evaluations below run the code on *)

(** Unsatisfiable: the three unit clauses falsify the first clause. *)
Definition cnf_units_falsify : list (list Z) :=
  [[1; 2; 3]; [-1]; [-2]; [-3]].

(** Unsatisfiable: all four sign patterns over two variables *)
Definition cnf_all_signs : list (list Z) :=
  [[1; 2]; [-1; 2]; [1; -2]; [-1; -2]].

(** The same four clauses in the order used against the watched solver *)
Definition cnf_all_signs' : list (list Z) :=
  [[1; 2]; [1; -2]; [-1; 2]; [-1; -2]].

(** Two copies of one clause *)
Definition cnf_twice : list (list Z) := [[1; 2]; [1; 2]].

(** Every clause occurs twice; the model that sets both variables to
    [False] falsifies [[1; 2]]. *)
Definition cnf_doubled : list (list Z) :=
  [[1; 2]; [1; 2]; [-1; -2]; [-1; -2]].

(** An input of the variable-elimination pass *)
Definition cnf_bve : list (list Z) := [[1; 2]; [1; 3]; [-1; 3]; [-1]].

(** The minimal unsatisfiable CNF *)
Definition cnf_minimal_unsat : list (list Z) := [[1]; [-1]].

(** Vocabulary of the refutation and counter properties *)

(** Every assignment that satisfies [cls0] satisfies [cls] too, and holds
    every entry that [a] has and [a0] lacks. *)
Definition forced (cls0 : list (list Z)) (a0 : gmap Z bool)
    (cls : list (list Z)) (a : gmap Z bool) : Prop :=
  forall m : gmap Z bool,
    all_sat m cls0 ->
    all_sat m cls
    /\ forall v b, a !! v = Some b -> a0 !! v = None -> m !! v = Some b.

(** How the three search counters move over a call of [_dpll] that returns
    [r]: a call that fails has met one conflict more than it has taken
    decisions, and has backtracked at each of its decisions; a call that
    succeeds has met one conflict per backtrack, and has backtracked at most
    once per decision. *)
Definition search_counts (r : bool) (m m' : SolverMetrics) : Prop :=
  if r
  then (conflicts m' + backtracks m = conflicts m + backtracks m'
        /\ backtracks m' + decisions m <= backtracks m + decisions m')%nat
  else (backtracks m' + decisions m = backtracks m + decisions m'
        /\ conflicts m' + decisions m = S (conflicts m + decisions m'))%nat.

(** The number of literal occurrences of a clause list *)
Definition cnf_size (cls : list (list Z)) : nat := length (concat cls).

(** No clause is empty and no clause holds a literal twice. *)
Definition clean_cnf (cls : list (list Z)) : Prop :=
  forall c, In c cls -> c <> [] /\ List.NoDup c.

(** The literal [l] is false under the partial assignment [a]. *)
Definition lit_false (a : gmap Z bool) (l : Z) : Prop :=
  a !! Z.abs l = Some (negb (0 <? l)).

(** Under [a] every literal occurrence of the clause but at most one is
    false. *)
Definition unit_under (a : gmap Z bool) (c : list Z) : Prop :=
  exists l, forall x, In x c -> x = l \/ lit_false a x.

(** The attributes of the watched solver that no method assigns after
    [__init__] *)
Definition same_problem (st st' : WatchedLiteralsDPLL.state) : Prop :=
  WatchedLiteralsDPLL.clauses (WatchedLiteralsDPLL.self st')
  = WatchedLiteralsDPLL.clauses (WatchedLiteralsDPLL.self st)
  /\ WatchedLiteralsDPLL.watches (WatchedLiteralsDPLL.self st')
     = WatchedLiteralsDPLL.watches (WatchedLiteralsDPLL.self st)
  /\ WatchedLiteralsDPLL.num_vars (WatchedLiteralsDPLL.self st')
     = WatchedLiteralsDPLL.num_vars (WatchedLiteralsDPLL.self st).

(** Every clause whose index is in the queue is unit, or was when it was
    queued. *)
Definition queue_of_units (st : WatchedLiteralsDPLL.state)
    (queue : list nat) : Prop :=
  forall idx, In idx queue ->
    exists c,
      WatchedLiteralsDPLL.clauses (WatchedLiteralsDPLL.self st) !! idx
      = Some c
      /\ unit_under (WatchedLiteralsDPLL.current st) c.

(** The three counters of the search (all but [unit_propagations]) are
    the same in [m] and [m']. *)
Definition same_search_counters (m m' : SolverMetrics) : Prop :=
  decisions m' = decisions m /\ backtracks m' = backtracks m
  /\ conflicts m' = conflicts m.

(** Vocabulary of the termination of the watched solver *)

(** The number of literal occurrences whose variable [a] does not hold *)
Definition unassigned_count (a : gmap Z bool) (cls : list (list Z)) : nat :=
  length (List.filter (fun l => match a !! Z.abs l with
                                | None => true
                                | Some _ => false
                                end) (concat cls)).

(** The number of entries of all the watch lists *)
Definition watch_size (w : list (Z * list nat)) : nat :=
  list_sum (map (fun e => length (snd e)) w).

(** Every watch list holds indices of [self.clauses]. *)
Definition watches_in_range (st : WatchedLiteralsDPLL.state) : Prop :=
  forall l i,
    In i (WatchedLiteralsDPLL.watch_get l
            (WatchedLiteralsDPLL.watches (WatchedLiteralsDPLL.self st))) ->
    (i < length (WatchedLiteralsDPLL.clauses (WatchedLiteralsDPLL.self st)))%nat.

(** A number of iterations that the [while queue] loop never exceeds *)
Definition propagation_budget (st : WatchedLiteralsDPLL.state) : nat :=
  let cls := WatchedLiteralsDPLL.clauses (WatchedLiteralsDPLL.self st) in
  (length cls
   + cnf_size cls
     * S (watch_size (WatchedLiteralsDPLL.watches (WatchedLiteralsDPLL.self st)))
   + 1)%nat.

(** A budget within which the watched solver finishes on [clauses]: the
    depth of the recursion of [_dpll] and the iterations of the [while]
    loop of one [_unit_propagate] stay below it.  With [n] clauses and [L]
    literal occurrences it is [L + n + L * (2 n + 1) + 2]. *)
Definition watched_budget (clauses : list (list Z)) : nat :=
  (cnf_size clauses + length clauses
   + cnf_size clauses * S (2 * length clauses) + 2)%nat.

(** The outcome of a method call without the final state of the object *)
Definition result_of {S A : Type} (o : outcome (A * S)) : outcome A :=
  match o with
  | Done (a, _) => Done a
  | Raise e => Raise e
  | OutOfFuel => OutOfFuel
  end.

(** The literal [p] is pure in the clauses: it occurs, and its negation
    does not. *)
Definition pure_in (cls : list (list Z)) (p : Z) : Prop :=
  (exists c, In c cls /\ In p c) /\ forall c, In c cls -> ~ In (- p) c.

(** What [solve] returns for a problem of [num_vars] variables: "UNSAT"
    and [None], or "SAT" and the model that [model_of] builds from some
    assignment. *)
Definition well_shaped (num_vars : Z) (r : string * option (list Z))
  : Prop :=
  r = ("UNSAT"%string, None)
  \/ exists a : gmap Z bool, r = ("SAT"%string, Some (model_of num_vars a)).

(** The three search counters after a [solve] with the given status: what
    the base and the watched solver guarantee. *)
Definition counted (status : string) (m : SolverMetrics) : Prop :=
  (status = "UNSAT"%string /\ backtracks m = decisions m
   /\ conflicts m = S (decisions m))
  \/ (status = "SAT"%string /\ conflicts m = backtracks m
      /\ (backtracks m <= decisions m)%nat).

(** What the preprocessing passes keep of the object: the problem and the
    three search counters. *)
Definition pre_frame (s s' : PreprocessingDPLL.t) : Prop :=
  PreprocessingDPLL.num_vars s' = PreprocessingDPLL.num_vars s
  /\ same_search_counters (PreprocessingDPLL.metrics s)
                          (PreprocessingDPLL.metrics s').

(** Vocabulary of the correctness of the encoder *)

(** The number of the variable "cell ([r], [c]) holds [v]" of an [n] by
    [n] grid *)
Definition var_of (n r c v : Z) : Z := r * n * n + c * n + v.

(** Under the assignment [m], cell ([r], [c]) holds [v]. *)
Definition cell_has (m : gmap Z bool) (n r c v : Z) : Prop :=
  m !! var_of n r c v = Some true.

(** The integer at line [i], position [j] of the grid *)
Definition grid_cell (grid : list (list Z)) (i j : Z) : Z :=
  nth (Z.to_nat j) (nth (Z.to_nat i) grid []) 0.

(** The unit clauses of the clues, in row-major order *)
Definition clue_clauses (grid : list (list Z))
  : list (list Encoder.Variable_) :=
  let n := Z.of_nat (length grid) in
  flat_map (fun i =>
    flat_map (fun j =>
      if grid_cell grid i j =? 0 then []
      else [[Encoder.mkVariable i j (grid_cell grid i j) false]])
      (range 0 n))
    (range 0 n).

Definition in_grid (n r c : Z) : Prop := 0 <= r < n /\ 0 <= c < n.

(** Cell ([r], [c]) lies in the box ([br], [bc]) of side [k]. *)
Definition in_box (k br bc r c : Z) : Prop :=
  br * k <= r < br * k + k /\ bc * k <= c < bc * k + k.

(** Cells ([r], [c]) and ([r'], [c']) are orthogonal neighbours. *)
Definition adjacent (r c r' c' : Z) : Prop :=
  (r' = r /\ (c' = c + 1 \/ c' = c - 1))
  \/ (c' = c /\ (r' = r + 1 \/ r' = r - 1)).

(** The assignment [m] describes a solution of the puzzle [grid], of size
    [n] with boxes of side [k]: the six rules in the header of
    [encoder.py]. *)
Definition solves (grid : list (list Z)) (n k : Z) (m : gmap Z bool)
  : Prop :=
  (* (1) exactly one value per cell *)
  (forall r c, in_grid n r c ->
     exists v, 1 <= v <= n /\ cell_has m n r c v
       /\ forall v', 1 <= v' <= n -> cell_has m n r c v' -> v' = v)
  (* (2) every value exactly once in every row *)
  /\ (forall r v, 0 <= r < n -> 1 <= v <= n ->
        exists c, 0 <= c < n /\ cell_has m n r c v
          /\ forall c', 0 <= c' < n -> cell_has m n r c' v -> c' = c)
  (* (3) every value exactly once in every column *)
  /\ (forall c v, 0 <= c < n -> 1 <= v <= n ->
        exists r, 0 <= r < n /\ cell_has m n r c v
          /\ forall r', 0 <= r' < n -> cell_has m n r' c v -> r' = r)
  (* (4) every value exactly once in every box *)
  /\ (forall br bc v, 0 <= br < k -> 0 <= bc < k -> 1 <= v <= n ->
        exists r c, in_box k br bc r c /\ cell_has m n r c v
          /\ forall r' c', in_box k br bc r' c' -> cell_has m n r' c' v ->
               r' = r /\ c' = c)
  (* (5) orthogonal neighbours do not hold consecutive values *)
  /\ (forall r c r' c' v v',
        in_grid n r c -> in_grid n r' c' -> adjacent r c r' c' ->
        1 <= v <= n -> 1 <= v' <= n -> (v' = v + 1 \/ v' = v - 1) ->
        ~ (cell_has m n r c v /\ cell_has m n r' c' v'))
  (* (6) the clues *)
  /\ (forall r c, in_grid n r c -> grid_cell grid r c <> 0 ->
        cell_has m n r c (grid_cell grid r c)).

(** The assignment gives a value to every variable of the grid. *)
Definition decides (n : Z) (m : gmap Z bool) : Prop :=
  forall r c v, in_grid n r c -> 1 <= v <= n -> m !! var_of n r c v <> None.

(** The assignment that describes the completed grid [sol]: the variable of
    ([r], [c], [v]) is true exactly when line [r], position [c] of [sol]
    holds [v]. *)
Definition assignment_of_grid (sol : list (list Z)) : gmap Z bool :=
  let n := Z.of_nat (length sol) in
  list_to_map
    (flat_map (fun r =>
       flat_map (fun c =>
         map (fun v => (var_of n r c v, grid_cell sol r c =? v))
             (range 1 (n + 1)))
         (range 0 n))
       (range 0 n)).

(** The decidable versions of [lit_true], [all_sat] and [decides] *)
Definition lit_trueb (a : gmap Z bool) (l : Z) : bool :=
  match a !! Z.abs l with
  | Some b => eqb b (0 <? l)
  | None => false
  end.

Definition all_satb (a : gmap Z bool) (cls : list (list Z)) : bool :=
  forallb (existsb (lit_trueb a)) cls.

Definition decidesb (n : Z) (a : gmap Z bool) : bool :=
  forallb (fun x => match a !! x with Some _ => true | None => false end)
          (range 1 (n * n * n + 1)).

(** A non-consecutive sudoku and a puzzle with this solution *)
Definition nonconsecutive_solution : list (list Z) :=
  [[1; 3; 5; 2; 7; 9; 4; 6; 8];
   [4; 6; 8; 5; 1; 3; 7; 9; 2];
   [7; 9; 2; 8; 4; 6; 1; 3; 5];
   [2; 4; 6; 3; 8; 1; 5; 7; 9];
   [5; 7; 9; 6; 2; 4; 8; 1; 3];
   [8; 1; 3; 9; 5; 7; 2; 4; 6];
   [3; 5; 1; 7; 9; 2; 6; 8; 4];
   [6; 8; 4; 1; 3; 5; 9; 2; 7];
   [9; 2; 7; 4; 6; 8; 3; 5; 1]].

Definition nonconsecutive_puzzle : list (list Z) :=
  [[1; 0; 0; 2; 0; 0; 0; 6; 0];
   [0; 6; 0; 0; 1; 0; 7; 0; 0];
   [0; 0; 2; 0; 0; 6; 0; 0; 5];
   [2; 0; 0; 3; 0; 0; 5; 0; 0];
   [0; 7; 0; 0; 2; 0; 0; 1; 0];
   [0; 0; 3; 0; 0; 7; 0; 0; 6];
   [3; 0; 0; 7; 0; 0; 6; 0; 0];
   [0; 8; 0; 0; 3; 0; 0; 2; 0];
   [0; 0; 7; 0; 0; 8; 0; 0; 1]].

(** The clauses [to_cnf] returns for a grid (none when it raises) *)
Definition cnf_of (grid : list (list Z)) : list (list Z) :=
  match Encoder.to_cnf grid with
  | Done (cls, _) => cls
  | _ => []
  end.

(** The assignment a model describes: the variable [|l|] of an entry [l]
    is true exactly when [l] is positive. *)
Definition assignment_of_model (model : list Z) : gmap Z bool :=
  list_to_map (map (fun l => (Z.abs l, 0 <? l)) model).

(** The empty puzzle of size 4 *)
Definition empty_puzzle_4 : list (list Z) :=
  [[0; 0; 0; 0]; [0; 0; 0; 0]; [0; 0; 0; 0]; [0; 0; 0; 0]].

(** ** The helper [remove_index] of [encoder.py] *)

(** [lst[:index] + lst[index+1:]] behind the bounds check; the check keeps
    the negative indices out, which the slices would count from the end. *)
Definition remove_index {A : Type} (lst : list A) (index : Z)
  : exn + list A :=
  if (index <? 0) || (Z.of_nat (length lst) <=? index) then inl IndexError
  else inr (firstn (Z.to_nat index) lst ++ skipn (Z.to_nat (index + 1)) lst).

(** ** The experiment runner ([experiment_runner.py]) *)

Module ExperimentRunner.

(** The dataclass [ExperimentConfig] *)
Record ExperimentConfig : Type := mkConfig {
  puzzle_dir : string;
  results_dir : string;
  num_threads : Z;
  num_repetitions : Z;
  timeout_9x9 : Z;
  timeout_16x16 : Z;
  timeout_25x25 : Z;
  variants : list string
}.

(** [__post_init__]: only [None] is replaced by the four variants; an
    empty list stays empty. *)
Definition __post_init__ (variants : option (list string)) : list string :=
  match variants with
  | None => ["base"; "watched"; "preprocessing"; "combined"]%string
  | Some l => l
  end.

(** [ExperimentConfig()] with its default values *)
Definition default_config : ExperimentConfig :=
  mkConfig "puzzles" "results" 128 3 300 600 900 (__post_init__ None).

(** [get_timeout_for_size] *)
Definition get_timeout_for_size (size : Z) (config : ExperimentConfig)
  : exn + Z :=
  if size =? 9 then inr (timeout_9x9 config)
  else if size =? 16 then inr (timeout_16x16 config)
  else if size =? 25 then inr (timeout_25x25 config)
  else inl ValueError.

(** One task: the tuple [(puzzle_id, puzzle_path, variant, repetition,
    expected_status, puzzle_size, timeout)] *)
Record task : Type := mkTask {
  puzzle_id : Z;
  puzzle_path : string;
  variant : string;
  repetition : Z;
  expected_status : string;
  puzzle_size : Z;
  timeout : Z
}.

Section WithPaths.

(** [os.path.join] and the conversion [str] of an integer, which the
    f-string applies to [puzzle_id] *)
Variable path_join : string -> string -> string.
Variable str : Z -> string.

(** The two inner loops of [generate_experiment_tasks], over the variants
    and the repetitions [1 .. num_repetitions] *)
Definition append_tasks (config : ExperimentConfig) (id : Z)
    (path : string) (size : Z) (status : string) (limit : Z)
    (tasks : list task) : list task :=
  fold_left (fun tasks variant =>
    fold_left (fun tasks repetition =>
      tasks ++ [mkTask id path variant repetition status size limit])
      (range 1 (num_repetitions config + 1)) tasks)
    (variants config) tasks.

(** The loop over [manifest.items()], a dictionary from the puzzle id to
    the pair of the size and the expected status, in insertion order *)
Fixpoint generate_experiment_tasks_for (config : ExperimentConfig)
    (items : list (Z * (Z * string))) (tasks : list task)
  : exn + list task :=
  match items with
  | [] => inr tasks
  | (id, (size, status)) :: items =>
      let path :=
        path_join (puzzle_dir config)
                  ("puzzle" ++ str id ++ ".txt")%string in
      match get_timeout_for_size size config with
      | inl e => inl e
      | inr limit =>
          generate_experiment_tasks_for config items
            (append_tasks config id path size status limit tasks)
      end
  end.

(** [generate_experiment_tasks] *)
Definition generate_experiment_tasks (config : ExperimentConfig)
    (manifest : list (Z * (Z * string))) : exn + list task :=
  generate_experiment_tasks_for config manifest [].

End WithPaths.

End ExperimentRunner.

(** The tasks of one puzzle of the manifest, given the time limit of its
    size: one for every variant and every repetition
    [1 .. num_repetitions] *)
Definition tasks_of (path_join : string -> string -> string)
    (str : Z -> string) (config : ExperimentRunner.ExperimentConfig)
    (item : Z * (Z * string)) (limit : Z) : list ExperimentRunner.task :=
  flat_map (fun variant =>
    map (fun repetition =>
           ExperimentRunner.mkTask (fst item)
             (path_join (ExperimentRunner.puzzle_dir config)
                        ("puzzle" ++ str (fst item) ++ ".txt")%string)
             variant repetition (snd (snd item)) (fst (snd item)) limit)
        (range 1 (ExperimentRunner.num_repetitions config + 1)))
    (ExperimentRunner.variants config).

(** The sizes [get_timeout_for_size] knows *)
Definition known_size (size : Z) : Prop :=
  size = 9 \/ size = 16 \/ size = 25.

(** * Properties *)

(** ** More fuel never changes an outcome *)

Lemma leo_refl {A : Type} (r : outcome A) : leo r r.
Proof. now right. Qed.

Lemma leo_fuel {A : Type} (r : outcome A) : leo OutOfFuel r.
Proof. now left. Qed.

Lemma leM_refl {S A : Type} (c : M S A) : leM c c.
Proof. intros s. apply leo_refl. Qed.

Lemma leM_fuel {S A : Type} (c : M S A) : leM out_of_fuel c.
Proof. intros s. apply leo_fuel. Qed.

Lemma leM_bind {S A B : Type} (c c' : M S A) (k k' : A -> M S B) :
  leM c c' -> (forall a, leM (k a) (k' a)) -> leM (bind c k) (bind c' k').
Proof.
  intros Hc Hk s. unfold bind.
  destruct (Hc s) as [E | E].
  - rewrite E. apply leo_fuel.
  - rewrite E. destruct (c s) as [[a s'] | e |]; try apply leo_refl.
    apply Hk.
Qed.

Lemma leM_call {S S' A : Type} (c c' : M S' A) (callee : S') :
  leM c c' -> leM (S := S) (call c callee) (call c' callee).
Proof.
  intros Hc s. unfold call.
  destruct (Hc callee) as [E | E]; rewrite E.
  - apply leo_fuel.
  - apply leo_refl.
Qed.

(** Two completed runs of one computation, whatever their fuel, end alike. *)
Lemma leo_deterministic {A : Type} (c : nat -> outcome A) :
  (forall n m, (n <= m)%nat -> leo (c n) (c m)) ->
  forall n m, c n <> OutOfFuel -> c m <> OutOfFuel -> c n = c m.
Proof.
  intros Hmono n m Hn Hm.
  destruct (Nat.le_ge_cases n m) as [L | L].
  - destruct (Hmono n m L) as [E | E]; [contradiction | now symmetry].
  - destruct (Hmono m n L) as [E | E]; [contradiction | assumption].
Qed.

Ltac leM_step :=
  first
    [ apply leM_refl
    | apply leM_fuel
    | apply leM_bind; [ | intros ? ]
    | apply leM_call
    | match goal with
      | |- leM (match ?x with _ => _ end) _ => destruct x
      | |- leM (if ?x then _ else _) _ => destruct x
      end ].

Lemma BaseDPLL_unit_propagate_mono (n m : nat) :
  (n <= m)%nat ->
  forall clauses assignment,
    leM (BaseDPLL._unit_propagate n clauses assignment)
        (BaseDPLL._unit_propagate m clauses assignment).
Proof.
  revert m. induction n as [| n IH]; intros m L clauses assignment.
  - apply leM_fuel.
  - destruct m as [| m]; [lia |]. simpl.
    repeat leM_step. apply IH. lia.
Qed.

Lemma BaseDPLL_dpll_mono (n m : nat) :
  (n <= m)%nat ->
  forall clauses assignment,
    leM (BaseDPLL._dpll n clauses assignment)
        (BaseDPLL._dpll m clauses assignment).
Proof.
  revert m. induction n as [| n IH]; intros m L clauses assignment.
  - apply leM_fuel.
  - destruct m as [| m]; [lia |]. simpl.
    repeat (first [ apply IH; lia
                  | apply BaseDPLL_unit_propagate_mono; lia
                  | leM_step ]).
Qed.

Lemma BaseDPLL_solve_mono (n m : nat) :
  (n <= m)%nat -> leM (BaseDPLL.solve n) (BaseDPLL.solve m).
Proof.
  intros L. unfold BaseDPLL.solve.
  repeat (first [ apply BaseDPLL_dpll_mono; lia | leM_step ]).
Qed.

Lemma Watched_propagate_queue_mono (n m : nat) :
  (n <= m)%nat ->
  forall queue,
    leM (WatchedLiteralsDPLL.propagate_queue n queue)
        (WatchedLiteralsDPLL.propagate_queue m queue).
Proof.
  revert m. induction n as [| n IH]; intros m L queue.
  - apply leM_fuel.
  - destruct m as [| m]; [lia |]. simpl.
    repeat (first [ apply IH; lia | leM_step ]).
Qed.

Lemma Watched_unit_propagate_mono (n m : nat) :
  (n <= m)%nat ->
  leM (WatchedLiteralsDPLL._unit_propagate n)
      (WatchedLiteralsDPLL._unit_propagate m).
Proof.
  intros L. unfold WatchedLiteralsDPLL._unit_propagate.
  repeat (first [ apply Watched_propagate_queue_mono; lia | leM_step ]).
Qed.

Lemma Watched_dpll_mono (n m : nat) :
  (n <= m)%nat ->
  leM (WatchedLiteralsDPLL._dpll n) (WatchedLiteralsDPLL._dpll m).
Proof.
  revert m. induction n as [| n IH]; intros m L.
  - apply leM_fuel.
  - destruct m as [| m]; [lia |]. simpl.
    repeat (first [ apply IH; lia
                  | apply Watched_unit_propagate_mono; lia
                  | leM_step ]).
Qed.

Lemma Watched_solve_mono (n m : nat) :
  (n <= m)%nat ->
  leM (WatchedLiteralsDPLL.solve n) (WatchedLiteralsDPLL.solve m).
Proof.
  intros L. unfold WatchedLiteralsDPLL.solve.
  repeat (first [ apply Watched_dpll_mono; lia | leM_step ]).
Qed.

Section FuelWithSetOrder.

Variable iter_order : list Z -> list Z.

Lemma Preprocessing_eup_while_mono (n m : nat) :
  (n <= m)%nat ->
  forall clauses assignment,
    leM (PreprocessingDPLL._exhaustive_unit_propagation_while n clauses
           assignment)
        (PreprocessingDPLL._exhaustive_unit_propagation_while m clauses
           assignment).
Proof.
  revert m. induction n as [| n IH]; intros m L clauses assignment.
  - apply leM_fuel.
  - destruct m as [| m]; [lia |]. simpl.
    repeat (first [ apply IH; lia | leM_step ]).
Qed.

Lemma Preprocessing_preprocess_mono (n m : nat) :
  (n <= m)%nat ->
  forall clauses,
    leM (PreprocessingDPLL._preprocess iter_order n clauses)
        (PreprocessingDPLL._preprocess iter_order m clauses).
Proof.
  intros L clauses.
  unfold PreprocessingDPLL._preprocess,
    PreprocessingDPLL._exhaustive_unit_propagation.
  repeat (first [ apply Preprocessing_eup_while_mono; lia | leM_step ]).
Qed.

Lemma Preprocessing_solve_mono (n m : nat) :
  (n <= m)%nat ->
  leM (PreprocessingDPLL.solve iter_order n)
      (PreprocessingDPLL.solve iter_order m).
Proof.
  intros L. unfold PreprocessingDPLL.solve.
  repeat (first [ apply Preprocessing_preprocess_mono; lia
                | apply BaseDPLL_solve_mono; lia
                | leM_step ]).
Qed.

Lemma Combined_solve_mono (n m : nat) :
  (n <= m)%nat ->
  leM (CombinedDPLL.solve iter_order n) (CombinedDPLL.solve iter_order m).
Proof.
  intros L. unfold CombinedDPLL.solve.
  repeat (first [ apply Preprocessing_preprocess_mono; lia
                | apply Watched_solve_mono; lia
                | leM_step ]).
Qed.

Lemma solve_mono (n m : nat) (s : solver) :
  (n <= m)%nat -> leo (solve iter_order n s) (solve iter_order m s).
Proof.
  intros L. destruct s as [s | s | s | s]; simpl.
  - destruct (BaseDPLL_solve_mono n m L s) as [E | E]; rewrite E;
      [apply leo_fuel | apply leo_refl].
  - destruct (Watched_solve_mono n m L s) as [E | E]; rewrite E;
      [apply leo_fuel | apply leo_refl].
  - destruct (Preprocessing_solve_mono n m L s) as [E | E]; rewrite E;
      [apply leo_fuel | apply leo_refl].
  - destruct (Combined_solve_mono n m L s) as [E | E]; rewrite E;
      [apply leo_fuel | apply leo_refl].
Qed.

Lemma run_mono (variant : string) (clauses : list (list Z)) (num_vars : Z)
    (n m : nat) :
  (n <= m)%nat ->
  leo (run iter_order variant clauses num_vars n)
      (run iter_order variant clauses num_vars m).
Proof.
  intros L. unfold run.
  destruct (get_solver variant clauses num_vars) as [e | s];
    [apply leo_refl |].
  destruct (solve_mono n m s L) as [E | E]; rewrite E;
    [apply leo_fuel | apply leo_refl].
Qed.

End FuelWithSetOrder.

(** ** Runs and their budget *)

(** The outcome of a run that finishes does not depend on the budget it was
    given: the budget only decides whether the run finishes.  (This is a
    property of the budget of the embedding; it says nothing of two
    executions of the interpreter.) *)
Lemma run_budget_irrelevant (iter_order : list Z -> list Z)
    (variant : string) (clauses : list (list Z)) (num_vars : Z)
    (fuel1 fuel2 : nat) :
  run iter_order variant clauses num_vars fuel1 <> OutOfFuel ->
  run iter_order variant clauses num_vars fuel2 <> OutOfFuel ->
  run iter_order variant clauses num_vars fuel1
  = run iter_order variant clauses num_vars fuel2.
Proof.
  apply (leo_deterministic (run iter_order variant clauses num_vars)).
  intros a b L. now apply run_mono.
Qed.

(** ** The encoder *)

Lemma In_range (lo hi x : Z) : In x (range lo hi) <-> lo <= x < hi.
Proof.
  unfold range. rewrite in_map_iff. split.
  - intros (i & <- & Hi). apply in_seq in Hi. lia.
  - intros H. exists (Z.to_nat (x - lo)). split; [lia |].
    apply in_seq. lia.
Qed.

Ltac break_in :=
  repeat match goal with
    | H : In _ (flat_map _ _) |- _ =>
        apply in_flat_map in H; destruct H as (? & ? & H)
    | H : In _ (map _ _) |- _ =>
        apply in_map_iff in H; destruct H as (? & ? & H)
    | H : In _ (_ ++ _) |- _ => apply in_app_or in H; destruct H as [H | H]
    | H : In _ (_ :: _) |- _ => destruct H as [H | H]
    | H : In _ [] |- _ => destruct H
    | H : In _ (range _ _) |- _ => apply In_range in H
    | H : In _ (if ?b then _ else _) |- _ => destruct b eqn:?
    end; subst.

Lemma map_variable_bound (self : Encoder.SATSolver) (v : Encoder.Variable_) :
  var_ok (Encoder.N self) v ->
  1 <= Z.abs (Encoder.map_variable self v) <= Encoder.N self ^ 3.
Proof.
  intros (Hr & Hc & Hv). unfold Encoder.map_variable.
  set (n := Encoder.N self) in *.
  replace (n ^ 3) with (n * n * n) by ring.
  assert (0 <= Encoder.row v * n * n <= (n - 1) * n * n) by nia.
  assert (0 <= Encoder.col v * n <= (n - 1) * n) by nia.
  destruct (Encoder.neg v); lia.
Qed.

Lemma rule1_ok (self : Encoder.SATSolver) :
  Forall (Forall (var_ok (Encoder.N self)))
         (Encoder.generate_rule1_one_per_cell self).
Proof.
  apply List.Forall_forall. intros c Hc.
  apply List.Forall_forall. intros v Hv.
  unfold Encoder.generate_rule1_one_per_cell in Hc.
  break_in; break_in; unfold var_ok; simpl; lia.
Qed.

Lemma rule2_ok (self : Encoder.SATSolver) :
  Forall (Forall (var_ok (Encoder.N self)))
         (Encoder.generate_rule2_row_constraint self).
Proof.
  apply List.Forall_forall. intros c Hc.
  apply List.Forall_forall. intros v Hv.
  unfold Encoder.generate_rule2_row_constraint in Hc.
  break_in; break_in; unfold var_ok; simpl; lia.
Qed.

Lemma rule3_ok (self : Encoder.SATSolver) :
  Forall (Forall (var_ok (Encoder.N self)))
         (Encoder.generate_rule3_col_constraint self).
Proof.
  apply List.Forall_forall. intros c Hc.
  apply List.Forall_forall. intros v Hv.
  unfold Encoder.generate_rule3_col_constraint in Hc.
  break_in; break_in; unfold var_ok; simpl; lia.
Qed.

Lemma box_cells_ok (n total box_row box_col : Z) (rc : Z * Z) :
  n * n <= total -> 0 <= box_row < n -> 0 <= box_col < n ->
  In rc (Encoder.box_cells n box_row box_col) ->
  0 <= fst rc < total /\ 0 <= snd rc < total.
Proof.
  intros Hn Hr Hc H. unfold Encoder.box_cells in H. break_in. simpl. nia.
Qed.

Lemma cell_at_In (cells : list (Z * Z)) (idx : Z) :
  0 <= idx < Z.of_nat (length cells) -> In (Encoder.cell_at cells idx) cells.
Proof.
  intros H. unfold Encoder.cell_at. apply nth_In. lia.
Qed.

Lemma rule4_ok (self : Encoder.SATSolver) :
  0 <= Encoder.N self ->
  Forall (Forall (var_ok (Encoder.N self)))
         (Encoder.generate_rule4_box_constraint self).
Proof.
  intros HN.
  assert (Hs : Encoder.box_size self * Encoder.box_size self
               <= Encoder.N self).
  { unfold Encoder.box_size.
    pose proof (Z.sqrt_spec _ HN) as H. cbv zeta in H. tauto. }
  apply List.Forall_forall. intros c Hc.
  apply List.Forall_forall. intros v Hv.
  unfold Encoder.generate_rule4_box_constraint in Hc. cbv zeta in Hc.
  set (n := Encoder.box_size self) in *.
  apply in_flat_map in Hc. destruct Hc as (box_row & Hbr & Hc).
  apply in_flat_map in Hc. destruct Hc as (box_col & Hbc & Hc).
  apply in_flat_map in Hc. destruct Hc as (val & Hval & Hc).
  apply In_range in Hbr. apply In_range in Hbc. apply In_range in Hval.
  set (cells := Encoder.box_cells n box_row box_col) in *.
  assert (Hcells : forall rc, In rc cells ->
            0 <= fst rc < Encoder.N self /\ 0 <= snd rc < Encoder.N self).
  { intros rc Hrc. now apply (box_cells_ok n _ box_row box_col). }
  destruct Hc as [Hc | Hc].
  - subst c. apply in_map_iff in Hv. destruct Hv as (rc & <- & Hrc).
    apply Hcells in Hrc. unfold var_ok. simpl. lia.
  - apply in_flat_map in Hc. destruct Hc as (idx1 & H1 & Hc).
    apply in_map_iff in Hc. destruct Hc as (idx2 & <- & H2).
    apply In_range in H1. apply In_range in H2.
    assert (C1 : In (Encoder.cell_at cells idx1) cells)
      by (apply cell_at_In; lia).
    assert (C2 : In (Encoder.cell_at cells idx2) cells)
      by (apply cell_at_In; lia).
    apply Hcells in C1. apply Hcells in C2.
    destruct Hv as [<- | [<- | []]]; unfold var_ok; simpl; lia.
Qed.

Lemma rule5_ok (self : Encoder.SATSolver) :
  Forall (Forall (var_ok (Encoder.N self)))
         (Encoder.generate_rule5_non_consecutive self).
Proof.
  apply List.Forall_forall. intros c Hc.
  apply List.Forall_forall. intros v Hv.
  unfold Encoder.generate_rule5_non_consecutive, Encoder.adjacent_cells in Hc.
  break_in;
    repeat match goal with
      | H : (_ <? _) = true |- _ => apply Z.ltb_lt in H
      end;
    break_in; unfold var_ok; simpl; lia.
Qed.

(** A [for] loop whose body keeps an invariant of the object and of the
    accumulator runs to its end and keeps them. *)
Lemma for_each_inv {A B : Type} (I : Encoder.SATSolver -> Prop)
    (P : B -> Prop) (Q : A -> Prop) (body : A -> B -> M Encoder.SATSolver B)
    (l : list A) :
  (forall x acc s, Q x -> I s -> P acc ->
     exists acc' s', body x acc s = Done (acc', s') /\ I s' /\ P acc') ->
  Forall Q l ->
  forall acc s, I s -> P acc ->
    exists acc' s',
      Encoder.for_each l acc body s = Done (acc', s') /\ I s' /\ P acc'.
Proof.
  intros Hbody HQ. induction HQ as [| x l Hx Hl IH]; intros acc s Hs Hacc.
  - exists acc, s. simpl. auto.
  - destruct (Hbody x acc s Hx Hs Hacc) as (acc1 & s1 & E & Hs1 & Hacc1).
    destruct (IH acc1 s1 Hs1 Hacc1) as (acc2 & s2 & E2 & Hs2 & Hacc2).
    exists acc2, s2. simpl. unfold bind. rewrite E. auto.
Qed.

Lemma Forall_range (lo hi : Z) : Forall (fun x => lo <= x < hi) (range lo hi).
Proof. apply List.Forall_forall. intros x. apply In_range. Qed.

Lemma grid_at_ok (grid : list (list Z)) (nv : Z) (s : Encoder.SATSolver)
    (i j : Z) :
  lines_long_enough grid -> same_grid grid nv s ->
  0 <= i < Z.of_nat (length grid) -> 0 <= j < Z.of_nat (length grid) ->
  exists v, Encoder.grid_at i j s = Done (v, s)
    /\ (Forall (Forall (fun v => 0 <= v <= Z.of_nat (length grid))) grid ->
        0 <= v <= Z.of_nat (length grid)).
Proof.
  intros Hlong (Hg & _) Hi Hj. unfold Encoder.grid_at. rewrite Hg.
  destruct (lookup_lt_is_Some_2 grid (Z.to_nat i)) as [line Hline]; [lia |].
  rewrite Hline.
  assert (Hlen : (length grid <= length line)%nat).
  { unfold lines_long_enough in Hlong.
    rewrite List.Forall_forall in Hlong. apply Hlong.
    apply list_elem_of_In. eapply list_elem_of_lookup_2. exact Hline. }
  destruct (lookup_lt_is_Some_2 line (Z.to_nat j)) as [v Hv]; [lia |].
  rewrite Hv. exists v. split; [reflexivity |].
  intros Hvals.
  rewrite List.Forall_forall in Hvals.
  assert (Hl : In line grid).
  { apply list_elem_of_In. eapply list_elem_of_lookup_2. exact Hline. }
  specialize (Hvals line Hl). rewrite List.Forall_forall in Hvals.
  apply Hvals. apply list_elem_of_In. eapply list_elem_of_lookup_2.
  exact Hv.
Qed.

Lemma generate_model_ok (grid : list (list Z)) (nv : Z)
    (s : Encoder.SATSolver) :
  lines_long_enough grid -> same_grid grid nv s ->
  exists cl s',
    Encoder.generate_model s = Done (cl, s')
    /\ same_grid grid nv s'
    /\ (Forall (Forall (fun v => 0 <= v <= Z.of_nat (length grid))) grid ->
        Forall (Forall (var_ok (Z.of_nat (length grid)))) cl).
Proof.
  intros Hlong Hs.
  set (n := Z.of_nat (length grid)).
  set (vals := Forall (Forall (fun v => 0 <= v <= n)) grid).
  set (P := fun acc : list (list Encoder.Variable_) =>
              vals -> Forall (Forall (var_ok n)) acc).
  unfold Encoder.generate_model, bind, get.
  assert (HN : Encoder.N s = n) by apply Hs.
  rewrite HN.
  apply (for_each_inv (same_grid grid nv) P (fun i => 0 <= i < n)).
  - intros i acc s1 Hi Hs1 Hacc.
    apply (for_each_inv (same_grid grid nv) P (fun j => 0 <= j < n)).
    + intros j acc2 s2 Hj Hs2 Hacc2.
      destruct (grid_at_ok grid nv s2 i j Hlong Hs2 Hi Hj) as (v & E & Hv).
      unfold bind. rewrite E.
      destruct (v =? 0) eqn:Ez.
      * exists acc2, s2. auto.
      * eexists. eexists. split; [reflexivity |]. split.
        -- destruct Hs2 as (A & B & C). repeat split; assumption.
        -- intros Hvals. apply Forall_app. split; [now apply Hacc2 |].
           repeat constructor; simpl; try lia.
           ++ apply Hv in Hvals. apply Z.eqb_neq in Ez. lia.
           ++ apply Hv in Hvals. lia.
    + apply Forall_range.
    + exact Hs1.
    + exact Hacc.
  - apply Forall_range.
  - exact Hs.
  - intros _. constructor.
Qed.

Lemma to_cnf_ok (grid : list (list Z)) :
  lines_long_enough grid ->
  exists cls,
    Encoder.to_cnf grid = Done (cls, Z.of_nat (length grid) ^ 3)
    /\ (Forall (Forall (fun v => 0 <= v <= Z.of_nat (length grid))) grid ->
        Forall (Forall (fun l => 1 <= Z.abs l
                                 <= Z.of_nat (length grid) ^ 3)) cls).
Proof.
  intros Hlong.
  set (n := Z.of_nat (length grid)).
  assert (Hs0 : same_grid grid (n ^ 3) (Encoder.__init__ grid)).
  { repeat split. }
  destruct (generate_model_ok grid (n ^ 3) _ Hlong Hs0)
    as (cl & s' & E & (Hg & HN & Hnv) & Hcl).
  unfold Encoder.to_cnf, Encoder.encode, bind. rewrite E.
  unfold get, Encoder.set_clauses, modify, ret. simpl.
  eexists. split; [rewrite Hnv; reflexivity |].
  intros Hvals. specialize (Hcl Hvals). fold n in HN.
  assert (H0 : 0 <= Encoder.N s') by (rewrite HN; unfold n; lia).
  pose proof (rule1_ok s') as R1. pose proof (rule2_ok s') as R2.
  pose proof (rule3_ok s') as R3. pose proof (rule4_ok s' H0) as R4.
  pose proof (rule5_ok s') as R5.
  rewrite HN in R1, R2, R3, R4, R5.
  assert (Hall : Forall (Forall (var_ok n))
            (cl ++ Encoder.generate_rule1_one_per_cell s'
                ++ Encoder.generate_rule2_row_constraint s'
                ++ Encoder.generate_rule3_col_constraint s'
                ++ Encoder.generate_rule4_box_constraint s'
                ++ Encoder.generate_rule5_non_consecutive s')).
  { repeat (apply Forall_app; split); assumption. }
  apply List.Forall_forall. intros c Hc.
  apply in_map_iff in Hc. destruct Hc as (vs & <- & Hvs).
  rewrite List.Forall_forall in Hall. specialize (Hall vs Hvs).
  apply List.Forall_forall. intros l Hl.
  unfold Encoder.map_variable_tuple in Hl.
  apply in_map_iff in Hl. destruct Hl as (v & <- & Hv).
  rewrite List.Forall_forall in Hall. specialize (Hall v Hv).
  rewrite <- HN in Hall |- *. now apply map_variable_bound.
Qed.




(** C8.  For a well-formed grid ([N] lines of [N] integers in [0, N], [N] a
    perfect square) [to_cnf] returns, with [num_vars = N^3], clauses whose
    every literal [l] satisfies [1 <= |l| <= N^3]. *)
Theorem C8_literals_in_range (grid : list (list Z)) :
  well_formed_grid grid ->
  exists cls,
    Encoder.to_cnf grid = Done (cls, Z.of_nat (length grid) ^ 3)
    /\ Forall (Forall (fun l => 1 <= Z.abs l
                                <= Z.of_nat (length grid) ^ 3)) cls.
Proof.
  intros (Hsq & Hvals & _).
  assert (Hlong : lines_long_enough grid).
  { unfold lines_long_enough. eapply Forall_impl; [exact Hsq |].
    simpl. intros line E. lia. }
  destruct (to_cnf_ok grid Hlong) as (cls & E & Hcls).
  exists cls. split; [exact E | now apply Hcls].
Qed.

Lemma C8_literals_in_range_witness :
  well_formed_grid [[1; 0; 0; 0]; [0; 0; 0; 2]; [0; 4; 0; 0]; [0; 0; 3; 0]]
  /\ exists cls,
       Encoder.to_cnf
         [[1; 0; 0; 0]; [0; 0; 0; 2]; [0; 4; 0; 0]; [0; 0; 3; 0]]
       = Done (cls, 64)
       /\ Forall (Forall (fun l => 1 <= Z.abs l <= 64)) cls.
Proof.
  assert (H : well_formed_grid
                [[1; 0; 0; 0]; [0; 0; 0; 2]; [0; 4; 0; 0]; [0; 0; 3; 0]]).
  { split; [| split].
    - repeat constructor.
    - repeat constructor; simpl; lia.
    - exists 2. simpl. lia. }
  split; [exact H |].
  exact (C8_literals_in_range
           [[1; 0; 0; 0]; [0; 0; 0; 2]; [0; 4; 0; 0]; [0; 0; 3; 0]] H).
Defined.

(** ** Soundness of the base solver *)

Lemma mem_In (x : Z) (l : list Z) : mem x l = true <-> In x l.
Proof.
  unfold mem. rewrite existsb_exists. split.
  - intros (y & Hy & E). apply Z.eqb_eq in E. now subst.
  - intros H. exists x. split; [assumption | apply Z.eqb_refl].
Qed.

Lemma assign_literal_In (cls : list (list Z)) (lit : Z) (c' : list Z) :
  In c' (BaseDPLL._assign_literal cls lit) ->
  exists c, In c cls /\ ~ In lit c
            /\ c' = List.filter (fun l => negb (l =? - lit)) c.
Proof.
  unfold BaseDPLL._assign_literal. intros H.
  apply in_map_iff in H. destruct H as (c & <- & Hc).
  apply filter_In in Hc. destruct Hc as (Hc & Hm).
  exists c. repeat split; try assumption.
  intros Hin. apply mem_In in Hin. rewrite Hin in Hm. discriminate.
Qed.

Lemma assign_literal_sound (cls : list (list Z)) (lit : Z)
    (a : gmap Z bool) :
  lit_true a lit ->
  all_sat a (BaseDPLL._assign_literal cls lit) -> all_sat a cls.
Proof.
  intros Hlit Hall c Hc.
  destruct (mem lit c) eqn:Hm.
  - exists lit. split; [now apply mem_In | assumption].
  - destruct (Hall (List.filter (fun l => negb (l =? - lit)) c))
      as (l & Hl & Hl').
    + unfold BaseDPLL._assign_literal. apply in_map_iff. exists c.
      split; [reflexivity |]. apply filter_In. split; [assumption |].
      now rewrite Hm.
    + apply filter_In in Hl. exists l. tauto.
Qed.

Lemma assign_literal_unassigned (cls : list (list Z)) (lit : Z)
    (a : gmap Z bool) (v : bool) :
  unassigned_in a cls ->
  unassigned_in (<[Z.abs lit := v]> a) (BaseDPLL._assign_literal cls lit).
Proof.
  intros HJ c' l Hc' Hl.
  apply assign_literal_In in Hc'. destruct Hc' as (c & Hc & Hnot & ->).
  apply filter_In in Hl. destruct Hl as (Hl & Hneq).
  apply negb_true_iff, Z.eqb_neq in Hneq.
  assert (l <> lit) by (intros ->; contradiction).
  rewrite lookup_insert_ne by lia. now apply (HJ c).
Qed.

Lemma assign_literal_nonzero (cls : list (list Z)) (lit : Z) :
  nonzero_lits cls -> nonzero_lits (BaseDPLL._assign_literal cls lit).
Proof.
  intros HW c' l Hc' Hl.
  apply assign_literal_In in Hc'. destruct Hc' as (c & Hc & _ & ->).
  apply filter_In in Hl. now apply (HW c).
Qed.

Lemma refines_refl (cls : list (list Z)) (a : gmap Z bool) :
  unassigned_in a cls -> nonzero_lits cls -> refines cls a cls a.
Proof.
  intros HJ HW. split; [reflexivity |].
  split; [assumption |]. split; [assumption |]. auto.
Qed.

Lemma refines_trans (cls0 cls1 cls2 : list (list Z))
    (a0 a1 a2 : gmap Z bool) :
  refines cls0 a0 cls1 a1 -> refines cls1 a1 cls2 a2 ->
  refines cls0 a0 cls2 a2.
Proof.
  intros (S1 & _ & _ & H1) (S2 & J2 & W2 & H2).
  split; [etransitivity; eassumption |].
  split; [assumption |]. split; [assumption |].
  intros a3 S3 Hsat. apply H1; [etransitivity; eassumption |].
  now apply H2.
Qed.

(** Assigning an unassigned literal is a refinement step. *)
Lemma refines_assign (cls : list (list Z)) (a : gmap Z bool) (lit : Z) :
  a !! Z.abs lit = None -> unassigned_in a cls -> nonzero_lits cls ->
  refines cls a (BaseDPLL._assign_literal cls lit)
          (<[Z.abs lit := 0 <? lit]> a).
Proof.
  intros Hnone HJ HW.
  split; [now apply insert_subseteq |].
  split; [now apply assign_literal_unassigned |].
  split; [now apply assign_literal_nonzero |].
  intros a2 S2. apply assign_literal_sound.
  unfold lit_true. eapply lookup_weaken; [| exact S2].
  apply lookup_insert_eq.
Qed.

Lemma unit_propagate_for_sound (units : list (list Z)) :
  forall (cls : list (list Z)) (a : gmap Z bool) (changed : bool)
         (s s' : BaseDPLL.t) cls' a' changed',
    unassigned_in a cls -> nonzero_lits cls ->
    BaseDPLL._unit_propagate_for units cls a changed s
    = Done (inr (cls', a', changed'), s') ->
    refines cls a cls' a'.
Proof.
  induction units as [| u units IH];
    intros cls a changed s s' cls' a' changed' HJ HW E; simpl in E.
  - unfold ret in E. inversion E; subst. now apply refines_refl.
  - destruct (a !! Z.abs (hd 0 u)) as [b |] eqn:Ha.
    + destruct (negb (eqb b (0 <? hd 0 u))).
      * unfold ret in E. discriminate.
      * eapply IH; eassumption.
    + unfold bind, BaseDPLL.set_metrics, modify in E.
      destruct (existsb _ _).
      * unfold ret in E. discriminate.
      * eapply refines_trans;
          [apply (refines_assign cls a (hd 0 u)); assumption |].
        eapply IH; [| | exact E].
        -- now apply assign_literal_unassigned.
        -- now apply assign_literal_nonzero.
Qed.

Lemma unit_propagate_sound (fuel : nat) :
  forall (cls : list (list Z)) (a : gmap Z bool) (s s' : BaseDPLL.t)
         cls' a',
    unassigned_in a cls -> nonzero_lits cls ->
    BaseDPLL._unit_propagate fuel cls a s = Done ((Some cls', a'), s') ->
    refines cls a cls' a'.
Proof.
  induction fuel as [| fuel IH]; intros cls a s s' cls' a' HJ HW E;
    simpl in E.
  - discriminate.
  - destruct (List.filter _ cls) as [| u units].
    + unfold ret in E. inversion E; subst. now apply refines_refl.
    + unfold bind in E.
      destruct (BaseDPLL._unit_propagate_for (u :: units) cls a false s)
        as [[[a1 | [[cls1 a1] changed]] s1] | e |] eqn:Efor;
        try discriminate.
      pose proof (unit_propagate_for_sound _ _ _ _ _ _ _ _ _ HJ HW Efor)
        as R1.
      destruct changed.
      * eapply refines_trans; [exact R1 |].
        destruct R1 as (_ & J1 & W1 & _). eapply IH; eassumption.
      * unfold ret in E. inversion E; subst. exact R1.
Qed.

Lemma minimum_In (rest : list Z) :
  forall x, In (minimum x rest) (x :: rest).
Proof.
  unfold minimum. induction rest as [| y rest IH]; intros x; simpl.
  - now left.
  - destruct (IH (Z.min x y)) as [E | Hin].
    + rewrite <- E. destruct (Z.min_spec x y) as [[_ ->] | [_ ->]]; auto.
    + auto.
Qed.

Lemma find_pure_literal_In (cls : list (list Z)) (l : Z) :
  BaseDPLL.truthy (BaseDPLL._find_pure_literal cls) = Some l ->
  l <> 0 /\ exists c, In c cls /\ In l c.
Proof.
  unfold BaseDPLL.truthy.
  destruct (BaseDPLL._find_pure_literal cls) as [p |] eqn:Ep;
    [| discriminate].
  destruct (p =? 0) eqn:Ez; [discriminate |].
  intros E. inversion E; subst l. apply Z.eqb_neq in Ez.
  split; [assumption |]. apply in_concat.
  unfold BaseDPLL._find_pure_literal in Ep.
  destruct (List.filter _ (List.filter (fun lit => 0 <? lit) (concat cls)))
    as [| x rest] eqn:Epos.
  - destruct (List.filter _ (map Z.opp _)) as [| y rest] eqn:Eneg;
      [discriminate |].
    inversion Ep; subst p.
    pose proof (minimum_In rest y) as Hin. rewrite <- Eneg in Hin.
    apply filter_In in Hin. destruct Hin as (Hin & _).
    apply in_map_iff in Hin. destruct Hin as (z & Hz & Hin).
    apply filter_In in Hin. rewrite <- Hz.
    replace (- - z) with z by lia. tauto.
  - inversion Ep; subst p.
    pose proof (minimum_In rest x) as Hin. rewrite <- Epos in Hin.
    apply filter_In in Hin. destruct Hin as (Hin & _).
    apply filter_In in Hin. tauto.
Qed.

Lemma count_incr_keys (k x : Z) (d : list (Z * nat)) :
  In k (map fst (count_incr x d)) -> k = x \/ In k (map fst d).
Proof.
  induction d as [| [k' n] d IH]; simpl.
  - intros [<- | []]. now left.
  - destruct (k' =? x); simpl; intros [<- | H]; auto.
    destruct (IH H); auto.
Qed.

Lemma count_incr_nonempty (x : Z) (d : list (Z * nat)) : count_incr x d <> [].
Proof. destruct d as [| [k n] d]; simpl; [| destruct (k =? x)]; discriminate. Qed.

Lemma lit_count_keys (lits : list Z) :
  forall (d : list (Z * nat)) (k : Z),
    In k (map fst (fold_left (fun d lit => count_incr lit d) lits d)) ->
    In k lits \/ In k (map fst d).
Proof.
  induction lits as [| x lits IH]; intros d k H; simpl in *.
  - now right.
  - destruct (IH _ _ H) as [Hin | Hin]; [auto |].
    destruct (count_incr_keys _ _ _ Hin); auto.
Qed.

Lemma lit_count_empty (lits : list Z) :
  forall d : list (Z * nat),
    fold_left (fun d lit => count_incr lit d) lits d = [] -> lits = [].
Proof.
  induction lits as [| x lits IH]; intros d H; simpl in *.
  - reflexivity.
  - exfalso. pose proof (IH _ H) as E. subst lits. simpl in H.
    now apply count_incr_nonempty in H.
Qed.

Lemma max_key_from_In (d : list (Z * nat)) :
  forall (best : Z) (n : nat),
    In (max_key_from best n d) (best :: map fst d).
Proof.
  induction d as [| [k m] d IH]; intros best n; simpl.
  - now left.
  - destruct (n <? m)%nat.
    + right. apply IH.
    + destruct (IH best n) as [E | Hin]; auto.
Qed.

Lemma max_key_In (d : list (Z * nat)) (k : Z) :
  max_key d = Some k -> In k (map fst d).
Proof.
  destruct d as [| [k0 n] d]; simpl; [discriminate |].
  intros E. inversion E. apply max_key_from_In.
Qed.

Lemma choose_variable_spec (cls : list (list Z)) :
  (exists c l, In c cls /\ In l c
               /\ BaseDPLL._choose_variable cls = Z.abs l)
  \/ ((forall c, In c cls -> c = [])
      /\ BaseDPLL._choose_variable cls = 1).
Proof.
  unfold BaseDPLL._choose_variable.
  destruct (max_key _) as [best |] eqn:E.
  - left. apply max_key_In, lit_count_keys in E.
    destruct E as [E | []]. apply in_concat in E.
    destruct E as (c & Hc & Hl). now exists c, best.
  - right. split; [| reflexivity].
    destruct (fold_left _ (concat cls) []) as [| [k n] d] eqn:Ed;
      [| discriminate].
    apply lit_count_empty in Ed.
    intros c Hc. destruct c as [| l c]; [reflexivity |].
    assert (Hin : In l (concat cls)).
    { apply in_concat. exists (l :: c). split; [assumption | now left]. }
    rewrite Ed in Hin. destruct Hin.
Qed.

Lemma choose_variable_pos (cls : list (list Z)) :
  nonzero_lits cls -> 0 < BaseDPLL._choose_variable cls.
Proof.
  intros HW. destruct (choose_variable_spec cls)
    as [(c & l & Hc & Hl & ->) | (_ & ->)]; [| lia].
  specialize (HW c l Hc Hl). lia.
Qed.

(** A call of [_dpll] that returns [True] leaves in [self.assignment] an
    extension of the assignment it was given that satisfies every clause
    it was given. *)
Lemma dpll_sound (fuel : nat) :
  forall (cls : list (list Z)) (a : gmap Z bool) (s s' : BaseDPLL.t),
    unassigned_in a cls -> nonzero_lits cls ->
    BaseDPLL._dpll fuel cls a s = Done (true, s') ->
    a ⊆ BaseDPLL.assignment s' /\ all_sat (BaseDPLL.assignment s') cls.
Proof.
  induction fuel as [| fuel IH]; intros cls a s s' HJ HW E; simpl in E.
  - discriminate.
  - unfold bind in E.
    destruct (BaseDPLL._unit_propagate fuel cls a s)
      as [[[[cls1 |] a1] s1] | e |] eqn:Eup; try discriminate.
    pose proof (unit_propagate_sound _ _ _ _ _ _ _ HJ HW Eup)
      as (S1 & J1 & W1 & H1).
    destruct cls1 as [| c1 cls1'].
    { unfold BaseDPLL.set_assignment, modify, ret in E.
      inversion E; subst s'. simpl.
      split; [assumption |]. apply H1; [reflexivity |].
      intros c []. }
    set (cls1 := c1 :: cls1') in *.
    assert (Hstep : forall lit sx,
              BaseDPLL._dpll fuel (BaseDPLL._assign_literal cls1 lit)
                (<[Z.abs lit := 0 <? lit]> a1) sx = Done (true, s') ->
              (a1 !! Z.abs lit = None \/ In [] cls1) ->
              a ⊆ BaseDPLL.assignment s'
              /\ all_sat (BaseDPLL.assignment s') cls).
    { intros lit sx Ex Hcase.
      apply IH in Ex;
        [| now apply assign_literal_unassigned
         | now apply assign_literal_nonzero].
      destruct Ex as (S2 & Hsat2).
      assert (Hsat1 : all_sat (BaseDPLL.assignment s') cls1).
      { apply (assign_literal_sound cls1 lit); [| assumption].
        unfold lit_true. eapply lookup_weaken; [| exact S2].
        apply lookup_insert_eq. }
      destruct Hcase as [Hnone | Hempty].
      - assert (S3 : a1 ⊆ BaseDPLL.assignment s').
        { etransitivity; [| exact S2]. now apply insert_subseteq. }
        split; [etransitivity; eassumption | now apply H1].
      - destruct (Hsat1 [] Hempty) as (l & [] & _). }
    destruct (BaseDPLL.truthy (BaseDPLL._find_pure_literal cls1))
      as [pure_lit |] eqn:Ep.
    { apply find_pure_literal_In in Ep.
      destruct Ep as (_ & c & Hc & Hl).
      apply (Hstep pure_lit s1 E). left. now apply (J1 c). }
    unfold BaseDPLL.set_metrics, modify in E.
    set (var := BaseDPLL._choose_variable cls1) in *.
    assert (Hpos : 0 < var) by now apply choose_variable_pos.
    assert (Hcase : a1 !! var = None \/ In [] cls1).
    { destruct (choose_variable_spec cls1)
        as [(c & l & Hc & Hl & Ev) | (Hall & _)].
      - left. fold var in Ev. rewrite Ev. now apply (J1 c).
      - right. rewrite <- (Hall c1) at 1; now left. }
    match type of E with
    | match ?c ?sx with _ => _ end = _ =>
        destruct (c sx) as [[[|] s2] | e |] eqn:E1; try discriminate
    end.
    + unfold ret in E. inversion E; subst s2.
      eapply (Hstep var); [| rewrite Z.abs_eq by lia; exact Hcase].
      rewrite Z.abs_eq by lia.
      replace (0 <? var) with true by (symmetry; apply Z.ltb_lt; lia).
      exact E1.
    + eapply (Hstep (- var));
        [| rewrite Z.abs_opp, Z.abs_eq by lia; exact Hcase].
      rewrite Z.abs_opp, Z.abs_eq by lia.
      replace (0 <? - var) with false by (symmetry; apply Z.ltb_ge; lia).
      exact E.
Qed.

Lemma lookup_map_seq {A : Type} (f : nat -> A) (m : nat) :
  forall (start k : nat),
    (k < m)%nat -> map f (seq start m) !! k = Some (f (start + k)%nat).
Proof.
  induction m as [| m IH]; intros start k Hk; [lia |].
  destruct k as [| k]; simpl.
  - now rewrite Nat.add_0_r.
  - rewrite IH by lia. f_equal. f_equal. lia.
Qed.

Lemma model_of_agrees (num_vars : Z) (a : gmap Z bool) (l : Z) :
  1 <= Z.abs l <= num_vars -> lit_true a l ->
  agrees (model_of num_vars a) l = true.
Proof.
  intros Hl Htrue. unfold agrees, model_of, range.
  rewrite map_map, lookup_map_seq by lia.
  replace (1 + Z.of_nat (0 + Z.to_nat (Z.abs l - 1))) with (Z.abs l) by lia.
  unfold lit_true in Htrue. rewrite Htrue.
  apply andb_true_iff. split; [apply Z.leb_le; lia |].
  destruct (0 <? l) eqn:E; apply Z.eqb_eq.
  - apply Z.ltb_lt in E. lia.
  - apply Z.ltb_ge in E. lia.
Qed.

Lemma unit_propagate_for_num_vars (units : list (list Z)) :
  forall cls a changed (s s' : BaseDPLL.t) r,
    BaseDPLL._unit_propagate_for units cls a changed s = Done (r, s') ->
    BaseDPLL.num_vars s' = BaseDPLL.num_vars s.
Proof.
  induction units as [| u units IH]; intros cls a changed s s' r E;
    simpl in E.
  - unfold ret in E. now inversion E.
  - destruct (a !! Z.abs (hd 0 u)) as [b |].
    + destruct (negb (eqb b (0 <? hd 0 u))).
      * unfold ret in E. now inversion E.
      * eapply IH; eassumption.
    + unfold bind, BaseDPLL.set_metrics, modify in E.
      destruct (existsb _ _).
      * unfold ret in E. now inversion E.
      * apply IH in E. exact E.
Qed.

Lemma unit_propagate_num_vars (fuel : nat) :
  forall cls a (s s' : BaseDPLL.t) r,
    BaseDPLL._unit_propagate fuel cls a s = Done (r, s') ->
    BaseDPLL.num_vars s' = BaseDPLL.num_vars s.
Proof.
  induction fuel as [| fuel IH]; intros cls a s s' r E; simpl in E.
  - discriminate.
  - destruct (List.filter _ cls) as [| u units].
    + unfold ret in E. now inversion E.
    + unfold bind in E.
      destruct (BaseDPLL._unit_propagate_for (u :: units) cls a false s)
        as [[[a1 | [[cls1 a1] changed]] s1] | e |] eqn:Efor;
        try discriminate;
        apply unit_propagate_for_num_vars in Efor.
      * unfold ret in E. inversion E; subst. exact Efor.
      * destruct changed.
        -- apply IH in E. congruence.
        -- unfold ret in E. inversion E; subst. exact Efor.
Qed.

Lemma dpll_num_vars (fuel : nat) :
  forall cls a (s s' : BaseDPLL.t) r,
    BaseDPLL._dpll fuel cls a s = Done (r, s') ->
    BaseDPLL.num_vars s' = BaseDPLL.num_vars s.
Proof.
  induction fuel as [| fuel IH]; intros cls a s s' r E; simpl in E.
  - discriminate.
  - unfold bind in E.
    destruct (BaseDPLL._unit_propagate fuel cls a s)
      as [[[[cls1 |] a1] s1] | e |] eqn:Eup; try discriminate;
      apply unit_propagate_num_vars in Eup.
    + destruct cls1 as [| c1 cls1'].
      { unfold BaseDPLL.set_assignment, modify, ret in E.
        inversion E; subst. exact Eup. }
      destruct (BaseDPLL.truthy _).
      { apply IH in E. congruence. }
      unfold BaseDPLL.set_metrics, modify in E.
      match type of E with
      | match ?c ?sx with _ => _ end = _ =>
          destruct (c sx) as [[[|] s2] | e |] eqn:E1; try discriminate;
          apply IH in E1; simpl in E1
      end.
      * unfold ret in E. inversion E; subst. congruence.
      * apply IH in E. simpl in E. congruence.
    + unfold BaseDPLL.set_metrics, modify, ret in E.
      inversion E; subst. exact Eup.
Qed.

(** The base solver is sound: on a problem whose literals [l] all satisfy
    [1 <= |l| <= num_vars], a model returned with status "SAT" agrees with
    some literal of every input clause. *)
Theorem BaseDPLL_solve_sound (iter_order : list Z -> list Z)
    (clauses : list (list Z)) (num_vars : Z) (model : list Z)
    (m : SolverMetrics) :
  well_formed_cnf clauses num_vars ->
  returns (run iter_order "base" clauses num_vars)
          ("SAT"%string, Some model, m) ->
  forall c, In c clauses -> satisfies model c = true.
Proof.
  intros Hwf [fuel E] c Hc.
  unfold run in E. simpl in E.
  destruct (BaseDPLL.solve fuel (BaseDPLL.__init__ clauses num_vars))
    as [[r s2] | e |] eqn:Es; try discriminate.
  inversion E; subst r m. clear E.
  unfold BaseDPLL.solve, bind, BaseDPLL.set_metrics, modify, get in Es.
  simpl in Es.
  match type of Es with
  | match ?d with _ => _ end = _ =>
      destruct d as [[[|] s1] | e |] eqn:Ed; try discriminate
  end.
  unfold ret in Es. inversion Es; subst model s2. clear Es.
  pose proof (dpll_num_vars _ _ _ _ _ _ Ed) as Hn. simpl in Hn.
  rewrite Hn.
  apply dpll_sound in Ed.
  - destruct Ed as (_ & Hsat). destruct (Hsat c Hc) as (l & Hl & Htrue).
    unfold satisfies. apply existsb_exists. exists l.
    split; [assumption |].
    apply model_of_agrees; [now apply (Hwf c) | assumption].
  - intros c' l' _ _. apply lookup_empty.
  - intros c' l' Hc' Hl'. specialize (Hwf c' l' Hc' Hl'). lia.
Qed.

Lemma BaseDPLL_solve_sound_witness :
  well_formed_cnf [[1; 2]; [-1; 2]; [1; -2]] 2
  /\ forall c, In c [[1; 2]; [-1; 2]; [1; -2]] -> satisfies [1; 2] c = true.
Proof.
  assert (H : well_formed_cnf [[1; 2]; [-1; 2]; [1; -2]] 2).
  { intros c l Hc Hl. simpl in Hc.
    repeat match goal with
      | H : _ \/ _ |- _ => destruct H
      | H : False |- _ => destruct H
      | H : In _ _ |- _ => simpl in H
      end; subst; simpl in *;
    repeat match goal with
      | H : _ \/ _ |- _ => destruct H
      | H : False |- _ => destruct H
      end; subst; lia. }
  split; [exact H |].
  apply (BaseDPLL_solve_sound insertion_order [[1; 2]; [-1; 2]; [1; -2]] 2
           [1; 2] (mkMetrics 1 0 1 0) H).
  exists 10%nat. vm_compute. reflexivity.
Defined.

(** ** The heap of the watched solver *)

Lemma grows_at_refl (p : nat) (h : list (gmap Z bool)) : grows_at p h h.
Proof.
  split; [lia |]. split; [auto |]. intros d Hd. now exists d.
Qed.

Lemma grows_at_trans (p : nat) (h1 h2 h3 : list (gmap Z bool)) :
  grows_at p h1 h2 -> grows_at p h2 h3 -> grows_at p h1 h3.
Proof.
  intros (L1 & F1 & G1) (L2 & F2 & G2).
  split; [lia |]. split.
  - intros i Hi Hp. rewrite F2 by (lia || assumption). now apply F1.
  - intros d Hd. destruct (G1 d Hd) as (d1 & Hd1 & S1).
    destruct (G2 d1 Hd1) as (d2 & Hd2 & S2).
    exists d2. split; [assumption | etransitivity; eassumption].
Qed.

(** Changes above the objects of [h] do not show from [h]. *)
Lemma grows_at_above (p : nat) (h h1 h2 : list (gmap Z bool)) :
  grows_at p h h1 ->
  (length h1 <= length h2)%nat ->
  (forall i, (i < length h)%nat -> h2 !! i = h1 !! i) ->
  (p < length h)%nat ->
  grows_at p h h2.
Proof.
  intros (L1 & F1 & G1) L2 Hsame Hp.
  split; [lia |]. split.
  - intros i Hi Hne. rewrite Hsame by assumption. now apply F1.
  - intros d Hd. rewrite Hsame by assumption. now apply G1.
Qed.

(** A write of a key the dictionary at [p] does not hold *)
Lemma grows_at_write (p : nat) (h : list (gmap Z bool)) (k : Z) (v : bool) :
  default ∅ (h !! p) !! k = None ->
  grows_at p h (alter (insert k v) p h).
Proof.
  intros Hfresh. split; [now rewrite length_alter |]. split.
  - intros i _ Hne. now apply list_lookup_alter_ne.
  - intros d Hd. rewrite list_lookup_alter_eq, Hd. simpl.
    eexists. split; [reflexivity |]. apply insert_subseteq.
    now rewrite Hd in Hfresh.
Qed.

Lemma grows_at_alloc (p : nat) (h : list (gmap Z bool)) (d : gmap Z bool) :
  grows_at p h (h ++ [d]).
Proof.
  split; [rewrite length_app; lia |]. split.
  - intros i Hi _. now apply lookup_app_l.
  - intros d0 Hd0. exists d0. split; [| reflexivity].
    rewrite lookup_app_l; [assumption |].
    now apply lookup_lt_Some in Hd0.
Qed.

Lemma bind_Done {S A B : Type} (c : M S A) (k : A -> M S B) (s s' : S)
    (r : B) :
  bind c k s = Done (r, s') ->
  exists a s1, c s = Done (a, s1) /\ k a s1 = Done (r, s').
Proof.
  unfold bind. destruct (c s) as [[a s1] | e |]; try discriminate.
  intros E. now exists a, s1.
Qed.

Lemma is_unit_clause_state (i : nat) (st st' : WatchedLiteralsDPLL.state)
    (b : bool) :
  WatchedLiteralsDPLL._is_unit_clause i st = Done (b, st') -> st' = st.
Proof.
  unfold WatchedLiteralsDPLL._is_unit_clause, bind,
    WatchedLiteralsDPLL.clause_at, WatchedLiteralsDPLL.read_assignment, ret.
  destruct (_ !! i); [| discriminate]. intros E. now inversion E.
Qed.

Lemma is_conflicting_state (i : nat) (st st' : WatchedLiteralsDPLL.state)
    (b : bool) :
  WatchedLiteralsDPLL._is_conflicting i st = Done (b, st') -> st' = st.
Proof.
  unfold WatchedLiteralsDPLL._is_conflicting, bind,
    WatchedLiteralsDPLL.clause_at, WatchedLiteralsDPLL.read_assignment, ret.
  destruct (_ !! i); [| discriminate]. intros E. now inversion E.
Qed.

Lemma initial_units_state (idxs : list nat) :
  forall (queue : list nat) (st st' : WatchedLiteralsDPLL.state) r,
    WatchedLiteralsDPLL.initial_units idxs queue st = Done (r, st') ->
    st' = st.
Proof.
  induction idxs as [| i idxs IH]; intros queue st st' r E; simpl in E.
  - unfold ret in E. now inversion E.
  - apply bind_Done in E. destruct E as (b & s1 & E1 & E).
    apply is_unit_clause_state in E1. subst s1. now apply IH in E.
Qed.

Lemma recheck_watchers_state (watching : list nat) :
  forall (queue : list nat) (st st' : WatchedLiteralsDPLL.state) r,
    WatchedLiteralsDPLL.recheck_watchers watching queue st = Done (r, st') ->
    st' = st.
Proof.
  induction watching as [| i watching IH]; intros queue st st' r E;
    simpl in E.
  - unfold ret in E. now inversion E.
  - apply bind_Done in E. destruct E as (b & s1 & E1 & E).
    apply is_unit_clause_state in E1. subst s1.
    destruct b; [now apply IH in E |].
    apply bind_Done in E. destruct E as (c & s1 & E1 & E).
    apply is_conflicting_state in E1. subst s1.
    destruct c; [unfold ret in E; now inversion E | now apply IH in E].
Qed.

(** Unit propagation writes into the current dictionary only, and only
    keys it does not hold. *)
Lemma propagate_queue_frame (fuel : nat) :
  forall (queue : list nat) (st st' : WatchedLiteralsDPLL.state) r,
    WatchedLiteralsDPLL.propagate_queue fuel queue st = Done (r, st') ->
    WatchedLiteralsDPLL.assignment (WatchedLiteralsDPLL.self st')
    = WatchedLiteralsDPLL.assignment (WatchedLiteralsDPLL.self st)
    /\ length (WatchedLiteralsDPLL.heap st')
       = length (WatchedLiteralsDPLL.heap st)
    /\ grows_at (WatchedLiteralsDPLL.assignment (WatchedLiteralsDPLL.self st))
                (WatchedLiteralsDPLL.heap st) (WatchedLiteralsDPLL.heap st').
Proof.
  induction fuel as [| fuel IH]; intros queue st st' r E; simpl in E.
  - discriminate.
  - destruct queue as [| clause_idx queue].
    { unfold ret in E. inversion E; subst.
      split; [reflexivity |]. split; [reflexivity |].
      apply grows_at_refl. }
    apply bind_Done in E. destruct E as (clause & s1 & E1 & E).
    unfold WatchedLiteralsDPLL.clause_at in E1.
    destruct (_ !! clause_idx); [| discriminate].
    inversion E1; subst s1. clear E1.
    unfold WatchedLiteralsDPLL._get_unit_literal, bind,
      WatchedLiteralsDPLL.read_assignment, ret in E. simpl in E.
    destruct (WatchedLiteralsDPLL.get_unit_literal_loop _ _)
      as [unit_lit |]; [| now apply IH in E].
    destruct (WatchedLiteralsDPLL.current st !! Z.abs unit_lit)
      as [b |] eqn:Ha.
    { destruct (negb _); [| now apply IH in E].
      inversion E; subst.
      split; [reflexivity |]. split; [reflexivity |].
      apply grows_at_refl. }
    unfold WatchedLiteralsDPLL.write_assignment,
      WatchedLiteralsDPLL.set_metrics, modify, get in E. simpl in E.
    match type of E with
    | match ?c ?sx with _ => _ end = _ =>
        destruct (c sx) as [[q s2] | e |] eqn:E2; try discriminate
    end.
    apply recheck_watchers_state in E2. subst s2.
    assert (Hw : grows_at
                   (WatchedLiteralsDPLL.assignment
                      (WatchedLiteralsDPLL.self st))
                   (WatchedLiteralsDPLL.heap st)
                   (alter (insert (Z.abs unit_lit) (0 <? unit_lit))
                      (WatchedLiteralsDPLL.assignment
                         (WatchedLiteralsDPLL.self st))
                      (WatchedLiteralsDPLL.heap st))).
    { apply grows_at_write. exact Ha. }
    destruct q as [queue' |].
    + apply IH in E. simpl in E. destruct E as (Ea & El & Eg).
      rewrite length_alter in El.
      split; [assumption |]. split; [assumption |].
      eapply grows_at_trans; eassumption.
    + inversion E; subst. simpl.
      split; [reflexivity |]. split; [apply length_alter | assumption].
Qed.

Lemma unit_propagate_frame (fuel : nat)
    (st st' : WatchedLiteralsDPLL.state) (r : bool) :
  WatchedLiteralsDPLL._unit_propagate fuel st = Done (r, st') ->
  WatchedLiteralsDPLL.assignment (WatchedLiteralsDPLL.self st')
  = WatchedLiteralsDPLL.assignment (WatchedLiteralsDPLL.self st)
  /\ length (WatchedLiteralsDPLL.heap st')
     = length (WatchedLiteralsDPLL.heap st)
  /\ grows_at (WatchedLiteralsDPLL.assignment (WatchedLiteralsDPLL.self st))
              (WatchedLiteralsDPLL.heap st) (WatchedLiteralsDPLL.heap st').
Proof.
  unfold WatchedLiteralsDPLL._unit_propagate. intros E.
  apply bind_Done in E. destruct E as (s0 & s1 & E0 & E).
  unfold get in E0. inversion E0; subst s0 s1. clear E0.
  apply bind_Done in E. destruct E as (queue & s1 & E1 & E).
  apply initial_units_state in E1. subst s1.
  now apply propagate_queue_frame in E.
Qed.

Lemma watched_lit_count_inner (a : gmap Z bool) (clause : list Z) :
  forall d : list (Z * nat),
    (forall k, In k (map fst d) -> a !! k = None) ->
    forall k,
      In k (map fst
              (fold_left
                 (fun d lit =>
                    match a !! Z.abs lit with
                    | None => count_incr (Z.abs lit) d
                    | Some _ => d
                    end) clause d)) ->
      a !! k = None.
Proof.
  induction clause as [| lit clause IH]; intros d Hd k Hk; simpl in Hk.
  - now apply Hd.
  - apply (IH _) in Hk; [assumption |].
    intros k' Hk'. destruct (a !! Z.abs lit) eqn:Ea; [now apply Hd |].
    apply count_incr_keys in Hk'. destruct Hk' as [-> | Hk']; auto.
Qed.

Lemma watched_lit_count_outer (a : gmap Z bool) (cls : list (list Z)) :
  forall d : list (Z * nat),
    (forall k, In k (map fst d) -> a !! k = None) ->
    forall k,
      In k (map fst
              (fold_left
                 (fun d clause =>
                    if WatchedLiteralsDPLL.is_satisfied a clause then d
                    else fold_left
                           (fun d lit =>
                              match a !! Z.abs lit with
                              | None => count_incr (Z.abs lit) d
                              | Some _ => d
                              end) clause d) cls d)) ->
      a !! k = None.
Proof.
  induction cls as [| clause cls IH]; intros d Hd k Hk; simpl in Hk.
  - now apply Hd.
  - apply (IH _) in Hk; [assumption |].
    intros k' Hk'.
    destruct (WatchedLiteralsDPLL.is_satisfied a clause); [now apply Hd |].
    now apply (watched_lit_count_inner a clause d Hd).
Qed.

(** The decision variable is unassigned, and choosing it changes nothing. *)
Lemma watched_choose_variable_unassigned
    (st st' : WatchedLiteralsDPLL.state) (var : Z) :
  WatchedLiteralsDPLL._choose_variable st = Done (Some var, st') ->
  st' = st /\ WatchedLiteralsDPLL.current st !! var = None.
Proof.
  unfold WatchedLiteralsDPLL._choose_variable, bind, get,
    WatchedLiteralsDPLL.read_assignment, ret.
  intros E. inversion E as [[Ek Es]]. subst st'. split; [reflexivity |].
  apply max_key_In in Ek.
  apply (watched_lit_count_outer _ _ []) in Ek; [assumption |].
  intros k [].
Qed.

(** A call of [_dpll] leaves every dictionary that existed before the call
    as it was, except the one [self.assignment] referred to, which has only
    gained keys; it may leave [self.assignment] referring to another
    dictionary. *)
Lemma watched_dpll_frame (fuel : nat) :
  forall (st st' : WatchedLiteralsDPLL.state) (r : bool),
    valid st ->
    WatchedLiteralsDPLL._dpll fuel st = Done (r, st') ->
    valid st'
    /\ grows_at (WatchedLiteralsDPLL.assignment (WatchedLiteralsDPLL.self st))
                (WatchedLiteralsDPLL.heap st) (WatchedLiteralsDPLL.heap st').
Proof.
  induction fuel as [| fuel IH]; intros st st' r Hv E; simpl in E.
  - discriminate.
  - apply bind_Done in E. destruct E as (ok & s1 & E1 & E).
    apply unit_propagate_frame in E1. destruct E1 as (Ea1 & El1 & Eg1).
    assert (Hv1 : valid s1) by (unfold valid in *; lia).
    set (p := WatchedLiteralsDPLL.assignment (WatchedLiteralsDPLL.self st))
      in *.
    destruct ok; cbn [negb] in E.
    2:{ unfold bind, WatchedLiteralsDPLL.set_metrics, modify, ret in E.
        inversion E; subst. split; [exact Hv1 | exact Eg1]. }
    apply bind_Done in E. destruct E as (s0 & s1' & E0 & E).
    unfold get in E0. inversion E0; subst s0 s1'. clear E0.
    apply bind_Done in E. destruct E as (a & s1' & E0 & E).
    unfold WatchedLiteralsDPLL.read_assignment in E0.
    inversion E0; subst a s1'. clear E0.
    destruct (_ =? _).
    { unfold ret in E. inversion E; subst. split; assumption. }
    apply bind_Done in E. destruct E as (choice & s2 & Ec & E).
    destruct choice as [var |].
    2:{ unfold WatchedLiteralsDPLL._choose_variable, bind, get,
          WatchedLiteralsDPLL.read_assignment, ret in Ec.
        inversion Ec; subst. unfold ret in E. inversion E; subst.
        split; assumption. }
    apply watched_choose_variable_unassigned in Ec.
    destruct Ec as (-> & Hfresh).
    remember (WatchedLiteralsDPLL.heap s1) as h1 eqn:Eh1.
    remember (length h1) as q eqn:Eq.
    assert (Hpq : (p < q)%nat).
    { unfold valid in Hv1. rewrite Ea1, <- Eh1, <- Eq in Hv1. exact Hv1. }
    apply bind_Done in E. destruct E as ([] & s2 & E0 & E).
    unfold WatchedLiteralsDPLL.set_metrics, modify in E0.
    inversion E0; subst s2. clear E0.
    apply bind_Done in E. destruct E as (saved & s2 & E0 & E).
    unfold WatchedLiteralsDPLL._save_state in E0. simpl in E0.
    inversion E0; subst saved s2. clear E0.
    apply bind_Done in E. destruct E as ([] & s2 & E0 & E).
    unfold WatchedLiteralsDPLL.write_assignment, modify in E0. simpl in E0.
    inversion E0; subst s2. clear E0.
    rewrite <- Eh1, Ea1 in E.
    (* the first branch *)
    apply bind_Done in E. destruct E as (r1 & s3 & E3 & E).
    apply IH in E3; [| unfold valid; simpl; rewrite length_alter,
                         length_app; simpl; lia].
    simpl in E3. destruct E3 as (Hv3 & Eg3).
    unfold WatchedLiteralsDPLL.current in Eg3, Hfresh. simpl in Eg3.
    rewrite Ea1, <- Eh1 in Hfresh. rewrite <- Eq in E.
    assert (Eg2 : grows_at p h1
                    (alter (insert var true) p
                       (h1 ++ [default ∅ (h1 !! p)]))).
    { eapply grows_at_trans; [apply grows_at_alloc |].
      apply grows_at_write. rewrite lookup_app_l by lia. exact Hfresh. }
    assert (Eg13 : grows_at p h1 (WatchedLiteralsDPLL.heap s3))
      by (eapply grows_at_trans; eassumption).
    destruct r1.
    { unfold ret in E. inversion E; subst st'. split; [assumption |].
      eapply grows_at_trans; eassumption. }
    (* the second branch *)
    assert (L3 : (q < length (WatchedLiteralsDPLL.heap s3))%nat).
    { destruct Eg3 as (L & _). rewrite length_alter, length_app in L.
      simpl in L. lia. }
    apply bind_Done in E. destruct E as ([] & s4 & E0 & E).
    unfold WatchedLiteralsDPLL._restore_state, modify in E0. simpl in E0.
    inversion E0; subst s4. clear E0.
    apply bind_Done in E. destruct E as ([] & s4 & E0 & E).
    unfold WatchedLiteralsDPLL.set_metrics, modify in E0. simpl in E0.
    inversion E0; subst s4. clear E0.
    apply bind_Done in E. destruct E as ([] & s4 & E0 & E).
    unfold WatchedLiteralsDPLL.write_assignment, modify in E0. simpl in E0.
    inversion E0; subst s4. clear E0.
    apply bind_Done in E. destruct E as (r2 & s5 & E5 & E).
    apply IH in E5; [| unfold valid; simpl; now rewrite length_alter].
    simpl in E5. destruct E5 as (Hv5 & Eg5).
    assert (L5 : (length (WatchedLiteralsDPLL.heap s3)
                  <= length (WatchedLiteralsDPLL.heap s5))%nat).
    { destruct Eg5 as (L & _). now rewrite length_alter in L. }
    assert (Eg15 : grows_at p h1 (WatchedLiteralsDPLL.heap s5)).
    { apply (grows_at_above p h1 (WatchedLiteralsDPLL.heap s3));
        try assumption; [| lia].
      intros i Hi. destruct Eg5 as (_ & F & _).
      rewrite F by (rewrite ?length_alter; lia).
      apply list_lookup_alter_ne. lia. }
    assert (Hfinal : grows_at p (WatchedLiteralsDPLL.heap st)
                       (WatchedLiteralsDPLL.heap s5))
      by (eapply grows_at_trans; eassumption).
    destruct r2.
    + unfold ret in E. inversion E; subst st'. split; assumption.
    + apply bind_Done in E. destruct E as ([] & s6 & E0 & E).
      unfold WatchedLiteralsDPLL._restore_state, modify in E0. simpl in E0.
      inversion E0; subst s6. clear E0.
      unfold ret in E. inversion E; subst st'. simpl.
      split; [| assumption]. unfold valid. simpl. lia.
Qed.

(** At every decision node of the watched solver where both polarities
    fail, the assignment the call leaves holds the decision variable, mapped
    to [False]; the assignment saved before the decision does not hold it.
    So the call never leaves the saved pre-decision assignment. *)
Theorem watched_both_fail_keeps_decision (fuel : nat)
    (st st1 st' : WatchedLiteralsDPLL.state) (var : Z) :
  valid st ->
  WatchedLiteralsDPLL._unit_propagate fuel st = Done (true, st1) ->
  WatchedLiteralsDPLL._choose_variable st1 = Done (Some var, st1) ->
  WatchedLiteralsDPLL._dpll (S fuel) st = Done (false, st') ->
  WatchedLiteralsDPLL.current st1 !! var = None
  /\ WatchedLiteralsDPLL.current st' !! var = Some false.
Proof.
  intros Hv Hup Hch E.
  pose proof (watched_choose_variable_unassigned _ _ _ Hch) as (_ & Hfresh).
  split; [exact Hfresh |].
  simpl in E.
  apply bind_Done in E. destruct E as (ok & s1 & E1 & E).
  rewrite Hup in E1. inversion E1; subst ok s1. clear E1.
  cbn [negb] in E.
  apply unit_propagate_frame in Hup. destruct Hup as (Ea1 & El1 & _).
  assert (Hv1 : valid st1) by (unfold valid in *; lia).
  apply bind_Done in E. destruct E as (s0 & s1' & E0 & E).
  unfold get in E0. inversion E0; subst s0 s1'. clear E0.
  apply bind_Done in E. destruct E as (a & s1' & E0 & E).
  unfold WatchedLiteralsDPLL.read_assignment in E0.
  inversion E0; subst a s1'. clear E0.
  destruct (_ =? _); [discriminate |].
  apply bind_Done in E. destruct E as (choice & s2 & Ec & E).
  rewrite Hch in Ec. inversion Ec; subst choice s2. clear Ec.
  remember (WatchedLiteralsDPLL.assignment (WatchedLiteralsDPLL.self st1))
    as p eqn:Ep.
  remember (WatchedLiteralsDPLL.heap st1) as h1 eqn:Eh1.
  remember (length h1) as q eqn:Eq.
  assert (Hpq : (p < q)%nat).
  { unfold valid in Hv1. rewrite <- Ep, <- Eh1, <- Eq in Hv1. exact Hv1. }
  unfold WatchedLiteralsDPLL.current in Hfresh.
  rewrite <- Ep, <- Eh1 in Hfresh.
  apply bind_Done in E. destruct E as ([] & s2 & E0 & E).
  unfold WatchedLiteralsDPLL.set_metrics, modify in E0.
  inversion E0; subst s2. clear E0.
  apply bind_Done in E. destruct E as (saved & s2 & E0 & E).
  unfold WatchedLiteralsDPLL._save_state in E0. simpl in E0.
  inversion E0; subst saved s2. clear E0.
  apply bind_Done in E. destruct E as ([] & s2 & E0 & E).
  unfold WatchedLiteralsDPLL.write_assignment, modify in E0. simpl in E0.
  inversion E0; subst s2. clear E0.
  rewrite <- Eh1, <- Ep in E.
  apply bind_Done in E. destruct E as (r1 & s3 & E3 & E).
  apply watched_dpll_frame in E3;
    [| unfold valid; simpl; rewrite length_alter, length_app; simpl; lia].
  simpl in E3. destruct E3 as (Hv3 & Eg3).
  unfold WatchedLiteralsDPLL.current in Eg3. simpl in Eg3.
  rewrite <- Eq in E.
  destruct r1; [discriminate |].
  (* the saved copy is untouched by the first branch *)
  assert (Hq3 : WatchedLiteralsDPLL.heap s3 !! q
                = Some (default ∅ (h1 !! p))).
  { destruct Eg3 as (_ & F & _).
    rewrite F by (rewrite ?length_alter, ?length_app; simpl; lia).
    rewrite list_lookup_alter_ne by lia.
    now apply list_lookup_middle. }
  apply bind_Done in E. destruct E as ([] & s4 & E0 & E).
  unfold WatchedLiteralsDPLL._restore_state, modify in E0. simpl in E0.
  inversion E0; subst s4. clear E0.
  apply bind_Done in E. destruct E as ([] & s4 & E0 & E).
  unfold WatchedLiteralsDPLL.set_metrics, modify in E0. simpl in E0.
  inversion E0; subst s4. clear E0.
  apply bind_Done in E. destruct E as ([] & s4 & E0 & E).
  unfold WatchedLiteralsDPLL.write_assignment, modify in E0. simpl in E0.
  inversion E0; subst s4. clear E0.
  apply bind_Done in E. destruct E as (r2 & s5 & E5 & E).
  apply watched_dpll_frame in E5;
    [| unfold valid; simpl; rewrite length_alter;
       now apply lookup_lt_Some in Hq3].
  simpl in E5. destruct E5 as (Hv5 & Eg5).
  destruct r2; [discriminate |].
  apply bind_Done in E. destruct E as ([] & s6 & E0 & E).
  unfold WatchedLiteralsDPLL._restore_state, modify in E0. simpl in E0.
  inversion E0; subst s6. clear E0.
  unfold ret in E. inversion E; subst st'. clear E.
  unfold WatchedLiteralsDPLL.current. simpl.
  destruct Eg5 as (_ & _ & G).
  destruct (G (<[var := false]> (default ∅ (h1 !! p)))) as (d' & Hd' & Hsub).
  { now rewrite list_lookup_alter_eq, Hq3. }
  rewrite Hd'. simpl. eapply lookup_weaken; [| exact Hsub].
  apply lookup_insert_eq.
Qed.

Lemma watched_both_fail_keeps_decision_witness :
  exists st',
    WatchedLiteralsDPLL._dpll 21
      (WatchedLiteralsDPLL.__init__ cnf_all_signs' 2) = Done (false, st')
    /\ WatchedLiteralsDPLL.current
         (WatchedLiteralsDPLL.__init__ cnf_all_signs' 2) !! 1 = None
    /\ WatchedLiteralsDPLL.current st' !! 1 = Some false.
Proof.
  eexists. split; [vm_compute; reflexivity |].
  apply (watched_both_fail_keeps_decision 20
           (WatchedLiteralsDPLL.__init__ cnf_all_signs' 2)).
  - unfold valid. simpl. lia.
  - vm_compute. reflexivity.
  - vm_compute. reflexivity.
  - vm_compute. reflexivity.
Defined.

(** ** The solvers on concrete inputs *)

Lemma insertion_order_enumerates : enumerates insertion_order.
Proof. intros s x. reflexivity. Qed.

Lemma bind_eq {S A B : Type} (c : M S A) (k : A -> M S B) (s s1 : S)
    (a : A) :
  c s = Done (a, s1) -> bind c k s = k a s1.
Proof. unfold bind. now intros ->. Qed.

Lemma bind_assoc {S A B C : Type} (c : M S A) (k : A -> M S B)
    (k' : B -> M S C) (s : S) :
  bind (bind c k) k' s = bind c (fun a => bind (k a) k') s.
Proof. unfold bind. destruct (c s) as [[a s1] | e |]; reflexivity. Qed.

(** One step of a run: the first statement is evaluated, the rest goes on
    from its result. *)
Ltac run_step :=
  first [ rewrite bind_assoc
        | erewrite bind_eq by (vm_compute; reflexivity); cbv beta iota ].

Lemma filter_none (l s : list Z) :
  (forall x, In x l -> In x s) ->
  List.filter (fun v => negb (mem v s)) l = [].
Proof.
  intros H. induction l as [| x l IH]; [reflexivity |]. simpl.
  assert (Hx : mem x s = true) by (apply mem_In, H; now left).
  rewrite Hx. simpl. apply IH. intros y Hy. apply H. now right.
Qed.

Lemma set_add_In (x y : Z) (s : list Z) :
  In y (set_add x s) -> y = x \/ In y s.
Proof.
  unfold set_add. destruct (mem x s); [auto |].
  intros H. apply in_app_or in H. destruct H as [H | [-> | []]]; auto.
Qed.

Lemma set_fold_In (l : list Z) :
  forall (s : list Z) (y : Z),
    In y (fold_left (fun s x => set_add x s) l s) -> In y l \/ In y s.
Proof.
  induction l as [| x l IH]; intros s y H; simpl in *; [auto |].
  destruct (IH _ _ H) as [Hl | Hs]; [auto |].
  destruct (set_add_In _ _ _ Hs) as [-> | Hs']; auto.
Qed.

Lemma flat_map_nil {A B : Type} (f : A -> list B) (l : list A) :
  (forall x, In x l -> f x = []) -> flat_map f l = [].
Proof.
  intros H. induction l as [| x l IH]; [reflexivity |]. simpl.
  rewrite (H x) by now left. apply IH. intros y Hy. apply H. now right.
Qed.

(** A positive and a negative clause that hold nothing but [var] and
    [-var] have an empty resolvent, which the pass drops. *)
Lemma resolvents_nil (iter_order : list Z -> list Z) (var : Z)
    (pos_clauses neg_clauses : list (list Z)) :
  (forall c x, In c pos_clauses \/ In c neg_clauses -> In x c ->
               x = var \/ x = - var) ->
  PreprocessingDPLL.resolvents iter_order var pos_clauses neg_clauses = [].
Proof.
  intros H. unfold PreprocessingDPLL.resolvents.
  assert (Hres : forall pc nc, In pc pos_clauses -> In nc neg_clauses ->
            set_discard (- var)
              (set_discard var (set_union (set_of pc) (set_of nc))) = []).
  { intros pc nc Hpc Hnc.
    destruct (set_discard _ _) as [| y rest] eqn:E; [reflexivity |].
    exfalso.
    assert (Hy : In y (set_discard (- var)
                         (set_discard var
                            (set_union (set_of pc) (set_of nc)))))
      by (rewrite E; now left).
    unfold set_discard in Hy.
    apply filter_In in Hy. destruct Hy as (Hy & N1).
    apply filter_In in Hy. destruct Hy as (Hy & N2).
    apply negb_true_iff, Z.eqb_neq in N1, N2.
    unfold set_union, set_of in Hy.
    apply set_fold_In in Hy. destruct Hy as [Hy | Hy];
      apply set_fold_In in Hy; destruct Hy as [Hy | []].
    - destruct (H nc y (or_intror Hnc) Hy); contradiction.
    - destruct (H pc y (or_introl Hpc) Hy); contradiction. }
  apply flat_map_nil. intros pc Hpc.
  apply flat_map_nil. intros nc Hnc.
  now rewrite (Hres pc nc Hpc Hnc).
Qed.

Ltac run_if :=
  match goal with
  | |- context [if ?b then _ else _] =>
      let b' := eval vm_compute in b in
      match b' with
      | true => change b with true
      | false => change b with false
      end; cbv iota
  end.

Lemma call_eq {S S' A : Type} (c : M S' A) (callee : S') (s : S)
    (r : A * S') :
  c callee = Done r -> call c callee s = Done (r, s).
Proof. unfold call. now intros ->. Qed.

(** When every variable occurs in both polarities there is no pure
    literal, whatever the enumeration. *)
Lemma pure_lits_of_none (iter_order : list Z -> list Z)
    (cls : list (list Z)) (vars : list Z) :
  enumerates iter_order ->
  set_of (List.filter (fun lit => 0 <? lit) (concat cls)) = vars ->
  set_of (map Z.opp (List.filter (fun lit => negb (0 <? lit)) (concat cls)))
  = vars ->
  PreprocessingDPLL.pure_lits_of iter_order cls = [].
Proof.
  intros Hio Hpos Hneg. unfold PreprocessingDPLL.pure_lits_of.
  rewrite Hpos, Hneg.
  rewrite filter_none by (intros x; apply Hio). reflexivity.
Qed.

Lemma bve_all_signs (iter_order : list Z -> list Z)
    (self : PreprocessingDPLL.t) :
  enumerates iter_order ->
  PreprocessingDPLL._bounded_variable_elimination iter_order
    [[1; 2]; [-1; 2]; [1; -2]; [-1; -2]] 10 self
  = Done ([],
          PreprocessingDPLL.mk
            (PreprocessingDPLL.num_vars self)
            (PreprocessingDPLL.original_clauses self)
            (PreprocessingDPLL.metrics self)
            (PreprocessingDPLL.assignment self)
            (S (S (PreprocessingDPLL.vars_eliminated self)))
            (PreprocessingDPLL.clauses_eliminated self)).
Proof.
  intros Hio. unfold PreprocessingDPLL._bounded_variable_elimination.
  change (PreprocessingDPLL.var_occurrences_of
            [[1; 2]; [-1; 2]; [1; -2]; [-1; -2]])
    with [(1, ([0%nat; 2%nat], [1%nat; 3%nat]));
          (2, ([0%nat; 1%nat], [2%nat; 3%nat]))].
  cbn [PreprocessingDPLL._bounded_variable_elimination_for].
  repeat (first [run_step | run_if]).
  rewrite (resolvents_nil iter_order 2).
  - reflexivity.
  - intros c x [Hc | Hc] Hx; simpl in Hc;
      destruct Hc as [<- | [<- | []]];
      apply (proj1 (Hio _ _)) in Hx; simpl in Hx; lia.
Qed.

Lemma preprocess_all_signs (iter_order : list Z -> list Z) :
  enumerates iter_order ->
  PreprocessingDPLL._preprocess iter_order 20 cnf_all_signs
    (PreprocessingDPLL.__init__ cnf_all_signs 2)
  = Done (Some [],
          PreprocessingDPLL.mk 2 cnf_all_signs (mkMetrics 0 0 0 0) ∅ 2 0).
Proof.
  intros Hio.
  assert (Hpure : PreprocessingDPLL.pure_lits_of iter_order
                    [[1; 2]; [-1; 2]; [1; -2]; [-1; -2]] = []).
  { now apply (pure_lits_of_none iter_order _ [1; 2]). }
  unfold PreprocessingDPLL._preprocess,
    PreprocessingDPLL._pure_literal_elimination.
  repeat run_step. rewrite Hpure.
  repeat (first [ erewrite bind_eq by (apply bve_all_signs; exact Hio)
                | run_step ]).
  reflexivity.
Qed.

(** The clause [c] of a satisfied CNF has a true literal; one case per
    literal. *)
Ltac true_literal_of H c :=
  let l := fresh "l" in
  let Hl := fresh "Hl" in
  let Ht := fresh "Ht" in
  destruct (H c) as (l & Hl & Ht); [simpl; tauto |];
  simpl in Hl;
  repeat match type of Hl with
    | _ \/ _ => destruct Hl as [Hl | Hl]
    | False => destruct Hl
    end;
  try subst l; unfold lit_true in Ht;
  cbv [Z.abs Z.ltb Z.compare] in Ht.

Lemma cnf_units_falsify_unsat (a : gmap Z bool) :
  ~ all_sat a cnf_units_falsify.
Proof.
  intros H.
  true_literal_of H [-1]. true_literal_of H [-2]. true_literal_of H [-3].
  true_literal_of H [1; 2; 3]; congruence.
Qed.

Lemma cnf_all_signs_unsat (a : gmap Z bool) : ~ all_sat a cnf_all_signs.
Proof.
  intros H.
  true_literal_of H [1; 2]; true_literal_of H [-1; 2];
    true_literal_of H [1; -2]; true_literal_of H [-1; -2]; congruence.
Qed.

Ltac run_preprocessing lemma Hio :=
  unfold run;
  match goal with
  | |- context [get_solver ?v ?c ?n] =>
      let g := eval vm_compute in (get_solver v c n) in
      change (get_solver v c n) with g
  end;
  cbv beta iota;
  unfold solve, PreprocessingDPLL.solve, CombinedDPLL.solve;
  repeat (first [ erewrite bind_eq by (apply lemma; exact Hio)
                | erewrite bind_eq by (apply call_eq, lemma; exact Hio)
                | run_step ]).

(** C1.  On the unsatisfiable CNF [[1,2,3], [-1], [-2], [-3]] with three
    variables the watched-literals solver returns "SAT" with the model
    [-1, -2, -3], and no literal of the input clause [1, 2, 3] agrees with
    that model: the clause watches only its first two literals, the third
    is falsified last, and nothing examines the clause again. *)
Theorem C1_watched_model_falsifies_a_clause
    (iter_order : list Z -> list Z) :
  returns (run iter_order "watched" cnf_units_falsify 3)
          ("SAT"%string, Some [-1; -2; -3], mkMetrics 0 0 3 0)
  /\ In [1; 2; 3] cnf_units_falsify
  /\ satisfies [-1; -2; -3] [1; 2; 3] = false.
Proof.
  split; [| split].
  - exists 20%nat. vm_compute. reflexivity.
  - left. reflexivity.
  - vm_compute. reflexivity.
Qed.

(** C2.  On the same CNF the base solver returns "UNSAT" and the
    watched-literals solver returns "SAT": two variants disagree on the
    status.  No assignment satisfies the CNF. *)
Theorem C2_base_and_watched_disagree (iter_order : list Z -> list Z) :
  returns (run iter_order "base" cnf_units_falsify 3)
          ("UNSAT"%string, None, mkMetrics 0 0 3 1)
  /\ returns (run iter_order "watched" cnf_units_falsify 3)
             ("SAT"%string, Some [-1; -2; -3], mkMetrics 0 0 3 0)
  /\ forall a : gmap Z bool, ~ all_sat a cnf_units_falsify.
Proof.
  split; [| split].
  - exists 20%nat. vm_compute. reflexivity.
  - exists 20%nat. vm_compute. reflexivity.
  - exact cnf_units_falsify_unsat.
Qed.

Lemma preprocess_doubled (iter_order : list Z -> list Z) :
  enumerates iter_order ->
  PreprocessingDPLL._preprocess iter_order 20 cnf_doubled
    (PreprocessingDPLL.__init__ cnf_doubled 2)
  = Done (Some [],
          PreprocessingDPLL.mk 2 cnf_doubled (mkMetrics 0 0 0 0) ∅ 0 4).
Proof.
  intros Hio.
  assert (Hpure : PreprocessingDPLL.pure_lits_of iter_order
                    [[1; 2]; [1; 2]; [-1; -2]; [-1; -2]] = []).
  { now apply (pure_lits_of_none iter_order _ [1; 2]). }
  unfold PreprocessingDPLL._preprocess,
    PreprocessingDPLL._pure_literal_elimination.
  repeat run_step. rewrite Hpure. repeat run_step.
  reflexivity.
Qed.

(** C3.  Given two copies of the clause [1, 2], the subsumption pass drops
    both (each is a subset of the other, at another index) and counts two
    eliminations; and on [[1,2], [1,2], [-1,-2], [-1,-2]] the preprocessing
    solver therefore drops every clause and returns "SAT" with a model that
    falsifies [1, 2]. *)
Theorem C3_subsumption_drops_both_copies (iter_order : list Z -> list Z) :
  enumerates iter_order ->
  (exists self',
     PreprocessingDPLL._subsumption_elimination cnf_twice
       (PreprocessingDPLL.__init__ cnf_twice 2) = Done ([], self')
     /\ PreprocessingDPLL.clauses_eliminated self' = 2%nat)
  /\ returns (run iter_order "preprocessing" cnf_doubled 2)
             ("SAT"%string, Some [-1; -2], mkMetrics 0 0 0 0)
  /\ In [1; 2] cnf_doubled
  /\ satisfies [-1; -2] [1; 2] = false.
Proof.
  intros Hio. split; [| split; [| split]].
  - eexists. split; vm_compute; reflexivity.
  - exists 20%nat. run_preprocessing preprocess_doubled Hio. reflexivity.
  - left. reflexivity.
  - vm_compute. reflexivity.
Qed.

Lemma C3_subsumption_drops_both_copies_witness :
  enumerates insertion_order
  /\ returns (run insertion_order "preprocessing" cnf_doubled 2)
             ("SAT"%string, Some [-1; -2], mkMetrics 0 0 0 0).
Proof.
  split; [exact insertion_order_enumerates |].
  exact (proj1 (proj2 (C3_subsumption_drops_both_copies insertion_order
                         insertion_order_enumerates))).
Defined.

(** C4.  On [[1,2], [1,-2], [-1,2], [-1,-2]] the root call of
    [WatchedLiteralsDPLL._dpll] is a decision node: propagation succeeds
    without assigning anything, so the assignment saved before the decision
    is empty, and the decision variable is 1.  Both polarities fail, the
    call returns [False], and the assignment it leaves is
    [{1: False, 2: True}], not the saved one: [_restore_state] installs the
    saved dictionary itself, which the second branch has written to. *)
Theorem C4_both_polarities_fail_not_restored :
  exists st1 st',
    WatchedLiteralsDPLL._unit_propagate 20
      (WatchedLiteralsDPLL.__init__ cnf_all_signs' 2) = Done (true, st1)
    /\ WatchedLiteralsDPLL.current st1 = ∅
    /\ WatchedLiteralsDPLL._choose_variable st1 = Done (Some 1, st1)
    /\ WatchedLiteralsDPLL._dpll 20
         (WatchedLiteralsDPLL.__init__ cnf_all_signs' 2) = Done (false, st')
    /\ WatchedLiteralsDPLL.current st' = <[2 := true]> (<[1 := false]> ∅)
    /\ WatchedLiteralsDPLL.current st' <> WatchedLiteralsDPLL.current st1.
Proof.
  do 2 eexists.
  split; [vm_compute; reflexivity |].
  split; [vm_compute; reflexivity |].
  split; [vm_compute; reflexivity |].
  split; [vm_compute; reflexivity |].
  split; [vm_compute; reflexivity |].
  intros E. apply (f_equal (fun a : gmap Z bool => a !! 1)) in E.
  vm_compute in E. discriminate.
Qed.

(** C5.  On the unsatisfiable CNF [[1,2], [-1,2], [1,-2], [-1,-2]] bounded
    variable elimination first eliminates variable 1, which leaves the
    resolvents {2}, {2,-2}, {-2,2} and {-2}; eliminating variable 2 then
    resolves these against each other, every resolvent is empty, and each
    is dropped by the test [if resolvent:].  The pass returns no clause, and
    both the preprocessing and the combined solver return "SAT", whatever
    the order in which sets are enumerated; the base solver returns
    "UNSAT", and no assignment satisfies the CNF. *)
Theorem C5_empty_resolvent_dropped (iter_order : list Z -> list Z) :
  enumerates iter_order ->
  (exists self',
     PreprocessingDPLL._bounded_variable_elimination_for iter_order
       (firstn 1 (PreprocessingDPLL.var_occurrences_of cnf_all_signs))
       cnf_all_signs 10 (PreprocessingDPLL.__init__ cnf_all_signs 2)
     = Done ([iter_order [2]; iter_order [2; -2]; iter_order [-2; 2];
              iter_order [-2]], self'))
  /\ PreprocessingDPLL.resolvents iter_order 2
       [iter_order [2]; iter_order [2; -2]]
       [iter_order [-2; 2]; iter_order [-2]] = []
  /\ (exists self',
        PreprocessingDPLL._bounded_variable_elimination iter_order
          cnf_all_signs 10 (PreprocessingDPLL.__init__ cnf_all_signs 2)
        = Done ([], self'))
  /\ returns (run iter_order "preprocessing" cnf_all_signs 2)
             ("SAT"%string, Some [-1; -2], mkMetrics 0 0 0 0)
  /\ returns (run iter_order "combined" cnf_all_signs 2)
             ("SAT"%string, Some [-1; -2], mkMetrics 0 0 0 0)
  /\ returns (run iter_order "base" cnf_all_signs 2)
             ("UNSAT"%string, None, mkMetrics 1 1 2 2)
  /\ forall a : gmap Z bool, ~ all_sat a cnf_all_signs.
Proof.
  intros Hio.
  split; [eexists; vm_compute; reflexivity |].
  split.
  { apply resolvents_nil.
    intros c x [Hc | Hc] Hx; simpl in Hc;
      destruct Hc as [<- | [<- | []]];
      apply (proj1 (Hio _ _)) in Hx; simpl in Hx; lia. }
  split; [eexists; now apply bve_all_signs |].
  split; [| split; [| split]].
  - exists 20%nat. run_preprocessing preprocess_all_signs Hio. reflexivity.
  - exists 20%nat. run_preprocessing preprocess_all_signs Hio. reflexivity.
  - exists 20%nat. vm_compute. reflexivity.
  - exact cnf_all_signs_unsat.
Qed.

Lemma C5_empty_resolvent_dropped_witness :
  enumerates insertion_order
  /\ returns (run insertion_order "preprocessing" cnf_all_signs 2)
             ("SAT"%string, Some [-1; -2], mkMetrics 0 0 0 0)
  /\ returns (run insertion_order "combined" cnf_all_signs 2)
             ("SAT"%string, Some [-1; -2], mkMetrics 0 0 0 0).
Proof.
  split; [exact insertion_order_enumerates |].
  pose proof (C5_empty_resolvent_dropped insertion_order
                insertion_order_enumerates) as (_ & _ & _ & H1 & H2 & _ & _).
  split; assumption.
Defined.

(** C6.  Given [[1,2], [1,3], [-1,3], [-1]], bounded variable elimination
    counts all three variables as eliminated and returns a single clause,
    the resolvent {2}: variable 2 is counted as eliminated, yet a clause
    that mentions it is returned.  After variable 1 is eliminated the
    occurrence lists of variable 2, recorded before the loop, no longer
    point at the clauses that hold it. *)
Theorem C6_eliminated_variable_remains (iter_order : list Z -> list Z) :
  enumerates iter_order ->
  exists self',
    PreprocessingDPLL._bounded_variable_elimination iter_order
      cnf_bve 10 (PreprocessingDPLL.__init__ cnf_bve 3)
    = Done ([iter_order [2]], self')
    /\ In 2 (iter_order [2])
    /\ map fst (PreprocessingDPLL.var_occurrences_of cnf_bve) = [1; 2; 3]
    /\ PreprocessingDPLL.vars_eliminated self' = 3%nat.
Proof.
  intros Hio. eexists.
  split; [vm_compute; reflexivity |].
  split; [apply Hio; now left |].
  split; vm_compute; reflexivity.
Qed.

Lemma C6_eliminated_variable_remains_witness :
  enumerates insertion_order
  /\ exists self',
       PreprocessingDPLL._bounded_variable_elimination insertion_order
         cnf_bve 10 (PreprocessingDPLL.__init__ cnf_bve 3)
       = Done ([[2]], self')
       /\ PreprocessingDPLL.vars_eliminated self' = 3%nat.
Proof.
  split; [exact insertion_order_enumerates |].
  destruct (C6_eliminated_variable_remains insertion_order
              insertion_order_enumerates) as (self' & E & _ & _ & Hn).
  exists self'. split; assumption.
Defined.

(** C9 fails on the code.  On [[1], [-1]] with one variable every variant
    returns "UNSAT" after one unit propagation.  The base and the watched
    solver count the conflict their unit propagation meets: their
    [conflicts] counter is 1.  The preprocessing and the combined solver
    meet the same conflict in [_exhaustive_unit_propagation], which returns
    [None] on it, and their [solve] returns "UNSAT" from there without
    counting it: their [conflicts] counter is 0, which is not at least 1. *)
Theorem C9_preprocessing_conflict_not_counted
    (iter_order : list Z -> list Z) :
  returns (run iter_order "base" cnf_minimal_unsat 1)
          ("UNSAT"%string, None, mkMetrics 0 0 1 1)
  /\ returns (run iter_order "watched" cnf_minimal_unsat 1)
             ("UNSAT"%string, None, mkMetrics 0 0 1 1)
  /\ returns (run iter_order "preprocessing" cnf_minimal_unsat 1)
             ("UNSAT"%string, None, mkMetrics 0 0 1 0)
  /\ returns (run iter_order "combined" cnf_minimal_unsat 1)
             ("UNSAT"%string, None, mkMetrics 0 0 1 0)
  /\ (1 <= conflicts (mkMetrics 0 0 1 1))%nat
  /\ ~ (1 <= conflicts (mkMetrics 0 0 1 0))%nat.
Proof.
  repeat split; try (exists 20%nat; vm_compute; reflexivity);
    simpl; lia.
Qed.

Lemma issubset_refl (s : list Z) : issubset s s = true.
Proof.
  unfold issubset. apply forallb_forall. intros x Hx. now apply mem_In.
Qed.

(** The subsumption pass drops both copies of any clause that is given
    twice, and counts two eliminations. *)
Theorem subsumption_drops_every_pair (c : list Z)
    (self : PreprocessingDPLL.t) :
  exists self',
    PreprocessingDPLL._subsumption_elimination [c; c] self = Done ([], self')
    /\ PreprocessingDPLL.clauses_eliminated self'
       = S (S (PreprocessingDPLL.clauses_eliminated self)).
Proof.
  unfold PreprocessingDPLL._subsumption_elimination. simpl.
  unfold PreprocessingDPLL.is_subsumed. simpl.
  rewrite issubset_refl. simpl.
  unfold bind, PreprocessingDPLL.incr_clauses_eliminated, modify, ret.
  simpl. eexists. split; reflexivity.
Qed.

(** ** Refutations of the base solver *)

Lemma all_sat_mono (a a' : gmap Z bool) (cls : list (list Z)) :
  a ⊆ a' -> all_sat a cls -> all_sat a' cls.
Proof.
  intros Hsub H c Hc. destruct (H c Hc) as (l & Hl & Ht).
  exists l. split; [assumption |]. unfold lit_true in *.
  eapply lookup_weaken; eassumption.
Qed.

Lemma lit_true_opp (a : gmap Z bool) (l : Z) :
  l <> 0 -> lit_true a l -> ~ lit_true a (- l).
Proof.
  unfold lit_true. rewrite Z.abs_opp. intros Hl H1 H2.
  rewrite H1 in H2. inversion H2 as [E].
  destruct (0 <? l) eqn:E1; destruct (0 <? - l) eqn:E2; try discriminate.
  - apply Z.ltb_lt in E1, E2. lia.
  - apply Z.ltb_ge in E1, E2. lia.
Qed.

(** A satisfying assignment that makes [lit] true satisfies the clauses
    simplified by [lit]. *)
Lemma assign_literal_complete (cls : list (list Z)) (lit : Z)
    (a : gmap Z bool) :
  lit <> 0 -> lit_true a lit -> all_sat a cls ->
  all_sat a (BaseDPLL._assign_literal cls lit).
Proof.
  intros Hz Hlit Hall c' Hc'.
  apply assign_literal_In in Hc'. destruct Hc' as (c & Hc & Hnot & ->).
  destruct (Hall c Hc) as (l & Hl & Ht).
  exists l. split; [| assumption].
  apply filter_In. split; [assumption |].
  apply negb_true_iff, Z.eqb_neq. intros ->.
  now apply (lit_true_opp a lit).
Qed.

Lemma forced_refl (cls : list (list Z)) (a : gmap Z bool) :
  forced cls a cls a.
Proof.
  intros m Hm. split; [assumption |]. intros v b H1 H2. congruence.
Qed.

Lemma unit_clause_true (m : gmap Z bool) (cls : list (list Z))
    (u : list Z) :
  all_sat m cls -> In u cls -> length u = 1%nat -> lit_true m (hd 0 u).
Proof.
  intros Hm Hu Hlen. destruct u as [| l [| l' u]]; try discriminate.
  destruct (Hm [l] Hu) as (x & [<- | []] & Hx). exact Hx.
Qed.

Lemma unit_propagate_for_complete (cls0 : list (list Z)) (a0 : gmap Z bool)
    (units : list (list Z)) :
  unassigned_in a0 cls0 -> nonzero_lits cls0 ->
  (forall u, In u units -> In u cls0 /\ length u = 1%nat) ->
  forall (cls : list (list Z)) (a : gmap Z bool) (changed : bool)
         (s s' : BaseDPLL.t) r,
    forced cls0 a0 cls a ->
    BaseDPLL._unit_propagate_for units cls a changed s = Done (r, s') ->
    match r with
    | inl _ => forall m, ~ all_sat m cls0
    | inr (cls', a', _) => forced cls0 a0 cls' a'
    end.
Proof.
  intros HJ HW. induction units as [| u units IH];
    intros Hunits cls a changed s s' r HF E; simpl in E.
  - unfold ret in E. inversion E; subst. exact HF.
  - destruct (Hunits u (or_introl eq_refl)) as (Hu & Hlen).
    assert (Hl0 : hd 0 u <> 0).
    { destruct u as [| l [| l' u']]; try discriminate.
      apply (HW [l]); [assumption | now left]. }
    assert (Hfree : a0 !! Z.abs (hd 0 u) = None).
    { destruct u as [| l [| l' u']]; try discriminate.
      apply (HJ [l]); [assumption | now left]. }
    assert (Hrest : forall u', In u' units ->
                      In u' cls0 /\ length u' = 1%nat)
      by (intros u' Hu'; apply Hunits; now right).
    destruct (a !! Z.abs (hd 0 u)) as [b |] eqn:Ha.
    + destruct (negb (eqb b (0 <? hd 0 u))) eqn:Hb.
      * unfold ret in E. inversion E; subst. intros m Hm.
        destruct (HF m Hm) as (_ & Hent).
        pose proof (unit_clause_true m cls0 u Hm Hu Hlen) as Ht.
        unfold lit_true in Ht. rewrite (Hent _ _ Ha Hfree) in Ht.
        inversion Ht as [Eb]. rewrite Eb in Hb.
        now rewrite eqb_reflx in Hb.
      * eapply IH; eassumption.
    + unfold bind, BaseDPLL.set_metrics, modify in E.
      assert (HF' : forced cls0 a0
                      (BaseDPLL._assign_literal cls (hd 0 u))
                      (<[Z.abs (hd 0 u) := 0 <? hd 0 u]> a)).
      { intros m Hm. destruct (HF m Hm) as (Hsat & Hent).
        pose proof (unit_clause_true m cls0 u Hm Hu Hlen) as Ht.
        split; [now apply assign_literal_complete |].
        intros v b Hv Hv0.
        destruct (decide (v = Z.abs (hd 0 u))) as [-> | Hne].
        - rewrite lookup_insert_eq in Hv. inversion Hv; subst b. exact Ht.
        - rewrite lookup_insert_ne in Hv by congruence. now apply Hent. }
      destruct (existsb _ _) eqn:Hex.
      * unfold ret in E. inversion E; subst. intros m Hm.
        destruct (HF' m Hm) as (Hsat & _).
        apply existsb_exists in Hex. destruct Hex as (c & Hc & Hc0).
        apply Nat.eqb_eq in Hc0. destruct c; [| discriminate].
        destruct (Hsat [] Hc) as (l & [] & _).
      * eapply IH; eassumption.
Qed.

Lemma forced_trans (cls0 cls1 cls2 : list (list Z))
    (a0 a1 a2 : gmap Z bool) :
  a1 ⊆ a2 -> forced cls0 a0 cls1 a1 -> forced cls1 a1 cls2 a2 ->
  forced cls0 a0 cls2 a2.
Proof.
  intros Hsub F1 F2 m Hm. destruct (F1 m Hm) as (S1 & E1).
  destruct (F2 m S1) as (S2 & E2). split; [exact S2 |].
  intros v b Hv H0. destruct (a1 !! v) as [b' |] eqn:Ea1.
  - rewrite (lookup_weaken _ _ _ _ Ea1 Hsub) in Hv. inversion Hv; subst.
    now apply E1.
  - now apply E2.
Qed.

(** Unit propagation loses no satisfying assignment: a conflict means that
    there is none, and otherwise each one satisfies the clauses returned and
    holds the literals that were propagated. *)
Lemma unit_propagate_complete (fuel : nat) :
  forall (cls : list (list Z)) (a : gmap Z bool) (s s' : BaseDPLL.t) r,
    unassigned_in a cls -> nonzero_lits cls ->
    BaseDPLL._unit_propagate fuel cls a s = Done (r, s') ->
    match r with
    | (None, _) => forall m, ~ all_sat m cls
    | (Some cls', a') => forced cls a cls' a'
    end.
Proof.
  induction fuel as [| fuel IH]; intros cls a s s' r HJ HW E; simpl in E.
  - discriminate.
  - destruct (List.filter _ cls) as [| u units] eqn:Eu.
    + unfold ret in E. inversion E; subst. apply forced_refl.
    + unfold bind in E.
      destruct (BaseDPLL._unit_propagate_for (u :: units) cls a false s)
        as [[r1 s1] | e |] eqn:Efor; try discriminate.
      assert (Hunits : forall u', In u' (u :: units) ->
                         In u' cls /\ length u' = 1%nat).
      { intros u' Hu'. rewrite <- Eu in Hu'. apply filter_In in Hu'.
        destruct Hu' as (Hin & Hlen). now apply Nat.eqb_eq in Hlen. }
      pose proof (unit_propagate_for_complete cls a (u :: units) HJ HW Hunits
                    cls a false s s1 r1 (forced_refl cls a) Efor) as HC.
      destruct r1 as [a1 | [[cls1 a1] changed]].
      * unfold ret in E. inversion E; subst. exact HC.
      * pose proof (unit_propagate_for_sound _ _ _ _ _ _ _ _ _ HJ HW Efor)
          as (_ & J1 & W1 & _).
        destruct changed.
        -- pose proof (IH _ _ _ _ _ J1 W1 E) as IH'.
           destruct r as [[cls2 |] a2].
           ++ apply (forced_trans cls cls1 cls2 a a1 a2);
                [| exact HC | exact IH'].
              now apply (unit_propagate_sound _ _ _ _ _ _ _ J1 W1 E).
           ++ intros m Hm. apply (IH' m). now apply HC.
        -- unfold ret in E. inversion E; subst. exact HC.
Qed.

Lemma filter_all {A : Type} (f : A -> bool) (l : list A) :
  (forall x, In x l -> f x = true) -> List.filter f l = l.
Proof.
  induction l as [| x l IH]; intros H; simpl; [reflexivity |].
  rewrite (H x) by now left. f_equal. apply IH. intros y Hy. apply H.
  now right.
Qed.

(** The literal [_find_pure_literal] returns is pure: its negation occurs
    in no clause. *)
Lemma find_pure_literal_pure (cls : list (list Z)) (p : Z) :
  BaseDPLL.truthy (BaseDPLL._find_pure_literal cls) = Some p ->
  forall c, In c cls -> ~ In (- p) c.
Proof.
  unfold BaseDPLL.truthy.
  destruct (BaseDPLL._find_pure_literal cls) as [p0 |] eqn:Ep;
    [| discriminate].
  destruct (p0 =? 0) eqn:Ez; [discriminate |].
  intros E c Hc Hin. inversion E; subst p0. apply Z.eqb_neq in Ez.
  assert (Hlits : In (- p) (concat cls))
    by (apply in_concat; now exists c).
  unfold BaseDPLL._find_pure_literal in Ep.
  destruct (List.filter _ (List.filter (fun lit => 0 <? lit) (concat cls)))
    as [| x rest] eqn:Epos.
  - destruct (List.filter _ (map Z.opp _)) as [| y rest] eqn:Eneg;
      [discriminate |].
    inversion Ep as [Ep']. clear Ep.
    pose proof (minimum_In rest y) as Hm. rewrite <- Eneg in Hm.
    apply filter_In in Hm. destruct Hm as (Hm & Hnot).
    apply in_map_iff in Hm. destruct Hm as (z & Hz & Hm).
    apply filter_In in Hm. destruct Hm as (_ & Hzneg).
    apply negb_true_iff, Z.ltb_ge in Hzneg.
    apply negb_true_iff in Hnot.
    assert (Hmem : mem (minimum y rest)
                     (List.filter (fun lit => 0 <? lit) (concat cls)) = true).
    { apply mem_In. apply filter_In.
      replace (minimum y rest) with (- p) by lia.
      split; [assumption |]. apply Z.ltb_lt. lia. }
    congruence.
  - inversion Ep as [Ep']. clear Ep.
    pose proof (minimum_In rest x) as Hm. rewrite <- Epos in Hm.
    rewrite Ep' in Hm.
    apply filter_In in Hm. destruct Hm as (Hm & Hnot).
    apply filter_In in Hm. destruct Hm as (_ & Hpos).
    apply Z.ltb_lt in Hpos. apply negb_true_iff in Hnot.
    assert (Hmem : mem p (map Z.opp
                     (List.filter (fun lit => negb (0 <? lit)) (concat cls)))
                   = true).
    { apply mem_In. apply in_map_iff. exists (- p). split; [lia |].
      apply filter_In. split; [assumption |].
      apply negb_true_iff, Z.ltb_ge. lia. }
    congruence.
Qed.

Lemma assign_pure_literal_subset (cls : list (list Z)) (p : Z) :
  (forall c, In c cls -> ~ In (- p) c) ->
  forall c', In c' (BaseDPLL._assign_literal cls p) -> In c' cls.
Proof.
  intros Hpure c' Hc'. apply assign_literal_In in Hc'.
  destruct Hc' as (c & Hc & _ & ->).
  rewrite filter_all; [assumption |].
  intros x Hx. apply negb_true_iff, Z.eqb_neq. intros ->.
  now apply (Hpure c).
Qed.

(** A call of [_dpll] that returns [False] was given clauses that no
    assignment satisfies. *)
Lemma dpll_complete (fuel : nat) :
  forall (cls : list (list Z)) (a : gmap Z bool) (s s' : BaseDPLL.t),
    unassigned_in a cls -> nonzero_lits cls ->
    BaseDPLL._dpll fuel cls a s = Done (false, s') ->
    forall m, ~ all_sat m cls.
Proof.
  induction fuel as [| fuel IH]; intros cls a s s' HJ HW E; simpl in E.
  - discriminate.
  - unfold bind in E.
    destruct (BaseDPLL._unit_propagate fuel cls a s)
      as [[[[cls1 |] a1] s1] | e |] eqn:Eup; try discriminate.
    2:{ intros m. exact (unit_propagate_complete _ _ _ _ _ _ HJ HW Eup m). }
    pose proof (unit_propagate_complete _ _ _ _ _ _ HJ HW Eup) as HF.
    simpl in HF.
    assert (HC : forall m, all_sat m cls -> all_sat m cls1)
      by (intros m Hm; now apply HF).
    clear HF.
    pose proof (unit_propagate_sound _ _ _ _ _ _ _ HJ HW Eup)
      as (_ & J1 & W1 & _).
    destruct cls1 as [| c1 cls1'].
    { unfold BaseDPLL.set_assignment, modify, ret in E. discriminate. }
    set (cls1 := c1 :: cls1') in *.
    assert (Hrec : forall lit sx,
              BaseDPLL._dpll fuel (BaseDPLL._assign_literal cls1 lit)
                (<[Z.abs lit := 0 <? lit]> a1) sx = Done (false, s') ->
              forall m, ~ all_sat m (BaseDPLL._assign_literal cls1 lit)).
    { intros lit sx Ex. eapply IH; [| | exact Ex].
      - now apply assign_literal_unassigned.
      - now apply assign_literal_nonzero. }
    destruct (BaseDPLL.truthy (BaseDPLL._find_pure_literal cls1))
      as [pure_lit |] eqn:Ep.
    { intros m Hm. apply (Hrec pure_lit s1 E m).
      intros c' Hc'. apply (HC m Hm).
      eapply assign_pure_literal_subset; [| exact Hc'].
      now apply find_pure_literal_pure. }
    unfold BaseDPLL.set_metrics, modify in E.
    set (var := BaseDPLL._choose_variable cls1) in *.
    assert (Hpos : 0 < var) by now apply choose_variable_pos.
    match type of E with
    | match ?c ?sx with _ => _ end = _ =>
        destruct (c sx) as [[[|] s2] | e |] eqn:E1; try discriminate
    end.
    assert (H1 : forall m, ~ all_sat m (BaseDPLL._assign_literal cls1 var)).
    { (* the first branch failed, and left the counters to the second *)
      intros m Hm. 
      assert (Hdet : exists sy,
                BaseDPLL._dpll fuel (BaseDPLL._assign_literal cls1 var)
                  (<[Z.abs var := 0 <? var]> a1) sy = Done (false, s2)).
      { eexists. rewrite Z.abs_eq by lia.
        replace (0 <? var) with true by (symmetry; apply Z.ltb_lt; lia).
        exact E1. }
      destruct Hdet as (sy & Ey).
      eapply IH; [| | exact Ey | exact Hm].
      - now apply assign_literal_unassigned.
      - now apply assign_literal_nonzero. }
    assert (H2 : forall m,
              ~ all_sat m (BaseDPLL._assign_literal cls1 (- var))).
    { eapply (Hrec (- var)). rewrite Z.abs_opp, Z.abs_eq by lia.
      replace (0 <? - var) with false by (symmetry; apply Z.ltb_ge; lia).
      exact E. }
    intros m Hm. apply HC in Hm.
    destruct (m !! var) as [[|] |] eqn:Ev.
    + apply (H1 m). apply assign_literal_complete; [lia | | assumption].
      unfold lit_true. rewrite Z.abs_eq by lia. rewrite Ev. f_equal.
      symmetry. apply Z.ltb_lt. lia.
    + apply (H2 m). apply assign_literal_complete; [lia | | assumption].
      unfold lit_true. rewrite Z.abs_opp, Z.abs_eq by lia. rewrite Ev.
      f_equal. symmetry. apply Z.ltb_ge. lia.
    + apply (H1 (<[var := true]> m)).
      apply assign_literal_complete; [lia | |].
      * unfold lit_true. rewrite Z.abs_eq by lia. rewrite lookup_insert_eq.
        f_equal. symmetry. apply Z.ltb_lt. lia.
      * eapply all_sat_mono; [| exact Hm]. now apply insert_subseteq.
Qed.

Lemma base_refutes (iter_order : list Z -> list Z)
    (clauses : list (list Z)) (num_vars : Z) (m : SolverMetrics) :
  nonzero_lits clauses ->
  returns (run iter_order "base" clauses num_vars)
          ("UNSAT"%string, None, m) ->
  forall a : gmap Z bool, ~ all_sat a clauses.
Proof.
  intros HW [fuel E].
  unfold run in E. simpl in E.
  destruct (BaseDPLL.solve fuel (BaseDPLL.__init__ clauses num_vars))
    as [[r s2] | e |] eqn:Es; try discriminate.
  inversion E; subst r m. clear E.
  unfold BaseDPLL.solve, bind, BaseDPLL.set_metrics, modify, get in Es.
  simpl in Es.
  match type of Es with
  | match ?d with _ => _ end = _ =>
      destruct d as [[[|] s1] | e |] eqn:Ed; try discriminate
  end.
  eapply dpll_complete; [| exact HW | exact Ed].
  intros c l _ _. apply lookup_empty.
Qed.

(** The base solver refutes only what cannot be satisfied: on clauses
    without the literal [0], a status "UNSAT" means that no assignment,
    partial or total, makes a literal of every clause true. *)
Theorem BaseDPLL_unsat_sound (iter_order : list Z -> list Z)
    (clauses : list (list Z)) (num_vars : Z) (m : SolverMetrics) :
  nonzero_lits clauses ->
  returns (run iter_order "base" clauses num_vars)
          ("UNSAT"%string, None, m) ->
  forall a : gmap Z bool, ~ all_sat a clauses.
Proof. apply base_refutes. Qed.

Lemma BaseDPLL_unsat_sound_witness :
  nonzero_lits cnf_all_signs
  /\ forall a : gmap Z bool, ~ all_sat a cnf_all_signs.
Proof.
  assert (H : nonzero_lits cnf_all_signs).
  { intros c l Hc Hl. unfold cnf_all_signs in Hc. simpl in Hc.
    repeat match goal with
      | H : _ \/ _ |- _ => destruct H
      | H : False |- _ => destruct H
      end; subst; simpl in Hl;
    repeat match goal with
      | H : _ \/ _ |- _ => destruct H
      | H : False |- _ => destruct H
      end; subst; lia. }
  split; [exact H |].
  apply (BaseDPLL_unsat_sound insertion_order cnf_all_signs 2
           (mkMetrics 1 1 2 2) H).
  exists 10%nat. vm_compute. reflexivity.
Defined.

(** ** The search counters of the base solver *)

Lemma unit_propagate_for_counters (units : list (list Z)) :
  forall cls a changed (s s' : BaseDPLL.t) r,
    BaseDPLL._unit_propagate_for units cls a changed s = Done (r, s') ->
    decisions (BaseDPLL.metrics s') = decisions (BaseDPLL.metrics s)
    /\ backtracks (BaseDPLL.metrics s') = backtracks (BaseDPLL.metrics s)
    /\ conflicts (BaseDPLL.metrics s') = conflicts (BaseDPLL.metrics s).
Proof.
  induction units as [| u units IH]; intros cls a changed s s' r E;
    simpl in E.
  - unfold ret in E. now inversion E.
  - destruct (a !! Z.abs (hd 0 u)) as [b |].
    + destruct (negb (eqb b (0 <? hd 0 u))).
      * unfold ret in E. now inversion E.
      * eapply IH; eassumption.
    + unfold bind, BaseDPLL.set_metrics, modify in E.
      destruct (existsb _ _).
      * unfold ret in E. now inversion E.
      * apply IH in E. exact E.
Qed.

Lemma unit_propagate_counters (fuel : nat) :
  forall cls a (s s' : BaseDPLL.t) r,
    BaseDPLL._unit_propagate fuel cls a s = Done (r, s') ->
    decisions (BaseDPLL.metrics s') = decisions (BaseDPLL.metrics s)
    /\ backtracks (BaseDPLL.metrics s') = backtracks (BaseDPLL.metrics s)
    /\ conflicts (BaseDPLL.metrics s') = conflicts (BaseDPLL.metrics s).
Proof.
  induction fuel as [| fuel IH]; intros cls a s s' r E; simpl in E.
  - discriminate.
  - destruct (List.filter _ cls) as [| u units].
    + unfold ret in E. now inversion E.
    + unfold bind in E.
      destruct (BaseDPLL._unit_propagate_for (u :: units) cls a false s)
        as [[[a1 | [[cls1 a1] changed]] s1] | e |] eqn:Efor;
        try discriminate;
        apply unit_propagate_for_counters in Efor.
      * unfold ret in E. inversion E; subst. exact Efor.
      * destruct changed.
        -- apply IH in E. destruct E as (A & B & C).
           destruct Efor as (A' & B' & C'). repeat split; congruence.
        -- unfold ret in E. inversion E; subst. exact Efor.
Qed.

Lemma dpll_counters (fuel : nat) :
  forall cls a (s s' : BaseDPLL.t) (r : bool),
    BaseDPLL._dpll fuel cls a s = Done (r, s') ->
    search_counts r (BaseDPLL.metrics s) (BaseDPLL.metrics s').
Proof.
  induction fuel as [| fuel IH]; intros cls a s s' r E; simpl in E.
  - discriminate.
  - unfold bind in E.
    destruct (BaseDPLL._unit_propagate fuel cls a s)
      as [[[[cls1 |] a1] s1] | e |] eqn:Eup; try discriminate;
      apply unit_propagate_counters in Eup; destruct Eup as (Ud & Ub & Uc).
    + destruct cls1 as [| c1 cls1'].
      { unfold BaseDPLL.set_assignment, modify, ret in E.
        inversion E; subst. unfold search_counts. simpl. lia. }
      destruct (BaseDPLL.truthy _).
      { apply IH in E. unfold search_counts in *.
        destruct r; rewrite Ud, Ub, Uc in E; exact E. }
      unfold BaseDPLL.set_metrics, modify in E.
      match type of E with
      | match ?c ?sx with _ => _ end = _ =>
          destruct (c sx) as [[[|] s2] | e |] eqn:E1; try discriminate;
          apply IH in E1; unfold search_counts in E1; simpl in E1
      end.
      * unfold ret in E. inversion E; subst. unfold search_counts. lia.
      * apply IH in E. unfold search_counts in *. simpl in E.
        destruct r; lia.
    + unfold BaseDPLL.set_metrics, modify, ret in E.
      inversion E; subst. unfold search_counts. simpl. lia.
Qed.

Lemma base_solve_counters (fuel : nat) (s s' : BaseDPLL.t)
    (r : string * option (list Z)) :
  BaseDPLL.solve fuel s = Done (r, s') ->
  counted (fst r) (BaseDPLL.metrics s').
Proof.
  unfold BaseDPLL.solve, bind, BaseDPLL.set_metrics, modify, get.
  match goal with
  | |- match ?d with _ => _ end = _ -> _ =>
      destruct d as [[[|] s1] | e |] eqn:Ed; try discriminate
  end; apply dpll_counters in Ed; unfold search_counts in Ed; simpl in Ed;
    unfold ret; intros E; inversion E; subst; simpl.
  - right. split; [reflexivity | lia].
  - left. split; [reflexivity | lia].
Qed.

(** The counters of the base solver after [solve]: with status "UNSAT"
    every decision was backtracked and the conflicts are one more than the
    decisions; with status "SAT" there is one conflict per backtrack, and at
    most one backtrack per decision. *)
Theorem BaseDPLL_search_counters (iter_order : list Z -> list Z)
    (clauses : list (list Z)) (num_vars : Z) (status : string)
    (model : option (list Z)) (m : SolverMetrics) :
  returns (run iter_order "base" clauses num_vars) (status, model, m) ->
  (status = "UNSAT"%string /\ backtracks m = decisions m
   /\ conflicts m = S (decisions m))
  \/ (status = "SAT"%string /\ conflicts m = backtracks m
      /\ (backtracks m <= decisions m)%nat).
Proof.
  intros [fuel E].
  unfold run in E. simpl in E.
  destruct (BaseDPLL.solve fuel (BaseDPLL.__init__ clauses num_vars))
    as [[r s2] | e |] eqn:Es; try discriminate.
  inversion E; subst r m. clear E.
  exact (base_solve_counters _ _ _ _ Es).
Qed.

Lemma BaseDPLL_search_counters_witness :
  (backtracks (mkMetrics 1 1 2 2) = decisions (mkMetrics 1 1 2 2)
   /\ conflicts (mkMetrics 1 1 2 2) = S (decisions (mkMetrics 1 1 2 2)))
  \/ (conflicts (mkMetrics 1 1 2 2) = backtracks (mkMetrics 1 1 2 2)
      /\ (backtracks (mkMetrics 1 1 2 2)
          <= decisions (mkMetrics 1 1 2 2))%nat).
Proof.
  destruct (BaseDPLL_search_counters insertion_order cnf_all_signs 2
              "UNSAT" None (mkMetrics 1 1 2 2)) as [(_ & H) | (_ & H)].
  - exists 10%nat. vm_compute. reflexivity.
  - left. exact H.
  - right. exact H.
Defined.

(** ** Termination of the base solver *)

Lemma unit_propagate_for_total (units : list (list Z)) :
  forall cls a changed (s : BaseDPLL.t),
    exists r s',
      BaseDPLL._unit_propagate_for units cls a changed s = Done (r, s').
Proof.
  induction units as [| u units IH]; intros cls a changed s; simpl.
  - eexists. eexists. reflexivity.
  - destruct (a !! Z.abs (hd 0 u)) as [b |].
    + destruct (negb (eqb b (0 <? hd 0 u))).
      * eexists. eexists. reflexivity.
      * apply IH.
    + unfold bind, BaseDPLL.set_metrics, modify.
      destruct (existsb _ _).
      * eexists. eexists. reflexivity.
      * apply IH.
Qed.

Lemma unit_propagate_for_changed (units : list (list Z)) :
  forall cls a (s s' : BaseDPLL.t) cls' a' changed',
    BaseDPLL._unit_propagate_for units cls a true s
    = Done (inr (cls', a', changed'), s') ->
    changed' = true.
Proof.
  induction units as [| u units IH]; intros cls a s s' cls' a' changed' E;
    simpl in E.
  - unfold ret in E. now inversion E.
  - destruct (a !! Z.abs (hd 0 u)) as [b |].
    + destruct (negb (eqb b (0 <? hd 0 u))).
      * unfold ret in E. discriminate.
      * eapply IH; eassumption.
    + unfold bind, BaseDPLL.set_metrics, modify in E.
      destruct (existsb _ _).
      * unfold ret in E. discriminate.
      * eapply IH; eassumption.
Qed.

Lemma cnf_size_cons (c : list Z) (cls : list (list Z)) :
  cnf_size (c :: cls) = (length c + cnf_size cls)%nat.
Proof. unfold cnf_size. simpl. now rewrite length_app. Qed.

Lemma filter_length_lt (x : Z) (c : list Z) :
  In x c ->
  (length (List.filter (fun l => negb (l =? x)%Z) c) < length c)%nat.
Proof.
  induction c as [| y c IH]; intros H; [destruct H |]. simpl.
  destruct (y =? x) eqn:E; simpl.
  - pose proof (List.filter_length_le (fun l => negb (l =? x)) c). lia.
  - destruct H as [-> | H]; [rewrite Z.eqb_refl in E; discriminate |].
    apply IH in H. lia.
Qed.

Lemma filter_length_nodup (x : Z) (c : list Z) :
  List.NoDup c ->
  (length c <= S (length (List.filter (fun l => negb (l =? x)%Z) c)))%nat.
Proof.
  induction 1 as [| y c Hy Hc IH]; simpl; [lia |].
  destruct (y =? x) eqn:E; simpl; [| lia].
  apply Z.eqb_eq in E. subst y.
  rewrite filter_all; [lia |].
  intros z Hz. apply negb_true_iff, Z.eqb_neq. intros ->.
  contradiction.
Qed.

Lemma assign_literal_cons (c : list Z) (cls : list (list Z)) (lit : Z) :
  BaseDPLL._assign_literal (c :: cls) lit
  = if mem lit c then BaseDPLL._assign_literal cls lit
    else List.filter (fun l => negb (l =? - lit)) c
         :: BaseDPLL._assign_literal cls lit.
Proof.
  unfold BaseDPLL._assign_literal. simpl. now destruct (mem lit c).
Qed.

Lemma assign_literal_size_le (cls : list (list Z)) (lit : Z) :
  (cnf_size (BaseDPLL._assign_literal cls lit) <= cnf_size cls)%nat.
Proof.
  induction cls as [| c cls IH]; [reflexivity |].
  rewrite assign_literal_cons, cnf_size_cons.
  destruct (mem lit c); [lia |]. rewrite cnf_size_cons.
  pose proof (List.filter_length_le (fun l => negb (l =? - lit)) c). lia.
Qed.

(** Assigning a literal that occurs, in either sign, removes an
    occurrence. *)
Lemma assign_literal_size_lt (cls : list (list Z)) (lit : Z) (c : list Z) :
  In c cls -> In lit c \/ In (- lit) c ->
  (cnf_size (BaseDPLL._assign_literal cls lit) < cnf_size cls)%nat.
Proof.
  induction cls as [| c0 cls IH]; intros Hc Hl; [destruct Hc |].
  rewrite assign_literal_cons, cnf_size_cons.
  pose proof (assign_literal_size_le cls lit) as Hle.
  destruct Hc as [-> | Hc].
  - destruct (mem lit c) eqn:Hm.
    + apply mem_In in Hm. destruct c; [destruct Hm | simpl; lia].
    + rewrite cnf_size_cons.
      destruct Hl as [Hl | Hl];
        [apply mem_In in Hl; congruence |].
      apply filter_length_lt in Hl. lia.
  - specialize (IH Hc Hl). destruct (mem lit c0); [lia |].
    rewrite cnf_size_cons.
    pose proof (List.filter_length_le (fun l => negb (l =? - lit)) c0). lia.
Qed.

Lemma assign_literal_keeps (cls : list (list Z)) (lit : Z) (c : list Z) :
  In c cls -> ~ In lit c ->
  In (List.filter (fun l => negb (l =? - lit)) c)
     (BaseDPLL._assign_literal cls lit).
Proof.
  intros Hc Hnot. unfold BaseDPLL._assign_literal. apply in_map_iff.
  exists c. split; [reflexivity |]. apply filter_In. split; [assumption |].
  apply negb_true_iff. destruct (mem lit c) eqn:Hm; [| reflexivity].
  apply mem_In in Hm. contradiction.
Qed.

Lemma assign_literal_nodup (cls : list (list Z)) (lit : Z) :
  (forall c, In c cls -> List.NoDup c) ->
  forall c', In c' (BaseDPLL._assign_literal cls lit) -> List.NoDup c'.
Proof.
  intros H c' Hc'. apply assign_literal_In in Hc'.
  destruct Hc' as (c & Hc & _ & ->). apply List.NoDup_filter. now apply H.
Qed.

(** The [for] loop of [_unit_propagate] keeps the clauses free of empty
    clauses and of repeated literals, never adds a literal occurrence, and
    removes one whenever it sets [changed]. *)
Lemma unit_propagate_for_progress (units : list (list Z)) :
  forall cls a changed (s s' : BaseDPLL.t) cls' a' changed',
    (forall u, In u units -> length u = 1%nat) ->
    (forall u, In u units -> a !! Z.abs (hd 0 u) = None -> In u cls) ->
    BaseDPLL._unit_propagate_for units cls a changed s
    = Done (inr (cls', a', changed'), s') ->
    (clean_cnf cls -> clean_cnf cls')
    /\ (cnf_size cls' <= cnf_size cls)%nat
    /\ (changed' = true ->
        changed = true \/ (cnf_size cls' < cnf_size cls)%nat).
Proof.
  induction units as [| u units IH];
    intros cls a changed s s' cls' a' changed' Hlen Hin E;
    simpl in E.
  - unfold ret in E. inversion E; subst. auto.
  - assert (Hlen' : forall u', In u' units -> length u' = 1%nat)
      by (intros u' Hu'; apply Hlen; now right).
    destruct (a !! Z.abs (hd 0 u)) as [b |] eqn:Ha.
    + destruct (negb (eqb b (0 <? hd 0 u))).
      * unfold ret in E. discriminate.
      * eapply IH; [exact Hlen' | | exact E].
        intros u' Hu'. apply Hin. now right.
    + unfold bind, BaseDPLL.set_metrics, modify in E.
      destruct (existsb _ _) eqn:Hex; [unfold ret in E; discriminate |].
      assert (Hu : In u cls) by (apply Hin; [now left | exact Ha]).
      pose proof (Hlen u (or_introl eq_refl)) as Hlu.
      destruct u as [| lit [| l' u']]; try discriminate. simpl in *.
      assert (Hlt : (cnf_size (BaseDPLL._assign_literal cls lit)
                     < cnf_size cls)%nat).
      { apply (assign_literal_size_lt cls lit [lit]); [assumption |].
        left. now left. }
      apply IH in E; [| exact Hlen' |].
      * destruct E as (Hc & Hle & _).
        split; [| split; [lia | intros _; right; lia]].
        intros Hclean. apply Hc. intros c' Hc'. split.
        -- intros ->.
           assert (Habs : existsb (fun c => (length c =? 0)%nat)
                            (BaseDPLL._assign_literal cls lit) = true).
           { apply existsb_exists. exists []. split; [assumption |].
             reflexivity. }
           congruence.
        -- apply (assign_literal_nodup cls lit); [| assumption].
           intros c Hc0. now apply Hclean.
      * intros u' Hu' Hfree.
        pose proof (Hlen' u' Hu') as Hlu'.
        destruct u' as [| l1 [| l2 u'']]; try discriminate. simpl in *.
        assert (Hne : Z.abs l1 <> Z.abs lit).
        { intros Heq. rewrite Heq, lookup_insert_eq in Hfree.
          discriminate. }
        rewrite lookup_insert_ne in Hfree by congruence.
        assert (Hl1 : In [l1] cls) by (apply Hin; auto).
        apply (assign_literal_keeps cls lit) in Hl1.
        -- simpl in Hl1.
           replace (l1 =? - lit) with false in Hl1
             by (symmetry; apply Z.eqb_neq; lia).
           exact Hl1.
        -- intros [-> | []]. contradiction.
Qed.

Lemma filter_nil_none {A : Type} (f : A -> bool) (l : list A) :
  List.filter f l = [] -> forall x, In x l -> f x = false.
Proof.
  intros E x Hx. destruct (f x) eqn:Hf; [| reflexivity].
  assert (H : In x (List.filter f l)) by (apply filter_In; auto).
  rewrite E in H. destruct H.
Qed.

(** [_unit_propagate] returns within as many iterations as there are
    literal occurrences, plus one; the clauses it returns hold no unit
    clause, and no empty clause and no repeated literal if the clauses it
    was given hold none. *)
Lemma unit_propagate_terminates (fuel : nat) :
  forall cls a (s : BaseDPLL.t),
    unassigned_in a cls -> nonzero_lits cls ->
    (cnf_size cls < fuel)%nat ->
    exists r s',
      BaseDPLL._unit_propagate fuel cls a s = Done (r, s')
      /\ match r with
         | (Some cls', _) =>
             (cnf_size cls' <= cnf_size cls)%nat
             /\ (forall c, In c cls' -> length c <> 1%nat)
             /\ (clean_cnf cls -> clean_cnf cls')
         | (None, _) => True
         end.
Proof.
  induction fuel as [| fuel IH]; intros cls a s HJ HW Hfuel;
    [lia |]. simpl.
  destruct (List.filter _ cls) as [| u units] eqn:Eu.
  - eexists. eexists. split; [reflexivity |]. split; [lia |].
    split; [| auto]. intros c Hc.
    pose proof (filter_nil_none _ _ Eu c Hc) as H1.
    now apply Nat.eqb_neq in H1.
  - destruct (unit_propagate_for_total (u :: units) cls a false s)
      as (r1 & s1 & Efor).
    unfold bind. rewrite Efor.
    destruct r1 as [a1 | [[cls1 a1] changed]].
    { eexists. eexists. split; [reflexivity | exact I]. }
    assert (Hunits : forall u', In u' (u :: units) ->
                       In u' cls /\ length u' = 1%nat).
    { intros u' Hu'. rewrite <- Eu in Hu'. apply filter_In in Hu'.
      destruct Hu' as (Hin & Hlen). now apply Nat.eqb_eq in Hlen. }
    pose proof (unit_propagate_for_progress (u :: units) cls a false s s1
                  cls1 a1 changed
                  (fun u' Hu' => proj2 (Hunits u' Hu'))
                  (fun u' Hu' _ => proj1 (Hunits u' Hu'))
                  Efor) as (Hclean1 & Hle & Hlt).
    pose proof (unit_propagate_for_sound _ _ _ _ _ _ _ _ _ HJ HW Efor)
      as (_ & J1 & W1 & _).
    assert (Hch : changed = true).
    { destruct (Hunits u (or_introl eq_refl)) as (Hu & Hlu).
      assert (Hfree : a !! Z.abs (hd 0 u) = None).
      { destruct u as [| l [| l' u']]; try discriminate.
        apply (HJ [l]); [assumption | now left]. }
      simpl in Efor. rewrite Hfree in Efor.
      unfold bind, BaseDPLL.set_metrics, modify in Efor.
      destruct (existsb _ _); [unfold ret in Efor; discriminate |].
      now apply unit_propagate_for_changed in Efor. }
    subst changed.
    destruct (Hlt eq_refl) as [Habs | Hlt']; [discriminate |].
    destruct (IH cls1 a1 s1 J1 W1) as (r & s' & E & Hpost); [lia |].
    exists r, s'. split; [exact E |].
    destruct r as [[cls2 |] a2]; [| exact I].
    destruct Hpost as (Hle2 & H2 & Hclean2).
    split; [lia |]. split; [exact H2 | auto].
Qed.

(** On clauses without empty clauses, without repeated literals and
    without the literal [0], [_dpll] returns within a recursion depth of
    the number of literal occurrences plus two. *)
Lemma dpll_terminates (fuel : nat) :
  forall cls a (s : BaseDPLL.t),
    unassigned_in a cls -> nonzero_lits cls -> clean_cnf cls ->
    (cnf_size cls + 1 < fuel)%nat ->
    exists r s', BaseDPLL._dpll fuel cls a s = Done (r, s').
Proof.
  induction fuel as [| fuel IH]; intros cls a s HJ HW Hclean Hfuel;
    [lia |]. simpl.
  destruct (unit_propagate_terminates fuel cls a s HJ HW)
    as (r & s1 & Eup & Hpost); [lia |].
  unfold bind. rewrite Eup.
  destruct r as [[cls1 |] a1].
  2:{ eexists. eexists. reflexivity. }
  pose proof (unit_propagate_sound _ _ _ _ _ _ _ HJ HW Eup)
    as (_ & J1 & W1 & _).
  destruct Hpost as (Hle & Hnu & Hclean1). specialize (Hclean1 Hclean).
  assert (H2 : forall c, In c cls1 ->
                 (2 <= length c)%nat /\ List.NoDup c).
  { intros c Hc. destruct (Hclean1 c Hc) as (Hne & Hnd).
    specialize (Hnu c Hc). split; [| exact Hnd].
    destruct c as [| x [| y c]]; simpl in *; try congruence; lia. }
  destruct cls1 as [| c1 cls1'].
  { eexists. eexists. reflexivity. }
  set (cls1 := c1 :: cls1') in *.
  assert (Hrec : forall lit c sx,
            In c cls1 -> In lit c \/ In (- lit) c ->
            exists r s',
              BaseDPLL._dpll fuel (BaseDPLL._assign_literal cls1 lit)
                (<[Z.abs lit := 0 <? lit]> a1) sx = Done (r, s')).
  { intros lit c sx Hc Hl. apply IH.
    - now apply assign_literal_unassigned.
    - now apply assign_literal_nonzero.
    - intros c' Hc'. split.
      + apply assign_literal_In in Hc'.
        destruct Hc' as (c0 & Hc0 & _ & ->).
        destruct (H2 c0 Hc0) as (Hlen & Hnd).
        pose proof (filter_length_nodup (- lit) c0 Hnd) as Hf.
        intros Heq. rewrite Heq in Hf. simpl in Hf. lia.
      + apply (assign_literal_nodup cls1 lit); [| assumption].
        intros c0 Hc0. now apply H2.
    - pose proof (assign_literal_size_lt cls1 lit c Hc Hl). lia. }
  destruct (BaseDPLL.truthy (BaseDPLL._find_pure_literal cls1))
    as [pure_lit |] eqn:Ep.
  { apply find_pure_literal_In in Ep. destruct Ep as (_ & c & Hc & Hl).
    apply (Hrec pure_lit c); auto. }
  unfold BaseDPLL.set_metrics, modify.
  set (var := BaseDPLL._choose_variable cls1) in *.
  assert (Hpos : 0 < var) by now apply choose_variable_pos.
  destruct (choose_variable_spec cls1)
    as [(c & l & Hc & Hl & Ev) | (Hall & _)].
  2:{ exfalso. destruct (H2 c1 (or_introl eq_refl)) as (Hlen & _).
      rewrite (Hall c1 (or_introl eq_refl)) in Hlen. simpl in Hlen. lia. }
  fold var in Ev.
  assert (Hocc : In var c \/ In (- var) c).
  { destruct (Z.abs_spec l) as [[_ E] | [_ E]]; rewrite E in Ev.
    - left. now rewrite Ev.
    - right. replace (- var) with l by lia. exact Hl. }
  match goal with
  | |- exists r s', match ?d ?sx with _ => _ end = _ =>
      destruct (Hrec var c sx Hc Hocc) as (r1 & s2 & E1)
  end.
  rewrite Z.abs_eq in E1 by lia.
  replace (0 <? var) with true in E1 by (symmetry; apply Z.ltb_lt; lia).
  rewrite E1.
  destruct r1; [eexists; eexists; reflexivity |].
  match goal with
  | |- exists r s', ?d ?sx = _ =>
      destruct (Hrec (- var) c sx Hc) as (r2 & s3 & E2)
  end.
  { rewrite Z.opp_involutive. tauto. }
  rewrite Z.abs_opp, Z.abs_eq in E2 by lia.
  replace (0 <? - var) with false in E2 by (symmetry; apply Z.ltb_ge; lia).
  exists r2, s3. exact E2.
Qed.

Ltac in_cases :=
  repeat match goal with
    | H : _ \/ _ |- _ => destruct H
    | H : False |- _ => destruct H
    | H : In _ _ |- _ => progress simpl in H
    | H : _ = _ |- _ => progress subst
    end.

(** The base solver terminates on every problem whose clauses are not
    empty, hold no literal twice and do not hold the literal [0]: [solve]
    returns within a recursion depth of the number of literal occurrences
    plus two. *)
Theorem BaseDPLL_solve_terminates (iter_order : list Z -> list Z)
    (clauses : list (list Z)) (num_vars : Z) :
  nonzero_lits clauses -> clean_cnf clauses ->
  exists r,
    run iter_order "base" clauses num_vars (cnf_size clauses + 2) = Done r.
Proof.
  intros HW Hclean. unfold run. simpl.
  unfold BaseDPLL.solve, bind, BaseDPLL.set_metrics, modify, get. simpl.
  match goal with
  | |- context [BaseDPLL._dpll ?f clauses ∅ ?sx] =>
      destruct (dpll_terminates f clauses ∅ sx) as (r & s' & E)
  end; try assumption; try lia.
  { intros c l _ _. apply lookup_empty. }
  rewrite E. destruct r; eexists; reflexivity.
Qed.

Lemma BaseDPLL_solve_terminates_witness :
  nonzero_lits [[1; 2]; [-1; 2]; [1; -2]]
  /\ clean_cnf [[1; 2]; [-1; 2]; [1; -2]]
  /\ exists r, run insertion_order "base" [[1; 2]; [-1; 2]; [1; -2]] 2 8
               = Done r.
Proof.
  assert (H1 : nonzero_lits [[1; 2]; [-1; 2]; [1; -2]]).
  { intros c l Hc Hl. in_cases; lia. }
  assert (H2 : clean_cnf [[1; 2]; [-1; 2]; [1; -2]]).
  { intros c Hc. in_cases; (split; [discriminate |]);
      repeat constructor; simpl; intros H; in_cases; lia. }
  split; [exact H1 |]. split; [exact H2 |].
  exact (BaseDPLL_solve_terminates insertion_order
           [[1; 2]; [-1; 2]; [1; -2]] 2 H1 H2).
Defined.

(** ** The base solver on empty clauses *)

Lemma assign_literal_empties (n : nat) (lit : Z) :
  BaseDPLL._assign_literal (repeat [] n) lit = repeat [] n.
Proof.
  induction n as [| n IH]; [reflexivity |].
  simpl repeat. rewrite assign_literal_cons. simpl. now rewrite IH.
Qed.

Lemma concat_empties (n : nat) : concat (repeat (@nil Z) n) = [].
Proof. induction n as [| n IH]; [reflexivity | exact IH]. Qed.

Lemma filter_units_empties (n : nat) :
  List.filter (fun c : list Z => (length c =? 1)%nat) (repeat [] n) = [].
Proof. induction n as [| n IH]; [reflexivity | exact IH]. Qed.

Lemma dpll_empties (fuel : nat) :
  forall (n : nat) (a : gmap Z bool) (s : BaseDPLL.t),
    BaseDPLL._dpll fuel (repeat [] (S n)) a s = OutOfFuel.
Proof.
  induction fuel as [| fuel IH]; intros n a s; [reflexivity |].
  cbn [BaseDPLL._dpll]. unfold bind at 1.
  destruct fuel as [| fuel]; [reflexivity |].
  cbn [BaseDPLL._unit_propagate].
  rewrite filter_units_empties. unfold ret at 1. cbn [repeat].
  unfold BaseDPLL._find_pure_literal, BaseDPLL._choose_variable.
  change ([] :: repeat [] n) with (repeat (@nil Z) (S n)).
  rewrite concat_empties. cbn [List.filter map BaseDPLL.truthy fold_left
                                 max_key Z.abs].
  rewrite assign_literal_empties.
  unfold bind, BaseDPLL.set_metrics, modify. now rewrite IH.
Qed.

(** On a problem made of empty clauses only, and of at least one, the base
    solver never returns: whatever the recursion budget, [solve] exhausts
    it.  (No unit clause ever appears, so the empty clause is never seen;
    every call decides variable [1] again.) *)
Theorem BaseDPLL_empty_clauses_never_return (iter_order : list Z -> list Z)
    (n : nat) (num_vars : Z) (fuel : nat) :
  run iter_order "base" (repeat [] (S n)) num_vars fuel = OutOfFuel.
Proof.
  unfold run. cbn [get_solver String.eqb Ascii.eqb Bool.eqb solve].
  unfold BaseDPLL.solve, bind, BaseDPLL.set_metrics, modify, get.
  cbn [BaseDPLL.__init__ BaseDPLL.clauses BaseDPLL.assignment
       BaseDPLL.num_vars BaseDPLL.metrics].
  now rewrite dpll_empties.
Qed.

(** ** Refutations of the watched solver *)

Lemma same_problem_refl (st : WatchedLiteralsDPLL.state) : same_problem st st.
Proof. repeat split. Qed.

Lemma same_problem_trans (s1 s2 s3 : WatchedLiteralsDPLL.state) :
  same_problem s1 s2 -> same_problem s2 s3 -> same_problem s1 s3.
Proof.
  intros (A & B & C) (A' & B' & C'). repeat split; congruence.
Qed.

Lemma propagate_queue_same_problem (fuel : nat) :
  forall (queue : list nat) (st st' : WatchedLiteralsDPLL.state) r,
    WatchedLiteralsDPLL.propagate_queue fuel queue st = Done (r, st') ->
    same_problem st st'.
Proof.
  induction fuel as [| fuel IH]; intros queue st st' r E; simpl in E.
  - discriminate.
  - destruct queue as [| clause_idx queue].
    { unfold ret in E. inversion E; subst. apply same_problem_refl. }
    apply bind_Done in E. destruct E as (clause & s1 & E1 & E).
    unfold WatchedLiteralsDPLL.clause_at in E1.
    destruct (_ !! clause_idx); [| discriminate].
    inversion E1; subst s1. clear E1.
    unfold WatchedLiteralsDPLL._get_unit_literal, bind,
      WatchedLiteralsDPLL.read_assignment, ret in E. simpl in E.
    destruct (WatchedLiteralsDPLL.get_unit_literal_loop _ _)
      as [unit_lit |]; [| now apply IH in E].
    destruct (WatchedLiteralsDPLL.current st !! Z.abs unit_lit) as [b |].
    { destruct (negb _); [| now apply IH in E].
      inversion E; subst. apply same_problem_refl. }
    unfold WatchedLiteralsDPLL.write_assignment,
      WatchedLiteralsDPLL.set_metrics, modify, get in E. simpl in E.
    match type of E with
    | match ?c ?sx with _ => _ end = _ =>
        destruct (c sx) as [[q s2] | e |] eqn:E2; try discriminate
    end.
    apply recheck_watchers_state in E2. subst s2.
    destruct q as [queue' |].
    + apply IH in E. exact E.
    + inversion E; subst. repeat split.
Qed.

Lemma unit_propagate_same_problem (fuel : nat)
    (st st' : WatchedLiteralsDPLL.state) (r : bool) :
  WatchedLiteralsDPLL._unit_propagate fuel st = Done (r, st') ->
  same_problem st st'.
Proof.
  unfold WatchedLiteralsDPLL._unit_propagate. intros E.
  apply bind_Done in E. destruct E as (s0 & s1 & E0 & E).
  unfold get in E0. inversion E0; subst s0 s1. clear E0.
  apply bind_Done in E. destruct E as (queue & s1 & E1 & E).
  apply initial_units_state in E1. subst s1.
  now apply propagate_queue_same_problem in E.
Qed.

Ltac step_modify E :=
  let u := fresh "u" in
  let sx := fresh "sx" in
  let E0 := fresh "E0" in
  apply bind_Done in E; destruct E as (u & sx & E0 & E);
  unfold WatchedLiteralsDPLL.set_metrics, WatchedLiteralsDPLL._restore_state,
    WatchedLiteralsDPLL.write_assignment, WatchedLiteralsDPLL._save_state,
    WatchedLiteralsDPLL.read_assignment, modify, get in E0;
  simpl in E0; inversion E0; subst u sx; clear E0.

Lemma watched_dpll_same_problem (fuel : nat) :
  forall (st st' : WatchedLiteralsDPLL.state) (r : bool),
    WatchedLiteralsDPLL._dpll fuel st = Done (r, st') ->
    same_problem st st'.
Proof.
  induction fuel as [| fuel IH]; intros st st' r E; simpl in E.
  - discriminate.
  - apply bind_Done in E. destruct E as (ok & s1 & E1 & E).
    apply unit_propagate_same_problem in E1.
    destruct ok; cbn [negb] in E.
    2:{ unfold bind, WatchedLiteralsDPLL.set_metrics, modify, ret in E.
        inversion E; subst. exact E1. }
    step_modify E. step_modify E.
    destruct (_ =? _).
    { unfold ret in E. inversion E; subst. exact E1. }
    apply bind_Done in E. destruct E as (choice & s2 & Ec & E).
    unfold WatchedLiteralsDPLL._choose_variable, bind, get,
      WatchedLiteralsDPLL.read_assignment, ret in Ec.
    inversion Ec; subst s2. clear Ec.
    destruct choice as [var |].
    2:{ unfold ret in E. inversion E; subst. exact E1. }
    step_modify E. step_modify E. step_modify E.
    apply bind_Done in E. destruct E as (r1 & s3 & E3 & E).
    apply IH in E3.
    assert (H13 : same_problem st s3).
    { eapply same_problem_trans; [exact E1 |]. exact E3. }
    destruct r1.
    { unfold ret in E. inversion E; subst. exact H13. }
    step_modify E. step_modify E. step_modify E.
    apply bind_Done in E. destruct E as (r2 & s5 & E5 & E).
    apply IH in E5.
    assert (H15 : same_problem st s5).
    { eapply same_problem_trans; [exact H13 |]. exact E5. }
    destruct r2.
    { unfold ret in E. inversion E; subst. exact H15. }
    step_modify E. unfold ret in E. inversion E; subst. exact H15.
Qed.

Lemma lit_false_not_true (a : gmap Z bool) (x : Z) :
  lit_false a x -> ~ lit_true a x.
Proof.
  unfold lit_false, lit_true. intros H1 H2. rewrite H1 in H2.
  inversion H2 as [E]. destruct (0 <? x); discriminate.
Qed.

Lemma lit_false_mono (a a' : gmap Z bool) (x : Z) :
  a ⊆ a' -> lit_false a x -> lit_false a' x.
Proof. unfold lit_false. intros Hsub H. eapply lookup_weaken; eassumption. Qed.

Lemma unit_under_mono (a a' : gmap Z bool) (c : list Z) :
  a ⊆ a' -> unit_under a c -> unit_under a' c.
Proof.
  intros Hsub (l & H). exists l. intros x Hx.
  destruct (H x Hx) as [-> | Hf]; [now left | right].
  now apply (lit_false_mono a).
Qed.

Lemma eqb_false_negb (b c : bool) : eqb b c = false -> b = negb c.
Proof. destruct b, c; simpl; congruence. Qed.

Lemma is_unit_loop_spec (a : gmap Z bool) (c : list Z) :
  forall acc : list Z,
    WatchedLiteralsDPLL.is_unit_loop a c acc = true ->
    (acc = [] /\ unit_under a c)
    \/ (exists l0, acc = [l0] /\ forall x, In x c -> lit_false a x).
Proof.
  induction c as [| lit c IH]; intros acc H; simpl in H.
  - right. destruct acc as [| l0 [| l1 acc]]; try discriminate.
    exists l0. split; [reflexivity |]. intros x [].
  - destruct (a !! Z.abs lit) as [b |] eqn:Ha.
    + destruct (eqb b (0 <? lit)) eqn:Hb; [discriminate |].
      apply eqb_false_negb in Hb. subst b.
      destruct (IH acc H) as [(-> & l & Hl) | (l0 & -> & Hl)].
      * left. split; [reflexivity |]. exists l.
        intros x [<- | Hx]; [now right | now apply Hl].
      * right. exists l0. split; [reflexivity |].
        intros x [<- | Hx]; [exact Ha | now apply Hl].
    + destruct (IH _ H) as [(Habs & _) | (l0 & Hacc & Hl)].
      * destruct acc; discriminate.
      * destruct acc as [| l1 acc]; simpl in Hacc.
        -- inversion Hacc; subst l0. left. split; [reflexivity |].
           exists lit. intros x [<- | Hx]; [now left | right; now apply Hl].
        -- destruct acc; discriminate.
Qed.

Lemma is_conflicting_loop_spec (a : gmap Z bool) (c : list Z) :
  WatchedLiteralsDPLL.is_conflicting_loop a c = true ->
  forall x, In x c -> lit_false a x.
Proof.
  induction c as [| lit c IH]; intros H x Hx; simpl in H; [destruct Hx |].
  destruct (a !! Z.abs lit) as [b |] eqn:Ha; [| discriminate].
  destruct (eqb b (0 <? lit)) eqn:Hb; [discriminate |].
  apply eqb_false_negb in Hb. subst b.
  destruct Hx as [<- | Hx]; [exact Ha | now apply IH].
Qed.

Lemma get_unit_literal_loop_spec (a : gmap Z bool) (c : list Z) (u : Z) :
  WatchedLiteralsDPLL.get_unit_literal_loop a c = Some u ->
  In u c /\ a !! Z.abs u = None.
Proof.
  induction c as [| lit c IH]; intros H; simpl in H; [discriminate |].
  destruct (a !! Z.abs lit) eqn:Ha.
  - destruct (IH H). split; [now right | assumption].
  - inversion H; subst. split; [now left | assumption].
Qed.

Lemma lookup_In {A : Type} (l : list A) (i : nat) (x : A) :
  l !! i = Some x -> In x l.
Proof.
  intros H. apply list_elem_of_In. eapply list_elem_of_lookup_2. exact H.
Qed.

Lemma is_unit_clause_spec (idx : nat) (st st' : WatchedLiteralsDPLL.state) :
  WatchedLiteralsDPLL._is_unit_clause idx st = Done (true, st') ->
  exists c,
    WatchedLiteralsDPLL.clauses (WatchedLiteralsDPLL.self st) !! idx = Some c
    /\ unit_under (WatchedLiteralsDPLL.current st) c.
Proof.
  unfold WatchedLiteralsDPLL._is_unit_clause, bind,
    WatchedLiteralsDPLL.clause_at, WatchedLiteralsDPLL.read_assignment, ret.
  destruct (_ !! idx) as [c |]; [| discriminate].
  intros E. inversion E as [[Hu Hs]]. subst st'. exists c.
  split; [reflexivity |].
  destruct (is_unit_loop_spec _ _ _ Hu) as [(_ & H) | (l0 & Habs & _)];
    [exact H | discriminate].
Qed.

Lemma is_conflicting_spec (idx : nat) (st st' : WatchedLiteralsDPLL.state) :
  WatchedLiteralsDPLL._is_conflicting idx st = Done (true, st') ->
  exists c,
    In c (WatchedLiteralsDPLL.clauses (WatchedLiteralsDPLL.self st))
    /\ forall x, In x c -> lit_false (WatchedLiteralsDPLL.current st) x.
Proof.
  unfold WatchedLiteralsDPLL._is_conflicting, bind,
    WatchedLiteralsDPLL.clause_at, WatchedLiteralsDPLL.read_assignment, ret.
  destruct (_ !! idx) as [c |] eqn:Ec; [| discriminate].
  intros E. inversion E as [[Hu Hs]]. subst st'. exists c.
  split; [now apply lookup_In in Ec |].
  now apply is_conflicting_loop_spec.
Qed.

Lemma queue_of_units_app (st : WatchedLiteralsDPLL.state)
    (queue : list nat) (idx : nat) (c : list Z) :
  queue_of_units st queue ->
  WatchedLiteralsDPLL.clauses (WatchedLiteralsDPLL.self st) !! idx = Some c ->
  unit_under (WatchedLiteralsDPLL.current st) c ->
  queue_of_units st (queue ++ [idx]).
Proof.
  intros HQ Hc Hu i Hi. apply in_app_or in Hi.
  destruct Hi as [Hi | [<- | []]]; [now apply HQ | now exists c].
Qed.

Lemma initial_units_queue (idxs : list nat) :
  forall (queue queue' : list nat) (st st' : WatchedLiteralsDPLL.state),
    WatchedLiteralsDPLL.initial_units idxs queue st = Done (queue', st') ->
    queue_of_units st queue -> queue_of_units st queue'.
Proof.
  induction idxs as [| i idxs IH]; intros queue queue' st st' E HQ;
    simpl in E.
  - unfold ret in E. now inversion E; subst.
  - apply bind_Done in E. destruct E as (b & s1 & E1 & E).
    pose proof (is_unit_clause_state _ _ _ _ E1). subst s1.
    destruct b; [| eapply IH; eassumption].
    apply is_unit_clause_spec in E1. destruct E1 as (c & Hc & Hu).
    eapply IH; [exact E |]. now apply (queue_of_units_app st queue i c).
Qed.

Lemma recheck_watchers_queue (watching : list nat) :
  forall (queue : list nat) q (st st' : WatchedLiteralsDPLL.state),
    WatchedLiteralsDPLL.recheck_watchers watching queue st = Done (q, st') ->
    queue_of_units st queue ->
    match q with
    | Some queue' => queue_of_units st queue'
    | None =>
        exists c,
          In c (WatchedLiteralsDPLL.clauses (WatchedLiteralsDPLL.self st))
          /\ forall x, In x c -> lit_false (WatchedLiteralsDPLL.current st) x
    end.
Proof.
  induction watching as [| i watching IH]; intros queue q st st' E HQ;
    simpl in E.
  - unfold ret in E. now inversion E; subst.
  - apply bind_Done in E. destruct E as (b & s1 & E1 & E).
    pose proof (is_unit_clause_state _ _ _ _ E1). subst s1.
    destruct b.
    + apply is_unit_clause_spec in E1. destruct E1 as (c & Hc & Hu).
      eapply IH; [exact E |]. now apply (queue_of_units_app st queue i c).
    + apply bind_Done in E. destruct E as (cf & s1 & E2 & E).
      pose proof (is_conflicting_state _ _ _ _ E2). subst s1.
      destruct cf.
      * unfold ret in E. inversion E; subst.
        now apply is_conflicting_spec in E2.
      * eapply IH; eassumption.
Qed.

Lemma falsified_clause_unsat (a m : gmap Z bool) (c : list Z)
    (cls : list (list Z)) :
  In c cls -> (forall x, In x c -> lit_false a x) -> a ⊆ m ->
  ~ all_sat m cls.
Proof.
  intros Hc Hf Hsub Hsat. destruct (Hsat c Hc) as (x & Hx & Ht).
  apply (lit_false_not_true m x); [| exact Ht].
  apply (lit_false_mono a); [assumption | now apply Hf].
Qed.

(** The unassigned literal of a unit clause is true in every satisfying
    extension of the assignment. *)
Lemma unit_clause_forces (a m : gmap Z bool) (c : list Z)
    (cls : list (list Z)) (u : Z) :
  In c cls -> unit_under a c -> In u c -> a !! Z.abs u = None ->
  a ⊆ m -> all_sat m cls -> lit_true m u.
Proof.
  intros Hc (l & Hl) Hu Hfree Hsub Hsat.
  assert (El : u = l).
  { destruct (Hl u Hu) as [E | Hf]; [exact E |].
    unfold lit_false in Hf. congruence. }
  subst l. destruct (Hsat c Hc) as (x & Hx & Ht).
  destruct (Hl x Hx) as [-> | Hf]; [exact Ht |].
  exfalso. apply (lit_false_not_true m x); [| exact Ht].
  now apply (lit_false_mono a).
Qed.

Lemma current_alter (h : list (gmap Z bool)) (p : nat) (var : Z)
    (value : bool) (s : WatchedLiteralsDPLL.t) :
  WatchedLiteralsDPLL.assignment s = p -> (p < length h)%nat ->
  WatchedLiteralsDPLL.current
    (WatchedLiteralsDPLL.mkState (alter (insert var value) p h) s)
  = <[var := value]> (default ∅ (h !! p)).
Proof.
  intros Hp Hlt. unfold WatchedLiteralsDPLL.current. simpl. rewrite Hp.
  rewrite list_lookup_alter_eq.
  destruct (lookup_lt_is_Some_2 h p Hlt) as [d Hd]. now rewrite Hd.
Qed.

(** The [while queue] loop assigns only literals that every satisfying
    extension of the assignment makes true, and stops with [False] only on
    a clause whose literals are all false. *)
Lemma propagate_queue_complete (a0 : gmap Z bool) (fuel : nat) :
  forall (queue : list nat) (st st' : WatchedLiteralsDPLL.state) (r : bool),
    valid st -> queue_of_units st queue ->
    (forall m, a0 ⊆ m ->
       all_sat m (WatchedLiteralsDPLL.clauses (WatchedLiteralsDPLL.self st)) ->
       WatchedLiteralsDPLL.current st ⊆ m) ->
    WatchedLiteralsDPLL.propagate_queue fuel queue st = Done (r, st') ->
    forall m, a0 ⊆ m ->
      all_sat m (WatchedLiteralsDPLL.clauses (WatchedLiteralsDPLL.self st)) ->
      r = true /\ WatchedLiteralsDPLL.current st' ⊆ m.
Proof.
  induction fuel as [| fuel IH]; intros queue st st' r Hv HQ Hent E;
    simpl in E.
  - discriminate.
  - destruct queue as [| clause_idx queue].
    { unfold ret in E. inversion E; subst. intros m H0 Hsat.
      split; [reflexivity | now apply Hent]. }
    assert (HQ' : queue_of_units st queue)
      by (intros i Hi; apply HQ; now right).
    destruct (HQ clause_idx (or_introl eq_refl)) as (c & Hc & Hu).
    apply bind_Done in E. destruct E as (clause & s1 & E1 & E).
    unfold WatchedLiteralsDPLL.clause_at in E1. rewrite Hc in E1.
    inversion E1; subst clause s1. clear E1.
    unfold WatchedLiteralsDPLL._get_unit_literal, bind,
      WatchedLiteralsDPLL.read_assignment, ret in E. simpl in E.
    destruct (WatchedLiteralsDPLL.get_unit_literal_loop _ _)
      as [unit_lit |] eqn:Eu; [| now apply (IH queue st st' r)].
    apply get_unit_literal_loop_spec in Eu. destruct Eu as (Hin & Hfree).
    rewrite Hfree in E.
    unfold WatchedLiteralsDPLL.write_assignment,
      WatchedLiteralsDPLL.set_metrics, modify, get in E. simpl in E.
    match type of E with
    | match ?k ?sx with _ => _ end = _ =>
        set (st2 := sx) in *;
        destruct (k st2) as [[q s2] | e |] eqn:E2; try discriminate
    end.
    pose proof (recheck_watchers_state _ _ _ _ _ E2). subst s2.
    assert (Hcur : WatchedLiteralsDPLL.current st2
                   = <[Z.abs unit_lit := 0 <? unit_lit]>
                       (WatchedLiteralsDPLL.current st)).
    { unfold st2. rewrite current_alter; [reflexivity | reflexivity |].
      exact Hv. }
    assert (Hsub : WatchedLiteralsDPLL.current st
                   ⊆ WatchedLiteralsDPLL.current st2).
    { rewrite Hcur. now apply insert_subseteq. }
    assert (Hv2 : valid st2).
    { unfold valid, st2. simpl. now rewrite length_alter. }
    assert (Hent2 : forall m, a0 ⊆ m ->
              all_sat m (WatchedLiteralsDPLL.clauses
                           (WatchedLiteralsDPLL.self st)) ->
              WatchedLiteralsDPLL.current st2 ⊆ m).
    { intros m H0 Hsat. rewrite Hcur. apply insert_subseteq_l.
      - apply (unit_clause_forces (WatchedLiteralsDPLL.current st) m c
                 (WatchedLiteralsDPLL.clauses (WatchedLiteralsDPLL.self st)));
          auto.
        now apply lookup_In in Hc.
      - now apply Hent. }
    assert (HQ2 : queue_of_units st2 queue).
    { intros i Hi. destruct (HQ' i Hi) as (c' & Hc' & Hu').
      exists c'. split; [exact Hc' |].
      now apply (unit_under_mono (WatchedLiteralsDPLL.current st)). }
    apply recheck_watchers_queue in E2; [| exact HQ2].
    destruct q as [queue' |].
    + now apply (IH queue' st2 st' r Hv2 E2 Hent2).
    + destruct E2 as (cf & Hcf & Hfalse). intros m H0 Hsat. exfalso.
      apply (falsified_clause_unsat (WatchedLiteralsDPLL.current st2) m cf
               (WatchedLiteralsDPLL.clauses (WatchedLiteralsDPLL.self st)));
        auto.
Qed.

Lemma watched_unit_propagate_complete (fuel : nat)
    (st st' : WatchedLiteralsDPLL.state) (r : bool) :
  valid st ->
  WatchedLiteralsDPLL._unit_propagate fuel st = Done (r, st') ->
  forall m, WatchedLiteralsDPLL.current st ⊆ m ->
    all_sat m (WatchedLiteralsDPLL.clauses (WatchedLiteralsDPLL.self st)) ->
    r = true /\ WatchedLiteralsDPLL.current st' ⊆ m.
Proof.
  unfold WatchedLiteralsDPLL._unit_propagate. intros Hv E.
  apply bind_Done in E. destruct E as (s0 & s1 & E0 & E).
  unfold get in E0. inversion E0; subst s0 s1. clear E0.
  apply bind_Done in E. destruct E as (queue & s1 & E1 & E).
  pose proof (initial_units_state _ _ _ _ _ E1). subst s1.
  apply initial_units_queue in E1; [| intros i []].
  apply (propagate_queue_complete (WatchedLiteralsDPLL.current st) fuel
           queue st st' r Hv E1); auto.
Qed.

(** A call of [_dpll] that returns [False] started from an assignment that
    no satisfying assignment extends. *)
Lemma watched_dpll_complete (fuel : nat) :
  forall (st st' : WatchedLiteralsDPLL.state),
    valid st ->
    WatchedLiteralsDPLL._dpll fuel st = Done (false, st') ->
    forall m, WatchedLiteralsDPLL.current st ⊆ m ->
      ~ all_sat m (WatchedLiteralsDPLL.clauses (WatchedLiteralsDPLL.self st)).
Proof.
  induction fuel as [| fuel IH]; intros st st' Hv E m Hm Hsat; simpl in E.
  - discriminate.
  - apply bind_Done in E. destruct E as (ok & s1 & E1 & E).
    pose proof (unit_propagate_frame _ _ _ _ E1) as (Ea1 & El1 & _).
    pose proof (unit_propagate_same_problem _ _ _ _ E1) as (Hcl1 & _).
    destruct (watched_unit_propagate_complete _ _ _ _ Hv E1 m Hm Hsat)
      as (-> & Hm1).
    cbn [negb] in E.
    assert (Hv1 : valid s1) by (unfold valid in *; lia).
    step_modify E. step_modify E.
    destruct (_ =? _); [discriminate |].
    apply bind_Done in E. destruct E as (choice & s2 & Ec & E).
    destruct choice as [var |]; [| discriminate].
    apply watched_choose_variable_unassigned in Ec.
    destruct Ec as (-> & Hfresh).
    remember (WatchedLiteralsDPLL.assignment (WatchedLiteralsDPLL.self s1))
      as p eqn:Ep.
    remember (WatchedLiteralsDPLL.heap s1) as h1 eqn:Eh1.
    remember (length h1) as q eqn:Eq.
    assert (Hpq : (p < q)%nat).
    { unfold valid in Hv1. rewrite <- Ep, <- Eh1, <- Eq in Hv1. exact Hv1. }
    assert (Ecur1 : WatchedLiteralsDPLL.current s1 = default ∅ (h1 !! p)).
    { unfold WatchedLiteralsDPLL.current. now rewrite <- Ep, <- Eh1. }
    rewrite Ecur1 in Hfresh, Hm1.
    step_modify E. step_modify E. step_modify E.
    unfold WatchedLiteralsDPLL.current in E.
    cbn [WatchedLiteralsDPLL.heap WatchedLiteralsDPLL.self
         WatchedLiteralsDPLL.assignment] in E.
    rewrite <- ?Eh1, <- ?Ep in E.
    (* the first branch *)
    apply bind_Done in E. destruct E as (r1 & s3 & E3 & E).
    destruct r1; [discriminate |].
    match type of E3 with
    | WatchedLiteralsDPLL._dpll _ ?sx = _ => set (s2 := sx) in *
    end.
    assert (Hv2 : valid s2).
    { unfold valid, s2. simpl. rewrite length_alter, length_app. simpl.
      lia. }
    assert (Ecur2 : WatchedLiteralsDPLL.current s2
                    = <[var := true]> (default ∅ (h1 !! p))).
    { unfold s2. rewrite current_alter;
        [| reflexivity | rewrite length_app; simpl; lia].
      now rewrite lookup_app_l by lia. }
    pose proof (IH s2 s3 Hv2 E3) as H1. rewrite Ecur2 in H1.
    pose proof (watched_dpll_frame _ _ _ _ Hv2 E3) as (Hv3 & Eg3).
    pose proof (watched_dpll_same_problem _ _ _ _ E3) as (Hcl3 & _).
    simpl in H1, Eg3, Hcl3. rewrite Hcl1 in H1.
    assert (Hq3 : WatchedLiteralsDPLL.heap s3 !! q
                  = Some (default ∅ (h1 !! p))).
    { destruct Eg3 as (_ & F & _).
      rewrite F by (rewrite ?length_alter, ?length_app; simpl; lia).
      rewrite list_lookup_alter_ne by lia.
      rewrite Eq. now apply list_lookup_middle. }
    (* the second branch *)
    rewrite <- Eq in E.
    step_modify E. step_modify E. step_modify E.
    apply bind_Done in E. destruct E as (r2 & s5 & E5 & E).
    destruct r2; [discriminate |].
    match type of E5 with
    | WatchedLiteralsDPLL._dpll _ ?sx = _ => set (s4 := sx) in *
    end.
    assert (Hq3' : (q < length (WatchedLiteralsDPLL.heap s3))%nat)
      by now apply lookup_lt_Some in Hq3.
    assert (Hv4 : valid s4).
    { unfold valid, s4. simpl. now rewrite length_alter. }
    assert (Ecur4 : WatchedLiteralsDPLL.current s4
                    = <[var := false]> (default ∅ (h1 !! p))).
    { unfold s4. rewrite current_alter; [| reflexivity | exact Hq3'].
      now rewrite Hq3. }
    pose proof (IH s4 s5 Hv4 E5) as H2. rewrite Ecur4 in H2.
    simpl in H2. rewrite Hcl3, Hcl1 in H2.
    destruct (m !! var) as [[|] |] eqn:Ev.
    + apply (H1 m); [| exact Hsat]. now apply insert_subseteq_l.
    + apply (H2 m); [| exact Hsat]. now apply insert_subseteq_l.
    + apply (H1 (<[var := true]> m)).
      * apply insert_mono. exact Hm1.
      * eapply all_sat_mono; [| exact Hsat]. now apply insert_subseteq.
Qed.

Lemma initialize_watches_clauses (original_clauses : list (list Z)) :
  forall (clauses : list (list Z)) (watches : list (Z * list nat)),
    fst (WatchedLiteralsDPLL._initialize_watches original_clauses clauses
           watches)
    = clauses ++ original_clauses.
Proof.
  induction original_clauses as [| c rest IH]; intros clauses watches;
    simpl.
  - now rewrite app_nil_r.
  - rewrite IH. now rewrite <- app_assoc.
Qed.

Lemma watched_init_clauses (clauses : list (list Z)) (num_vars : Z) :
  WatchedLiteralsDPLL.clauses
    (WatchedLiteralsDPLL.self (WatchedLiteralsDPLL.__init__ clauses num_vars))
  = clauses.
Proof.
  unfold WatchedLiteralsDPLL.__init__.
  pose proof (initialize_watches_clauses clauses [] []) as H.
  destruct (WatchedLiteralsDPLL._initialize_watches clauses [] [])
    as [cls ws].
  exact H.
Qed.

Lemma watched_refutes (iter_order : list Z -> list Z)
    (clauses : list (list Z)) (num_vars : Z) (m : SolverMetrics) :
  returns (run iter_order "watched" clauses num_vars)
          ("UNSAT"%string, None, m) ->
  forall a : gmap Z bool, ~ all_sat a clauses.
Proof.
  intros [fuel E] a.
  unfold run in E. simpl in E.
  destruct (WatchedLiteralsDPLL.solve fuel
              (WatchedLiteralsDPLL.__init__ clauses num_vars))
    as [[r s2] | e |] eqn:Es; try discriminate.
  inversion E; subst r m. clear E.
  unfold WatchedLiteralsDPLL.solve in Es.
  step_modify Es.
  apply bind_Done in Es. destruct Es as (result & s1 & Ed & Es).
  destruct result.
  { step_modify Es. step_modify Es. unfold ret in Es. discriminate. }
  match type of Ed with
  | WatchedLiteralsDPLL._dpll _ ?sx = _ => set (s0 := sx) in *
  end.
  assert (Hcl : WatchedLiteralsDPLL.clauses (WatchedLiteralsDPLL.self s0)
                = clauses) by apply watched_init_clauses.
  rewrite <- Hcl. apply (watched_dpll_complete fuel s0 s1); [| exact Ed |].
  - unfold valid, s0, WatchedLiteralsDPLL.__init__.
    destruct (WatchedLiteralsDPLL._initialize_watches clauses [] []).
    simpl. lia.
  - unfold WatchedLiteralsDPLL.current, s0, WatchedLiteralsDPLL.__init__.
    destruct (WatchedLiteralsDPLL._initialize_watches clauses [] []).
    simpl. apply map_empty_subseteq.
Qed.

(** The watched solver refutes only what cannot be satisfied: a status
    "UNSAT" means that no assignment, partial or total, makes a literal of
    every clause true.  (Its errors are all on the side of "SAT".) *)
Theorem WatchedLiteralsDPLL_unsat_sound (iter_order : list Z -> list Z)
    (clauses : list (list Z)) (num_vars : Z) (m : SolverMetrics) :
  returns (run iter_order "watched" clauses num_vars)
          ("UNSAT"%string, None, m) ->
  forall a : gmap Z bool, ~ all_sat a clauses.
Proof. apply watched_refutes. Qed.

Lemma WatchedLiteralsDPLL_unsat_sound_witness :
  returns (run insertion_order "watched" cnf_all_signs' 2)
          ("UNSAT"%string, None, mkMetrics 1 1 2 2)
  /\ forall a : gmap Z bool, ~ all_sat a cnf_all_signs'.
Proof.
  assert (H : returns (run insertion_order "watched" cnf_all_signs' 2)
                      ("UNSAT"%string, None, mkMetrics 1 1 2 2))
    by (exists 20%nat; vm_compute; reflexivity).
  split; [exact H |].
  exact (WatchedLiteralsDPLL_unsat_sound insertion_order cnf_all_signs' 2
           (mkMetrics 1 1 2 2) H).
Defined.

(** ** The search counters of the watched solver *)

Lemma propagate_queue_counters (fuel : nat) :
  forall (queue : list nat) (st st' : WatchedLiteralsDPLL.state) r,
    WatchedLiteralsDPLL.propagate_queue fuel queue st = Done (r, st') ->
    same_search_counters
      (WatchedLiteralsDPLL.metrics (WatchedLiteralsDPLL.self st))
      (WatchedLiteralsDPLL.metrics (WatchedLiteralsDPLL.self st')).
Proof.
  induction fuel as [| fuel IH]; intros queue st st' r E; simpl in E.
  - discriminate.
  - destruct queue as [| clause_idx queue].
    { unfold ret in E. inversion E; subst. repeat split. }
    apply bind_Done in E. destruct E as (clause & s1 & E1 & E).
    unfold WatchedLiteralsDPLL.clause_at in E1.
    destruct (_ !! clause_idx); [| discriminate].
    inversion E1; subst s1. clear E1.
    unfold WatchedLiteralsDPLL._get_unit_literal, bind,
      WatchedLiteralsDPLL.read_assignment, ret in E. simpl in E.
    destruct (WatchedLiteralsDPLL.get_unit_literal_loop _ _)
      as [unit_lit |]; [| now apply IH in E].
    destruct (WatchedLiteralsDPLL.current st !! Z.abs unit_lit) as [b |].
    { destruct (negb _); [| now apply IH in E].
      inversion E; subst. repeat split. }
    unfold WatchedLiteralsDPLL.write_assignment,
      WatchedLiteralsDPLL.set_metrics, modify, get in E. simpl in E.
    match type of E with
    | match ?c ?sx with _ => _ end = _ =>
        destruct (c sx) as [[q s2] | e |] eqn:E2; try discriminate
    end.
    apply recheck_watchers_state in E2. subst s2.
    destruct q as [queue' |].
    + apply IH in E. exact E.
    + inversion E; subst. repeat split.
Qed.

Lemma watched_unit_propagate_counters (fuel : nat)
    (st st' : WatchedLiteralsDPLL.state) (r : bool) :
  WatchedLiteralsDPLL._unit_propagate fuel st = Done (r, st') ->
  same_search_counters
    (WatchedLiteralsDPLL.metrics (WatchedLiteralsDPLL.self st))
    (WatchedLiteralsDPLL.metrics (WatchedLiteralsDPLL.self st')).
Proof.
  unfold WatchedLiteralsDPLL._unit_propagate. intros E.
  apply bind_Done in E. destruct E as (s0 & s1 & E0 & E).
  unfold get in E0. inversion E0; subst s0 s1. clear E0.
  apply bind_Done in E. destruct E as (queue & s1 & E1 & E).
  apply initial_units_state in E1. subst s1.
  now apply propagate_queue_counters in E.
Qed.

Lemma watched_dpll_counters (fuel : nat) :
  forall (st st' : WatchedLiteralsDPLL.state) (r : bool),
    WatchedLiteralsDPLL._dpll fuel st = Done (r, st') ->
    search_counts r
      (WatchedLiteralsDPLL.metrics (WatchedLiteralsDPLL.self st))
      (WatchedLiteralsDPLL.metrics (WatchedLiteralsDPLL.self st')).
Proof.
  induction fuel as [| fuel IH]; intros st st' r E; simpl in E.
  - discriminate.
  - apply bind_Done in E. destruct E as (ok & s1 & E1 & E).
    apply watched_unit_propagate_counters in E1.
    destruct E1 as (Ud & Ub & Uc).
    destruct ok; cbn [negb] in E.
    2:{ unfold bind, WatchedLiteralsDPLL.set_metrics, modify, ret in E.
        inversion E; subst. unfold search_counts. simpl. lia. }
    step_modify E. step_modify E.
    destruct (_ =? _).
    { unfold ret in E. inversion E; subst. unfold search_counts. lia. }
    apply bind_Done in E. destruct E as (choice & s2 & Ec & E).
    unfold WatchedLiteralsDPLL._choose_variable, bind, get,
      WatchedLiteralsDPLL.read_assignment, ret in Ec.
    inversion Ec; subst s2. clear Ec.
    destruct choice as [var |].
    2:{ unfold ret in E. inversion E; subst. unfold search_counts. lia. }
    step_modify E. step_modify E. step_modify E.
    apply bind_Done in E. destruct E as (r1 & s3 & E3 & E).
    apply IH in E3. unfold search_counts in E3. simpl in E3.
    destruct r1.
    { unfold ret in E. inversion E; subst. unfold search_counts. lia. }
    step_modify E. step_modify E. step_modify E.
    apply bind_Done in E. destruct E as (r2 & s5 & E5 & E).
    apply IH in E5. unfold search_counts in E5. simpl in E5.
    destruct r2.
    { unfold ret in E. inversion E; subst. unfold search_counts. lia. }
    step_modify E. unfold ret in E. inversion E; subst.
    unfold search_counts. simpl. lia.
Qed.

Lemma watched_solve_counters (fuel : nat)
    (st st' : WatchedLiteralsDPLL.state) (r : string * option (list Z)) :
  WatchedLiteralsDPLL.solve fuel st = Done (r, st') ->
  counted (fst r) (WatchedLiteralsDPLL.metrics (WatchedLiteralsDPLL.self st')).
Proof.
  unfold WatchedLiteralsDPLL.solve. intros Es.
  step_modify Es.
  apply bind_Done in Es. destruct Es as (result & s1 & Ed & Es).
  apply watched_dpll_counters in Ed. unfold search_counts in Ed.
  simpl in Ed.
  destruct result.
  - step_modify Es. step_modify Es. unfold ret in Es.
    inversion Es; subst. right. split; [reflexivity | lia].
  - unfold ret in Es. inversion Es; subst. left.
    split; [reflexivity | lia].
Qed.

(** The counters of the watched solver after [solve]: with status "UNSAT"
    every decision was backtracked and the conflicts are one more than the
    decisions; with status "SAT" there is one conflict per backtrack, and at
    most one backtrack per decision. *)
Theorem WatchedLiteralsDPLL_search_counters (iter_order : list Z -> list Z)
    (clauses : list (list Z)) (num_vars : Z) (status : string)
    (model : option (list Z)) (m : SolverMetrics) :
  returns (run iter_order "watched" clauses num_vars) (status, model, m) ->
  (status = "UNSAT"%string /\ backtracks m = decisions m
   /\ conflicts m = S (decisions m))
  \/ (status = "SAT"%string /\ conflicts m = backtracks m
      /\ (backtracks m <= decisions m)%nat).
Proof.
  intros [fuel E].
  unfold run in E. simpl in E.
  destruct (WatchedLiteralsDPLL.solve fuel
              (WatchedLiteralsDPLL.__init__ clauses num_vars))
    as [[r s2] | e |] eqn:Es; try discriminate.
  inversion E; subst r m. clear E.
  exact (watched_solve_counters _ _ _ _ Es).
Qed.

Lemma WatchedLiteralsDPLL_search_counters_witness :
  (backtracks (mkMetrics 1 0 1 0) = decisions (mkMetrics 1 0 1 0)
   /\ conflicts (mkMetrics 1 0 1 0) = S (decisions (mkMetrics 1 0 1 0)))
  \/ (conflicts (mkMetrics 1 0 1 0) = backtracks (mkMetrics 1 0 1 0)
      /\ (backtracks (mkMetrics 1 0 1 0)
          <= decisions (mkMetrics 1 0 1 0))%nat).
Proof.
  destruct (WatchedLiteralsDPLL_search_counters insertion_order
              [[1; 2]; [-1; 2]; [1; -2]] 2
              "SAT" (Some [1; 2]) (mkMetrics 1 0 1 0))
    as [(_ & H) | (_ & H)].
  - exists 20%nat. vm_compute. reflexivity.
  - left. exact H.
  - right. exact H.
Defined.

(** ** The watch lists *)

Lemma watch_get_append (l l' : Z) (i i' : nat) (w : list (Z * list nat)) :
  In i (WatchedLiteralsDPLL.watch_get l
          (WatchedLiteralsDPLL.watch_append l' i' w))
  <-> (l = l' /\ i = i') \/ In i (WatchedLiteralsDPLL.watch_get l w).
Proof.
  induction w as [| [k idxs] w IH]; simpl.
  - destruct (l' =? l) eqn:E.
    + apply Z.eqb_eq in E. subst l'. simpl. intuition.
    + apply Z.eqb_neq in E. simpl. intuition congruence.
  - destruct (k =? l') eqn:E1; simpl.
    + apply Z.eqb_eq in E1. subst k.
      destruct (l' =? l) eqn:E2.
      * apply Z.eqb_eq in E2. subst l'. rewrite in_app_iff. simpl.
        intuition.
      * apply Z.eqb_neq in E2. intuition congruence.
    + apply Z.eqb_neq in E1.
      destruct (k =? l) eqn:E2.
      * apply Z.eqb_eq in E2. subst k. intuition congruence.
      * exact IH.
Qed.

(** Clause [i] of [clauses] has [l] as its first or as its second
    literal. *)
Lemma initialize_watches_spec (original_clauses : list (list Z)) :
  forall (clauses : list (list Z)) (watches : list (Z * list nat)),
    (forall l i,
       In i (WatchedLiteralsDPLL.watch_get l watches)
       <-> exists c, clauses !! i = Some c
             /\ (c !! 0%nat = Some l \/ c !! 1%nat = Some l)) ->
    forall l i,
      In i (WatchedLiteralsDPLL.watch_get l
              (snd (WatchedLiteralsDPLL._initialize_watches
                      original_clauses clauses watches)))
      <-> exists c, (clauses ++ original_clauses) !! i = Some c
            /\ (c !! 0%nat = Some l \/ c !! 1%nat = Some l).
Proof.
  induction original_clauses as [| c0 rest IH]; intros clauses watches H l i;
    simpl.
  - rewrite app_nil_r. apply H.
  - replace (clauses ++ c0 :: rest) with ((clauses ++ [c0]) ++ rest)
      by (rewrite <- app_assoc; reflexivity).
    apply IH. clear l i. intros l i.
    assert (Hsnoc : (exists c, (clauses ++ [c0]) !! i = Some c
                       /\ (c !! 0%nat = Some l \/ c !! 1%nat = Some l))
                    <-> (exists c, clauses !! i = Some c
                           /\ (c !! 0%nat = Some l \/ c !! 1%nat = Some l))
                        \/ (i = length clauses
                            /\ (c0 !! 0%nat = Some l
                                \/ c0 !! 1%nat = Some l))).
    { split.
      - intros (c & Hc & Hl). apply lookup_snoc_Some in Hc.
        destruct Hc as [(_ & Hc) | (-> & ->)]; [left; eauto | right; auto].
      - intros [(c & Hc & Hl) | (-> & Hl)].
        + exists c. split; [| exact Hl]. apply lookup_snoc_Some. left.
          split; [now apply lookup_lt_Some in Hc | exact Hc].
        + exists c0. split; [| exact Hl]. apply lookup_snoc_Some. right.
          auto. }
    rewrite Hsnoc. clear Hsnoc.
    destruct c0 as [| l0 [| l1 c0]]; simpl.
    + rewrite H. intuition discriminate.
    + rewrite watch_get_append, H. intuition congruence.
    + rewrite !watch_get_append, H. intuition congruence.
Qed.

Lemma watched_init_watches (clauses : list (list Z)) (num_vars : Z)
    (l : Z) (i : nat) :
  In i (WatchedLiteralsDPLL.watch_get l
          (WatchedLiteralsDPLL.watches
             (WatchedLiteralsDPLL.self
                (WatchedLiteralsDPLL.__init__ clauses num_vars))))
  <-> exists c, clauses !! i = Some c
        /\ (c !! 0%nat = Some l \/ c !! 1%nat = Some l).
Proof.
  unfold WatchedLiteralsDPLL.__init__.
  pose proof (initialize_watches_spec clauses [] []) as H.
  destruct (WatchedLiteralsDPLL._initialize_watches clauses [] [])
    as [cls ws]. simpl in *.
  apply H. intros l' i'. simpl. split; [intros [] |].
  intros (c & Hc & _). discriminate.
Qed.

(** After [__init__], [self.clauses] is the list of the input clauses and
    the watch list of a literal [l] holds exactly the indices of the
    clauses whose first or second literal is [l]: every clause is watched by
    its first two literals.  (No method changes the watch lists
    afterwards.) *)
Theorem WatchedLiteralsDPLL_initial_watches (clauses : list (list Z))
    (num_vars : Z) :
  let self :=
    WatchedLiteralsDPLL.self (WatchedLiteralsDPLL.__init__ clauses num_vars) in
  WatchedLiteralsDPLL.clauses self = clauses
  /\ forall (l : Z) (i : nat),
       In i (WatchedLiteralsDPLL.watch_get l
               (WatchedLiteralsDPLL.watches self))
       <-> exists c, clauses !! i = Some c
             /\ (c !! 0%nat = Some l \/ c !! 1%nat = Some l).
Proof.
  split; [apply watched_init_clauses |].
  intros l i. apply watched_init_watches.
Qed.

(** ** Termination of the watched solver *)

Lemma watch_get_length (l : Z) (w : list (Z * list nat)) :
  (length (WatchedLiteralsDPLL.watch_get l w) <= watch_size w)%nat.
Proof.
  unfold watch_size. induction w as [| [k idxs] w IH]; simpl; [lia |].
  destruct (k =? l); lia.
Qed.

Lemma filter_length_mono {A : Type} (f g : A -> bool) (l : list A) :
  (forall x, In x l -> g x = true -> f x = true) ->
  (length (List.filter g l) <= length (List.filter f l))%nat.
Proof.
  induction l as [| x l IH]; intros H; simpl; [lia |].
  assert (IH' : (length (List.filter g l) <= length (List.filter f l))%nat)
    by (apply IH; intros y Hy; apply H; now right).
  destruct (g x) eqn:Eg.
  - rewrite (H x (or_introl eq_refl) Eg). simpl. lia.
  - destruct (f x); simpl; lia.
Qed.

Lemma filter_length_strict {A : Type} (f g : A -> bool) (l : list A)
    (x : A) :
  (forall y, In y l -> g y = true -> f y = true) ->
  In x l -> f x = true -> g x = false ->
  (length (List.filter g l) < length (List.filter f l))%nat.
Proof.
  induction l as [| y l IH]; intros H Hx Hf Hg; [destruct Hx |]. simpl.
  assert (Hmono : (length (List.filter g l)
                   <= length (List.filter f l))%nat)
    by (apply filter_length_mono; intros z Hz; apply H; now right).
  destruct Hx as [-> | Hx].
  - rewrite Hf, Hg. simpl. lia.
  - assert (IH' : (length (List.filter g l)
                   < length (List.filter f l))%nat)
      by (apply IH; auto; intros z Hz; apply H; now right).
    destruct (g y) eqn:Eg.
    + rewrite (H y (or_introl eq_refl) Eg). simpl. lia.
    + destruct (f y); simpl; lia.
Qed.

Lemma unassigned_count_mono (a a' : gmap Z bool) (cls : list (list Z)) :
  a ⊆ a' -> (unassigned_count a' cls <= unassigned_count a cls)%nat.
Proof.
  intros Hsub. unfold unassigned_count. apply filter_length_mono.
  intros l _. destruct (a !! Z.abs l) as [b |] eqn:Ea; [| reflexivity].
  now rewrite (lookup_weaken _ _ _ _ Ea Hsub).
Qed.

Lemma unassigned_count_insert (a : gmap Z bool) (cls : list (list Z))
    (c : list Z) (l : Z) (v : bool) :
  In c cls -> In l c -> a !! Z.abs l = None ->
  (unassigned_count (<[Z.abs l := v]> a) cls < unassigned_count a cls)%nat.
Proof.
  intros Hc Hl Hfree. unfold unassigned_count.
  apply (filter_length_strict _ _ _ l).
  - intros y _. destruct (a !! Z.abs y) as [b |] eqn:Ea; [| reflexivity].
    destruct (decide (Z.abs y = Z.abs l)) as [E | E].
    + rewrite E in Ea. congruence.
    + now rewrite lookup_insert_ne, Ea by congruence.
  - apply in_concat. now exists c.
  - now rewrite Hfree.
  - now rewrite lookup_insert_eq.
Qed.

Lemma unassigned_count_size (a : gmap Z bool) (cls : list (list Z)) :
  (unassigned_count a cls <= cnf_size cls)%nat.
Proof. unfold unassigned_count, cnf_size. apply List.filter_length_le. Qed.

Lemma is_unit_clause_total (idx : nat) (st : WatchedLiteralsDPLL.state) :
  (idx < length (WatchedLiteralsDPLL.clauses (WatchedLiteralsDPLL.self st)))%nat ->
  exists b, WatchedLiteralsDPLL._is_unit_clause idx st = Done (b, st).
Proof.
  intros H. unfold WatchedLiteralsDPLL._is_unit_clause, bind,
    WatchedLiteralsDPLL.clause_at, WatchedLiteralsDPLL.read_assignment, ret.
  destruct (lookup_lt_is_Some_2 _ _ H) as [c Hc]. rewrite Hc.
  eexists. reflexivity.
Qed.

Lemma is_conflicting_total (idx : nat) (st : WatchedLiteralsDPLL.state) :
  (idx < length (WatchedLiteralsDPLL.clauses (WatchedLiteralsDPLL.self st)))%nat ->
  exists b, WatchedLiteralsDPLL._is_conflicting idx st = Done (b, st).
Proof.
  intros H. unfold WatchedLiteralsDPLL._is_conflicting, bind,
    WatchedLiteralsDPLL.clause_at, WatchedLiteralsDPLL.read_assignment, ret.
  destruct (lookup_lt_is_Some_2 _ _ H) as [c Hc]. rewrite Hc.
  eexists. reflexivity.
Qed.

Lemma initial_units_total (idxs : list nat) :
  forall (queue : list nat) (st : WatchedLiteralsDPLL.state),
    (forall i, In i idxs ->
       (i < length (WatchedLiteralsDPLL.clauses
                      (WatchedLiteralsDPLL.self st)))%nat) ->
    exists queue',
      WatchedLiteralsDPLL.initial_units idxs queue st = Done (queue', st)
      /\ (length queue' <= length queue + length idxs)%nat
      /\ forall i, In i queue' -> In i queue \/ In i idxs.
Proof.
  induction idxs as [| i idxs IH]; intros queue st H; simpl.
  - exists queue. split; [reflexivity |]. split; [lia | auto].
  - destruct (is_unit_clause_total i st) as (b & Eb);
      [apply H; now left |].
    unfold bind. rewrite Eb.
    destruct (IH (if b then queue ++ [i] else queue) st)
      as (queue' & E & Hlen & Hin); [intros j Hj; apply H; now right |].
    exists queue'. split; [exact E |]. split.
    + destruct b; [rewrite length_app in Hlen; simpl in Hlen |]; lia.
    + intros j Hj. destruct (Hin j Hj) as [Hq | Hq]; [| auto].
      destruct b; [| auto]. apply in_app_or in Hq.
      destruct Hq as [Hq | [<- | []]]; auto.
Qed.

Lemma recheck_watchers_total (watching : list nat) :
  forall (queue : list nat) (st : WatchedLiteralsDPLL.state),
    (forall i, In i watching ->
       (i < length (WatchedLiteralsDPLL.clauses
                      (WatchedLiteralsDPLL.self st)))%nat) ->
    exists q,
      WatchedLiteralsDPLL.recheck_watchers watching queue st = Done (q, st)
      /\ match q with
         | Some queue' =>
             (length queue' <= length queue + length watching)%nat
             /\ forall i, In i queue' -> In i queue \/ In i watching
         | None => True
         end.
Proof.
  induction watching as [| i watching IH]; intros queue st H; simpl.
  - exists (Some queue). split; [reflexivity |]. split; [lia | auto].
  - assert (H' : forall j, In j watching ->
              (j < length (WatchedLiteralsDPLL.clauses
                             (WatchedLiteralsDPLL.self st)))%nat)
      by (intros j Hj; apply H; now right).
    destruct (is_unit_clause_total i st) as (b & Eb);
      [apply H; now left |].
    unfold bind. rewrite Eb. destruct b.
    + destruct (IH (queue ++ [i]) st H') as (q & E & Hq).
      exists q. split; [exact E |]. destruct q as [queue' |]; [| exact I].
      destruct Hq as (Hlen & Hin). rewrite length_app in Hlen.
      simpl in Hlen. split; [lia |].
      intros j Hj. destruct (Hin j Hj) as [Hq | Hq]; [| auto].
      apply in_app_or in Hq. destruct Hq as [Hq | [<- | []]]; auto.
    + destruct (is_conflicting_total i st) as (cf & Ec);
        [apply H; now left |].
      rewrite Ec. destruct cf.
      * exists None. split; [reflexivity | exact I].
      * destruct (IH queue st H') as (q & E & Hq).
        exists q. split; [exact E |]. destruct q as [queue' |]; [| exact I].
        destruct Hq as (Hlen & Hin). split; [lia |].
        intros j Hj. destruct (Hin j Hj); auto.
Qed.

(** The [while queue] loop ends: an iteration either shortens the queue, or
    assigns a variable that was unassigned and adds to the queue at most
    the watchers of one literal. *)
Lemma propagate_queue_terminates (fuel : nat) :
  forall (queue : list nat) (st : WatchedLiteralsDPLL.state),
    valid st -> watches_in_range st ->
    (forall i, In i queue ->
       (i < length (WatchedLiteralsDPLL.clauses
                      (WatchedLiteralsDPLL.self st)))%nat) ->
    (length queue
     + unassigned_count (WatchedLiteralsDPLL.current st)
         (WatchedLiteralsDPLL.clauses (WatchedLiteralsDPLL.self st))
       * S (watch_size (WatchedLiteralsDPLL.watches
                          (WatchedLiteralsDPLL.self st)))
     < fuel)%nat ->
    exists r st',
      WatchedLiteralsDPLL.propagate_queue fuel queue st = Done (r, st').
Proof.
  induction fuel as [| fuel IH]; intros queue st Hv Hw Hq Hfuel; [lia |].
  simpl. destruct queue as [| clause_idx queue].
  { eexists. eexists. reflexivity. }
  simpl in Hfuel.
  assert (Hq' : forall i, In i queue ->
            (i < length (WatchedLiteralsDPLL.clauses
                           (WatchedLiteralsDPLL.self st)))%nat)
    by (intros i Hi; apply Hq; now right).
  destruct (lookup_lt_is_Some_2 _ _ (Hq clause_idx (or_introl eq_refl)))
    as [clause Hc].
  unfold bind at 1. unfold WatchedLiteralsDPLL.clause_at at 1. rewrite Hc.
  unfold bind at 1.
  unfold WatchedLiteralsDPLL._get_unit_literal, bind at 1,
    WatchedLiteralsDPLL.read_assignment at 1, ret at 1.
  destruct (WatchedLiteralsDPLL.get_unit_literal_loop _ _)
    as [unit_lit |] eqn:Eu.
  2:{ apply IH; auto. lia. }
  apply get_unit_literal_loop_spec in Eu. destruct Eu as (Hin & Hfree).
  unfold bind at 1, WatchedLiteralsDPLL.read_assignment at 1.
  rewrite Hfree.
  unfold bind, WatchedLiteralsDPLL.write_assignment,
    WatchedLiteralsDPLL.set_metrics, modify, get. simpl.
  match goal with
  | |- context [WatchedLiteralsDPLL.recheck_watchers ?w queue ?sx] =>
      set (st2 := sx);
      destruct (recheck_watchers_total w queue st2) as (q & E2 & Hq2)
  end.
  { intros i Hi. unfold st2. simpl. now apply (Hw (- unit_lit)). }
  rewrite E2. destruct q as [queue' |]; [| eexists; eexists; reflexivity].
  destruct Hq2 as (Hlen & Hin2).
  assert (Hcur : WatchedLiteralsDPLL.current st2
                 = <[Z.abs unit_lit := 0 <? unit_lit]>
                     (WatchedLiteralsDPLL.current st)).
  { unfold st2. rewrite current_alter; [reflexivity | reflexivity |].
    exact Hv. }
  apply IH.
  - unfold valid, st2. simpl. now rewrite length_alter.
  - exact Hw.
  - intros i Hi. destruct (Hin2 i Hi) as [H | H]; [now apply Hq' |].
    now apply (Hw (- unit_lit)).
  - rewrite Hcur. change (WatchedLiteralsDPLL.clauses
                            (WatchedLiteralsDPLL.self st2))
      with (WatchedLiteralsDPLL.clauses (WatchedLiteralsDPLL.self st)).
    change (WatchedLiteralsDPLL.watches (WatchedLiteralsDPLL.self st2))
      with (WatchedLiteralsDPLL.watches (WatchedLiteralsDPLL.self st)).
    pose proof (unassigned_count_insert (WatchedLiteralsDPLL.current st)
                  (WatchedLiteralsDPLL.clauses (WatchedLiteralsDPLL.self st))
                  clause unit_lit (0 <? unit_lit)
                  (lookup_In _ _ _ Hc) Hin Hfree) as Hlt.
    pose proof (watch_get_length (- unit_lit)
                  (WatchedLiteralsDPLL.watches (WatchedLiteralsDPLL.self st)))
      as Hwl.
    nia.
Qed.

Lemma watched_unit_propagate_terminates (fuel : nat)
    (st : WatchedLiteralsDPLL.state) :
  valid st -> watches_in_range st -> (propagation_budget st <= fuel)%nat ->
  exists r st', WatchedLiteralsDPLL._unit_propagate fuel st = Done (r, st').
Proof.
  intros Hv Hw Hfuel. unfold WatchedLiteralsDPLL._unit_propagate.
  erewrite bind_eq by reflexivity.
  destruct (initial_units_total
              (seq 0 (length (WatchedLiteralsDPLL.clauses
                                (WatchedLiteralsDPLL.self st)))) [] st)
    as (queue & E & Hlen & Hin).
  { intros i Hi. apply in_seq in Hi. lia. }
  rewrite (bind_eq _ _ _ _ _ E).
  apply propagate_queue_terminates; auto.
  - intros i Hi. destruct (Hin i Hi) as [[] | Hs]. apply in_seq in Hs. lia.
  - rewrite length_seq in Hlen. simpl in Hlen.
    unfold propagation_budget in Hfuel. cbv zeta in Hfuel.
    pose proof (unassigned_count_size (WatchedLiteralsDPLL.current st)
                  (WatchedLiteralsDPLL.clauses (WatchedLiteralsDPLL.self st))).
    nia.
Qed.

Lemma watched_lit_count_inner_occurs (Q : Z -> Prop) (a : gmap Z bool)
    (clause : list Z) :
  (forall l, In l clause -> Q (Z.abs l)) ->
  forall d : list (Z * nat),
    (forall k, In k (map fst d) -> Q k) ->
    forall k,
      In k (map fst
              (fold_left
                 (fun d lit =>
                    match a !! Z.abs lit with
                    | None => count_incr (Z.abs lit) d
                    | Some _ => d
                    end) clause d)) ->
      Q k.
Proof.
  induction clause as [| lit clause IH]; intros Hcl d Hd k Hk; simpl in Hk.
  - now apply Hd.
  - apply (IH (fun l Hl => Hcl l (or_intror Hl)) _) in Hk; [assumption |].
    intros k' Hk'. destruct (a !! Z.abs lit); [now apply Hd |].
    apply count_incr_keys in Hk'. destruct Hk' as [-> | Hk'].
    + apply Hcl. now left.
    + now apply Hd.
Qed.

Lemma watched_lit_count_outer_occurs (Q : Z -> Prop) (a : gmap Z bool)
    (cls : list (list Z)) :
  (forall c l, In c cls -> In l c -> Q (Z.abs l)) ->
  forall d : list (Z * nat),
    (forall k, In k (map fst d) -> Q k) ->
    forall k,
      In k (map fst
              (fold_left
                 (fun d clause =>
                    if WatchedLiteralsDPLL.is_satisfied a clause then d
                    else fold_left
                           (fun d lit =>
                              match a !! Z.abs lit with
                              | None => count_incr (Z.abs lit) d
                              | Some _ => d
                              end) clause d) cls d)) ->
      Q k.
Proof.
  induction cls as [| clause cls IH]; intros Hcl d Hd k Hk; simpl in Hk.
  - now apply Hd.
  - apply (IH (fun c l Hc => Hcl c l (or_intror Hc)) _) in Hk;
      [assumption |].
    intros k' Hk'.
    destruct (WatchedLiteralsDPLL.is_satisfied a clause); [now apply Hd |].
    apply (watched_lit_count_inner_occurs Q a clause) in Hk'; auto.
    intros l Hl. apply (Hcl clause); [now left | assumption].
Qed.

(** The decision variable is the variable of a literal of some clause. *)
Lemma watched_choose_variable_occurs
    (st st' : WatchedLiteralsDPLL.state) (var : Z) :
  WatchedLiteralsDPLL._choose_variable st = Done (Some var, st') ->
  exists c l,
    In c (WatchedLiteralsDPLL.clauses (WatchedLiteralsDPLL.self st))
    /\ In l c /\ var = Z.abs l.
Proof.
  unfold WatchedLiteralsDPLL._choose_variable, bind, get,
    WatchedLiteralsDPLL.read_assignment, ret.
  intros E. inversion E as [[Ek Es]]. subst st'. apply max_key_In in Ek.
  apply (watched_lit_count_outer_occurs
           (fun k => exists c l,
              In c (WatchedLiteralsDPLL.clauses (WatchedLiteralsDPLL.self st))
              /\ In l c /\ k = Z.abs l) _ _) with (d := []) in Ek;
    [exact Ek | | intros k []].
  intros c l Hc Hl. now exists c, l.
Qed.

Lemma same_problem_budget (st st' : WatchedLiteralsDPLL.state) :
  same_problem st st' ->
  propagation_budget st' = propagation_budget st
  /\ (watches_in_range st -> watches_in_range st').
Proof.
  intros (Hc & Hw & _). unfold propagation_budget, watches_in_range.
  rewrite Hc, Hw. auto.
Qed.

Lemma grows_at_current (st st' : WatchedLiteralsDPLL.state) :
  valid st ->
  WatchedLiteralsDPLL.assignment (WatchedLiteralsDPLL.self st')
  = WatchedLiteralsDPLL.assignment (WatchedLiteralsDPLL.self st) ->
  grows_at (WatchedLiteralsDPLL.assignment (WatchedLiteralsDPLL.self st))
           (WatchedLiteralsDPLL.heap st) (WatchedLiteralsDPLL.heap st') ->
  WatchedLiteralsDPLL.current st ⊆ WatchedLiteralsDPLL.current st'.
Proof.
  intros Hv Ea (_ & _ & G). unfold WatchedLiteralsDPLL.current. rewrite Ea.
  destruct (lookup_lt_is_Some_2 _ _ Hv) as [d Hd].
  destruct (G d Hd) as (d' & Hd' & Hsub). now rewrite Hd, Hd'.
Qed.

(** [_dpll] returns within a recursion depth of the number of unassigned
    literal occurrences plus the budget of one unit propagation: every
    decision assigns a variable that was unassigned, in both branches. *)
Lemma watched_dpll_terminates (fuel : nat) :
  forall st : WatchedLiteralsDPLL.state,
    valid st -> watches_in_range st ->
    (unassigned_count (WatchedLiteralsDPLL.current st)
       (WatchedLiteralsDPLL.clauses (WatchedLiteralsDPLL.self st))
     + propagation_budget st < fuel)%nat ->
    exists r st', WatchedLiteralsDPLL._dpll fuel st = Done (r, st').
Proof.
  induction fuel as [| fuel IH]; intros st Hv Hw Hfuel; [lia |].
  cbn [WatchedLiteralsDPLL._dpll].
  destruct (watched_unit_propagate_terminates fuel st Hv Hw)
    as (ok & s1 & E1); [lia |].
  rewrite (bind_eq _ _ _ _ _ E1).
  pose proof (unit_propagate_frame _ _ _ _ E1) as (Ea1 & El1 & Eg1).
  pose proof (unit_propagate_same_problem _ _ _ _ E1) as Hsame1.
  pose proof (same_problem_budget _ _ Hsame1) as (Hb1 & Hw1).
  specialize (Hw1 Hw). destruct Hsame1 as (Hcl1 & Hws1 & _).
  assert (Hv1 : valid s1) by (unfold valid in *; lia).
  assert (Hu1 : (unassigned_count (WatchedLiteralsDPLL.current s1)
                   (WatchedLiteralsDPLL.clauses (WatchedLiteralsDPLL.self s1))
                 <= unassigned_count (WatchedLiteralsDPLL.current st)
                      (WatchedLiteralsDPLL.clauses
                         (WatchedLiteralsDPLL.self st)))%nat).
  { rewrite Hcl1. apply unassigned_count_mono.
    now apply grows_at_current. }
  destruct ok; cbn [negb].
  2:{ eexists. eexists. reflexivity. }
  erewrite bind_eq by reflexivity. erewrite bind_eq by reflexivity.
  destruct (_ =? _); [eexists; eexists; reflexivity |].
  assert (Ec : exists choice,
             WatchedLiteralsDPLL._choose_variable s1 = Done (choice, s1))
    by (unfold WatchedLiteralsDPLL._choose_variable, bind, get,
          WatchedLiteralsDPLL.read_assignment, ret; eexists; reflexivity).
  destruct Ec as (choice & Ec). rewrite (bind_eq _ _ _ _ _ Ec).
  destruct choice as [var |]; [| eexists; eexists; reflexivity].
  pose proof (watched_choose_variable_unassigned _ _ _ Ec) as (_ & Hfresh).
  pose proof (watched_choose_variable_occurs _ _ _ Ec)
    as (c & l & Hc & Hl & Evar).
  assert (Hdec : forall v : bool,
            (unassigned_count (<[var := v]> (WatchedLiteralsDPLL.current s1))
               (WatchedLiteralsDPLL.clauses (WatchedLiteralsDPLL.self s1))
             + propagation_budget s1 < fuel)%nat).
  { intros v. rewrite Evar in Hfresh |- *.
    pose proof (unassigned_count_insert _ _ c l v Hc Hl Hfresh). lia. }
  remember (WatchedLiteralsDPLL.assignment (WatchedLiteralsDPLL.self s1))
    as p eqn:Ep.
  remember (WatchedLiteralsDPLL.heap s1) as h1 eqn:Eh1.
  assert (Hpq : (p < length h1)%nat).
  { unfold valid in Hv1. now rewrite <- Ep, <- Eh1 in Hv1. }
  assert (Ecur1 : WatchedLiteralsDPLL.current s1 = default ∅ (h1 !! p)).
  { unfold WatchedLiteralsDPLL.current. now rewrite <- Ep, <- Eh1. }
  erewrite bind_eq by reflexivity. erewrite bind_eq by reflexivity.
  erewrite bind_eq by reflexivity.
  cbn [WatchedLiteralsDPLL.heap WatchedLiteralsDPLL.self
       WatchedLiteralsDPLL.assignment].
  rewrite <- ?Eh1, <- ?Ep.
  (* the first branch *)
  match goal with
  | |- context [bind (WatchedLiteralsDPLL._dpll fuel) _ ?sx] =>
      set (s2 := sx)
  end.
  assert (Hv2 : valid s2).
  { unfold valid, s2. simpl. rewrite length_alter, length_app. simpl.
    rewrite <- ?Ep. lia. }
  assert (Ecur2 : WatchedLiteralsDPLL.current s2
                  = <[var := true]> (WatchedLiteralsDPLL.current s1)).
  { unfold s2. rewrite current_alter;
      [| simpl; now rewrite <- ?Ep | rewrite length_app; simpl; lia].
    rewrite lookup_app_l by lia. now rewrite Ecur1. }
  destruct (IH s2) as (r1 & s3 & E3); [exact Hv2 | exact Hw1 | |].
  { rewrite Ecur2. apply Hdec. }
  rewrite (bind_eq _ _ _ _ _ E3).
  destruct r1; [eexists; eexists; reflexivity |].
  pose proof (watched_dpll_frame _ _ _ _ Hv2 E3) as (Hv3 & Eg3).
  pose proof (watched_dpll_same_problem _ _ _ _ E3) as Hsame3.
  pose proof (same_problem_budget _ _ Hsame3) as (Hb3 & Hw3).
  specialize (Hw3 Hw1). destruct Hsame3 as (Hcl3 & _).
  assert (Hq3 : WatchedLiteralsDPLL.heap s3 !! length h1
                = Some (WatchedLiteralsDPLL.current s1)).
  { destruct Eg3 as (_ & F & _). unfold s2 in F. simpl in F.
    rewrite <- ?Ep in F.
    rewrite F by (rewrite ?length_alter, ?length_app; simpl; lia).
    rewrite list_lookup_alter_ne by lia.
    rewrite Ecur1. unfold WatchedLiteralsDPLL.current. simpl.
    rewrite <- ?Ep, <- ?Eh1. now apply list_lookup_middle. }
  (* the second branch *)
  erewrite bind_eq by reflexivity. erewrite bind_eq by reflexivity.
  erewrite bind_eq by reflexivity.
  cbn [WatchedLiteralsDPLL.heap WatchedLiteralsDPLL.self
       WatchedLiteralsDPLL.assignment WatchedLiteralsDPLL.saved_assignment].
  match goal with
  | |- context [bind (WatchedLiteralsDPLL._dpll fuel) _ ?sx] =>
      set (s4 := sx)
  end.
  assert (Hq3' : (length h1 < length (WatchedLiteralsDPLL.heap s3))%nat)
    by now apply lookup_lt_Some in Hq3.
  assert (Hv4 : valid s4).
  { unfold valid, s4. simpl. now rewrite length_alter. }
  assert (Ecur4 : WatchedLiteralsDPLL.current s4
                  = <[var := false]> (WatchedLiteralsDPLL.current s1)).
  { unfold s4. rewrite current_alter; [| reflexivity | exact Hq3'].
    now rewrite Hq3. }
  destruct (IH s4) as (r2 & s5 & E5); [exact Hv4 | exact Hw3 | |].
  { rewrite Ecur4.
    change (WatchedLiteralsDPLL.clauses (WatchedLiteralsDPLL.self s4))
      with (WatchedLiteralsDPLL.clauses (WatchedLiteralsDPLL.self s3)).
    change (propagation_budget s4) with (propagation_budget s3).
    rewrite Hcl3, Hb3. apply Hdec. }
  rewrite (bind_eq _ _ _ _ _ E5).
  destruct r2; [eexists; eexists; reflexivity |].
  erewrite bind_eq by reflexivity. eexists. eexists. reflexivity.
Qed.

Lemma watch_size_append (l : Z) (i : nat) (w : list (Z * list nat)) :
  watch_size (WatchedLiteralsDPLL.watch_append l i w) = S (watch_size w).
Proof.
  unfold watch_size. induction w as [| [k idxs] w IH]; simpl; [reflexivity |].
  destruct (k =? l); simpl.
  - rewrite length_app. simpl. lia.
  - rewrite IH. lia.
Qed.

Lemma initialize_watches_size (original_clauses : list (list Z)) :
  forall (clauses : list (list Z)) (watches : list (Z * list nat)),
    (watch_size
       (snd (WatchedLiteralsDPLL._initialize_watches original_clauses
               clauses watches))
     <= watch_size watches + 2 * length original_clauses)%nat.
Proof.
  induction original_clauses as [| c rest IH]; intros clauses watches;
    simpl; [lia |].
  etransitivity; [apply IH |].
  destruct c as [| l0 [| l1 c]]; rewrite ?watch_size_append; lia.
Qed.

Lemma watched_init_watch_size (clauses : list (list Z)) (num_vars : Z) :
  (watch_size
     (WatchedLiteralsDPLL.watches
        (WatchedLiteralsDPLL.self
           (WatchedLiteralsDPLL.__init__ clauses num_vars)))
   <= 2 * length clauses)%nat.
Proof.
  unfold WatchedLiteralsDPLL.__init__.
  pose proof (initialize_watches_size clauses [] []) as H.
  destruct (WatchedLiteralsDPLL._initialize_watches clauses [] [])
    as [cls ws].
  exact H.
Qed.

(** The watched solver terminates on every input, within an explicit
    budget: for any clause list, of [n] clauses and [L] literal
    occurrences, and any [num_vars], [solve] returns a status, and raises
    nothing, when the depth of the recursion of [_dpll] and the iterations
    of a [while] loop may reach [L + n + L * (2 n + 1) + 2]. *)
Theorem WatchedLiteralsDPLL_solve_terminates (iter_order : list Z -> list Z)
    (clauses : list (list Z)) (num_vars : Z) :
  exists (status : string) (model : option (list Z)) (m : SolverMetrics),
    run iter_order "watched" clauses num_vars (watched_budget clauses)
    = Done (status, model, m).
Proof.
  set (st0 := WatchedLiteralsDPLL.__init__ clauses num_vars).
  assert (Hv : valid st0).
  { unfold valid, st0, WatchedLiteralsDPLL.__init__.
    destruct (WatchedLiteralsDPLL._initialize_watches clauses [] []).
    simpl. lia. }
  assert (Hw : watches_in_range st0).
  { intros l i Hi. apply watched_init_watches in Hi.
    destruct Hi as (c & Hc & _). unfold st0.
    rewrite watched_init_clauses. now apply lookup_lt_Some in Hc. }
  pose proof (watched_init_clauses clauses num_vars) as Hcl.
  pose proof (watched_init_watch_size clauses num_vars) as Hws.
  fold st0 in Hcl, Hws.
  set (fuel := watched_budget clauses).
  assert (E : exists r st',
             WatchedLiteralsDPLL.solve fuel st0 = Done (r, st')).
  { unfold WatchedLiteralsDPLL.solve.
    erewrite bind_eq by reflexivity.
    match goal with
    | |- context [bind (WatchedLiteralsDPLL._dpll fuel) _ ?sx] =>
        destruct (watched_dpll_terminates fuel sx) as (r & s1 & Ed)
    end; [exact Hv | exact Hw | |].
    { unfold propagation_budget, WatchedLiteralsDPLL.current.
      cbn [WatchedLiteralsDPLL.heap WatchedLiteralsDPLL.self
           WatchedLiteralsDPLL.assignment WatchedLiteralsDPLL.clauses
           WatchedLiteralsDPLL.watches].
      rewrite Hcl.
      match goal with
      | |- (unassigned_count ?a clauses + _ < _)%nat =>
          pose proof (unassigned_count_size a clauses) as Hu
      end.
      assert (Hmul : (cnf_size clauses
                      * S (watch_size
                             (WatchedLiteralsDPLL.watches
                                (WatchedLiteralsDPLL.self st0)))
                      <= cnf_size clauses * S (2 * length clauses))%nat)
        by (apply Nat.mul_le_mono_l; lia).
      unfold fuel, watched_budget. lia. }
    rewrite (bind_eq _ _ _ _ _ Ed).
    destruct r; [| eexists; eexists; reflexivity].
    erewrite bind_eq by reflexivity. erewrite bind_eq by reflexivity.
    eexists. eexists. reflexivity. }
  destruct E as ([status model] & st' & E).
  exists status, model,
    (WatchedLiteralsDPLL.metrics (WatchedLiteralsDPLL.self st')).
  unfold run. cbn [get_solver String.eqb Ascii.eqb Bool.eqb solve].
  fold st0. fold fuel. rewrite E. reflexivity.
Qed.

(** ** The preprocessing passes: exhaustive unit propagation *)

(** The simplification loop of [_exhaustive_unit_propagation] computes
    [_assign_literal], and stops early when that holds an empty clause. *)
Lemma simplify_assign (cls : list (list Z)) (lit : Z) :
  forall acc : list (list Z),
    PreprocessingDPLL.simplify cls lit acc
    = if existsb (fun c => (length c =? 0)%nat)
                 (BaseDPLL._assign_literal cls lit)
      then None
      else Some (acc ++ BaseDPLL._assign_literal cls lit).
Proof.
  induction cls as [| c cls IH]; intros acc; simpl.
  - now rewrite app_nil_r.
  - rewrite assign_literal_cons. destruct (mem lit c); [apply IH |].
    simpl. destruct (length _ =? 0)%nat; [reflexivity |]. simpl.
    rewrite IH. destruct (existsb _ _); [reflexivity |].
    now rewrite <- app_assoc.
Qed.

Lemma eup_for_sim (units : list (list Z)) :
  forall cls a changed (s : PreprocessingDPLL.t) (sb : BaseDPLL.t),
    result_of (PreprocessingDPLL._exhaustive_unit_propagation_for
                 units cls a changed s)
    = result_of (BaseDPLL._unit_propagate_for units cls a changed sb).
Proof.
  induction units as [| u units IH]; intros cls a changed s sb; simpl.
  - reflexivity.
  - destruct (a !! Z.abs (hd 0 u)) as [b |].
    + destruct (negb (eqb b (0 <? hd 0 u))); [reflexivity | apply IH].
    + unfold bind, PreprocessingDPLL.set_metrics, BaseDPLL.set_metrics,
        modify.
      rewrite simplify_assign. simpl.
      destruct (existsb _ _); [reflexivity | apply IH].
Qed.

Lemma eup_while_sim (fuel : nat) :
  forall cls a (s : PreprocessingDPLL.t) (sb : BaseDPLL.t),
    result_of (PreprocessingDPLL._exhaustive_unit_propagation_while
                 fuel cls a s)
    = result_of (BaseDPLL._unit_propagate fuel cls a sb).
Proof.
  induction fuel as [| fuel IH]; intros cls a s sb; simpl.
  - reflexivity.
  - destruct (List.filter _ cls) as [| u units]; [reflexivity |].
    unfold bind.
    pose proof (eup_for_sim (u :: units) cls a false s sb) as H.
    destruct (PreprocessingDPLL._exhaustive_unit_propagation_for
                (u :: units) cls a false s) as [[r1 s1] | e1 |];
      destruct (BaseDPLL._unit_propagate_for (u :: units) cls a false sb)
        as [[r2 s2] | e2 |]; simpl in H; try discriminate;
      try (inversion H; subst; reflexivity).
    inversion H; subst r2.
    destruct r1 as [a1 | [[cls1 a1] changed]]; [reflexivity |].
    destruct changed; [apply IH | reflexivity].
Qed.

(** [PreprocessingDPLL._exhaustive_unit_propagation] returns what
    [BaseDPLL._unit_propagate] returns from the empty assignment: the same
    clauses and the same assignment, or the same conflict, after the same
    number of iterations. *)
Theorem exhaustive_unit_propagation_is_unit_propagate (fuel : nat)
    (clauses : list (list Z)) (s : PreprocessingDPLL.t) (sb : BaseDPLL.t) :
  result_of (PreprocessingDPLL._exhaustive_unit_propagation fuel clauses s)
  = result_of (BaseDPLL._unit_propagate fuel clauses ∅ sb).
Proof. apply eup_while_sim. Qed.

Lemma result_of_Done {S A : Type} (o : outcome (A * S)) (a : A) :
  result_of o = Done a -> exists s, o = Done (a, s).
Proof.
  destruct o as [[a' s] | e |]; simpl; intros E; try discriminate.
  inversion E; subst. now exists s.
Qed.

(** Exhaustive unit propagation is correct and terminates.  On clauses
    without the literal [0] it returns within as many iterations as there
    are literal occurrences, plus one.  If it reports a conflict, no
    assignment satisfies the clauses.  Otherwise the clauses it returns hold
    no unit clause and no assigned variable, and an assignment satisfies the
    input clauses exactly when it holds the returned assignment and
    satisfies the returned clauses. *)
Theorem exhaustive_unit_propagation_correct (clauses : list (list Z))
    (s : PreprocessingDPLL.t) :
  nonzero_lits clauses ->
  exists r s',
    PreprocessingDPLL._exhaustive_unit_propagation
      (S (cnf_size clauses)) clauses s = Done (r, s')
    /\ match r with
       | (None, _) => forall m : gmap Z bool, ~ all_sat m clauses
       | (Some clauses', a) =>
           (forall c, In c clauses' -> length c <> 1%nat)
           /\ unassigned_in a clauses'
           /\ forall m : gmap Z bool,
                all_sat m clauses <-> a ⊆ m /\ all_sat m clauses'
       end.
Proof.
  intros HW.
  assert (HJ : unassigned_in ∅ clauses)
    by (intros c l _ _; apply lookup_empty).
  set (sb := BaseDPLL.__init__ [] 0).
  destruct (unit_propagate_terminates (S (cnf_size clauses)) clauses ∅ sb
              HJ HW) as (r & sb' & Eb & Hpost); [lia |].
  pose proof (eup_while_sim (S (cnf_size clauses)) clauses ∅ s sb) as Hsim.
  rewrite Eb in Hsim. simpl in Hsim.
  apply result_of_Done in Hsim. destruct Hsim as (s' & E).
  exists r, s'. split; [exact E |].
  pose proof (unit_propagate_complete _ _ _ _ _ _ HJ HW Eb) as HC.
  destruct r as [[clauses' |] a]; [| exact HC].
  destruct Hpost as (_ & Hnu & _).
  pose proof (unit_propagate_sound _ _ _ _ _ _ _ HJ HW Eb)
    as (_ & J1 & _ & Hsound).
  split; [exact Hnu |]. split; [exact J1 |].
  intros m. split.
  - intros Hm. destruct (HC m Hm) as (Hsat & Hent). split; [| exact Hsat].
    apply map_subseteq_spec. intros v b Hv. apply Hent; [exact Hv |].
    apply lookup_empty.
  - intros (Hsub & Hsat). now apply Hsound.
Qed.

Lemma exhaustive_unit_propagation_correct_witness :
  nonzero_lits [[1]; [-1; 2]; [-2; 3; 4]; [3; -4; 5]]
  /\ exists r s',
       PreprocessingDPLL._exhaustive_unit_propagation 10
         [[1]; [-1; 2]; [-2; 3; 4]; [3; -4; 5]]
         (PreprocessingDPLL.__init__ [] 5) = Done (r, s')
       /\ match r with
          | (None, _) =>
              forall m : gmap Z bool,
                ~ all_sat m [[1]; [-1; 2]; [-2; 3; 4]; [3; -4; 5]]
          | (Some clauses', a) =>
              (forall c, In c clauses' -> length c <> 1%nat)
              /\ unassigned_in a clauses'
              /\ forall m : gmap Z bool,
                   all_sat m [[1]; [-1; 2]; [-2; 3; 4]; [3; -4; 5]]
                   <-> a ⊆ m /\ all_sat m clauses'
          end.
Proof.
  assert (H : nonzero_lits [[1]; [-1; 2]; [-2; 3; 4]; [3; -4; 5]]).
  { intros c l Hc Hl. in_cases; lia. }
  split; [exact H |].
  exact (exhaustive_unit_propagation_correct
           [[1]; [-1; 2]; [-2; 3; 4]; [3; -4; 5]]
           (PreprocessingDPLL.__init__ [] 5) H).
Defined.

(** ** The preprocessing passes: subsumption *)

Lemma set_add_In_iff (x y : Z) (s : list Z) :
  In y (set_add x s) <-> y = x \/ In y s.
Proof.
  split; [apply set_add_In |]. unfold set_add.
  destruct (mem x s) eqn:E.
  - intros [-> | H]; [now apply mem_In | exact H].
  - intros [-> | H]; apply in_or_app; [right; now left | now left].
Qed.

Lemma set_fold_In_iff (l : list Z) :
  forall (s : list Z) (y : Z),
    In y (fold_left (fun s x => set_add x s) l s) <-> In y l \/ In y s.
Proof.
  induction l as [| x l IH]; intros s y; simpl; [tauto |].
  rewrite IH, set_add_In_iff. intuition.
Qed.

Lemma set_of_In (l : list Z) (y : Z) : In y (set_of l) <-> In y l.
Proof. unfold set_of. rewrite set_fold_In_iff. simpl. tauto. Qed.

Lemma issubset_spec (s1 s2 : list Z) :
  issubset s1 s2 = true <-> forall x, In x s1 -> In x s2.
Proof.
  unfold issubset. rewrite forallb_forall. split; intros H x Hx.
  - now apply mem_In, H.
  - now apply mem_In, H.
Qed.

Lemma In_combine_seq {A : Type} (l : list A) :
  forall (start i : nat) (x : A),
    In (i, x) (combine (seq start (length l)) l)
    <-> (start <= i)%nat /\ l !! (i - start)%nat = Some x.
Proof.
  induction l as [| y l IH]; intros start i x; simpl.
  - split; [intros [] | intros (_ & H); discriminate].
  - rewrite IH. split.
    + intros [E | (Hle & Hl)].
      * inversion E; subst. split; [lia |]. now rewrite Nat.sub_diag.
      * split; [lia |].
        replace (i - start)%nat with (S (i - S start)) by lia. exact Hl.
    + intros (Hle & Hl). destruct (i - start)%nat as [| k] eqn:Ek.
      * left. simpl in Hl. inversion Hl; subst. f_equal. lia.
      * right. split; [lia |]. simpl in Hl.
        replace (i - S start)%nat with k by lia. exact Hl.
Qed.

Lemma In_enumerate {A : Type} (l : list A) (i : nat) (x : A) :
  In (i, x) (enumerate l) <-> l !! i = Some x.
Proof.
  unfold enumerate. rewrite In_combine_seq. rewrite Nat.sub_0_r.
  split; [tauto | intros H; split; [lia | exact H]].
Qed.

Lemma map_snd_combine_seq {A : Type} (l : list A) :
  forall start : nat, map snd (combine (seq start (length l)) l) = l.
Proof.
  induction l as [| y l IH]; intros start; simpl; [reflexivity |].
  now rewrite IH.
Qed.

(** Clause [i] is subsumed when the literals of a clause at another index
    are all among its own. *)
Lemma is_subsumed_spec (clauses : list (list Z)) (i : nat) (c : list Z) :
  PreprocessingDPLL.is_subsumed (map set_of clauses) i (set_of c) = true
  <-> exists j c2, j <> i /\ clauses !! j = Some c2
        /\ forall x, In x c2 -> In x c.
Proof.
  unfold PreprocessingDPLL.is_subsumed. rewrite existsb_exists. split.
  - intros ([j s2] & Hin & Hb). apply andb_true_iff in Hb.
    destruct Hb as (Hne & Hsub).
    apply negb_true_iff, Nat.eqb_neq in Hne.
    apply In_enumerate in Hin. rewrite list_lookup_fmap in Hin.
    destruct (clauses !! j) as [c2 |] eqn:Ec2; [| discriminate].
    simpl in Hin. inversion Hin; subst s2.
    exists j, c2. split; [congruence |]. split; [exact Ec2 |].
    intros x Hx. apply set_of_In.
    apply (proj1 (issubset_spec _ _) Hsub). now apply set_of_In.
  - intros (j & c2 & Hne & Hc2 & Hsub). exists (j, set_of c2). split.
    + apply In_enumerate. rewrite list_lookup_fmap, Hc2. reflexivity.
    + apply andb_true_iff. split.
      * apply negb_true_iff, Nat.eqb_neq. congruence.
      * apply issubset_spec. intros x Hx. apply set_of_In, Hsub.
        now apply set_of_In.
Qed.

Lemma subsumption_elimination_for_spec (clauses_set : list (list Z))
    (todo : list (nat * list Z)) :
  forall (to_keep : list (list Z)) (s : PreprocessingDPLL.t),
    exists kept s',
      PreprocessingDPLL._subsumption_elimination_for clauses_set todo
        to_keep s = Done (to_keep ++ kept, s')
      /\ (length kept + PreprocessingDPLL.clauses_eliminated s'
          = length todo + PreprocessingDPLL.clauses_eliminated s)%nat
      /\ sublist kept (map snd todo)
      /\ forall c,
           In c kept
           <-> exists i, In (i, c) todo
                 /\ PreprocessingDPLL.is_subsumed clauses_set i (set_of c)
                    = false.
Proof.
  induction todo as [| [i clause] todo IH]; intros to_keep s; simpl.
  - exists [], s. rewrite app_nil_r. split; [reflexivity |].
    split; [reflexivity |]. split; [constructor |].
    intros c. split; [intros [] | intros (j & [] & _)].
  - destruct (PreprocessingDPLL.is_subsumed clauses_set i (set_of clause))
      eqn:Esub.
    + unfold bind, PreprocessingDPLL.incr_clauses_eliminated, modify.
      match goal with
      | |- context [PreprocessingDPLL._subsumption_elimination_for _ _ _ ?sx] =>
          destruct (IH to_keep sx) as (kept & s' & E & Hcount & Hsub & Hin)
      end.
      exists kept, s'. split; [exact E |]. simpl in Hcount.
      split; [lia |]. split; [now apply sublist_cons |].
      intros c. rewrite Hin. split.
      * intros (j & Hj & Hf). exists j. split; [now right | exact Hf].
      * intros (j & [Hj | Hj] & Hf); [| now exists j].
        inversion Hj; subst. congruence.
    + destruct (IH (to_keep ++ [clause]) s)
        as (kept & s' & E & Hcount & Hsub & Hin).
      exists (clause :: kept), s'. split.
      { rewrite E. now rewrite <- app_assoc. }
      simpl. split; [lia |]. split; [now apply sublist_skip |].
      intros c. rewrite Hin. split.
      * intros [<- | (j & Hj & Hf)].
        -- exists i. split; [now left | exact Esub].
        -- exists j. split; [now right | exact Hf].
      * intros (j & [Hj | Hj] & Hf).
        -- inversion Hj; subst. now left.
        -- right. now exists j.
Qed.

(** The subsumption pass keeps, in their order, exactly the clauses that
    sit at an index [i] such that no clause at another index has all its
    literals among theirs, and adds to [clauses_eliminated] the number of
    clauses it drops. *)
Theorem subsumption_elimination_spec (clauses : list (list Z))
    (s : PreprocessingDPLL.t) :
  exists kept s',
    PreprocessingDPLL._subsumption_elimination clauses s = Done (kept, s')
    /\ (length kept + PreprocessingDPLL.clauses_eliminated s'
        = length clauses + PreprocessingDPLL.clauses_eliminated s)%nat
    /\ sublist kept clauses
    /\ forall c,
         In c kept
         <-> exists i, clauses !! i = Some c
               /\ forall j c2, j <> i -> clauses !! j = Some c2 ->
                    exists x, In x c2 /\ ~ In x c.
Proof.
  unfold PreprocessingDPLL._subsumption_elimination.
  destruct (subsumption_elimination_for_spec (map set_of clauses)
              (enumerate clauses) [] s)
    as (kept & s' & E & Hcount & Hsub & Hin).
  exists kept, s'. split; [exact E |].
  unfold enumerate in Hcount, Hsub.
  rewrite length_combine, length_seq, Nat.min_id in Hcount.
  rewrite map_snd_combine_seq in Hsub.
  split; [exact Hcount |]. split; [exact Hsub |].
  intros c. rewrite Hin. split.
  - intros (i & Hi & Hf). exists i. apply In_enumerate in Hi.
    split; [exact Hi |]. intros j c2 Hne Hc2.
    destruct (existsb (fun x => negb (mem x c)) c2) eqn:Ex.
    + apply existsb_exists in Ex. destruct Ex as (x & Hx & Hm).
      exists x. split; [exact Hx |]. intros Hc.
      apply mem_In in Hc. rewrite Hc in Hm. discriminate.
    + exfalso.
      assert (Htrue : PreprocessingDPLL.is_subsumed (map set_of clauses) i
                        (set_of c) = true).
      { apply is_subsumed_spec. exists j, c2. split; [exact Hne |].
        split; [exact Hc2 |]. intros x Hx.
        destruct (mem x c) eqn:Hm; [now apply mem_In |].
        assert (Habs : existsb (fun x => negb (mem x c)) c2 = true).
        { apply existsb_exists. exists x. split; [exact Hx |].
          now rewrite Hm. }
        congruence. }
      congruence.
  - intros (i & Hi & Hno). exists i. split; [now apply In_enumerate |].
    destruct (PreprocessingDPLL.is_subsumed (map set_of clauses) i (set_of c))
      eqn:Esub; [| reflexivity].
    apply is_subsumed_spec in Esub.
    destruct Esub as (j & c2 & Hne & Hc2 & Hall).
    destruct (Hno j c2 Hne Hc2) as (x & Hx & Hnot).
    exfalso. apply Hnot. now apply Hall.
Qed.

(** ** The preprocessing passes: pure literals *)

Lemma pure_lits_of_spec (iter_order : list Z -> list Z)
    (cls : list (list Z)) (p : Z) :
  enumerates iter_order -> nonzero_lits cls ->
  In p (PreprocessingDPLL.pure_lits_of iter_order cls) <-> pure_in cls p.
Proof.
  intros Hio HW. unfold PreprocessingDPLL.pure_lits_of, pure_in.
  assert (Hocc : forall x, In x (concat cls) <-> exists c, In c cls /\ In x c).
  { intros x. rewrite in_concat. reflexivity. }
  assert (Hnz : forall x, In x (concat cls) -> x <> 0).
  { intros x Hx. apply Hocc in Hx. destruct Hx as (c & Hc & Hx).
    now apply (HW c). }
  assert (Hpos : forall v,
            In v (set_of (List.filter (fun lit => 0 <? lit) (concat cls)))
            <-> In v (concat cls) /\ 0 < v).
  { intros v. rewrite set_of_In, filter_In, Z.ltb_lt. reflexivity. }
  assert (Hneg : forall v,
            In v (set_of (map Z.opp
                            (List.filter (fun lit => negb (0 <? lit))
                                         (concat cls))))
            <-> In (- v) (concat cls) /\ 0 < v).
  { intros v. rewrite set_of_In, in_map_iff. split.
    - intros (z & <- & Hz). apply filter_In in Hz.
      destruct Hz as (Hz & Hs). apply negb_true_iff, Z.ltb_ge in Hs.
      rewrite Z.opp_involutive. split; [exact Hz |].
      specialize (Hnz z Hz). lia.
    - intros (Hv & Hs). exists (- v). split; [lia |].
      apply filter_In. split; [exact Hv |].
      apply negb_true_iff, Z.ltb_ge. lia. }
  rewrite in_app_iff, filter_In, in_map_iff.
  rewrite (Hio _ p), Hpos. split.
  - intros [((Hp & Hs) & Hnot) | (v & <- & Hv)].
    + split; [now apply Hocc |]. intros c Hc Hin.
      apply negb_true_iff in Hnot.
      assert (Hm : mem p (set_of (map Z.opp
                            (List.filter (fun lit => negb (0 <? lit))
                                         (concat cls)))) = true).
      { apply mem_In, Hneg. split; [| exact Hs]. apply Hocc. now exists c. }
      congruence.
    + apply filter_In in Hv. destruct Hv as (Hv & Hnot).
      apply (proj1 (Hio _ _)) in Hv. apply Hneg in Hv.
      destruct Hv as (Hv & Hs). split; [now apply Hocc |].
      intros c Hc Hin. rewrite Z.opp_involutive in Hin.
      apply negb_true_iff in Hnot.
      assert (Hm : mem v (set_of (List.filter (fun lit => 0 <? lit)
                                    (concat cls))) = true).
      { apply mem_In, Hpos. split; [| exact Hs]. apply Hocc. now exists c. }
      congruence.
  - intros (Hp & Hnot). apply Hocc in Hp.
    assert (Hno : ~ In (- p) (concat cls)).
    { intros H. apply Hocc in H. destruct H as (c & Hc & H).
      now apply (Hnot c). }
    pose proof (Hnz p Hp) as Hp0.
    destruct (Z.lt_ge_cases 0 p) as [Hs | Hs].
    + left. split; [now split |]. apply negb_true_iff.
      destruct (mem p _) eqn:Hm; [| reflexivity].
      apply mem_In, Hneg in Hm. tauto.
    + right. exists (- p). split; [lia |]. apply filter_In. split.
      * apply Hio, Hneg. rewrite Z.opp_involutive. split; [exact Hp | lia].
      * apply negb_true_iff. destruct (mem (- p) _) eqn:Hm; [| reflexivity].
        apply mem_In, Hpos in Hm. tauto.
Qed.

Lemma filter_filter {A : Type} (f g : A -> bool) (l : list A) :
  List.filter f (List.filter g l) = List.filter (fun x => g x && f x) l.
Proof.
  induction l as [| x l IH]; simpl; [reflexivity |].
  destruct (g x); simpl; [destruct (f x) |]; now rewrite IH.
Qed.

Lemma filter_sublist {A : Type} (f : A -> bool) (l : list A) :
  sublist (List.filter f l) l.
Proof.
  induction l as [| x l IH]; simpl; [constructor |].
  destruct (f x); [now apply sublist_skip | now apply sublist_cons].
Qed.

(** The loop that assigns the pure literals: the clauses left are those
    that hold none of them, and the assignment gets one entry per
    literal. *)
Lemma assign_pure_lits_spec (pure_lits : list Z) :
  forall (cls : list (list Z)) (s : PreprocessingDPLL.t),
    exists s',
      PreprocessingDPLL.assign_pure_lits pure_lits cls s
      = Done (List.filter
                (fun c => forallb (fun lit => negb (mem lit c)) pure_lits)
                cls, s')
      /\ PreprocessingDPLL.assignment s'
         = fold_left (fun a lit => <[Z.abs lit := 0 <? lit]> a) pure_lits
                     (PreprocessingDPLL.assignment s).
Proof.
  induction pure_lits as [| lit rest IH]; intros cls s; simpl.
  - exists s. split; [| reflexivity]. unfold ret. f_equal. f_equal.
    symmetry. apply filter_all. reflexivity.
  - unfold bind, PreprocessingDPLL.set_assignment, modify.
    match goal with
    | |- context [PreprocessingDPLL.assign_pure_lits rest ?c ?sx] =>
        destruct (IH c sx) as (s' & E & Ha)
    end.
    exists s'. rewrite E, filter_filter. split; [reflexivity | exact Ha].
Qed.

Lemma fold_insert_other (lits : list Z) :
  forall (a : gmap Z bool) (v : Z),
    ~ In v (map Z.abs lits) ->
    fold_left (fun a lit => <[Z.abs lit := 0 <? lit]> a) lits a !! v
    = a !! v.
Proof.
  induction lits as [| lit lits IH]; intros a v Hv; simpl; [reflexivity |].
  rewrite IH by (intros H; apply Hv; now right).
  apply lookup_insert_ne. intros E. apply Hv. now left.
Qed.

Lemma fold_insert_sign (lits : list Z) :
  forall (a : gmap Z bool) (v : Z) (b : bool),
    In v (map Z.abs lits) ->
    (forall lit, In lit lits -> Z.abs lit = v -> (0 <? lit) = b) ->
    fold_left (fun a lit => <[Z.abs lit := 0 <? lit]> a) lits a !! v
    = Some b.
Proof.
  induction lits as [| lit lits IH]; intros a v b Hv Hsign; simpl;
    [destruct Hv |].
  destruct (in_dec Z.eq_dec v (map Z.abs lits)) as [Hin | Hnot].
  - apply IH; [exact Hin |]. intros l Hl. apply Hsign. now right.
  - rewrite fold_insert_other by exact Hnot.
    destruct Hv as [E | Hv]; [| contradiction].
    rewrite E, lookup_insert_eq. f_equal. apply Hsign; [now left | exact E].
Qed.

(** Pure-literal elimination keeps, in their order, exactly the clauses
    that hold no pure literal; it records every pure literal as true in
    [self.assignment], and leaves the other variables as they were. *)
Theorem pure_literal_elimination_spec (iter_order : list Z -> list Z)
    (clauses : list (list Z)) (s : PreprocessingDPLL.t) :
  enumerates iter_order -> nonzero_lits clauses ->
  exists clauses' s',
    PreprocessingDPLL._pure_literal_elimination iter_order clauses s
    = Done (clauses', s')
    /\ sublist clauses' clauses
    /\ (forall c, In c clauses'
                  <-> In c clauses /\ forall l, In l c -> ~ pure_in clauses l)
    /\ (forall l, pure_in clauses l ->
                  lit_true (PreprocessingDPLL.assignment s') l)
    /\ (forall v, (forall l, pure_in clauses l -> Z.abs l <> v) ->
                  PreprocessingDPLL.assignment s' !! v
                  = PreprocessingDPLL.assignment s !! v).
Proof.
  intros Hio HW. unfold PreprocessingDPLL._pure_literal_elimination.
  destruct (assign_pure_lits_spec
              (PreprocessingDPLL.pure_lits_of iter_order clauses) clauses s)
    as (s' & E & Ha).
  eexists. exists s'. split; [exact E |].
  split; [apply filter_sublist |].
  assert (Hpure : forall p,
            In p (PreprocessingDPLL.pure_lits_of iter_order clauses)
            <-> pure_in clauses p)
    by (intros p; now apply pure_lits_of_spec).
  split; [| split].
  - intros c. rewrite filter_In, forallb_forall. split.
    + intros (Hc & Hall). split; [exact Hc |]. intros l Hl Hp.
      apply Hpure in Hp. specialize (Hall l Hp).
      apply negb_true_iff in Hall.
      apply mem_In in Hl. congruence.
    + intros (Hc & Hno). split; [exact Hc |]. intros p Hp.
      apply negb_true_iff. destruct (mem p c) eqn:Hm; [| reflexivity].
      apply mem_In in Hm. exfalso. apply (Hno p Hm). now apply Hpure.
  - intros l Hl. unfold lit_true. rewrite Ha. apply fold_insert_sign.
    + apply in_map. now apply Hpure.
    + intros l' Hl' Eabs. apply Hpure in Hl'.
      assert (El : l' = l \/ l' = - l) by lia.
      destruct El as [-> | ->]; [reflexivity |].
      exfalso. destruct Hl' as ((c & Hc & Hin) & _).
      destruct Hl as (_ & Hno). now apply (Hno c).
  - intros v Hv. rewrite Ha. apply fold_insert_other.
    intros Hin. apply in_map_iff in Hin. destruct Hin as (l & El & Hl).
    apply (Hv l); [now apply Hpure | exact El].
Qed.

Lemma pure_literal_elimination_spec_witness :
  enumerates insertion_order
  /\ nonzero_lits [[1; 2]; [-1; 3]; [-3; 2]]
  /\ exists s',
       PreprocessingDPLL._pure_literal_elimination insertion_order
         [[1; 2]; [-1; 3]; [-3; 2]] (PreprocessingDPLL.__init__ [] 3)
       = Done ([[-1; 3]], s')
       /\ lit_true (PreprocessingDPLL.assignment s') 2.
Proof.
  assert (H : nonzero_lits [[1; 2]; [-1; 3]; [-3; 2]]).
  { intros c l Hc Hl. in_cases; lia. }
  split; [exact insertion_order_enumerates |]. split; [exact H |].
  destruct (pure_literal_elimination_spec insertion_order
              [[1; 2]; [-1; 3]; [-3; 2]] (PreprocessingDPLL.__init__ [] 3)
              insertion_order_enumerates H)
    as (clauses' & s' & E & _ & _ & Htrue & _).
  exists s'. split.
  - rewrite E. f_equal. f_equal.
    vm_compute in E. inversion E. reflexivity.
  - apply Htrue. split.
    + exists [1; 2]. split; [now left | right; now left].
    + intros c Hc Hin. in_cases; lia.
Defined.

(** ** The empty problem *)

Lemma model_of_unassigned (n : Z) (a : gmap Z bool) :
  (forall v, a !! v = None) -> model_of n a = map Z.opp (range 1 (n + 1)).
Proof.
  intros H. unfold model_of. apply map_ext. intros v. now rewrite H.
Qed.

Lemma enumerates_nil (iter_order : list Z -> list Z) :
  enumerates iter_order -> iter_order [] = [].
Proof.
  intros H. destruct (iter_order []) as [| x l] eqn:E; [reflexivity |].
  exfalso. apply (H [] x). rewrite E. now left.
Qed.

Lemma empty_base (iter_order : list Z -> list Z) (num_vars : Z) :
  run iter_order "base" [] num_vars 2
  = Done ("SAT"%string, Some (map Z.opp (range 1 (num_vars + 1))),
          mkMetrics 0 0 0 0).
Proof.
  unfold run. cbn [get_solver String.eqb Ascii.eqb Bool.eqb solve].
  unfold BaseDPLL.solve, BaseDPLL.__init__. 
  cbn -[model_of].
  rewrite model_of_unassigned by (intros v; apply lookup_empty).
  reflexivity.
Qed.

Lemma watched_dpll_no_clauses (st : WatchedLiteralsDPLL.state) :
  WatchedLiteralsDPLL.clauses (WatchedLiteralsDPLL.self st) = [] ->
  WatchedLiteralsDPLL._dpll 2 st = Done (true, st).
Proof.
  intros H. cbn [WatchedLiteralsDPLL._dpll].
  assert (Eup : WatchedLiteralsDPLL._unit_propagate 1 st = Done (true, st)).
  { unfold WatchedLiteralsDPLL._unit_propagate.
    erewrite bind_eq by reflexivity. rewrite H. reflexivity. }
  rewrite (bind_eq _ _ _ _ _ Eup). cbn [negb].
  erewrite bind_eq by reflexivity. erewrite bind_eq by reflexivity.
  destruct (_ =? _); [reflexivity |].
  assert (Ech : WatchedLiteralsDPLL._choose_variable st = Done (None, st)).
  { unfold WatchedLiteralsDPLL._choose_variable.
    erewrite bind_eq by reflexivity. erewrite bind_eq by reflexivity.
    rewrite H. reflexivity. }
  rewrite (bind_eq _ _ _ _ _ Ech). reflexivity.
Qed.

Lemma empty_watched (iter_order : list Z -> list Z) (num_vars : Z) :
  run iter_order "watched" [] num_vars 2
  = Done ("SAT"%string, Some (map Z.opp (range 1 (num_vars + 1))),
          mkMetrics 0 0 0 0).
Proof.
  unfold run. cbn [get_solver String.eqb Ascii.eqb Bool.eqb solve].
  unfold WatchedLiteralsDPLL.solve.
  erewrite bind_eq by reflexivity.
  erewrite bind_eq by (now apply watched_dpll_no_clauses).
  cbv beta iota.
  erewrite bind_eq by reflexivity. erewrite bind_eq by reflexivity.
  unfold ret. cbn -[model_of].
  rewrite model_of_unassigned by (intros v; apply lookup_empty).
  reflexivity.
Qed.

Lemma empty_preprocess (iter_order : list Z -> list Z)
    (s : PreprocessingDPLL.t) :
  enumerates iter_order ->
  PreprocessingDPLL._preprocess iter_order 1 [] s
  = Done (Some [],
          PreprocessingDPLL.mk (PreprocessingDPLL.num_vars s)
            (PreprocessingDPLL.original_clauses s)
            (PreprocessingDPLL.metrics s)
            (∅ ∪ PreprocessingDPLL.assignment s)
            (PreprocessingDPLL.vars_eliminated s)
            (PreprocessingDPLL.clauses_eliminated s)).
Proof.
  intros Hio. unfold PreprocessingDPLL._preprocess,
    PreprocessingDPLL._exhaustive_unit_propagation,
    PreprocessingDPLL._pure_literal_elimination,
    PreprocessingDPLL.pure_lits_of,
    PreprocessingDPLL._subsumption_elimination,
    PreprocessingDPLL._bounded_variable_elimination.
  cbn -[union]. rewrite (enumerates_nil iter_order Hio). reflexivity.
Qed.

Lemma empty_preprocessing (iter_order : list Z -> list Z) (num_vars : Z) :
  enumerates iter_order ->
  run iter_order "preprocessing" [] num_vars 1
  = Done ("SAT"%string, Some (map Z.opp (range 1 (num_vars + 1))),
          mkMetrics 0 0 0 0).
Proof.
  intros Hio.
  unfold run. cbn [get_solver String.eqb Ascii.eqb Bool.eqb solve].
  unfold PreprocessingDPLL.solve, PreprocessingDPLL.__init__.
  erewrite bind_eq by reflexivity. erewrite bind_eq by reflexivity.
  cbn [PreprocessingDPLL.original_clauses].
  erewrite bind_eq by (now apply empty_preprocess).
  cbv beta iota.
  erewrite bind_eq by reflexivity.
  unfold ret. cbn -[model_of union].
  rewrite model_of_unassigned; [reflexivity |].
  intros v. rewrite lookup_union, !lookup_empty. reflexivity.
Qed.

Lemma empty_combined (iter_order : list Z -> list Z) (num_vars : Z) :
  enumerates iter_order ->
  run iter_order "combined" [] num_vars 1
  = Done ("SAT"%string, Some (map Z.opp (range 1 (num_vars + 1))),
          mkMetrics 0 0 0 0).
Proof.
  intros Hio.
  unfold run. cbn [get_solver String.eqb Ascii.eqb Bool.eqb solve].
  unfold CombinedDPLL.solve, CombinedDPLL.__init__.
  erewrite bind_eq by reflexivity. erewrite bind_eq by reflexivity.
  cbn [CombinedDPLL.original_clauses CombinedDPLL.num_vars].
  erewrite bind_eq by (apply call_eq; now apply empty_preprocess).
  cbn [fst snd].
  erewrite bind_eq by reflexivity.
  cbv beta iota.
  erewrite bind_eq by reflexivity.
  unfold ret. cbn -[model_of union].
  rewrite model_of_unassigned; [reflexivity |].
  intros v. rewrite !lookup_union, !lookup_empty. reflexivity.
Qed.

(** Every variant answers "SAT" on the problem without clauses, with the
    model that sets every variable to [False] and with all four counters
    at [0]. *)
Theorem empty_cnf_is_sat (iter_order : list Z -> list Z) (num_vars : Z)
    (variant : string) :
  enumerates iter_order ->
  In variant ["base"; "watched"; "preprocessing"; "combined"]%string ->
  returns (run iter_order variant [] num_vars)
          ("SAT"%string, Some (map Z.opp (range 1 (num_vars + 1))),
           mkMetrics 0 0 0 0).
Proof.
  intros Hio Hv. simpl in Hv.
  destruct Hv as [<- | [<- | [<- | [<- | []]]]].
  - exists 2%nat. apply empty_base.
  - exists 2%nat. apply empty_watched.
  - exists 1%nat. now apply empty_preprocessing.
  - exists 1%nat. now apply empty_combined.
Qed.

Lemma empty_cnf_is_sat_witness :
  returns (run insertion_order "combined" [] 3)
          ("SAT"%string, Some [-1; -2; -3], mkMetrics 0 0 0 0).
Proof.
  apply (empty_cnf_is_sat insertion_order 3 "combined").
  - exact insertion_order_enumerates.
  - simpl. tauto.
Defined.

(** ** The factory *)

(** [get_solver] knows the four names "base", "watched", "preprocessing"
    and "combined", spelled exactly so; for any other name it raises
    [ValueError], and it builds a solver object for each of the four. *)
Theorem get_solver_variants (variant : string) (clauses : list (list Z))
    (num_vars : Z) :
  (get_solver variant clauses num_vars = inl ValueError
   <-> ~ In variant ["base"; "watched"; "preprocessing"; "combined"]%string)
  /\ (variant = "base"%string ->
      get_solver variant clauses num_vars
      = inr (Base (BaseDPLL.__init__ clauses num_vars)))
  /\ (variant = "watched"%string ->
      get_solver variant clauses num_vars
      = inr (Watched (WatchedLiteralsDPLL.__init__ clauses num_vars)))
  /\ (variant = "preprocessing"%string ->
      get_solver variant clauses num_vars
      = inr (Preprocessing (PreprocessingDPLL.__init__ clauses num_vars)))
  /\ (variant = "combined"%string ->
      get_solver variant clauses num_vars
      = inr (Combined (CombinedDPLL.__init__ clauses num_vars))).
Proof.
  split; [| repeat split; intros ->; reflexivity].
  unfold get_solver.
  destruct (String.eqb variant "base") eqn:E1.
  { apply String.eqb_eq in E1. split; [discriminate |].
    intros H. exfalso. apply H. simpl. auto. }
  destruct (String.eqb variant "watched") eqn:E2.
  { apply String.eqb_eq in E2. split; [discriminate |].
    intros H. exfalso. apply H. simpl. auto. }
  destruct (String.eqb variant "preprocessing") eqn:E3.
  { apply String.eqb_eq in E3. split; [discriminate |].
    intros H. exfalso. apply H. simpl. auto. }
  destruct (String.eqb variant "combined") eqn:E4.
  { apply String.eqb_eq in E4. split; [discriminate |].
    intros H. exfalso. apply H. simpl. auto. }
  apply String.eqb_neq in E1, E2, E3, E4.
  split; [| reflexivity]. intros _ H. simpl in H.
  destruct H as [H | [H | [H | [H | []]]]]; congruence.
Qed.

(** ** The shape of the result of [solve] *)

Lemma model_of_shape (num_vars : Z) (a : gmap Z bool) :
  length (model_of num_vars a) = Z.to_nat num_vars
  /\ forall (k : nat) (x : Z),
       model_of num_vars a !! k = Some x ->
       x = Z.of_nat k + 1 \/ x = - (Z.of_nat k + 1).
Proof.
  unfold model_of, range. rewrite map_map. split.
  - rewrite length_map, length_seq. lia.
  - intros k x Hk.
    assert (Hlt : (k < Z.to_nat (num_vars + 1 - 1))%nat).
    { apply lookup_lt_Some in Hk. now rewrite length_map, length_seq in Hk. }
    rewrite lookup_map_seq in Hk by exact Hlt. inversion Hk as [E].
    simpl. destruct (a !! (1 + Z.of_nat k)) as [[|] |]; lia.
Qed.

Lemma base_solve_shape (fuel : nat) (s s' : BaseDPLL.t)
    (r : string * option (list Z)) :
  BaseDPLL.solve fuel s = Done (r, s') ->
  well_shaped (BaseDPLL.num_vars s) r.
Proof.
  unfold BaseDPLL.solve, bind, BaseDPLL.set_metrics, modify, get.
  match goal with
  | |- match ?d with _ => _ end = _ -> _ =>
      destruct d as [[[|] s1] | e |] eqn:Ed; try discriminate
  end; unfold ret; intros E; inversion E; subst.
  - right. apply dpll_num_vars in Ed. simpl in Ed. rewrite Ed.
    eexists. reflexivity.
  - now left.
Qed.

Lemma watched_solve_shape (fuel : nat) (st st' : WatchedLiteralsDPLL.state)
    (r : string * option (list Z)) :
  WatchedLiteralsDPLL.solve fuel st = Done (r, st') ->
  well_shaped (WatchedLiteralsDPLL.num_vars (WatchedLiteralsDPLL.self st)) r.
Proof.
  unfold WatchedLiteralsDPLL.solve. intros E.
  step_modify E.
  apply bind_Done in E. destruct E as (result & s1 & Ed & E).
  apply watched_dpll_same_problem in Ed. destruct Ed as (_ & _ & Hn).
  simpl in Hn.
  destruct result.
  - step_modify E. step_modify E. unfold ret in E. inversion E; subst.
    right. rewrite Hn. eexists. reflexivity.
  - unfold ret in E. inversion E; subst. now left.
Qed.

Lemma pre_frame_refl (s : PreprocessingDPLL.t) : pre_frame s s.
Proof. repeat split. Qed.

Lemma pre_frame_trans (s1 s2 s3 : PreprocessingDPLL.t) :
  pre_frame s1 s2 -> pre_frame s2 s3 -> pre_frame s1 s3.
Proof.
  intros (A & B & C & D) (A' & B' & C' & D'). repeat split; congruence.
Qed.

Lemma eup_for_frame (units : list (list Z)) :
  forall cls a changed (s s' : PreprocessingDPLL.t) r,
    PreprocessingDPLL._exhaustive_unit_propagation_for units cls a changed s
    = Done (r, s') ->
    pre_frame s s'.
Proof.
  induction units as [| u units IH]; intros cls a changed s s' r E;
    simpl in E.
  - unfold ret in E. inversion E; subst. apply pre_frame_refl.
  - destruct (a !! Z.abs (hd 0 u)) as [b |].
    + destruct (negb (eqb b (0 <? hd 0 u))).
      * unfold ret in E. inversion E; subst. apply pre_frame_refl.
      * eapply IH; eassumption.
    + unfold bind, PreprocessingDPLL.set_metrics, modify in E.
      destruct (PreprocessingDPLL.simplify _ _ _).
      * apply IH in E. exact E.
      * unfold ret in E. inversion E; subst. repeat split.
Qed.

Lemma eup_while_frame (fuel : nat) :
  forall cls a (s s' : PreprocessingDPLL.t) r,
    PreprocessingDPLL._exhaustive_unit_propagation_while fuel cls a s
    = Done (r, s') ->
    pre_frame s s'.
Proof.
  induction fuel as [| fuel IH]; intros cls a s s' r E; simpl in E.
  - discriminate.
  - destruct (List.filter _ cls) as [| u units].
    + unfold ret in E. inversion E; subst. apply pre_frame_refl.
    + unfold bind in E.
      destruct (PreprocessingDPLL._exhaustive_unit_propagation_for
                  (u :: units) cls a false s)
        as [[[a1 | [[cls1 a1] changed]] s1] | e |] eqn:Efor;
        try discriminate;
        apply eup_for_frame in Efor.
      * unfold ret in E. inversion E; subst. exact Efor.
      * destruct changed.
        -- apply IH in E. eapply pre_frame_trans; eassumption.
        -- unfold ret in E. inversion E; subst. exact Efor.
Qed.

Lemma assign_pure_lits_frame (pure_lits : list Z) :
  forall cls (s s' : PreprocessingDPLL.t) r,
    PreprocessingDPLL.assign_pure_lits pure_lits cls s = Done (r, s') ->
    pre_frame s s'.
Proof.
  induction pure_lits as [| lit rest IH]; intros cls s s' r E; simpl in E.
  - unfold ret in E. inversion E; subst. apply pre_frame_refl.
  - unfold bind, PreprocessingDPLL.set_assignment, modify in E.
    apply IH in E. exact E.
Qed.

Lemma subsumption_for_frame (clauses_set : list (list Z))
    (todo : list (nat * list Z)) :
  forall to_keep (s s' : PreprocessingDPLL.t) r,
    PreprocessingDPLL._subsumption_elimination_for clauses_set todo to_keep s
    = Done (r, s') ->
    pre_frame s s'.
Proof.
  induction todo as [| [i clause] todo IH]; intros to_keep s s' r E;
    simpl in E.
  - unfold ret in E. inversion E; subst. apply pre_frame_refl.
  - destruct (PreprocessingDPLL.is_subsumed _ _ _).
    + unfold bind, PreprocessingDPLL.incr_clauses_eliminated, modify in E.
      apply IH in E. exact E.
    + eapply IH; eassumption.
Qed.

Lemma clauses_at_state (cls : list (list Z)) (idxs : list nat) :
  forall (s s' : PreprocessingDPLL.t) r,
    PreprocessingDPLL.clauses_at cls idxs s = Done (r, s') -> s' = s.
Proof.
  induction idxs as [| i idxs IH]; intros s s' r E; simpl in E.
  - unfold ret in E. now inversion E.
  - destruct (cls !! i); [| discriminate].
    apply bind_Done in E. destruct E as (cs & s1 & E1 & E).
    apply IH in E1. subst s1. unfold ret in E. now inversion E.
Qed.

Lemma bve_for_frame (iter_order : list Z -> list Z)
    (items : list (Z * (list nat * list nat))) :
  forall cls n (s s' : PreprocessingDPLL.t) r,
    PreprocessingDPLL._bounded_variable_elimination_for iter_order items
      cls n s = Done (r, s') ->
    pre_frame s s'.
Proof.
  induction items as [| [var [pos neg]] items IH]; intros cls n s s' r E;
    simpl in E.
  - unfold ret in E. inversion E; subst. apply pre_frame_refl.
  - apply bind_Done in E. destruct E as (pc & s1 & E1 & E).
    apply clauses_at_state in E1. subst s1.
    apply bind_Done in E. destruct E as (nc & s1 & E1 & E).
    apply clauses_at_state in E1. subst s1.
    destruct (_ <=? _)%nat.
    + unfold bind, PreprocessingDPLL.incr_vars_eliminated, modify in E.
      apply IH in E. exact E.
    + eapply IH; eassumption.
Qed.

(** The preprocessing passes change neither [num_vars] nor the three
    search counters of the object. *)
Lemma preprocess_frame (iter_order : list Z -> list Z) (fuel : nat)
    (cls : list (list Z)) (s s' : PreprocessingDPLL.t) r :
  PreprocessingDPLL._preprocess iter_order fuel cls s = Done (r, s') ->
  pre_frame s s'.
Proof.
  unfold PreprocessingDPLL._preprocess. intros E.
  apply bind_Done in E. destruct E as ([o a] & s1 & E1 & E).
  apply eup_while_frame in E1.
  destruct o as [cls1 |]; [| unfold ret in E; inversion E; now subst].
  apply bind_Done in E. destruct E as ([] & s2 & E2 & E).
  unfold PreprocessingDPLL.set_assignment, modify in E2.
  inversion E2; subst s2. clear E2.
  apply bind_Done in E. destruct E as (cls2 & s3 & E3 & E).
  apply assign_pure_lits_frame in E3.
  apply bind_Done in E. destruct E as (cls3 & s4 & E4 & E).
  apply subsumption_for_frame in E4.
  apply bind_Done in E. destruct E as (cls4 & s5 & E5 & E).
  apply bve_for_frame in E5.
  unfold ret in E. inversion E; subst.
  eapply pre_frame_trans; [| exact E5].
  eapply pre_frame_trans; [| exact E4].
  eapply pre_frame_trans; [exact E1 |]. exact E3.
Qed.

Lemma preprocess_num_vars (iter_order : list Z -> list Z) (fuel : nat)
    (cls : list (list Z)) (s s' : PreprocessingDPLL.t) r :
  PreprocessingDPLL._preprocess iter_order fuel cls s = Done (r, s') ->
  PreprocessingDPLL.num_vars s' = PreprocessingDPLL.num_vars s.
Proof. intros E. apply preprocess_frame in E. apply E. Qed.

Lemma preprocessing_solve_shape (iter_order : list Z -> list Z) (fuel : nat)
    (s s' : PreprocessingDPLL.t) (r : string * option (list Z)) :
  PreprocessingDPLL.solve iter_order fuel s = Done (r, s') ->
  well_shaped (PreprocessingDPLL.num_vars s) r.
Proof.
  unfold PreprocessingDPLL.solve. intros E.
  apply bind_Done in E. destruct E as ([] & s1 & E1 & E).
  unfold PreprocessingDPLL.set_metrics, modify in E1.
  inversion E1; subst s1. clear E1.
  apply bind_Done in E. destruct E as (self0 & s1 & E1 & E).
  unfold get in E1. inversion E1; subst self0 s1. clear E1.
  apply bind_Done in E. destruct E as (o & s2 & E2 & E).
  apply preprocess_num_vars in E2. simpl in E2.
  destruct o as [[| c cls] |].
  - apply bind_Done in E. destruct E as (self1 & s3 & E3 & E).
    unfold get in E3. inversion E3; subst self1 s3. clear E3.
    unfold ret in E. inversion E; subst. right. rewrite E2.
    eexists. reflexivity.
  - apply bind_Done in E. destruct E as (self1 & s3 & E3 & E).
    unfold get in E3. inversion E3; subst self1 s3. clear E3.
    apply bind_Done in E. destruct E as ([rb sb] & s3 & E3 & E).
    unfold call in E3.
    match type of E3 with
    | match ?d with _ => _ end = _ =>
        destruct d as [[rb' sb'] | e |] eqn:Eb; try discriminate
    end.
    inversion E3; subst rb' sb' s3. clear E3.
    apply base_solve_shape in Eb. simpl in Eb.
    apply bind_Done in E. destruct E as ([] & s4 & E4 & E).
    unfold ret in E. inversion E; subst. simpl. now rewrite <- E2.
  - unfold ret in E. inversion E; subst. now left.
Qed.

Lemma combined_solve_shape (iter_order : list Z -> list Z) (fuel : nat)
    (s s' : CombinedDPLL.t) (r : string * option (list Z)) :
  CombinedDPLL.solve iter_order fuel s = Done (r, s') ->
  well_shaped (CombinedDPLL.num_vars s) r.
Proof.
  unfold CombinedDPLL.solve. intros E.
  apply bind_Done in E. destruct E as ([] & s1 & E1 & E).
  unfold CombinedDPLL.set_metrics, modify in E1.
  inversion E1; subst s1. clear E1.
  apply bind_Done in E. destruct E as (self0 & s1 & E1 & E).
  unfold get in E1. inversion E1; subst self0 s1. clear E1.
  apply bind_Done in E. destruct E as ([o sp] & s2 & E2 & E).
  unfold call in E2.
  match type of E2 with
  | match ?d with _ => _ end = _ =>
      destruct d as [[o' sp'] | e |] eqn:Ep; try discriminate
  end.
  inversion E2; subst o' sp' s2. clear E2 Ep.
  apply bind_Done in E. destruct E as ([] & s3 & E3 & E).
  unfold CombinedDPLL.absorb, modify in E3.
  inversion E3; subst s3. clear E3. cbn [fst snd] in E.
  destruct o as [[| c cls] |].
  - apply bind_Done in E. destruct E as (self1 & s3 & E3 & E).
    unfold get in E3. inversion E3; subst self1 s3. clear E3.
    unfold ret in E. inversion E; subst. right. simpl.
    eexists. reflexivity.
  - apply bind_Done in E. destruct E as (self1 & s3 & E3 & E).
    unfold get in E3. inversion E3; subst self1 s3. clear E3.
    apply bind_Done in E. destruct E as ([rw sw] & s3 & E3 & E).
    unfold call in E3.
    match type of E3 with
    | match ?d with _ => _ end = _ =>
        destruct d as [[rw' sw'] | e |] eqn:Ew; try discriminate
    end.
    inversion E3; subst rw' sw' s3. clear E3.
    apply watched_solve_shape in Ew.
    apply bind_Done in E. destruct E as ([] & s4 & E4 & E).
    unfold ret in E. inversion E; subst.
    unfold WatchedLiteralsDPLL.__init__ in Ew.
    destruct (WatchedLiteralsDPLL._initialize_watches _ _ _) in Ew.
    exact Ew.
  - unfold ret in E. inversion E; subst. now left.
Qed.

(** Whatever the variant and the input, a [solve] that returns gives
    "UNSAT" with no model, or "SAT" with a model of exactly [num_vars]
    entries whose entry at position [k] (from 0) is [k + 1] or
    [- (k + 1)]: a total assignment of the variables [1 .. num_vars], in
    order. *)
Theorem solve_result_shape (iter_order : list Z -> list Z)
    (variant : string) (clauses : list (list Z)) (num_vars : Z)
    (status : string) (model : option (list Z)) (m : SolverMetrics) :
  returns (run iter_order variant clauses num_vars) (status, model, m) ->
  (status = "UNSAT"%string /\ model = None)
  \/ (status = "SAT"%string
      /\ exists mdl,
           model = Some mdl
           /\ length mdl = Z.to_nat num_vars
           /\ forall (k : nat) (x : Z),
                mdl !! k = Some x ->
                x = Z.of_nat k + 1 \/ x = - (Z.of_nat k + 1)).
Proof.
  intros [fuel E].
  assert (Hshape : well_shaped num_vars (status, model)).
  { unfold run in E.
    destruct (get_solver variant clauses num_vars) as [e | sv] eqn:Eg;
      [discriminate |].
    destruct (solve iter_order fuel sv) as [[r sv'] | e |] eqn:Es;
      try discriminate.
    inversion E; subst r m. clear E.
    unfold get_solver in Eg.
    repeat match type of Eg with
      | (if ?b then _ else _) = _ => destruct b
      end; inversion Eg; subst sv; clear Eg; simpl in Es.
    - destruct (BaseDPLL.solve _ _) as [[r s'] | e |] eqn:Eb;
        try discriminate.
      inversion Es; subst. now apply base_solve_shape in Eb.
    - destruct (WatchedLiteralsDPLL.solve _ _) as [[r s'] | e |] eqn:Eb;
        try discriminate.
      inversion Es; subst. apply watched_solve_shape in Eb.
      unfold WatchedLiteralsDPLL.__init__ in Eb.
      destruct (WatchedLiteralsDPLL._initialize_watches _ _ _) in Eb.
      exact Eb.
    - destruct (PreprocessingDPLL.solve _ _ _) as [[r s'] | e |] eqn:Eb;
        try discriminate.
      inversion Es; subst. now apply preprocessing_solve_shape in Eb.
    - destruct (CombinedDPLL.solve _ _ _) as [[r s'] | e |] eqn:Eb;
        try discriminate.
      inversion Es; subst. now apply combined_solve_shape in Eb. }
  destruct Hshape as [H | (a & H)]; inversion H; subst.
  - now left.
  - right. split; [reflexivity |]. eexists. split; [reflexivity |].
    apply model_of_shape.
Qed.

Lemma solve_result_shape_witness :
  ("SAT"%string = "UNSAT"%string /\ Some [1; 2; 3; 4] = @None (list Z))
  \/ ("SAT"%string = "SAT"%string
      /\ exists mdl,
           Some [1; 2; 3; 4] = Some mdl
           /\ length mdl = Z.to_nat 4
           /\ forall (k : nat) (x : Z),
                mdl !! k = Some x ->
                x = Z.of_nat k + 1 \/ x = - (Z.of_nat k + 1)).
Proof.
  apply (solve_result_shape insertion_order "combined"
           [[1]; [-1; 2]; [-2; 3]; [-3; 4]] 4 "SAT" (Some [1; 2; 3; 4])
           (mkMetrics 0 0 4 0)).
  exists 5%nat. vm_compute. reflexivity.
Defined.

(** ** The search counters of the preprocessing and combined solvers *)

Lemma counted_copy (status : string) (m : SolverMetrics) (u : nat) :
  counted status m ->
  counted status (mkMetrics (decisions m) (backtracks m) u (conflicts m)).
Proof. unfold counted. simpl. tauto. Qed.

Lemma preprocessing_solve_counters (iter_order : list Z -> list Z)
    (fuel : nat) (s s' : PreprocessingDPLL.t)
    (r : string * option (list Z)) :
  PreprocessingDPLL.solve iter_order fuel s = Done (r, s') ->
  counted (fst r) (PreprocessingDPLL.metrics s')
  \/ (fst r = "UNSAT"%string
      /\ decisions (PreprocessingDPLL.metrics s') = 0%nat
      /\ backtracks (PreprocessingDPLL.metrics s') = 0%nat
      /\ conflicts (PreprocessingDPLL.metrics s') = 0%nat).
Proof.
  unfold PreprocessingDPLL.solve. intros E.
  apply bind_Done in E. destruct E as ([] & s1 & E1 & E).
  unfold PreprocessingDPLL.set_metrics, modify in E1.
  inversion E1; subst s1. clear E1.
  apply bind_Done in E. destruct E as (self0 & s1 & E1 & E).
  unfold get in E1. inversion E1; subst self0 s1. clear E1.
  apply bind_Done in E. destruct E as (o & s2 & E2 & E).
  apply preprocess_frame in E2. destruct E2 as (_ & Hd & Hb & Hc).
  simpl in Hd, Hb, Hc.
  destruct o as [[| c cls] |].
  - apply bind_Done in E. destruct E as (self1 & s3 & E3 & E).
    unfold get in E3. inversion E3; subst self1 s3. clear E3.
    unfold ret in E. inversion E; subst. left. right. simpl.
    split; [reflexivity | lia].
  - apply bind_Done in E. destruct E as (self1 & s3 & E3 & E).
    unfold get in E3. inversion E3; subst self1 s3. clear E3.
    apply bind_Done in E. destruct E as ([rb sb] & s3 & E3 & E).
    unfold call in E3.
    match type of E3 with
    | match ?d with _ => _ end = _ =>
        destruct d as [[rb' sb'] | e |] eqn:Eb; try discriminate
    end.
    inversion E3; subst rb' sb' s3. clear E3.
    apply base_solve_counters in Eb.
    apply bind_Done in E. destruct E as ([] & s4 & E4 & E).
    unfold PreprocessingDPLL.set_metrics, modify in E4.
    inversion E4; subst s4. clear E4.
    unfold ret in E. inversion E; subst. left. simpl.
    now apply counted_copy.
  - unfold ret in E. inversion E; subst. right. simpl. auto.
Qed.

Lemma combined_solve_counters (iter_order : list Z -> list Z)
    (fuel : nat) (s s' : CombinedDPLL.t) (r : string * option (list Z)) :
  CombinedDPLL.solve iter_order fuel s = Done (r, s') ->
  counted (fst r) (CombinedDPLL.metrics s')
  \/ (fst r = "UNSAT"%string
      /\ decisions (CombinedDPLL.metrics s') = 0%nat
      /\ backtracks (CombinedDPLL.metrics s') = 0%nat
      /\ conflicts (CombinedDPLL.metrics s') = 0%nat).
Proof.
  unfold CombinedDPLL.solve. intros E.
  apply bind_Done in E. destruct E as ([] & s1 & E1 & E).
  unfold CombinedDPLL.set_metrics, modify in E1.
  inversion E1; subst s1. clear E1.
  apply bind_Done in E. destruct E as (self0 & s1 & E1 & E).
  unfold get in E1. inversion E1; subst self0 s1. clear E1.
  apply bind_Done in E. destruct E as ([o sp] & s2 & E2 & E).
  unfold call in E2.
  match type of E2 with
  | match ?d with _ => _ end = _ =>
      destruct d as [[o' sp'] | e |] eqn:Ep; try discriminate
  end.
  inversion E2; subst o' sp' s2. clear E2 Ep.
  apply bind_Done in E. destruct E as ([] & s3 & E3 & E).
  unfold CombinedDPLL.absorb, modify in E3.
  inversion E3; subst s3. clear E3. cbn [fst snd] in E.
  destruct o as [[| c cls] |].
  - apply bind_Done in E. destruct E as (self1 & s3 & E3 & E).
    unfold get in E3. inversion E3; subst self1 s3. clear E3.
    unfold ret in E. inversion E; subst. left. right. simpl.
    split; [reflexivity | lia].
  - apply bind_Done in E. destruct E as (self1 & s3 & E3 & E).
    unfold get in E3. inversion E3; subst self1 s3. clear E3.
    apply bind_Done in E. destruct E as ([rw sw] & s3 & E3 & E).
    unfold call in E3.
    match type of E3 with
    | match ?d with _ => _ end = _ =>
        destruct d as [[rw' sw'] | e |] eqn:Ew; try discriminate
    end.
    inversion E3; subst rw' sw' s3. clear E3.
    apply watched_solve_counters in Ew.
    apply bind_Done in E. destruct E as ([] & s4 & E4 & E).
    unfold CombinedDPLL.set_metrics, modify in E4.
    inversion E4; subst s4. clear E4.
    unfold ret in E. inversion E; subst. left. simpl.
    now apply counted_copy.
  - unfold ret in E. inversion E; subst. right. simpl. auto.
Qed.

(** The counters of the preprocessing and of the combined solver after
    [solve].  When the search runs, the three search counters are those of
    the inner solver and obey its law: with "UNSAT", every decision was
    backtracked and the conflicts are one more than the decisions; with
    "SAT", one conflict per backtrack and at most one backtrack per
    decision.  When preprocessing alone decides, the three counters are
    [0], also for "UNSAT": a conflict met by the preprocessing pass is not
    counted. *)
Theorem preprocessing_search_counters (iter_order : list Z -> list Z)
    (variant : string) (clauses : list (list Z)) (num_vars : Z)
    (status : string) (model : option (list Z)) (m : SolverMetrics) :
  In variant ["preprocessing"; "combined"]%string ->
  returns (run iter_order variant clauses num_vars) (status, model, m) ->
  (status = "UNSAT"%string
   /\ ((backtracks m = decisions m /\ conflicts m = S (decisions m))
       \/ (decisions m = 0 /\ backtracks m = 0 /\ conflicts m = 0)%nat))
  \/ (status = "SAT"%string /\ conflicts m = backtracks m
      /\ (backtracks m <= decisions m)%nat).
Proof.
  intros Hv [fuel E]. simpl in Hv.
  assert (H : counted status m
              \/ (status = "UNSAT"%string
                  /\ decisions m = 0 /\ backtracks m = 0
                  /\ conflicts m = 0)%nat).
  { destruct Hv as [<- | [<- | []]]; unfold run in E; simpl in E.
    - destruct (PreprocessingDPLL.solve _ _ _) as [[r s'] | e |] eqn:Es;
        try discriminate.
      inversion E; subst. now apply preprocessing_solve_counters in Es.
    - destruct (CombinedDPLL.solve _ _ _) as [[r s'] | e |] eqn:Es;
        try discriminate.
      inversion E; subst. now apply combined_solve_counters in Es. }
  unfold counted in H. intuition.
Qed.

Lemma preprocessing_search_counters_witness :
  ("UNSAT"%string = "UNSAT"%string
   /\ ((backtracks (mkMetrics 0 0 1 0) = decisions (mkMetrics 0 0 1 0)
        /\ conflicts (mkMetrics 0 0 1 0) = S (decisions (mkMetrics 0 0 1 0)))
       \/ (decisions (mkMetrics 0 0 1 0) = 0
           /\ backtracks (mkMetrics 0 0 1 0) = 0
           /\ conflicts (mkMetrics 0 0 1 0) = 0)%nat))
  \/ ("UNSAT"%string = "SAT"%string
      /\ conflicts (mkMetrics 0 0 1 0) = backtracks (mkMetrics 0 0 1 0)
      /\ (backtracks (mkMetrics 0 0 1 0)
          <= decisions (mkMetrics 0 0 1 0))%nat).
Proof.
  apply (preprocessing_search_counters insertion_order "preprocessing"
           cnf_minimal_unsat 1 "UNSAT" None (mkMetrics 0 0 1 0)).
  - simpl. tauto.
  - exists 20%nat. vm_compute. reflexivity.
Defined.

(** ** Correctness of the encoder *)

Lemma for_each_flat_map {A B : Type} (I : Encoder.SATSolver -> Prop)
    (f : A -> list B) (body : A -> list B -> M Encoder.SATSolver (list B))
    (l : list A) :
  (forall x acc s, In x l -> I s ->
     exists s', body x acc s = Done (acc ++ f x, s') /\ I s') ->
  forall acc s, I s ->
    exists s',
      Encoder.for_each l acc body s = Done (acc ++ flat_map f l, s') /\ I s'.
Proof.
  induction l as [| x l IH]; intros Hbody acc s Hs; simpl.
  - exists s. rewrite app_nil_r. auto.
  - destruct (Hbody x acc s (or_introl eq_refl) Hs) as (s1 & E1 & Hs1).
    destruct (IH (fun y acc' s' Hy => Hbody y acc' s' (or_intror Hy))
                 (acc ++ f x) s1 Hs1) as (s2 & E2 & Hs2).
    exists s2. unfold bind. rewrite E1, E2.
    now rewrite <- app_assoc.
Qed.

Lemma grid_at_cell (grid : list (list Z)) (nv : Z) (s : Encoder.SATSolver)
    (i j : Z) :
  lines_long_enough grid -> same_grid grid nv s ->
  0 <= i < Z.of_nat (length grid) -> 0 <= j < Z.of_nat (length grid) ->
  Encoder.grid_at i j s = Done (grid_cell grid i j, s).
Proof.
  intros Hlong (Hg & _) Hi Hj. unfold Encoder.grid_at, grid_cell.
  rewrite Hg.
  destruct (lookup_lt_is_Some_2 grid (Z.to_nat i)) as [line Hline]; [lia |].
  rewrite Hline.
  assert (Hlen : (length grid <= length line)%nat).
  { unfold lines_long_enough in Hlong.
    rewrite List.Forall_forall in Hlong. apply Hlong.
    now apply lookup_In in Hline. }
  destruct (lookup_lt_is_Some_2 line (Z.to_nat j)) as [v Hv]; [lia |].
  rewrite Hv.
  rewrite (nth_lookup_Some _ _ [] _ Hline).
  now rewrite (nth_lookup_Some _ _ 0 _ Hv).
Qed.

(** [generate_model] returns the unit clauses of the clues. *)
Lemma generate_model_spec (grid : list (list Z)) (nv : Z)
    (s : Encoder.SATSolver) :
  lines_long_enough grid -> same_grid grid nv s ->
  exists s',
    Encoder.generate_model s = Done (clue_clauses grid, s')
    /\ same_grid grid nv s'.
Proof.
  intros Hlong Hs.
  set (n := Z.of_nat (length grid)).
  unfold Encoder.generate_model, bind, get.
  assert (HN : Encoder.N s = n) by apply Hs. rewrite HN.
  unfold clue_clauses. fold n.
  apply (for_each_flat_map (same_grid grid nv)
           (fun i =>
              flat_map (fun j =>
                if grid_cell grid i j =? 0 then []
                else [[Encoder.mkVariable i j (grid_cell grid i j) false]])
                (range 0 n))
           _ (range 0 n)); [| exact Hs].
  intros i acc s1 Hi Hs1. apply In_range in Hi.
  apply (for_each_flat_map (same_grid grid nv)
           (fun j =>
              if grid_cell grid i j =? 0 then []
              else [[Encoder.mkVariable i j (grid_cell grid i j) false]])
           _ (range 0 n)); [| exact Hs1].
  intros j acc2 s2 Hj Hs2. apply In_range in Hj.
  unfold bind. rewrite (grid_at_cell grid nv s2 i j Hlong Hs2 Hi Hj).
  destruct (grid_cell grid i j =? 0).
  - exists s2. rewrite app_nil_r. auto.
  - eexists. split; [reflexivity |].
    destruct Hs2 as (A & B & C). repeat split; assumption.
Qed.

(** The clauses [to_cnf] returns: the clues, then the five rules, which
    depend on the size of the grid only. *)
Lemma to_cnf_clauses (grid : list (list Z)) :
  lines_long_enough grid ->
  let s0 := Encoder.__init__ grid in
  Encoder.to_cnf grid
  = Done (map (Encoder.map_variable_tuple s0)
            (clue_clauses grid
             ++ Encoder.generate_rule1_one_per_cell s0
             ++ Encoder.generate_rule2_row_constraint s0
             ++ Encoder.generate_rule3_col_constraint s0
             ++ Encoder.generate_rule4_box_constraint s0
             ++ Encoder.generate_rule5_non_consecutive s0),
          Z.of_nat (length grid) ^ 3).
Proof.
  intros Hlong s0.
  set (n := Z.of_nat (length grid)).
  assert (Hs0 : same_grid grid (n ^ 3) s0) by (repeat split).
  destruct (generate_model_spec grid (n ^ 3) s0 Hlong Hs0)
    as (s' & E & (Hg & HN & Hnv)).
  unfold Encoder.to_cnf, Encoder.encode, bind. fold s0. rewrite E.
  unfold get, Encoder.set_clauses, modify, ret. simpl.
  rewrite Hnv.
  unfold Encoder.generate_rule1_one_per_cell,
    Encoder.generate_rule2_row_constraint,
    Encoder.generate_rule3_col_constraint,
    Encoder.generate_rule4_box_constraint,
    Encoder.generate_rule5_non_consecutive,
    Encoder.adjacent_cells, Encoder.box_size,
    Encoder.map_variable_tuple, Encoder.map_variable.
  rewrite HN. reflexivity.
Qed.

Lemma var_of_pos (n r c v : Z) :
  0 <= n -> 0 <= r -> 0 <= c -> 1 <= v -> 0 < var_of n r c v.
Proof. unfold var_of. intros. nia. Qed.

Lemma lit_true_pos (m : gmap Z bool) (x : Z) :
  0 < x -> (lit_true m x <-> m !! x = Some true).
Proof.
  intros Hx. unfold lit_true. rewrite Z.abs_eq by lia.
  replace (0 <? x) with true by (symmetry; apply Z.ltb_lt; lia).
  reflexivity.
Qed.

Lemma lit_true_neg (m : gmap Z bool) (x : Z) :
  0 < x -> (lit_true m (- x) <-> m !! x = Some false).
Proof.
  intros Hx. unfold lit_true. rewrite Z.abs_opp, Z.abs_eq by lia.
  replace (0 <? - x) with false by (symmetry; apply Z.ltb_ge; lia).
  reflexivity.
Qed.

(** A satisfied clause of positive literals: one of its cells holds its
    value. *)
Lemma clause_sat_pos (s : Encoder.SATSolver) (m : gmap Z bool)
    (vs : list Encoder.Variable_) :
  clause_sat m (Encoder.map_variable_tuple s vs) ->
  (forall x, In x vs ->
     Encoder.neg x = false
     /\ 0 < var_of (Encoder.N s) (Encoder.row x) (Encoder.col x)
                   (Encoder.val x)) ->
  exists x, In x vs
    /\ cell_has m (Encoder.N s) (Encoder.row x) (Encoder.col x)
                (Encoder.val x).
Proof.
  intros (l & Hl & Ht) Hpos. unfold Encoder.map_variable_tuple in Hl.
  apply in_map_iff in Hl. destruct Hl as (x & <- & Hx).
  exists x. split; [exact Hx |]. destruct (Hpos x Hx) as (Hn & Hp).
  unfold Encoder.map_variable in Ht. rewrite Hn in Ht.
  now apply lit_true_pos in Ht.
Qed.

Lemma clause_sat_pos_intro (s : Encoder.SATSolver) (m : gmap Z bool)
    (vs : list Encoder.Variable_) (x : Encoder.Variable_) :
  In x vs -> Encoder.neg x = false ->
  0 < var_of (Encoder.N s) (Encoder.row x) (Encoder.col x) (Encoder.val x) ->
  cell_has m (Encoder.N s) (Encoder.row x) (Encoder.col x) (Encoder.val x) ->
  clause_sat m (Encoder.map_variable_tuple s vs).
Proof.
  intros Hx Hn Hp Hc. exists (Encoder.map_variable s x). split.
  - unfold Encoder.map_variable_tuple. now apply in_map.
  - unfold Encoder.map_variable. rewrite Hn. now apply lit_true_pos.
Qed.

(** A satisfied clause of two negative literals: the two cells do not both
    hold their values. *)
Lemma clause_sat_neg_pair (s : Encoder.SATSolver) (m : gmap Z bool)
    (r1 c1 v1 r2 c2 v2 : Z) :
  clause_sat m (Encoder.map_variable_tuple s
                  [Encoder.mkVariable r1 c1 v1 true;
                   Encoder.mkVariable r2 c2 v2 true]) ->
  0 < var_of (Encoder.N s) r1 c1 v1 -> 0 < var_of (Encoder.N s) r2 c2 v2 ->
  ~ (cell_has m (Encoder.N s) r1 c1 v1 /\ cell_has m (Encoder.N s) r2 c2 v2).
Proof.
  intros (l & Hl & Ht) H1 H2 (C1 & C2). unfold cell_has in *.
  simpl in Hl. unfold Encoder.map_variable in Hl. simpl in Hl.
  fold (var_of (Encoder.N s) r1 c1 v1) in Hl.
  fold (var_of (Encoder.N s) r2 c2 v2) in Hl.
  destruct Hl as [<- | [<- | []]]; apply lit_true_neg in Ht; try assumption;
    congruence.
Qed.

Lemma clause_sat_neg_pair_intro (s : Encoder.SATSolver) (m : gmap Z bool)
    (r1 c1 v1 r2 c2 v2 : Z) :
  0 < var_of (Encoder.N s) r1 c1 v1 -> 0 < var_of (Encoder.N s) r2 c2 v2 ->
  m !! var_of (Encoder.N s) r1 c1 v1 <> None ->
  m !! var_of (Encoder.N s) r2 c2 v2 <> None ->
  ~ (cell_has m (Encoder.N s) r1 c1 v1 /\ cell_has m (Encoder.N s) r2 c2 v2) ->
  clause_sat m (Encoder.map_variable_tuple s
                  [Encoder.mkVariable r1 c1 v1 true;
                   Encoder.mkVariable r2 c2 v2 true]).
Proof.
  intros H1 H2 D1 D2 Hnot. unfold cell_has in Hnot.
  destruct (m !! var_of (Encoder.N s) r1 c1 v1) as [[|] |] eqn:E1;
    [| | congruence].
  - destruct (m !! var_of (Encoder.N s) r2 c2 v2) as [[|] |] eqn:E2;
      [tauto | | congruence].
    exists (- var_of (Encoder.N s) r2 c2 v2). split.
    + simpl. right. left. reflexivity.
    + now apply lit_true_neg.
  - exists (- var_of (Encoder.N s) r1 c1 v1). split.
    + simpl. left. reflexivity.
    + now apply lit_true_neg.
Qed.

Lemma box_cells_In (k br bc : Z) (rc : Z * Z) :
  In rc (Encoder.box_cells k br bc) <-> in_box k br bc (fst rc) (snd rc).
Proof.
  unfold Encoder.box_cells, in_box. rewrite in_flat_map. split.
  - intros (i & Hi & H). apply in_map_iff in H. destruct H as (j & <- & Hj).
    apply In_range in Hi. apply In_range in Hj. simpl. lia.
  - intros (Hr & Hc). exists (fst rc - br * k). split; [apply In_range; lia |].
    apply in_map_iff. exists (snd rc - bc * k). split; [| apply In_range; lia].
    destruct rc as [r c]. simpl. f_equal; lia.
Qed.

Lemma NoDup_range (lo hi : Z) : List.NoDup (range lo hi).
Proof.
  unfold range. apply Finite.Injective_map_NoDup_in; [| apply seq_NoDup].
  intros x y _ _ H. lia.
Qed.

Lemma NoDup_flat_map {A B : Type} (f : A -> list B) (l : list A) :
  List.NoDup l -> (forall x, In x l -> List.NoDup (f x)) ->
  (forall x y z, In x l -> In y l -> In z (f x) -> In z (f y) -> x = y) ->
  List.NoDup (flat_map f l).
Proof.
  induction 1 as [| x l Hx Hl IH]; intros Hf Hdisj; simpl; [constructor |].
  apply List.NoDup_app.
  - apply Hf. now left.
  - apply IH.
    + intros y Hy. apply Hf. now right.
    + intros y1 y2 z H1 H2. apply Hdisj; now right.
  - intros z Hz Hz'. apply in_flat_map in Hz'. destruct Hz' as (y & Hy & Hz').
    assert (x = y) by (apply (Hdisj x y z); auto; [now left | now right]).
    subst y. contradiction.
Qed.

Lemma NoDup_box_cells (k br bc : Z) : List.NoDup (Encoder.box_cells k br bc).
Proof.
  unfold Encoder.box_cells. apply NoDup_flat_map.
  - apply NoDup_range.
  - intros i _. apply Finite.Injective_map_NoDup_in; [| apply NoDup_range].
    intros x y _ _ H. inversion H. lia.
  - intros i1 i2 z _ _ H1 H2.
    apply in_map_iff in H1. destruct H1 as (j1 & <- & _).
    apply in_map_iff in H2. destruct H2 as (j2 & E & _).
    inversion E. lia.
Qed.

Lemma cell_at_index (cells : list (Z * Z)) (rc : Z * Z) :
  In rc cells ->
  exists idx, 0 <= idx < Z.of_nat (length cells)
    /\ Encoder.cell_at cells idx = rc.
Proof.
  intros H. apply (In_nth _ _ (0, 0)) in H. destruct H as (i & Hi & E).
  exists (Z.of_nat i). split; [lia |]. unfold Encoder.cell_at.
  now rewrite Nat2Z.id.
Qed.

Ltac pick x := apply in_flat_map; exists x; split; [apply In_range; lia |].
Ltac pick_last x :=
  apply in_map_iff; exists x; split; [reflexivity | apply In_range; lia].

Section EncoderRules.

Variable s : Encoder.SATSolver.
Variable m : gmap Z bool.
Hypothesis HN : 0 <= Encoder.N s.

Lemma rule1_sound :
  (forall vs, In vs (Encoder.generate_rule1_one_per_cell s) ->
     clause_sat m (Encoder.map_variable_tuple s vs)) ->
  forall r c, in_grid (Encoder.N s) r c ->
    exists v, 1 <= v <= Encoder.N s /\ cell_has m (Encoder.N s) r c v
      /\ forall v', 1 <= v' <= Encoder.N s ->
           cell_has m (Encoder.N s) r c v' -> v' = v.
Proof.
  intros Hsat r c (Hr & Hc).
  assert (Hpair : forall v1 v2, 1 <= v1 -> v1 < v2 <= Encoder.N s ->
            ~ (cell_has m (Encoder.N s) r c v1
               /\ cell_has m (Encoder.N s) r c v2)).
  { intros v1 v2 H1 H2. apply clause_sat_neg_pair;
      [| apply var_of_pos; lia | apply var_of_pos; lia].
    apply Hsat. unfold Encoder.generate_rule1_one_per_cell.
    pick r. pick c. right. pick v1. pick_last v2. }
  assert (H1 : clause_sat m
                 (Encoder.map_variable_tuple s
                    (map (fun v => Encoder.mkVariable r c v false)
                         (range 1 (Encoder.N s + 1))))).
  { apply Hsat. unfold Encoder.generate_rule1_one_per_cell.
    pick r. pick c. left. reflexivity. }
  apply clause_sat_pos in H1.
  - destruct H1 as (x & Hx & Hcell). apply in_map_iff in Hx.
    destruct Hx as (v & <- & Hv). apply In_range in Hv. simpl in Hcell.
    exists v. split; [lia |]. split; [exact Hcell |].
    intros v' Hv' Hcell'.
    destruct (Z.lt_trichotomy v' v) as [Hlt | [-> | Hlt]];
      [| reflexivity |]; exfalso.
    + apply (Hpair v' v); [lia | lia | tauto].
    + apply (Hpair v v'); [lia | lia | tauto].
  - intros x Hx. apply in_map_iff in Hx. destruct Hx as (v & <- & Hv).
    apply In_range in Hv. simpl. split; [reflexivity |].
    apply var_of_pos; lia.
Qed.

Lemma rule2_sound :
  (forall vs, In vs (Encoder.generate_rule2_row_constraint s) ->
     clause_sat m (Encoder.map_variable_tuple s vs)) ->
  forall r v, 0 <= r < Encoder.N s -> 1 <= v <= Encoder.N s ->
    exists c, 0 <= c < Encoder.N s /\ cell_has m (Encoder.N s) r c v
      /\ forall c', 0 <= c' < Encoder.N s ->
           cell_has m (Encoder.N s) r c' v -> c' = c.
Proof.
  intros Hsat r v Hr Hv.
  assert (Hpair : forall c1 c2, 0 <= c1 -> c1 < c2 < Encoder.N s ->
            ~ (cell_has m (Encoder.N s) r c1 v
               /\ cell_has m (Encoder.N s) r c2 v)).
  { intros c1 c2 H1 H2. apply clause_sat_neg_pair;
      [| apply var_of_pos; lia | apply var_of_pos; lia].
    apply Hsat. unfold Encoder.generate_rule2_row_constraint.
    pick r. pick v. right. pick c1. pick_last c2. }
  assert (H1 : clause_sat m
                 (Encoder.map_variable_tuple s
                    (map (fun c => Encoder.mkVariable r c v false)
                         (range 0 (Encoder.N s))))).
  { apply Hsat. unfold Encoder.generate_rule2_row_constraint.
    pick r. pick v. left. reflexivity. }
  apply clause_sat_pos in H1.
  - destruct H1 as (x & Hx & Hcell). apply in_map_iff in Hx.
    destruct Hx as (c & <- & Hc). apply In_range in Hc. simpl in Hcell.
    exists c. split; [lia |]. split; [exact Hcell |].
    intros c' Hc' Hcell'.
    destruct (Z.lt_trichotomy c' c) as [Hlt | [-> | Hlt]];
      [| reflexivity |]; exfalso.
    + apply (Hpair c' c); [lia | lia | tauto].
    + apply (Hpair c c'); [lia | lia | tauto].
  - intros x Hx. apply in_map_iff in Hx. destruct Hx as (c & <- & Hc).
    apply In_range in Hc. simpl. split; [reflexivity |].
    apply var_of_pos; lia.
Qed.

Lemma rule3_sound :
  (forall vs, In vs (Encoder.generate_rule3_col_constraint s) ->
     clause_sat m (Encoder.map_variable_tuple s vs)) ->
  forall c v, 0 <= c < Encoder.N s -> 1 <= v <= Encoder.N s ->
    exists r, 0 <= r < Encoder.N s /\ cell_has m (Encoder.N s) r c v
      /\ forall r', 0 <= r' < Encoder.N s ->
           cell_has m (Encoder.N s) r' c v -> r' = r.
Proof.
  intros Hsat c v Hc Hv.
  assert (Hpair : forall r1 r2, 0 <= r1 -> r1 < r2 < Encoder.N s ->
            ~ (cell_has m (Encoder.N s) r1 c v
               /\ cell_has m (Encoder.N s) r2 c v)).
  { intros r1 r2 H1 H2. apply clause_sat_neg_pair;
      [| apply var_of_pos; lia | apply var_of_pos; lia].
    apply Hsat. unfold Encoder.generate_rule3_col_constraint.
    pick c. pick v. right. pick r1. pick_last r2. }
  assert (H1 : clause_sat m
                 (Encoder.map_variable_tuple s
                    (map (fun r => Encoder.mkVariable r c v false)
                         (range 0 (Encoder.N s))))).
  { apply Hsat. unfold Encoder.generate_rule3_col_constraint.
    pick c. pick v. left. reflexivity. }
  apply clause_sat_pos in H1.
  - destruct H1 as (x & Hx & Hcell). apply in_map_iff in Hx.
    destruct Hx as (r & <- & Hr). apply In_range in Hr. simpl in Hcell.
    exists r. split; [lia |]. split; [exact Hcell |].
    intros r' Hr' Hcell'.
    destruct (Z.lt_trichotomy r' r) as [Hlt | [-> | Hlt]];
      [| reflexivity |]; exfalso.
    + apply (Hpair r' r); [lia | lia | tauto].
    + apply (Hpair r r'); [lia | lia | tauto].
  - intros x Hx. apply in_map_iff in Hx. destruct Hx as (r & <- & Hr).
    apply In_range in Hr. simpl. split; [reflexivity |].
    apply var_of_pos; lia.
Qed.

Lemma rule4_sound :
  (forall vs, In vs (Encoder.generate_rule4_box_constraint s) ->
     clause_sat m (Encoder.map_variable_tuple s vs)) ->
  forall br bc v,
    0 <= br < Encoder.box_size s -> 0 <= bc < Encoder.box_size s ->
    1 <= v <= Encoder.N s ->
    exists r c, in_box (Encoder.box_size s) br bc r c
      /\ cell_has m (Encoder.N s) r c v
      /\ forall r' c', in_box (Encoder.box_size s) br bc r' c' ->
           cell_has m (Encoder.N s) r' c' v -> r' = r /\ c' = c.
Proof.
  intros Hsat br bc v Hbr Hbc Hv.
  set (k := Encoder.box_size s) in *.
  set (cells := Encoder.box_cells k br bc).
  assert (Hcells : forall rc, In rc cells -> 0 <= fst rc /\ 0 <= snd rc).
  { intros rc Hrc. apply box_cells_In in Hrc. unfold in_box in Hrc. nia. }
  assert (Hpair : forall idx1 idx2,
            0 <= idx1 -> idx1 < idx2 < Z.of_nat (length cells) ->
            ~ (cell_has m (Encoder.N s) (fst (Encoder.cell_at cells idx1))
                 (snd (Encoder.cell_at cells idx1)) v
               /\ cell_has m (Encoder.N s)
                    (fst (Encoder.cell_at cells idx2))
                    (snd (Encoder.cell_at cells idx2)) v)).
  { intros idx1 idx2 H1 H2.
    assert (C1 : In (Encoder.cell_at cells idx1) cells)
      by (apply cell_at_In; lia).
    assert (C2 : In (Encoder.cell_at cells idx2) cells)
      by (apply cell_at_In; lia).
    apply Hcells in C1. apply Hcells in C2.
    apply clause_sat_neg_pair;
      [| apply var_of_pos; lia | apply var_of_pos; lia].
    apply Hsat. unfold Encoder.generate_rule4_box_constraint. cbv zeta.
    fold k. pick br. pick bc. fold cells. pick v. right.
    pick idx1. pick_last idx2. }
  assert (H1 : clause_sat m
                 (Encoder.map_variable_tuple s
                    (map (fun rc => Encoder.mkVariable (fst rc) (snd rc) v
                                      false) cells))).
  { apply Hsat. unfold Encoder.generate_rule4_box_constraint. cbv zeta.
    fold k. pick br. pick bc. fold cells. pick v. left. reflexivity. }
  apply clause_sat_pos in H1.
  - destruct H1 as (x & Hx & Hcell). apply in_map_iff in Hx.
    destruct Hx as ([r c] & <- & Hrc). simpl in Hcell.
    exists r, c. split; [now apply box_cells_In in Hrc |].
    split; [exact Hcell |].
    intros r' c' Hbox' Hcell'.
    assert (Hrc' : In (r', c') cells) by now apply box_cells_In.
    destruct (cell_at_index cells (r, c) Hrc) as (i1 & Hi1 & E1).
    destruct (cell_at_index cells (r', c') Hrc') as (i2 & Hi2 & E2).
    destruct (Z.lt_trichotomy i2 i1) as [Hlt | [-> | Hlt]].
    + exfalso. apply (Hpair i2 i1); [lia | lia |].
      rewrite E1, E2. simpl. tauto.
    + rewrite E1 in E2. inversion E2. auto.
    + exfalso. apply (Hpair i1 i2); [lia | lia |].
      rewrite E1, E2. simpl. tauto.
  - intros x Hx. apply in_map_iff in Hx. destruct Hx as (rc & <- & Hrc).
    apply Hcells in Hrc. simpl. split; [reflexivity |].
    apply var_of_pos; lia.
Qed.

Lemma adjacent_cells_In (i j r' c' : Z) :
  in_grid (Encoder.N s) i j ->
  (In (r', c') (Encoder.adjacent_cells s i j)
   <-> in_grid (Encoder.N s) r' c' /\ adjacent i j r' c').
Proof.
  intros (Hi & Hj). unfold Encoder.adjacent_cells, in_grid, adjacent.
  rewrite !in_app_iff.
  destruct (0 <? i) eqn:E1; destruct (i <? Encoder.N s - 1) eqn:E2;
    destruct (0 <? j) eqn:E3; destruct (j <? Encoder.N s - 1) eqn:E4;
    rewrite ?Z.ltb_lt, ?Z.ltb_ge in *; simpl;
    split;
    try (intros H;
         repeat match goal with
           | H : _ \/ _ |- _ => destruct H
           | H : False |- _ => destruct H
           | H : (_, _) = (_, _) |- _ => inversion H; clear H; subst
           end; lia);
    intros ((Hr' & Hc') & Hadj);
    assert (Hcases : (r' = i - 1 /\ c' = j) \/ (r' = i + 1 /\ c' = j)
                     \/ (r' = i /\ c' = j - 1) \/ (r' = i /\ c' = j + 1))
      by lia;
    destruct Hcases as [(-> & ->) | [(-> & ->) | [(-> & ->) | (-> & ->)]]];
    try lia; tauto.
Qed.

Lemma rule5_sound :
  (forall vs, In vs (Encoder.generate_rule5_non_consecutive s) ->
     clause_sat m (Encoder.map_variable_tuple s vs)) ->
  forall r c r' c' v v',
    in_grid (Encoder.N s) r c -> in_grid (Encoder.N s) r' c' ->
    adjacent r c r' c' ->
    1 <= v <= Encoder.N s -> 1 <= v' <= Encoder.N s ->
    (v' = v + 1 \/ v' = v - 1) ->
    ~ (cell_has m (Encoder.N s) r c v /\ cell_has m (Encoder.N s) r' c' v').
Proof.
  intros Hsat r c r' c' v v' Hg Hg' Hadj Hv Hv' Hcons.
  assert (Hin : In (r', c') (Encoder.adjacent_cells s r c))
    by (apply adjacent_cells_In; auto).
  destruct Hg as (Hr & Hc). destruct Hg' as (Hr' & Hc').
  apply clause_sat_neg_pair;
    [| apply var_of_pos; lia | apply var_of_pos; lia].
  apply Hsat. unfold Encoder.generate_rule5_non_consecutive.
  pick r. pick c. pick v. apply in_flat_map. exists (r', c').
  split; [exact Hin |]. simpl. apply in_or_app.
  destruct Hcons as [-> | ->].
  - right. replace (v <? Encoder.N s) with true
      by (symmetry; apply Z.ltb_lt; lia). now left.
  - left. replace (1 <? v) with true
      by (symmetry; apply Z.ltb_lt; lia). now left.
Qed.

End EncoderRules.

Section EncoderRulesComplete.

Variable s : Encoder.SATSolver.
Variable m : gmap Z bool.
Hypothesis HN : 0 <= Encoder.N s.
Hypothesis Hdec : decides (Encoder.N s) m.

Lemma rule1_complete :
  (forall r c, in_grid (Encoder.N s) r c ->
     exists v, 1 <= v <= Encoder.N s /\ cell_has m (Encoder.N s) r c v
       /\ forall v', 1 <= v' <= Encoder.N s ->
            cell_has m (Encoder.N s) r c v' -> v' = v) ->
  forall vs, In vs (Encoder.generate_rule1_one_per_cell s) ->
    clause_sat m (Encoder.map_variable_tuple s vs).
Proof.
  intros H1 vs Hvs. unfold Encoder.generate_rule1_one_per_cell in Hvs.
  apply in_flat_map in Hvs. destruct Hvs as (i & Hi & Hvs).
  apply in_flat_map in Hvs. destruct Hvs as (j & Hj & Hvs).
  apply In_range in Hi. apply In_range in Hj.
  assert (Hg : in_grid (Encoder.N s) i j) by (split; lia).
  destruct (H1 i j Hg) as (v & Hv & Hc & Hu).
  destruct Hvs as [<- | Hvs].
  - apply (clause_sat_pos_intro s m _ (Encoder.mkVariable i j v false));
      [| reflexivity | simpl; apply var_of_pos; lia | exact Hc].
    apply in_map_iff. exists v. split; [reflexivity | apply In_range; lia].
  - apply in_flat_map in Hvs. destruct Hvs as (v1 & Hv1 & Hvs).
    apply in_map_iff in Hvs. destruct Hvs as (v2 & <- & Hv2).
    apply In_range in Hv1. apply In_range in Hv2.
    apply clause_sat_neg_pair_intro;
      [apply var_of_pos; lia | apply var_of_pos; lia
      | apply Hdec; [exact Hg | lia] | apply Hdec; [exact Hg | lia] |].
    intros (C1 & C2). apply Hu in C1; [| lia]. apply Hu in C2; [| lia]. lia.
Qed.

Lemma rule2_complete :
  (forall r v, 0 <= r < Encoder.N s -> 1 <= v <= Encoder.N s ->
     exists c, 0 <= c < Encoder.N s /\ cell_has m (Encoder.N s) r c v
       /\ forall c', 0 <= c' < Encoder.N s ->
            cell_has m (Encoder.N s) r c' v -> c' = c) ->
  forall vs, In vs (Encoder.generate_rule2_row_constraint s) ->
    clause_sat m (Encoder.map_variable_tuple s vs).
Proof.
  intros H2 vs Hvs. unfold Encoder.generate_rule2_row_constraint in Hvs.
  apply in_flat_map in Hvs. destruct Hvs as (r & Hr & Hvs).
  apply in_flat_map in Hvs. destruct Hvs as (v & Hv & Hvs).
  apply In_range in Hr. apply In_range in Hv.
  destruct (H2 r v) as (c & Hc & Hcell & Hu); [lia | lia |].
  destruct Hvs as [<- | Hvs].
  - apply (clause_sat_pos_intro s m _ (Encoder.mkVariable r c v false));
      [| reflexivity | simpl; apply var_of_pos; lia | exact Hcell].
    apply in_map_iff. exists c. split; [reflexivity | apply In_range; lia].
  - apply in_flat_map in Hvs. destruct Hvs as (c1 & Hc1 & Hvs).
    apply in_map_iff in Hvs. destruct Hvs as (c2 & <- & Hc2).
    apply In_range in Hc1. apply In_range in Hc2.
    apply clause_sat_neg_pair_intro;
      [apply var_of_pos; lia | apply var_of_pos; lia
      | apply Hdec; [split; lia | lia] | apply Hdec; [split; lia | lia] |].
    intros (C1 & C2). apply Hu in C1; [| lia]. apply Hu in C2; [| lia]. lia.
Qed.

Lemma rule3_complete :
  (forall c v, 0 <= c < Encoder.N s -> 1 <= v <= Encoder.N s ->
     exists r, 0 <= r < Encoder.N s /\ cell_has m (Encoder.N s) r c v
       /\ forall r', 0 <= r' < Encoder.N s ->
            cell_has m (Encoder.N s) r' c v -> r' = r) ->
  forall vs, In vs (Encoder.generate_rule3_col_constraint s) ->
    clause_sat m (Encoder.map_variable_tuple s vs).
Proof.
  intros H3 vs Hvs. unfold Encoder.generate_rule3_col_constraint in Hvs.
  apply in_flat_map in Hvs. destruct Hvs as (c & Hc & Hvs).
  apply in_flat_map in Hvs. destruct Hvs as (v & Hv & Hvs).
  apply In_range in Hc. apply In_range in Hv.
  destruct (H3 c v) as (r & Hr & Hcell & Hu); [lia | lia |].
  destruct Hvs as [<- | Hvs].
  - apply (clause_sat_pos_intro s m _ (Encoder.mkVariable r c v false));
      [| reflexivity | simpl; apply var_of_pos; lia | exact Hcell].
    apply in_map_iff. exists r. split; [reflexivity | apply In_range; lia].
  - apply in_flat_map in Hvs. destruct Hvs as (r1 & Hr1 & Hvs).
    apply in_map_iff in Hvs. destruct Hvs as (r2 & <- & Hr2).
    apply In_range in Hr1. apply In_range in Hr2.
    apply clause_sat_neg_pair_intro;
      [apply var_of_pos; lia | apply var_of_pos; lia
      | apply Hdec; [split; lia | lia] | apply Hdec; [split; lia | lia] |].
    intros (C1 & C2). apply Hu in C1; [| lia]. apply Hu in C2; [| lia]. lia.
Qed.

Lemma rule4_complete :
  (forall br bc v,
     0 <= br < Encoder.box_size s -> 0 <= bc < Encoder.box_size s ->
     1 <= v <= Encoder.N s ->
     exists r c, in_box (Encoder.box_size s) br bc r c
       /\ cell_has m (Encoder.N s) r c v
       /\ forall r' c', in_box (Encoder.box_size s) br bc r' c' ->
            cell_has m (Encoder.N s) r' c' v -> r' = r /\ c' = c) ->
  forall vs, In vs (Encoder.generate_rule4_box_constraint s) ->
    clause_sat m (Encoder.map_variable_tuple s vs).
Proof.
  intros H4 vs Hvs.
  assert (Hs : Encoder.box_size s * Encoder.box_size s <= Encoder.N s).
  { unfold Encoder.box_size.
    pose proof (Z.sqrt_spec _ HN) as H. cbv zeta in H. tauto. }
  unfold Encoder.generate_rule4_box_constraint in Hvs. cbv zeta in Hvs.
  set (k := Encoder.box_size s) in *.
  apply in_flat_map in Hvs. destruct Hvs as (br & Hbr & Hvs).
  apply in_flat_map in Hvs. destruct Hvs as (bc & Hbc & Hvs).
  apply in_flat_map in Hvs. destruct Hvs as (v & Hv & Hvs).
  apply In_range in Hbr. apply In_range in Hbc. apply In_range in Hv.
  set (cells := Encoder.box_cells k br bc) in *.
  assert (Hcells : forall rc, In rc cells ->
            in_grid (Encoder.N s) (fst rc) (snd rc)).
  { intros rc Hrc. now apply (box_cells_ok k _ br bc). }
  destruct (H4 br bc v) as (r & c & Hbox & Hcell & Hu); [lia | lia | lia |].
  destruct Hvs as [<- | Hvs].
  - assert (Hin : In (r, c) cells) by now apply box_cells_In.
    apply (clause_sat_pos_intro s m _ (Encoder.mkVariable r c v false));
      [| reflexivity | | exact Hcell].
    + apply in_map_iff. exists (r, c). split; [reflexivity | exact Hin].
    + apply Hcells in Hin. destruct Hin as (A & B). simpl in A, B.
      apply var_of_pos; simpl; lia.
  - apply in_flat_map in Hvs. destruct Hvs as (idx1 & H1 & Hvs).
    apply in_map_iff in Hvs. destruct Hvs as (idx2 & <- & H2).
    apply In_range in H1. apply In_range in H2.
    assert (C1 : In (Encoder.cell_at cells idx1) cells)
      by (apply cell_at_In; lia).
    assert (C2 : In (Encoder.cell_at cells idx2) cells)
      by (apply cell_at_In; lia).
    pose proof (Hcells _ C1) as G1. pose proof (Hcells _ C2) as G2.
    cbv zeta.
    apply clause_sat_neg_pair_intro;
      [apply var_of_pos; unfold in_grid in *; lia
      | apply var_of_pos; unfold in_grid in *; lia
      | apply Hdec; [exact G1 | lia] | apply Hdec; [exact G2 | lia] |].
    intros (A & B).
    apply box_cells_In in C1. apply box_cells_In in C2.
    apply (Hu _ _ C1) in A. apply (Hu _ _ C2) in B.
    assert (E : Encoder.cell_at cells idx1 = Encoder.cell_at cells idx2).
    { destruct (Encoder.cell_at cells idx1), (Encoder.cell_at cells idx2).
      simpl in A, B. f_equal; lia. }
    unfold Encoder.cell_at in E.
    apply (proj1 (NoDup_nth cells (0, 0)) (NoDup_box_cells k br bc)) in E;
      lia.
Qed.

Lemma rule5_complete :
  (forall r c r' c' v v',
     in_grid (Encoder.N s) r c -> in_grid (Encoder.N s) r' c' ->
     adjacent r c r' c' ->
     1 <= v <= Encoder.N s -> 1 <= v' <= Encoder.N s ->
     (v' = v + 1 \/ v' = v - 1) ->
     ~ (cell_has m (Encoder.N s) r c v
        /\ cell_has m (Encoder.N s) r' c' v')) ->
  forall vs, In vs (Encoder.generate_rule5_non_consecutive s) ->
    clause_sat m (Encoder.map_variable_tuple s vs).
Proof.
  intros H5 vs Hvs. unfold Encoder.generate_rule5_non_consecutive in Hvs.
  apply in_flat_map in Hvs. destruct Hvs as (i & Hi & Hvs).
  apply in_flat_map in Hvs. destruct Hvs as (j & Hj & Hvs).
  apply in_flat_map in Hvs. destruct Hvs as (v & Hv & Hvs).
  apply in_flat_map in Hvs. destruct Hvs as ([r' c'] & Hadj & Hvs).
  apply In_range in Hi. apply In_range in Hj. apply In_range in Hv.
  assert (Hg : in_grid (Encoder.N s) i j) by (split; lia).
  apply (adjacent_cells_In s i j r' c' Hg) in Hadj.
  destruct Hadj as (Hg' & Hadj). simpl in Hvs.
  assert (Hpair : forall v', 1 <= v' <= Encoder.N s ->
            (v' = v + 1 \/ v' = v - 1) ->
            clause_sat m (Encoder.map_variable_tuple s
                            [Encoder.mkVariable i j v true;
                             Encoder.mkVariable r' c' v' true])).
  { intros v' Hv' Hcons. destruct Hg' as (A & B).
    apply clause_sat_neg_pair_intro;
      [apply var_of_pos; lia | apply var_of_pos; lia
      | apply Hdec; [exact Hg | lia] | apply Hdec; [split; lia | lia] |].
    apply H5; auto; try lia. split; lia. }
  apply in_app_or in Hvs. destruct Hvs as [Hvs | Hvs].
  - destruct (1 <? v) eqn:E; [| destruct Hvs].
    apply Z.ltb_lt in E. destruct Hvs as [<- | []]. apply Hpair; lia.
  - destruct (v <? Encoder.N s) eqn:E; [| destruct Hvs].
    apply Z.ltb_lt in E. destruct Hvs as [<- | []]. apply Hpair; lia.
Qed.

End EncoderRulesComplete.

Lemma well_formed_lines_long (grid : list (list Z)) :
  well_formed_grid grid -> lines_long_enough grid.
Proof.
  intros (Hsq & _). unfold lines_long_enough.
  eapply Forall_impl; [exact Hsq |]. simpl. intros line E. lia.
Qed.

Lemma grid_cell_range (grid : list (list Z)) (r c : Z) :
  well_formed_grid grid -> in_grid (Z.of_nat (length grid)) r c ->
  0 <= grid_cell grid r c <= Z.of_nat (length grid).
Proof.
  intros (Hsq & Hvals & _) (Hr & Hc). unfold grid_cell.
  rewrite List.Forall_forall in Hsq, Hvals.
  assert (Hline : In (nth (Z.to_nat r) grid []) grid)
    by (apply nth_In; lia).
  pose proof (Hsq _ Hline) as Hlen. pose proof (Hvals _ Hline) as Hv.
  rewrite List.Forall_forall in Hv. apply Hv. apply nth_In. lia.
Qed.

Lemma clue_clauses_In (grid : list (list Z)) (vs : list Encoder.Variable_) :
  In vs (clue_clauses grid)
  <-> exists r c, in_grid (Z.of_nat (length grid)) r c
        /\ grid_cell grid r c <> 0
        /\ vs = [Encoder.mkVariable r c (grid_cell grid r c) false].
Proof.
  unfold clue_clauses. cbv zeta. rewrite in_flat_map. split.
  - intros (i & Hi & H). apply in_flat_map in H. destruct H as (j & Hj & H).
    apply In_range in Hi. apply In_range in Hj.
    destruct (grid_cell grid i j =? 0) eqn:E; [destruct H |].
    apply Z.eqb_neq in E. destruct H as [<- | []].
    exists i, j. repeat split; auto; lia.
  - intros (r & c & (Hr & Hc) & Hz & ->). exists r.
    split; [apply In_range; lia |]. apply in_flat_map. exists c.
    split; [apply In_range; lia |].
    apply Z.eqb_neq in Hz. rewrite Hz. now left.
Qed.

(** Every model of the clauses describes a solution of the puzzle. *)
Lemma to_cnf_sound (grid : list (list Z)) (cls : list (list Z)) (nv : Z)
    (m : gmap Z bool) :
  well_formed_grid grid -> Encoder.to_cnf grid = Done (cls, nv) ->
  all_sat m cls ->
  solves grid (Z.of_nat (length grid)) (Z.sqrt (Z.of_nat (length grid))) m.
Proof.
  intros Hwf E Hsat.
  pose proof (to_cnf_clauses grid (well_formed_lines_long grid Hwf)) as E'.
  cbv zeta in E'. rewrite E' in E. inversion E as [[Hcls Hnv]]. clear E E'.
  set (s0 := Encoder.__init__ grid) in *.
  set (n := Z.of_nat (length grid)) in *.
  assert (HN : Encoder.N s0 = n) by reflexivity.
  assert (Hn : 0 <= Encoder.N s0) by (rewrite HN; unfold n; lia).
  assert (Hall : forall vs,
            In vs (clue_clauses grid
                   ++ Encoder.generate_rule1_one_per_cell s0
                   ++ Encoder.generate_rule2_row_constraint s0
                   ++ Encoder.generate_rule3_col_constraint s0
                   ++ Encoder.generate_rule4_box_constraint s0
                   ++ Encoder.generate_rule5_non_consecutive s0) ->
            clause_sat m (Encoder.map_variable_tuple s0 vs)).
  { intros vs Hvs. apply Hsat. rewrite <- Hcls. now apply in_map. }
  pose proof (rule1_sound s0 m Hn) as R1.
  pose proof (rule2_sound s0 m Hn) as R2.
  pose proof (rule3_sound s0 m Hn) as R3.
  pose proof (rule4_sound s0 m Hn) as R4.
  pose proof (rule5_sound s0 m Hn) as R5.
  unfold Encoder.box_size in R4. rewrite HN in R1, R2, R3, R4, R5.
  unfold solves. repeat split.
  - apply R1. intros vs Hvs. apply Hall. rewrite !in_app_iff. tauto.
  - apply R2. intros vs Hvs. apply Hall. rewrite !in_app_iff. tauto.
  - apply R3. intros vs Hvs. apply Hall. rewrite !in_app_iff. tauto.
  - apply R4. intros vs Hvs. apply Hall. rewrite !in_app_iff. tauto.
  - apply R5. intros vs Hvs. apply Hall. rewrite !in_app_iff. tauto.
  - intros r c Hg Hz.
    pose proof (grid_cell_range grid r c Hwf Hg) as Hv.
    assert (Hc : clause_sat m
                   (Encoder.map_variable_tuple s0
                      [Encoder.mkVariable r c (grid_cell grid r c) false])).
    { apply Hall. apply in_or_app. left. apply clue_clauses_In.
      exists r, c. auto. }
    apply clause_sat_pos in Hc.
    + destruct Hc as (x & [<- | []] & Hx). exact Hx.
    + intros x [<- | []]. split; [reflexivity |].
      destruct Hg as (A & B).
      cbn [Encoder.row Encoder.col Encoder.val].
      apply var_of_pos; lia.
Qed.

(** Every solution of the puzzle that gives a value to every variable is a
    model of the clauses. *)
Lemma to_cnf_complete (grid : list (list Z)) (cls : list (list Z)) (nv : Z)
    (m : gmap Z bool) :
  well_formed_grid grid -> Encoder.to_cnf grid = Done (cls, nv) ->
  decides (Z.of_nat (length grid)) m ->
  solves grid (Z.of_nat (length grid)) (Z.sqrt (Z.of_nat (length grid))) m ->
  all_sat m cls.
Proof.
  intros Hwf E Hdec (H1 & H2 & H3 & H4 & H5 & H6).
  pose proof (to_cnf_clauses grid (well_formed_lines_long grid Hwf)) as E'.
  cbv zeta in E'. rewrite E' in E. inversion E as [[Hcls Hnv]]. clear E E'.
  set (s0 := Encoder.__init__ grid) in *.
  set (n := Z.of_nat (length grid)) in *.
  assert (HN : Encoder.N s0 = n) by reflexivity.
  assert (Hn : 0 <= Encoder.N s0) by (rewrite HN; unfold n; lia).
  intros c Hc. apply in_map_iff in Hc. destruct Hc as (vs & <- & Hvs).
  rewrite !in_app_iff in Hvs.
  destruct Hvs as [Hvs | [Hvs | [Hvs | [Hvs | [Hvs | Hvs]]]]].
  - apply clue_clauses_In in Hvs.
    destruct Hvs as (r & c & Hg & Hz & ->).
    pose proof (grid_cell_range grid r c Hwf Hg) as Hv.
    apply (clause_sat_pos_intro s0 m _
             (Encoder.mkVariable r c (grid_cell grid r c) false));
      [now left | reflexivity | | now apply H6].
    destruct Hg as (A & B). cbn [Encoder.row Encoder.col Encoder.val].
    apply var_of_pos; lia.
  - now apply (rule1_complete s0 m Hn Hdec).
  - now apply (rule2_complete s0 m Hn Hdec).
  - now apply (rule3_complete s0 m Hn Hdec).
  - now apply (rule4_complete s0 m Hn Hdec).
  - now apply (rule5_complete s0 m Hn Hdec).
Qed.

Lemma lit_trueb_spec (a : gmap Z bool) (l : Z) :
  lit_trueb a l = true <-> lit_true a l.
Proof.
  unfold lit_trueb, lit_true. destruct (a !! Z.abs l) as [b |].
  - rewrite eqb_true_iff. split; congruence.
  - split; discriminate.
Qed.

Lemma all_satb_spec (a : gmap Z bool) (cls : list (list Z)) :
  all_satb a cls = true <-> all_sat a cls.
Proof.
  unfold all_satb, all_sat. rewrite forallb_forall.
  split; intros H c Hc; specialize (H c Hc).
  - apply existsb_exists in H. destruct H as (l & Hl & Ht).
    exists l. split; [exact Hl | now apply lit_trueb_spec].
  - destruct H as (l & Hl & Ht). apply existsb_exists.
    exists l. split; [exact Hl | now apply lit_trueb_spec].
Qed.

Lemma decidesb_spec (n : Z) (a : gmap Z bool) :
  0 <= n -> decidesb n a = true -> decides n a.
Proof.
  intros Hn H r c v (Hr & Hc) Hv. unfold decidesb in H.
  rewrite forallb_forall in H.
  specialize (H (var_of n r c v)).
  destruct (a !! var_of n r c v); [discriminate |].
  assert (Hin : In (var_of n r c v) (range 1 (n * n * n + 1))).
  { apply In_range. unfold var_of.
    assert (0 <= r * n * n <= (n - 1) * n * n) by nia.
    assert (0 <= c * n <= (n - 1) * n) by nia. lia. }
  apply H in Hin. discriminate.
Qed.

Lemma nonconsecutive_puzzle_well_formed :
  well_formed_grid nonconsecutive_puzzle.
Proof.
  split; [| split].
  - repeat constructor.
  - repeat constructor; simpl; lia.
  - exists 3. simpl. lia.
Qed.

(** The clauses of a well-formed puzzle have exactly the solutions of the
    puzzle as models: every assignment that satisfies the clauses [to_cnf]
    returns describes a grid that obeys the six rules, clues included. *)
Theorem to_cnf_models_are_solutions (grid : list (list Z))
    (cls : list (list Z)) (nv : Z) (m : gmap Z bool) :
  well_formed_grid grid -> Encoder.to_cnf grid = Done (cls, nv) ->
  all_sat m cls ->
  solves grid (Z.of_nat (length grid)) (Z.sqrt (Z.of_nat (length grid))) m.
Proof. apply to_cnf_sound. Qed.

Lemma to_cnf_models_are_solutions_witness :
  well_formed_grid nonconsecutive_puzzle
  /\ Encoder.to_cnf nonconsecutive_puzzle
     = Done (cnf_of nonconsecutive_puzzle, 729)
  /\ all_sat (assignment_of_grid nonconsecutive_solution)
             (cnf_of nonconsecutive_puzzle)
  /\ solves nonconsecutive_puzzle 9 3
            (assignment_of_grid nonconsecutive_solution).
Proof.
  assert (H1 : Encoder.to_cnf nonconsecutive_puzzle
               = Done (cnf_of nonconsecutive_puzzle, 729))
    by (vm_compute; reflexivity).
  assert (H2 : all_sat (assignment_of_grid nonconsecutive_solution)
                       (cnf_of nonconsecutive_puzzle))
    by (apply all_satb_spec; vm_compute; reflexivity).
  split; [exact nonconsecutive_puzzle_well_formed |].
  split; [exact H1 |]. split; [exact H2 |].
  exact (to_cnf_models_are_solutions nonconsecutive_puzzle _ 729 _
           nonconsecutive_puzzle_well_formed H1 H2).
Defined.

(** Conversely, every solution of a well-formed puzzle that gives a value
    to each of the [N^3] variables satisfies all the clauses [to_cnf]
    returns: the encoding excludes no solution. *)
Theorem to_cnf_solutions_are_models (grid : list (list Z))
    (cls : list (list Z)) (nv : Z) (m : gmap Z bool) :
  well_formed_grid grid -> Encoder.to_cnf grid = Done (cls, nv) ->
  decides (Z.of_nat (length grid)) m ->
  solves grid (Z.of_nat (length grid)) (Z.sqrt (Z.of_nat (length grid))) m ->
  all_sat m cls.
Proof. apply to_cnf_complete. Qed.

Lemma to_cnf_solutions_are_models_witness :
  well_formed_grid nonconsecutive_puzzle
  /\ Encoder.to_cnf nonconsecutive_puzzle
     = Done (cnf_of nonconsecutive_puzzle, 729)
  /\ decides 9 (assignment_of_grid nonconsecutive_solution)
  /\ solves nonconsecutive_puzzle 9 3
            (assignment_of_grid nonconsecutive_solution)
  /\ all_sat (assignment_of_grid nonconsecutive_solution)
             (cnf_of nonconsecutive_puzzle).
Proof.
  assert (H1 : Encoder.to_cnf nonconsecutive_puzzle
               = Done (cnf_of nonconsecutive_puzzle, 729))
    by (vm_compute; reflexivity).
  assert (H2 : decides 9 (assignment_of_grid nonconsecutive_solution))
    by (apply decidesb_spec; [lia | vm_compute; reflexivity]).
  assert (H3 : solves nonconsecutive_puzzle 9 3
                 (assignment_of_grid nonconsecutive_solution)).
  { apply (to_cnf_sound nonconsecutive_puzzle _ 729 _
             nonconsecutive_puzzle_well_formed H1).
    apply all_satb_spec. vm_compute. reflexivity. }
  split; [exact nonconsecutive_puzzle_well_formed |].
  split; [exact H1 |]. split; [exact H2 |]. split; [exact H3 |].
  exact (to_cnf_solutions_are_models nonconsecutive_puzzle _ 729 _
           nonconsecutive_puzzle_well_formed H1 H2 H3).
Defined.

(** ** The encoder and the solvers together *)

Lemma list_to_map_lookup_In (l : list (Z * bool)) (k : Z) (v : bool) :
  List.NoDup (map fst l) -> In (k, v) l ->
  (list_to_map l : gmap Z bool) !! k = Some v.
Proof.
  induction l as [| [k' v'] l IH]; intros Hnd Hin; [destruct Hin |].
  simpl in Hnd. inversion Hnd as [| ? ? Hk' Hnd']; subst.
  simpl. destruct Hin as [E | Hin].
  - inversion E; subst. apply lookup_insert_eq.
  - assert (k' <> k).
    { intros ->. apply Hk'. apply in_map_iff. now exists (k, v). }
    rewrite lookup_insert_ne by assumption. now apply IH.
Qed.

(** Read back as an assignment, the model of [a] gives each of the
    variables [1 .. num_vars] the value [a] gives it, and false where [a]
    gives none. *)
Lemma assignment_of_model_of (num_vars : Z) (a : gmap Z bool) (x : Z) :
  1 <= x <= num_vars ->
  assignment_of_model (model_of num_vars a) !! x
  = Some (match a !! x with Some true => true | _ => false end).
Proof.
  intros Hx. unfold assignment_of_model, model_of. rewrite map_map.
  apply list_to_map_lookup_In.
  - rewrite map_map.
    rewrite (map_ext_in _ (fun v : Z => v)).
    + rewrite map_id. apply NoDup_range.
    + intros v Hv. apply In_range in Hv. simpl.
      destruct (a !! v) as [[|] |]; lia.
  - apply in_map_iff. exists x. split; [| apply In_range; lia].
    destruct (a !! x) as [[|] |]; f_equal; lia.
Qed.

Lemma lit_true_model (num_vars : Z) (a : gmap Z bool) (l : Z) :
  1 <= Z.abs l <= num_vars -> lit_true a l ->
  lit_true (assignment_of_model (model_of num_vars a)) l.
Proof.
  intros Hl Ht. unfold lit_true in *.
  rewrite assignment_of_model_of by exact Hl. rewrite Ht.
  now destruct (0 <? l).
Qed.

Lemma all_sat_model (num_vars : Z) (a : gmap Z bool)
    (cls : list (list Z)) :
  well_formed_cnf cls num_vars -> all_sat a cls ->
  all_sat (assignment_of_model (model_of num_vars a)) cls.
Proof.
  intros Hwf Hsat c Hc. destruct (Hsat c Hc) as (l & Hl & Ht).
  exists l. split; [exact Hl |].
  apply lit_true_model; [now apply (Hwf c) | exact Ht].
Qed.

Lemma var_of_range (n r c v : Z) :
  in_grid n r c -> 1 <= v <= n -> 1 <= var_of n r c v <= n ^ 3.
Proof.
  intros (Hr & Hc) Hv. unfold var_of.
  replace (n ^ 3) with (n * n * n) by ring.
  assert (0 <= r * n * n <= (n - 1) * n * n) by nia.
  assert (0 <= c * n <= (n - 1) * n) by nia. lia.
Qed.

Lemma cell_has_model (n : Z) (a : gmap Z bool) (r c v : Z) :
  in_grid n r c -> 1 <= v <= n ->
  (cell_has a n r c v
   <-> cell_has (assignment_of_model (model_of (n ^ 3) a)) n r c v).
Proof.
  intros Hg Hv. unfold cell_has.
  rewrite assignment_of_model_of by now apply var_of_range.
  destruct (a !! var_of n r c v) as [[|] |]; split; congruence.
Qed.

Lemma decides_model (n : Z) (a : gmap Z bool) :
  decides n (assignment_of_model (model_of (n ^ 3) a)).
Proof.
  intros r c v Hg Hv.
  rewrite assignment_of_model_of by now apply var_of_range.
  discriminate.
Qed.

(** Whether an assignment solves a puzzle depends only on the variables it
    makes true among those of the grid. *)
Lemma solves_ext (grid : list (list Z)) (n k : Z) (a a' : gmap Z bool) :
  0 <= k -> k * k <= n ->
  (forall r c, in_grid n r c -> 0 <= grid_cell grid r c <= n) ->
  (forall r c v, in_grid n r c -> 1 <= v <= n ->
     (cell_has a n r c v <-> cell_has a' n r c v)) ->
  solves grid n k a -> solves grid n k a'.
Proof.
  intros Hk Hkn Hgrid Hext (H1 & H2 & H3 & H4 & H5 & H6).
  assert (Hbox : forall br bc r c, 0 <= br < k -> 0 <= bc < k ->
            in_box k br bc r c -> in_grid n r c).
  { intros br bc r c Hbr Hbc Hin. unfold in_box, in_grid in *. nia. }
  unfold solves. repeat split.
  - intros r c Hg. destruct (H1 r c Hg) as (v & Hv & Hc & Hu).
    exists v. split; [exact Hv |]. split; [now apply Hext |].
    intros v' Hv' Hc'. apply Hu; [exact Hv' | now apply Hext].
  - intros r v Hr Hv. destruct (H2 r v Hr Hv) as (c & Hc & Hcell & Hu).
    exists c. split; [exact Hc |].
    split; [apply Hext; [split; lia | lia | exact Hcell] |].
    intros c' Hc' Hcell'. apply Hu; [exact Hc' |].
    apply Hext; [split; lia | lia | exact Hcell'].
  - intros c v Hc Hv. destruct (H3 c v Hc Hv) as (r & Hr & Hcell & Hu).
    exists r. split; [exact Hr |].
    split; [apply Hext; [split; lia | lia | exact Hcell] |].
    intros r' Hr' Hcell'. apply Hu; [exact Hr' |].
    apply Hext; [split; lia | lia | exact Hcell'].
  - intros br bc v Hbr Hbc Hv.
    destruct (H4 br bc v Hbr Hbc Hv) as (r & c & Hin & Hcell & Hu).
    exists r, c. split; [exact Hin |].
    split; [apply Hext; [now apply (Hbox br bc) | lia | exact Hcell] |].
    intros r' c' Hin' Hcell'. apply Hu; [exact Hin' |].
    apply Hext; [now apply (Hbox br bc) | lia | exact Hcell'].
  - intros r c r' c' v v' Hg Hg' Hadj Hv Hv' Hcons (C1 & C2).
    apply (H5 r c r' c' v v' Hg Hg' Hadj Hv Hv' Hcons).
    split; now apply Hext.
  - intros r c Hg Hz. apply Hext; [exact Hg | | now apply H6].
    specialize (Hgrid r c Hg). lia.
Qed.

(** What a "SAT" of the base solver holds: the model serialises an
    assignment that satisfies every clause. *)
Lemma base_solve_sat (iter_order : list Z -> list Z)
    (clauses : list (list Z)) (num_vars : Z) (model : list Z)
    (m : SolverMetrics) :
  nonzero_lits clauses ->
  returns (run iter_order "base" clauses num_vars)
          ("SAT"%string, Some model, m) ->
  exists a : gmap Z bool,
    model = model_of num_vars a /\ all_sat a clauses.
Proof.
  intros Hnz [fuel E].
  unfold run in E. simpl in E.
  destruct (BaseDPLL.solve fuel (BaseDPLL.__init__ clauses num_vars))
    as [[r s2] | e |] eqn:Es; try discriminate.
  inversion E; subst r m. clear E.
  unfold BaseDPLL.solve, bind, BaseDPLL.set_metrics, modify, get in Es.
  simpl in Es.
  match type of Es with
  | match ?d with _ => _ end = _ =>
      destruct d as [[[|] s1] | e |] eqn:Ed; try discriminate
  end.
  unfold ret in Es. inversion Es; subst model s2. clear Es.
  pose proof (dpll_num_vars _ _ _ _ _ _ Ed) as Hn. simpl in Hn.
  rewrite Hn.
  apply dpll_sound in Ed.
  - destruct Ed as (_ & Hsat). eexists. split; [reflexivity | exact Hsat].
  - intros c' l' _ _. apply lookup_empty.
  - exact Hnz.
Qed.

Lemma to_cnf_well_formed (grid : list (list Z)) (cls : list (list Z))
    (nv : Z) :
  well_formed_grid grid -> Encoder.to_cnf grid = Done (cls, nv) ->
  nv = Z.of_nat (length grid) ^ 3 /\ well_formed_cnf cls nv.
Proof.
  intros Hwf E.
  destruct (to_cnf_ok grid (well_formed_lines_long grid Hwf))
    as (cls' & E' & Hcls).
  rewrite E' in E. inversion E; subst. split; [reflexivity |].
  destruct Hwf as (_ & Hvals & _). specialize (Hcls Hvals).
  intros c l Hc Hl. rewrite List.Forall_forall in Hcls.
  specialize (Hcls c Hc). rewrite List.Forall_forall in Hcls.
  now apply Hcls.
Qed.

Lemma well_formed_nonzero (cls : list (list Z)) (nv : Z) :
  well_formed_cnf cls nv -> nonzero_lits cls.
Proof. intros H c l Hc Hl. specialize (H c l Hc Hl). lia. Qed.

(** Encoding a well-formed puzzle and solving the clauses with the base
    solver solves the puzzle: a model returned with "SAT" describes a grid
    that obeys the rules of the non-consecutive sudoku and holds the
    clues. *)
Theorem base_sat_solves_puzzle (iter_order : list Z -> list Z)
    (grid : list (list Z)) (cls : list (list Z)) (nv : Z)
    (model : list Z) (m : SolverMetrics) :
  well_formed_grid grid -> Encoder.to_cnf grid = Done (cls, nv) ->
  returns (run iter_order "base" cls nv) ("SAT"%string, Some model, m) ->
  solves grid (Z.of_nat (length grid)) (Z.sqrt (Z.of_nat (length grid)))
         (assignment_of_model model).
Proof.
  intros Hwf E Hret.
  destruct (to_cnf_well_formed grid cls nv Hwf E) as (Hnv & Hcnf).
  destruct (base_solve_sat iter_order cls nv model m
              (well_formed_nonzero cls nv Hcnf) Hret) as (a & -> & Hsat).
  apply (to_cnf_sound grid cls nv _ Hwf E).
  now apply all_sat_model.
Qed.

Lemma base_sat_solves_puzzle_witness :
  well_formed_grid nonconsecutive_puzzle
  /\ Encoder.to_cnf nonconsecutive_puzzle
     = Done (cnf_of nonconsecutive_puzzle, 729)
  /\ returns (run insertion_order "base" (cnf_of nonconsecutive_puzzle) 729)
       ("SAT"%string,
        Some (model_of 729 (assignment_of_grid nonconsecutive_solution)),
        mkMetrics 0 0 729 0)
  /\ solves nonconsecutive_puzzle 9 3
       (assignment_of_model
          (model_of 729 (assignment_of_grid nonconsecutive_solution))).
Proof.
  assert (H1 : Encoder.to_cnf nonconsecutive_puzzle
               = Done (cnf_of nonconsecutive_puzzle, 729))
    by (vm_compute; reflexivity).
  assert (H2 : returns
                 (run insertion_order "base"
                      (cnf_of nonconsecutive_puzzle) 729)
                 ("SAT"%string,
                  Some (model_of 729
                          (assignment_of_grid nonconsecutive_solution)),
                  mkMetrics 0 0 729 0))
    by (exists 2000%nat; vm_compute; reflexivity).
  split; [exact nonconsecutive_puzzle_well_formed |].
  split; [exact H1 |]. split; [exact H2 |].
  exact (base_sat_solves_puzzle insertion_order nonconsecutive_puzzle _ 729
           _ _ nonconsecutive_puzzle_well_formed H1 H2).
Defined.

Lemma empty_puzzle_4_well_formed : well_formed_grid empty_puzzle_4.
Proof.
  split; [| split].
  - repeat constructor.
  - repeat constructor; simpl; lia.
  - exists 2. simpl. lia.
Qed.

(** When the base or the watched solver answers "UNSAT" on the clauses of
    a well-formed puzzle, the puzzle has no solution: no assignment
    describes a grid that obeys the rules and holds the clues. *)
Theorem unsat_puzzle_has_no_solution (iter_order : list Z -> list Z)
    (variant : string) (grid : list (list Z)) (cls : list (list Z))
    (nv : Z) (m : SolverMetrics) :
  In variant ["base"%string; "watched"%string] ->
  well_formed_grid grid -> Encoder.to_cnf grid = Done (cls, nv) ->
  returns (run iter_order variant cls nv) ("UNSAT"%string, None, m) ->
  forall a : gmap Z bool,
    ~ solves grid (Z.of_nat (length grid))
             (Z.sqrt (Z.of_nat (length grid))) a.
Proof.
  intros Hvar Hwf E Hret a Hsol.
  destruct (to_cnf_well_formed grid cls nv Hwf E) as (Hnv & Hcnf).
  set (n := Z.of_nat (length grid)) in *.
  assert (Hn : 0 <= n) by (unfold n; lia).
  set (a' := assignment_of_model (model_of (n ^ 3) a)).
  assert (Hsol' : solves grid n (Z.sqrt n) a').
  { apply (solves_ext grid n (Z.sqrt n) a a').
    - apply Z.sqrt_nonneg.
    - pose proof (Z.sqrt_spec n Hn) as H. cbv zeta in H. lia.
    - intros r c Hg. now apply grid_cell_range.
    - intros r c v Hg Hv. now apply cell_has_model.
    - exact Hsol. }
  assert (Hsat : all_sat a' cls).
  { apply (to_cnf_complete grid cls nv a' Hwf E); [| exact Hsol'].
    apply decides_model. }
  destruct Hvar as [<- | [<- | []]].
  - apply (base_refutes iter_order cls nv m
             (well_formed_nonzero cls nv Hcnf) Hret a' Hsat).
  - apply (watched_refutes iter_order cls nv m Hret a' Hsat).
Qed.

Lemma unsat_puzzle_has_no_solution_witness :
  In "base"%string ["base"%string; "watched"%string]
  /\ well_formed_grid empty_puzzle_4
  /\ Encoder.to_cnf empty_puzzle_4 = Done (cnf_of empty_puzzle_4, 64)
  /\ returns (run insertion_order "base" (cnf_of empty_puzzle_4) 64)
       ("UNSAT"%string, None, mkMetrics 13 13 214 14)
  /\ forall a : gmap Z bool, ~ solves empty_puzzle_4 4 2 a.
Proof.
  assert (H0 : In "base"%string ["base"%string; "watched"%string])
    by (left; reflexivity).
  assert (H1 : Encoder.to_cnf empty_puzzle_4
               = Done (cnf_of empty_puzzle_4, 64))
    by (vm_compute; reflexivity).
  assert (H2 : returns
                 (run insertion_order "base" (cnf_of empty_puzzle_4) 64)
                 ("UNSAT"%string, None, mkMetrics 13 13 214 14))
    by (exists 2000%nat; vm_compute; reflexivity).
  split; [exact H0 |]. split; [exact empty_puzzle_4_well_formed |].
  split; [exact H1 |]. split; [exact H2 |].
  exact (unsat_puzzle_has_no_solution insertion_order "base" empty_puzzle_4
           _ 64 _ H0 empty_puzzle_4_well_formed H1 H2).
Defined.

(** ** The numbering of the variables *)

Lemma var_of_injective (n r1 c1 v1 r2 c2 v2 : Z) :
  0 <= c1 < n -> 1 <= v1 <= n -> 0 <= c2 < n -> 1 <= v2 <= n ->
  var_of n r1 c1 v1 = var_of n r2 c2 v2 ->
  r1 = r2 /\ c1 = c2 /\ v1 = v2.
Proof.
  unfold var_of. intros Hc1 Hv1 Hc2 Hv2 E.
  assert (Hn : 0 < n) by lia.
  assert (E1 : (r1 * n + c1) * n + (v1 - 1) = (r2 * n + c2) * n + (v2 - 1))
    by lia.
  assert (Hq : r1 * n + c1 = r2 * n + c2 /\ v1 - 1 = v2 - 1).
  { apply (Z.div_mod_unique n); lia. }
  destruct Hq as (E2 & E3).
  assert (Hq : r1 = r2 /\ c1 = c2).
  { apply (Z.div_mod_unique n); lia. }
  lia.
Qed.

(** [map_variable] numbers the variables without collision and without
    gap: two distinct variables of the grid (rows and columns in
    [0, N-1], values in [1, N], either sign) never get the same literal,
    and every literal [l] with [1 <= |l| <= N^3] is the number of one. *)
Theorem map_variable_bijective (self : Encoder.SATSolver) :
  (forall v1 v2, var_ok (Encoder.N self) v1 -> var_ok (Encoder.N self) v2 ->
     Encoder.map_variable self v1 = Encoder.map_variable self v2 ->
     v1 = v2)
  /\ (forall l, 1 <= Z.abs l <= Encoder.N self ^ 3 ->
        exists v, var_ok (Encoder.N self) v
                  /\ Encoder.map_variable self v = l).
Proof.
  set (n := Encoder.N self). split.
  - intros [r1 c1 x1 b1] [r2 c2 x2 b2] (Hr1 & Hc1 & Hv1) (Hr2 & Hc2 & Hv2) E.
    simpl in *. unfold Encoder.map_variable in E. simpl in E. fold n in E.
    assert (P1 : 0 < var_of n r1 c1 x1) by (apply var_of_pos; lia).
    assert (P2 : 0 < var_of n r2 c2 x2) by (apply var_of_pos; lia).
    unfold var_of in P1, P2.
    assert (Hb : b1 = b2) by (destruct b1, b2; simpl in E; lia || reflexivity).
    subst b2.
    assert (E' : var_of n r1 c1 x1 = var_of n r2 c2 x2)
      by (unfold var_of; destruct b1; simpl in E; lia).
    apply var_of_injective in E'; try lia.
    destruct E' as (-> & -> & ->). reflexivity.
  - intros l Hl.
    assert (Hn : 0 < n).
    { destruct (Z.lt_trichotomy n 0) as [H | [H | H]]; [| | exact H].
      - assert (n ^ 3 < 0); [| lia].
        replace (n ^ 3) with (n * n * n) by ring. nia.
      - rewrite H in Hl. simpl in Hl. lia. }
    replace (n ^ 3) with (n * n * n) in Hl by ring.
    set (x := Z.abs l - 1).
    assert (Hx : 0 <= x < n * n * n) by (unfold x; lia).
    exists (Encoder.mkVariable (x / n / n) (x / n mod n) (x mod n + 1)
                               (l <? 0)).
    pose proof (Z.mod_pos_bound x n Hn) as M1.
    pose proof (Z.mod_pos_bound (x / n) n Hn) as M2.
    pose proof (Z.div_mod x n ltac:(lia)) as D1.
    pose proof (Z.div_mod (x / n) n ltac:(lia)) as D2.
    assert (Q1 : 0 <= x / n < n * n).
    { split; [apply Z.div_pos; lia |].
      apply Z.div_lt_upper_bound; lia. }
    assert (Q2 : 0 <= x / n / n < n).
    { split; [apply Z.div_pos; lia |].
      apply Z.div_lt_upper_bound; lia. }
    split.
    + unfold var_ok. simpl. fold n. lia.
    + unfold Encoder.map_variable. simpl. fold n.
      assert (E : x / n / n * n * n + x / n mod n * n + (x mod n + 1)
                  = Z.abs l) by (unfold x in *; nia).
      rewrite E. destruct (l <? 0) eqn:S; simpl.
      * apply Z.ltb_lt in S. lia.
      * apply Z.ltb_ge in S. lia.
Qed.

(** ** The helper [remove_index] *)

(** [remove_index] raises [IndexError] exactly when the index is negative
    or not below the length; otherwise the result is one element shorter,
    agrees with the list before the index, and holds from the index on the
    element one position further in the list. *)
Theorem remove_index_spec {A : Type} (lst : list A) (index : Z) :
  (remove_index lst index = inl IndexError
   <-> index < 0 \/ Z.of_nat (length lst) <= index)
  /\ forall res, remove_index lst index = inr res ->
       S (length res) = length lst
       /\ forall i : nat,
            res !! i
            = if (Z.of_nat i <? index) then lst !! i else lst !! S i.
Proof.
  unfold remove_index.
  destruct ((index <? 0) || (Z.of_nat (length lst) <=? index)) eqn:E.
  - apply orb_true_iff in E. rewrite Z.ltb_lt, Z.leb_le in E.
    split; [tauto | discriminate].
  - apply orb_false_iff in E. rewrite Z.ltb_ge, Z.leb_gt in E.
    split; [split; [discriminate | lia] |].
    intros res H. inversion H; subst res. clear H.
    replace (Z.to_nat (index + 1)) with (S (Z.to_nat index)) by lia.
    set (k := Z.to_nat index).
    assert (Hk : (k < length lst)%nat) by lia.
    split.
    + rewrite length_app, length_firstn, length_skipn. lia.
    + intros i. destruct (Z.of_nat i <? index) eqn:Ei.
      * apply Z.ltb_lt in Ei.
        rewrite lookup_app_l by (rewrite length_firstn; lia).
        rewrite lookup_take. destruct (decide (i < k)%nat); [reflexivity | lia].
      * apply Z.ltb_ge in Ei.
        rewrite lookup_app_r by (rewrite length_firstn; lia).
        rewrite length_firstn.
        replace (Nat.min k (length lst)) with k by lia.
        change (skipn (S k) lst) with (drop (S k) lst).
        rewrite lookup_drop. f_equal. lia.
Qed.

(** ** The tasks of an experiment *)

Lemma fold_left_app_flat_map {A B : Type} (f : A -> list B) (l : list A) :
  forall acc, fold_left (fun acc x => acc ++ f x) l acc = acc ++ flat_map f l.
Proof.
  induction l as [| x l IH]; intros acc; simpl.
  - now rewrite app_nil_r.
  - rewrite IH. now rewrite <- app_assoc.
Qed.

Lemma flat_map_single {A B : Type} (f : A -> B) (l : list A) :
  flat_map (fun x => [f x]) l = map f l.
Proof. induction l as [| x l IH]; simpl; [reflexivity | now rewrite IH]. Qed.

Lemma length_range (lo hi : Z) : length (range lo hi) = Z.to_nat (hi - lo).
Proof. unfold range. now rewrite length_map, length_seq. Qed.

Section Tasks.

Variable path_join : string -> string -> string.
Variable str : Z -> string.
Variable config : ExperimentRunner.ExperimentConfig.

Lemma append_tasks_spec (id : Z) (path : string) (size : Z)
    (status : string) (limit : Z) (tasks : list ExperimentRunner.task) :
  ExperimentRunner.append_tasks config id path size status limit tasks
  = tasks
    ++ flat_map (fun variant =>
         map (fun repetition =>
                ExperimentRunner.mkTask id path variant repetition status
                  size limit)
             (range 1 (ExperimentRunner.num_repetitions config + 1)))
         (ExperimentRunner.variants config).
Proof.
  unfold ExperimentRunner.append_tasks. revert tasks.
  induction (ExperimentRunner.variants config) as [| v vs IH];
    intros tasks; simpl.
  - now rewrite app_nil_r.
  - rewrite IH.
    rewrite (fold_left_app_flat_map
               (fun repetition =>
                  [ExperimentRunner.mkTask id path v repetition status size
                     limit])).
    rewrite flat_map_single. now rewrite <- app_assoc.
Qed.

(** When every size is known, the tasks are those of the puzzles, in the
    order of the manifest. *)
Lemma generate_tasks_for_known (items : list (Z * (Z * string))) :
  forall tasks,
    Forall (fun item => known_size (fst (snd item))) items ->
    exists limits,
      length limits = length items
      /\ Forall2 (fun item limit =>
                    ExperimentRunner.get_timeout_for_size
                      (fst (snd item)) config = inr limit)
                 items limits
      /\ ExperimentRunner.generate_experiment_tasks_for path_join str
           config items tasks
         = inr (tasks
                ++ concat (map (fun il => tasks_of path_join str config (fst il) (snd il))
                               (combine items limits))).
Proof.
  induction items as [| [id [size status]] items IH]; intros tasks Hk.
  - exists []. simpl. rewrite app_nil_r. repeat split. constructor.
  - inversion Hk as [| ? ? Hsize Hrest]; subst. simpl in Hsize.
    simpl.
    assert (Hto : exists limit,
              ExperimentRunner.get_timeout_for_size size config
              = inr limit).
    { unfold ExperimentRunner.get_timeout_for_size.
      destruct Hsize as [-> | [-> | ->]]; simpl; eexists; reflexivity. }
    destruct Hto as (limit & Hto). rewrite Hto.
    destruct (IH (ExperimentRunner.append_tasks config id
                    (path_join (ExperimentRunner.puzzle_dir config)
                       ("puzzle" ++ str id ++ ".txt")%string)
                    size status limit tasks) Hrest)
      as (limits & Hlen & Hall & E).
    exists (limit :: limits). split; [simpl; lia |].
    split; [constructor; assumption |].
    rewrite E. rewrite append_tasks_spec. simpl.
    unfold tasks_of at 2. simpl. now rewrite <- app_assoc.
Qed.

Lemma generate_tasks_for_unknown (items : list (Z * (Z * string))) :
  forall tasks,
    Exists (fun item => ~ known_size (fst (snd item))) items ->
    ExperimentRunner.generate_experiment_tasks_for path_join str config
      items tasks = inl ValueError.
Proof.
  induction items as [| [id [size status]] items IH]; intros tasks Hex.
  - inversion Hex.
  - simpl. unfold ExperimentRunner.get_timeout_for_size.
    destruct (size =? 9) eqn:E9;
      [| destruct (size =? 16) eqn:E16;
         [| destruct (size =? 25) eqn:E25]];
      try (apply IH; inversion Hex as [? ? Hn | ? ? Hrest]; subst;
           [| exact Hrest]; exfalso; apply Hn; simpl; unfold known_size;
           rewrite ?Z.eqb_eq in *; lia).
    reflexivity.
Qed.

Lemma length_tasks_of (item : Z * (Z * string)) (limit : Z) :
  length (tasks_of path_join str config item limit)
  = (length (ExperimentRunner.variants config)
     * Z.to_nat (ExperimentRunner.num_repetitions config))%nat.
Proof.
  unfold tasks_of.
  induction (ExperimentRunner.variants config) as [| v vs IH]; simpl.
  - reflexivity.
  - rewrite length_app, IH, length_map, length_range. f_equal. lia.
Qed.

Lemma known_size_dec (size : Z) : {known_size size} + {~ known_size size}.
Proof.
  unfold known_size.
  destruct (Z.eq_dec size 9); [left; tauto |].
  destruct (Z.eq_dec size 16); [left; tauto |].
  destruct (Z.eq_dec size 25); [left; tauto |].
  right. lia.
Qed.

Lemma length_concat_tasks (ils : list ((Z * (Z * string)) * Z)) :
  length (concat (map (fun il => tasks_of path_join str config
                                   (fst il) (snd il)) ils))
  = (length ils * (length (ExperimentRunner.variants config)
                   * Z.to_nat (ExperimentRunner.num_repetitions config)))%nat.
Proof.
  induction ils as [| il ils IH]; simpl; [reflexivity |].
  now rewrite length_app, length_tasks_of, IH.
Qed.

Lemma In_tasks_of (item : Z * (Z * string)) (limit : Z)
    (t : ExperimentRunner.task) :
  In t (tasks_of path_join str config item limit)
  <-> ExperimentRunner.puzzle_id t = fst item
      /\ ExperimentRunner.puzzle_size t = fst (snd item)
      /\ ExperimentRunner.expected_status t = snd (snd item)
      /\ ExperimentRunner.timeout t = limit
      /\ ExperimentRunner.puzzle_path t
         = path_join (ExperimentRunner.puzzle_dir config)
                     ("puzzle" ++ str (fst item) ++ ".txt")%string
      /\ In (ExperimentRunner.variant t) (ExperimentRunner.variants config)
      /\ 1 <= ExperimentRunner.repetition t
           <= ExperimentRunner.num_repetitions config.
Proof.
  unfold tasks_of. rewrite in_flat_map. split.
  - intros (v & Hv & H). apply in_map_iff in H.
    destruct H as (rep & <- & Hrep). apply In_range in Hrep. simpl.
    repeat split; auto; lia.
  - intros (E1 & E2 & E3 & E4 & E5 & Hv & Hrep).
    exists (ExperimentRunner.variant t). split; [exact Hv |].
    apply in_map_iff. exists (ExperimentRunner.repetition t).
    split; [| apply In_range; lia].
    destruct t. simpl in *. congruence.
Qed.

Lemma Forall2_combine_In {A B : Type} (R : A -> B -> Prop) (l : list A)
    (l' : list B) :
  Forall2 R l l' ->
  (forall x y, In (x, y) (combine l l') -> R x y)
  /\ (forall x, In x l -> exists y, In (x, y) (combine l l')).
Proof.
  induction 1 as [| x y l l' Hxy Hall (IH1 & IH2)]; simpl.
  - split; [intros x y [] | intros x []].
  - split.
    + intros x0 y0 [E | Hin]; [inversion E; now subst | now apply IH1].
    + intros x0 [<- | Hin]; [exists y; now left |].
      destruct (IH2 x0 Hin) as (y0 & Hy0). exists y0. now right.
Qed.

Lemma generate_tasks_spec (manifest : list (Z * (Z * string))) :
  (ExperimentRunner.generate_experiment_tasks path_join str config manifest
   = inl ValueError
   <-> exists id size status,
         In (id, (size, status)) manifest /\ ~ known_size size)
  /\ forall tasks,
       ExperimentRunner.generate_experiment_tasks path_join str config
         manifest = inr tasks ->
       length tasks
       = (length manifest * length (ExperimentRunner.variants config)
          * Z.to_nat (ExperimentRunner.num_repetitions config))%nat
       /\ forall t,
            In t tasks
            <-> In (ExperimentRunner.puzzle_id t,
                    (ExperimentRunner.puzzle_size t,
                     ExperimentRunner.expected_status t)) manifest
                /\ ExperimentRunner.get_timeout_for_size
                     (ExperimentRunner.puzzle_size t) config
                   = inr (ExperimentRunner.timeout t)
                /\ ExperimentRunner.puzzle_path t
                   = path_join (ExperimentRunner.puzzle_dir config)
                       ("puzzle" ++ str (ExperimentRunner.puzzle_id t)
                        ++ ".txt")%string
                /\ In (ExperimentRunner.variant t)
                      (ExperimentRunner.variants config)
                /\ 1 <= ExperimentRunner.repetition t
                     <= ExperimentRunner.num_repetitions config.
Proof.
  unfold ExperimentRunner.generate_experiment_tasks.
  destruct (List.Forall_Exists_dec
              (fun item : Z * (Z * string) => known_size (fst (snd item)))
              (fun item => known_size_dec (fst (snd item))) manifest)
    as [Hall | Hex].
  - destruct (generate_tasks_for_known manifest [] Hall)
      as (limits & Hlen & Hlim & E).
    rewrite E. simpl.
    destruct (Forall2_combine_In _ _ _ Hlim) as (Hc1 & Hc2).
    split.
    + split; [discriminate |].
      intros (id & size & status & Hin & Hn). exfalso. apply Hn.
      rewrite List.Forall_forall in Hall. apply (Hall _ Hin).
    + intros tasks H. inversion H; subst tasks. clear H. split.
      * rewrite length_concat_tasks, length_combine, Hlen. lia.
      * intros t. rewrite in_concat. split.
        -- intros (ts & Hts & Ht). apply in_map_iff in Hts.
           destruct Hts as ([[id [size status]] limit] & <- & Hil).
           simpl in Ht. apply In_tasks_of in Ht. simpl in Ht.
           destruct Ht as (E1 & E2 & E3 & E4 & E5 & Hv & Hrep).
           pose proof (Hc1 _ _ Hil) as Hto. simpl in Hto.
           rewrite E1, E2, E3, E4.
           split; [eapply in_combine_l; exact Hil |].
           repeat split; auto; lia.
        -- intros (Hin & Hto & Hpath & Hv & Hrep).
           destruct (Hc2 _ Hin) as (limit & Hil).
           pose proof (Hc1 _ _ Hil) as Hto'. simpl in Hto'.
           exists (tasks_of path_join str config
                     (ExperimentRunner.puzzle_id t,
                      (ExperimentRunner.puzzle_size t,
                       ExperimentRunner.expected_status t)) limit).
           split.
           ++ apply in_map_iff. eexists. split; [| exact Hil]. reflexivity.
           ++ apply In_tasks_of. simpl. repeat split; auto; try lia.
              congruence.
  - rewrite (generate_tasks_for_unknown manifest [] Hex). split.
    + split; [| reflexivity]. intros _.
      apply List.Exists_exists in Hex.
      destruct Hex as ([id [size status]] & Hin & Hn).
      exists id, size, status. auto.
    + intros tasks H. discriminate.
Qed.

End Tasks.

(** [generate_experiment_tasks] raises [ValueError] exactly when some
    puzzle of the manifest has a size other than 9, 16 and 25, whatever the
    variants and the number of repetitions.  Otherwise it returns one task
    for every puzzle of the manifest, every variant and every repetition
    from 1 to [num_repetitions], and nothing else: their number is the
    product of the three (no task when [num_repetitions] is not positive),
    and each task carries the size and the expected status of its puzzle,
    the time limit of that size and the path of the puzzle file. *)
Theorem generate_experiment_tasks_spec
    (path_join : string -> string -> string) (str : Z -> string)
    (config : ExperimentRunner.ExperimentConfig)
    (manifest : list (Z * (Z * string))) :
  (ExperimentRunner.generate_experiment_tasks path_join str config manifest
   = inl ValueError
   <-> exists id size status,
         In (id, (size, status)) manifest /\ ~ known_size size)
  /\ forall tasks,
       ExperimentRunner.generate_experiment_tasks path_join str config
         manifest = inr tasks ->
       length tasks
       = (length manifest * length (ExperimentRunner.variants config)
          * Z.to_nat (ExperimentRunner.num_repetitions config))%nat
       /\ forall t,
            In t tasks
            <-> In (ExperimentRunner.puzzle_id t,
                    (ExperimentRunner.puzzle_size t,
                     ExperimentRunner.expected_status t)) manifest
                /\ ExperimentRunner.get_timeout_for_size
                     (ExperimentRunner.puzzle_size t) config
                   = inr (ExperimentRunner.timeout t)
                /\ ExperimentRunner.puzzle_path t
                   = path_join (ExperimentRunner.puzzle_dir config)
                       ("puzzle" ++ str (ExperimentRunner.puzzle_id t)
                        ++ ".txt")%string
                /\ In (ExperimentRunner.variant t)
                      (ExperimentRunner.variants config)
                /\ 1 <= ExperimentRunner.repetition t
                     <= ExperimentRunner.num_repetitions config.
Proof. apply generate_tasks_spec. Qed.
